(** * Adaptive-precision geometric predicates of tRIBS (predicates.cpp)

    A shallow embedding of the [Predicates] class: the error-bound table
    computed by [exactinit], the expansion algebra, the generalized
    difference-of-products predicate, [orient2d] and [incircle].

    [tREAL] is a C [double]; it is modelled as an IEEE-754 binary64 value
    ([spec_float] with a 53-bit significand and exponents below 1024), every
    operation rounding to nearest, ties to even.  C [int]s are [Z]; a
    [tREAL*] argument is a total map from indices to values, so that a call
    takes the caller's buffer and returns the buffer it leaves behind. *)

From Stdlib Require Import ZArith Bool List Lia QArith Lqa.
From Stdlib Require Import Floats.SpecFloat.
Import ListNotations.
Local Open Scope Z_scope.

(** ** The arithmetic of [double] *)

Module Dbl.

Definition prec : Z := 53.
Definition emax : Z := 1024.

Definition tREAL : Type := spec_float.

Definition add : tREAL -> tREAL -> tREAL := SFadd prec emax.
Definition sub : tREAL -> tREAL -> tREAL := SFsub prec emax.
Definition mul : tREAL -> tREAL -> tREAL := SFmul prec emax.
(** C's unary minus.  [spec_float] has one NaN, without a sign: the sign
    bit that the minus of C flips on a NaN is not modelled, and a statement
    about [neg] is one about the results that are not NaN. *)
Definition neg : tREAL -> tREAL := SFopp.

(** C comparisons: every one of them is false on a NaN, except [!=]. *)
Definition lt (a b : tREAL) : bool := SFltb a b.
Definition le (a b : tREAL) : bool := SFleb a b.
Definition gt (a b : tREAL) : bool := SFltb b a.
Definition ge (a b : tREAL) : bool := SFleb b a.
Definition eq (a b : tREAL) : bool := SFeqb a b.
Definition ne (a b : tREAL) : bool := negb (SFeqb a b).

(** The literal of an integer, and of an integer times a power of two. *)
Definition of_Z (z : Z) : tREAL := binary_normalize prec emax z 0 false.
Definition scaled (z e : Z) : tREAL := binary_normalize prec emax z e false.

Definition zero : tREAL := S754_zero false.
Definition half : tREAL := scaled 1 (-1).
Definition one : tREAL := of_Z 1.
Definition two : tREAL := of_Z 2.

Definition is_finite (x : tREAL) : bool :=
  match x with
  | S754_zero _ | S754_finite _ _ _ => true
  | _ => false
  end.

(** The exact value of a finite double.  (Infinities and NaN, which have
    none, are sent to 0; statements about values ask for [is_finite].) *)
Definition pow2 (e : Z) : Q :=
  match e with
  | Z0 => 1%Q
  | Zpos p => inject_Z (Z.pow_pos 2 p)
  | Zneg p => Qmake 1 (Pos.pow 2 p)
  end.

Definition value (x : tREAL) : Q :=
  match x with
  | S754_finite s m e => (inject_Z (cond_Zopp s (Zpos m)) * pow2 e)%Q
  | _ => 0%Q
  end.

End Dbl.

Export Dbl(tREAL).

Declare Scope dbl_scope.
Delimit Scope dbl_scope with dbl.
Bind Scope dbl_scope with Dbl.tREAL.
Infix "+" := Dbl.add : dbl_scope.
Infix "-" := Dbl.sub : dbl_scope.
Infix "*" := Dbl.mul : dbl_scope.
Notation "- x" := (Dbl.neg x) : dbl_scope.
Infix "<?" := Dbl.lt : dbl_scope.
Infix "<=?" := Dbl.le : dbl_scope.
Infix ">?" := Dbl.gt : dbl_scope.
Infix ">=?" := Dbl.ge : dbl_scope.
Infix "==?" := Dbl.eq (at level 70) : dbl_scope.
Infix "!=?" := Dbl.ne (at level 70) : dbl_scope.

(** ** Buffers and loops *)

(** A [tREAL*]: the cells the pointer can reach, by index. *)
Definition buf : Type := Z -> tREAL.

(** [h[i] = v]. *)
Definition upd (h : buf) (i : Z) (v : tREAL) : buf :=
  fun j => if j =? i then v else h j.

(** A buffer holding the given cells from index 0 on. *)
Definition of_list (l : list tREAL) : buf :=
  fun i => if i <? 0 then Dbl.zero else nth (Z.to_nat i) l Dbl.zero.

(** The first [n] cells of a buffer. *)
Fixpoint cells (n : nat) (h : buf) : list tREAL :=
  match n with
  | O => []
  | S n' => cells n' h ++ [h (Z.of_nat n')]
  end.

Definition prefix (len : Z) (h : buf) : list tREAL := cells (Z.to_nat len) h.

Fixpoint for_loop {St : Type} (n : nat) (i : Z) (body : Z -> St -> St)
  (s : St) : Z * St :=
  match n with
  | O => (i, s)
  | S n' => for_loop n' (i + 1) body (body i s)
  end.

(** [for (i = lo; i < hi; i++) body]: the index on exit, and the state. *)
Definition for_range {St : Type} (lo hi : Z) (body : Z -> St -> St)
  (s : St) : Z * St :=
  for_loop (Z.to_nat (hi - lo)) lo body s.

(** [while (cond) body], run for at most [fuel] iterations. *)
Fixpoint while_loop {St : Type} (fuel : nat) (cond : St -> bool)
  (body : St -> St) (s : St) : St :=
  match fuel with
  | O => s
  | S fuel' =>
      if cond s then while_loop fuel' cond body (body s) else s
  end.

(** ** The error-bound table *)

(** The private data members of [Predicates]. *)
Record Predicates : Type := {
  epsilon : tREAL;
  splitter : tREAL;
  resulterrbound : tREAL;
  ccwerrboundA : tREAL; ccwerrboundB : tREAL; ccwerrboundC : tREAL;
  o3derrboundA : tREAL; o3derrboundB : tREAL; o3derrboundC : tREAL;
  iccerrboundA : tREAL; iccerrboundB : tREAL; iccerrboundC : tREAL;
  isperrboundA : tREAL; isperrboundB : tREAL; isperrboundC : tREAL
}.

Local Open Scope dbl_scope.

(** The locals of the [do ... while] loop of [exactinit]. *)
Record init_state : Type := {
  i_epsilon : tREAL;
  i_splitter : tREAL;
  i_check : tREAL;
  i_lastcheck : tREAL;
  i_every_other : Z
}.

(** <<
      lastcheck = check;
      epsilon *= half;
      if (every_other) { splitter *= 2.0; }
      every_other = !every_other;
      check = 1.0 + epsilon;
>> *)
Definition exactinit_body (half : tREAL) (s : init_state) : init_state :=
  let lastcheck := i_check s in
  let epsilon := i_epsilon s * half in
  let splitter :=
    if (i_every_other s =? 0)%Z then i_splitter s
    else i_splitter s * Dbl.two in
  let every_other := if (i_every_other s =? 0)%Z then 1%Z else 0%Z in
  let check := Dbl.one + epsilon in
  {| i_epsilon := epsilon; i_splitter := splitter; i_check := check;
     i_lastcheck := lastcheck; i_every_other := every_other |}.

(** [(check != 1.0) && (check != lastcheck)] *)
Definition exactinit_cond (s : init_state) : bool :=
  (i_check s !=? Dbl.one) && (i_check s !=? i_lastcheck s).

(** Halving 1.0 more than 1075 times gives 0.0, so the loop has left by
    then; [exactinit_loop_exits] below checks that it leaves by its
    condition. *)
Definition exactinit_fuel : nat := 1100.

Definition exactinit_loop : init_state :=
  let half := Dbl.half in
  let s0 := {| i_epsilon := Dbl.one; i_splitter := Dbl.one;
               i_check := Dbl.one; i_lastcheck := Dbl.one;
               i_every_other := 1 |} in
  while_loop exactinit_fuel exactinit_cond (exactinit_body half)
    (exactinit_body half s0).

(** [void Predicates::exactinit()]: the table it leaves in the object. *)
Definition exactinit : Predicates :=
  let s := exactinit_loop in
  let epsilon := i_epsilon s in
  let splitter := i_splitter s + Dbl.one in
  let k := Dbl.of_Z in
  {| epsilon := epsilon;
     splitter := splitter;
     resulterrbound := (k 3 + k 8 * epsilon) * epsilon;
     ccwerrboundA := (k 3 + k 16 * epsilon) * epsilon;
     ccwerrboundB := (k 2 + k 12 * epsilon) * epsilon;
     ccwerrboundC := (k 9 + k 64 * epsilon) * epsilon * epsilon;
     o3derrboundA := (k 7 + k 56 * epsilon) * epsilon;
     o3derrboundB := (k 3 + k 28 * epsilon) * epsilon;
     o3derrboundC := (k 26 + k 288 * epsilon) * epsilon * epsilon;
     iccerrboundA := (k 10 + k 96 * epsilon) * epsilon;
     iccerrboundB := (k 4 + k 48 * epsilon) * epsilon;
     iccerrboundC := (k 44 + k 576 * epsilon) * epsilon * epsilon;
     isperrboundA := (k 16 + k 224 * epsilon) * epsilon;
     isperrboundB := (k 5 + k 72 * epsilon) * epsilon;
     isperrboundC := (k 71 + k 1408 * epsilon) * epsilon * epsilon |}.

(** ** The arithmetic macros of predicates.h

    The header that defines the macros is not among the sources at hand; the
    functions of predicates.cpp only call them and declare their scratch
    variables ([bvirt], [avirt], [bround], [around], [c], [abig], [ahi],
    [alo], [bhi], [blo], [err1], [err2], [err3], [_i], [_j], [_0]). *)

(** Modelled from the spec: the macro [Absolute] of predicates.h, the
    absolute value of a double, as [(a) >= 0.0 ? (a) : -(a)]. *)
Definition Absolute (a : tREAL) : tREAL :=
  if a >=? Dbl.zero then a else - a.

(** Modelled from the spec: the macro [Fast_Two_Sum] of predicates.h
    ("same result, cheaper, valid only when |a| >= |b|"), through the scratch
    variable [bvirt]: the rounded sum [x] and the tail [y]. *)
Definition Fast_Two_Sum (a b : tREAL) : tREAL * tREAL :=
  let x := a + b in
  let bvirt := x - a in
  let y := b - bvirt in
  (x, y).

(** Modelled from the spec: the macro [Two_Sum] of predicates.h ("exact sum
    decomposition for unordered operands", by virtual subtraction), through
    the scratch variables [bvirt], [avirt], [bround], [around]. *)
Definition Two_Sum (a b : tREAL) : tREAL * tREAL :=
  let x := a + b in
  let bvirt := x - a in
  let avirt := x - bvirt in
  let bround := b - bvirt in
  let around := a - avirt in
  let y := around + bround in
  (x, y).

(** Modelled from the spec: the macro [Two_Diff_Tail] of predicates.h ("just
    the tail term when only the correction is needed"): the tail of
    [x = a - b]. *)
Definition Two_Diff_Tail (a b x : tREAL) : tREAL :=
  let bvirt := a - x in
  let avirt := x + bvirt in
  let bround := bvirt - b in
  let around := a - avirt in
  around + bround.

(** Modelled from the spec: the macro [Two_Diff] of predicates.h ("exact
    subtraction decomposition"). *)
Definition Two_Diff (a b : tREAL) : tREAL * tREAL :=
  let x := a - b in
  (x, Two_Diff_Tail a b x).

Section Macros.

(** The macros below read the member [splitter]. *)
Variable P : Predicates.

(** Modelled from the spec: the macro [tSPLIT] of predicates.h ("splits a
    value into two non-overlapping halves whose exact sum is a"), through
    the scratch variables [c] and [abig]: the halves [(ahi, alo)]. *)
Definition tSPLIT (a : tREAL) : tREAL * tREAL :=
  let c := splitter P * a in
  let abig := c - a in
  let ahi := c - abig in
  let alo := a - ahi in
  (ahi, alo).

(** Modelled from the spec: the macro [Two_Product_Presplit] of
    predicates.h ("reuses a pre-split operand across repeated
    multiplications by the same value"), through [err1], [err2], [err3]. *)
Definition Two_Product_Presplit (a b bhi blo : tREAL) : tREAL * tREAL :=
  let x := a * b in
  let '(ahi, alo) := tSPLIT a in
  let err1 := x - ahi * bhi in
  let err2 := err1 - alo * bhi in
  let err3 := err2 - ahi * blo in
  let y := alo * blo - err3 in
  (x, y).

(** Modelled from the spec: the macro [Two_Product] of predicates.h
    ("exact product decomposition via Split plus compensated
    multiplication"). *)
Definition Two_Product (a b : tREAL) : tREAL * tREAL :=
  let x := a * b in
  let '(ahi, alo) := tSPLIT a in
  let '(bhi, blo) := tSPLIT b in
  let err1 := x - ahi * bhi in
  let err2 := err1 - alo * bhi in
  let err3 := err2 - ahi * blo in
  let y := alo * blo - err3 in
  (x, y).

(** Modelled from the spec: the macro [Square] of predicates.h
    ("specialization of Two-Product for a*a"). *)
Definition Square (a : tREAL) : tREAL * tREAL :=
  let x := a * a in
  let '(ahi, alo) := tSPLIT a in
  let err1 := x - ahi * ahi in
  let err3 := err1 - (ahi + ahi) * alo in
  let y := alo * alo - err3 in
  (x, y).

End Macros.

(** Modelled from the spec: the macros [Two_One_Sum], [Two_One_Diff],
    [Two_Two_Sum] and [Two_Two_Diff] of predicates.h, which add or subtract
    two-component values by chaining [Two_Sum] and [Two_Diff] through the
    scratch variables [_i], [_j] and [_0].  The results are listed as the
    macros list them, most significant first. *)
Definition Two_One_Sum (a1 a0 b : tREAL) : tREAL * tREAL * tREAL :=
  let '(_i, x0) := Two_Sum a0 b in
  let '(x2, x1) := Two_Sum a1 _i in
  (x2, x1, x0).

Definition Two_One_Diff (a1 a0 b : tREAL) : tREAL * tREAL * tREAL :=
  let '(_i, x0) := Two_Diff a0 b in
  let '(x2, x1) := Two_Sum a1 _i in
  (x2, x1, x0).

Definition Two_Two_Sum (a1 a0 b1 b0 : tREAL)
  : tREAL * tREAL * tREAL * tREAL :=
  let '(_j, _0, x0) := Two_One_Sum a1 a0 b0 in
  let '(x3, x2, x1) := Two_One_Sum _j _0 b1 in
  (x3, x2, x1, x0).

Definition Two_Two_Diff (a1 a0 b1 b0 : tREAL)
  : tREAL * tREAL * tREAL * tREAL :=
  let '(_j, _0, x0) := Two_One_Diff a1 a0 b0 in
  let '(x3, x2, x1) := Two_One_Diff _j _0 b1 in
  (x3, x2, x1, x0).

(** ** The expansion algebra

    An expansion is passed as a length and a buffer.  Each function returns
    the [int] it returns in C together with the output buffer [h] as the
    call leaves it.  Input and output buffers are distinct objects, as they
    are at every call site of the class. *)

(** [if (hh != 0.0) { h[hindex++] = hh; }] *)
Definition put_nonzero (hh : tREAL) (hindex : Z) (h : buf) : Z * buf :=
  if hh !=? Dbl.zero then (hindex + 1, upd h hindex hh)%Z else (hindex, h).

(** [if ((Q != 0.0) || (hindex == 0)) { h[hindex++] = Q; }] *)
Definition put_last (Q : tREAL) (hindex : Z) (h : buf) : Z * buf :=
  if (Q !=? Dbl.zero) || (hindex =? 0)%Z
  then (hindex + 1, upd h hindex Q)%Z else (hindex, h).

(** <<
      Q = b;
      for (eindex = 0; eindex < elen; eindex++) {
        enow = e[eindex];
        Two_Sum(Q, enow, Qnew, h[eindex]);
        Q = Qnew;
      }
      h[eindex] = Q;
      return eindex + 1;
>> *)
Definition grow_expansion (elen : Z) (e : buf) (b : tREAL) (h : buf)
  : Z * buf :=
  let Q := b in
  let '(eindex, (Q, h)) :=
    for_range 0 elen
      (fun eindex '(Q, h) =>
         let enow := e eindex in
         let '(Qnew, hh) := Two_Sum Q enow in
         (Qnew, upd h eindex hh))
      (Q, h) in
  let h := upd h eindex Q in
  ((eindex + 1)%Z, h).

(** <<
      hindex = 0;
      Q = b;
      for (eindex = 0; eindex < elen; eindex++) {
        enow = e[eindex];
        Two_Sum(Q, enow, Qnew, hh);
        Q = Qnew;
        if (hh != 0.0) { h[hindex++] = hh; }
      }
      if ((Q != 0.0) || (hindex == 0)) { h[hindex++] = Q; }
      return hindex;
>> *)
Definition grow_expansion_zeroelim (elen : Z) (e : buf) (b : tREAL) (h : buf)
  : Z * buf :=
  let hindex := 0%Z in
  let Q := b in
  let '(_, (Q, (hindex, h))) :=
    for_range 0 elen
      (fun eindex '(Q, (hindex, h)) =>
         let enow := e eindex in
         let '(Qnew, hh) := Two_Sum Q enow in
         (Qnew, put_nonzero hh hindex h))
      (Q, (hindex, h)) in
  put_last Q hindex h.

(** The two summation phases shared, statement for statement, by
    [expansion_sum] and [expansion_sum_zeroelim1]:
<<
      Q = f[0];
      for (hindex = 0; hindex < elen; hindex++) {
        hnow = e[hindex];
        Two_Sum(Q, hnow, Qnew, h[hindex]);
        Q = Qnew;
      }
      h[hindex] = Q;
      hlast = hindex;
      for (findex = 1; findex < flen; findex++) {
        Q = f[findex];
        for (hindex = findex; hindex <= hlast; hindex++) {
          hnow = h[hindex];
          Two_Sum(Q, hnow, Qnew, h[hindex]);
          Q = Qnew;
        }
        h[++hlast] = Q;
      }
>>
    The result is [hlast] and the buffer. *)
Definition expansion_sum_phases (elen : Z) (e : buf) (flen : Z) (f : buf)
  (h : buf) : Z * buf :=
  let Q := f 0%Z in
  let '(hindex, (Q, h)) :=
    for_range 0 elen
      (fun hindex '(Q, h) =>
         let hnow := e hindex in
         let '(Qnew, hh) := Two_Sum Q hnow in
         (Qnew, upd h hindex hh))
      (Q, h) in
  let h := upd h hindex Q in
  let hlast := hindex in
  let '(_, (hlast, h)) :=
    for_range 1 flen
      (fun findex '(hlast, h) =>
         let Q := f findex in
         let '(_, (Q, h)) :=
           for_range findex (hlast + 1)
             (fun hindex '(Q, h) =>
                let hnow := h hindex in
                let '(Qnew, hh) := Two_Sum Q hnow in
                (Qnew, upd h hindex hh))
             (Q, h) in
         let hlast := (hlast + 1)%Z in
         (hlast, upd h hlast Q))
      (hlast, h) in
  (hlast, h).

(** [int Predicates::expansion_sum(elen, e, flen, f, h)]: the two phases,
    then [return hlast + 1;]. *)
Definition expansion_sum (elen : Z) (e : buf) (flen : Z) (f : buf) (h : buf)
  : Z * buf :=
  let '(hlast, h) := expansion_sum_phases elen e flen f h in
  ((hlast + 1)%Z, h).

(** [int Predicates::expansion_sum_zeroelim1(elen, e, flen, f, h)]: the two
    phases, then
<<
      hindex = -1;
      for (index = 0; index <= hlast; index++) {
        hnow = h[index];
        if (hnow != 0.0) { h[++hindex] = hnow; }
      }
      if (hindex == -1) { return 1; } else { return hindex + 1; }
>> *)
Definition expansion_sum_zeroelim1 (elen : Z) (e : buf) (flen : Z) (f : buf)
  (h : buf) : Z * buf :=
  let '(hlast, h) := expansion_sum_phases elen e flen f h in
  let hindex := (-1)%Z in
  let '(_, (hindex, h)) :=
    for_range 0 (hlast + 1)
      (fun index '(hindex, h) =>
         let hnow := h index in
         if hnow !=? Dbl.zero
         then ((hindex + 1)%Z, upd h (hindex + 1) hnow)
         else (hindex, h))
      (hindex, h) in
  if (hindex =? -1)%Z then (1%Z, h) else ((hindex + 1)%Z, h).

(** <<
      hindex = 0;
      Q = f[0];
      for (eindex = 0; eindex < elen; eindex++) {
        enow = e[eindex];
        Two_Sum(Q, enow, Qnew, hh);
        Q = Qnew;
        if (hh != 0.0) { h[hindex++] = hh; }
      }
      h[hindex] = Q;
      hlast = hindex;
      for (findex = 1; findex < flen; findex++) {
        hindex = 0;
        Q = f[findex];
        for (eindex = 0; eindex <= hlast; eindex++) {
          enow = h[eindex];
          Two_Sum(Q, enow, Qnew, hh);
          Q = Qnew;
          if (hh != 0) { h[hindex++] = hh; }
        }
        h[hindex] = Q;
        hlast = hindex;
      }
      return hlast + 1;
>> *)
Definition expansion_sum_zeroelim2 (elen : Z) (e : buf) (flen : Z) (f : buf)
  (h : buf) : Z * buf :=
  let hindex := 0%Z in
  let Q := f 0%Z in
  let '(_, (Q, (hindex, h))) :=
    for_range 0 elen
      (fun eindex '(Q, (hindex, h)) =>
         let enow := e eindex in
         let '(Qnew, hh) := Two_Sum Q enow in
         (Qnew, put_nonzero hh hindex h))
      (Q, (hindex, h)) in
  let h := upd h hindex Q in
  let hlast := hindex in
  let '(_, (hlast, h)) :=
    for_range 1 flen
      (fun findex '(hlast, h) =>
         let hindex := 0%Z in
         let Q := f findex in
         let '(_, (Q, (hindex, h))) :=
           for_range 0 (hlast + 1)
             (fun eindex '(Q, (hindex, h)) =>
                let enow := h eindex in
                let '(Qnew, hh) := Two_Sum Q enow in
                (Qnew, put_nonzero hh hindex h))
             (Q, (hindex, h)) in
         let h := upd h hindex Q in
         (hindex, h))
      (hlast, h) in
  ((hlast + 1)%Z, h).

(** The locals of the merging sums: the running sum [Q], the heads [enow]
    and [fnow] of the two inputs with their indices, and the output. *)
Record merge_state : Type := {
  m_Q : tREAL;
  m_enow : tREAL;
  m_fnow : tREAL;
  m_eindex : Z;
  m_findex : Z;
  m_hindex : Z;
  m_h : buf
}.

(** [(fnow > enow) == (fnow > -enow)] *)
Definition e_is_next (enow fnow : tREAL) : bool :=
  Bool.eqb (fnow >? enow) (fnow >? - enow).

Section FastSum.

Variables (elen : Z) (e : buf) (flen : Z) (f : buf).

(** Each turn of a merging loop advances [eindex] or [findex] by one, so
    [elen + flen] turns are enough for any of them; the lemmas
    [merge_both_done], [merge_e_done] and [merge_f_done] show that the
    loops leave by their conditions. *)
Definition merge_fuel : nat := Z.to_nat (elen + flen).

(** [(eindex < elen) && (findex < flen)] *)
Definition both_left (s : merge_state) : bool :=
  (m_eindex s <? elen)%Z && (m_findex s <? flen)%Z.

(** <<
      if ((fnow > enow) == (fnow > -enow)) {
        Two_Sum(Q, enow, Qnew, hh);
        enow = e[++eindex];
      } else {
        Two_Sum(Q, fnow, Qnew, hh);
        fnow = f[++findex];
      }
      Q = Qnew;
      if (hh != 0.0) { h[hindex++] = hh; }
>> *)
Definition merge_step_zeroelim (s : merge_state) : merge_state :=
  if e_is_next (m_enow s) (m_fnow s) then
    let '(Qnew, hh) := Two_Sum (m_Q s) (m_enow s) in
    let eindex := (m_eindex s + 1)%Z in
    let '(hindex, h) := put_nonzero hh (m_hindex s) (m_h s) in
    {| m_Q := Qnew; m_enow := e eindex; m_fnow := m_fnow s;
       m_eindex := eindex; m_findex := m_findex s;
       m_hindex := hindex; m_h := h |}
  else
    let '(Qnew, hh) := Two_Sum (m_Q s) (m_fnow s) in
    let findex := (m_findex s + 1)%Z in
    let '(hindex, h) := put_nonzero hh (m_hindex s) (m_h s) in
    {| m_Q := Qnew; m_enow := m_enow s; m_fnow := f findex;
       m_eindex := m_eindex s; m_findex := findex;
       m_hindex := hindex; m_h := h |}.

(** <<
      Two_Sum(Q, enow, Qnew, hh);
      enow = e[++eindex];
      Q = Qnew;
      if (hh != 0.0) { h[hindex++] = hh; }
>> *)
Definition drain_e_zeroelim (s : merge_state) : merge_state :=
  let '(Qnew, hh) := Two_Sum (m_Q s) (m_enow s) in
  let eindex := (m_eindex s + 1)%Z in
  let '(hindex, h) := put_nonzero hh (m_hindex s) (m_h s) in
  {| m_Q := Qnew; m_enow := e eindex; m_fnow := m_fnow s;
     m_eindex := eindex; m_findex := m_findex s;
     m_hindex := hindex; m_h := h |}.

(** <<
      Two_Sum(Q, fnow, Qnew, hh);
      fnow = f[++findex];
      Q = Qnew;
      if (hh != 0.0) { h[hindex++] = hh; }
>> *)
Definition drain_f_zeroelim (s : merge_state) : merge_state :=
  let '(Qnew, hh) := Two_Sum (m_Q s) (m_fnow s) in
  let findex := (m_findex s + 1)%Z in
  let '(hindex, h) := put_nonzero hh (m_hindex s) (m_h s) in
  {| m_Q := Qnew; m_enow := m_enow s; m_fnow := f findex;
     m_eindex := m_eindex s; m_findex := findex;
     m_hindex := hindex; m_h := h |}.

(** <<
      enow = e[0];
      fnow = f[0];
      eindex = findex = 0;
      if ((fnow > enow) == (fnow > -enow)) {
        Q = enow;
        enow = e[++eindex];
      } else {
        Q = fnow;
        fnow = f[++findex];
      }
>>
    (the opening of both merging sums), with [hindex = 0]. *)
Definition merge_start (h : buf) : merge_state :=
  let enow := e 0%Z in
  let fnow := f 0%Z in
  if e_is_next enow fnow then
    {| m_Q := enow; m_enow := e 1%Z; m_fnow := fnow;
       m_eindex := 1; m_findex := 0; m_hindex := 0; m_h := h |}
  else
    {| m_Q := fnow; m_enow := enow; m_fnow := f 1%Z;
       m_eindex := 0; m_findex := 1; m_hindex := 0; m_h := h |}.

(** The first merging turn of [fast_expansion_sum_zeroelim], which uses
    [Fast_Two_Sum]:
<<
      if ((fnow > enow) == (fnow > -enow)) {
        Fast_Two_Sum(enow, Q, Qnew, hh);
        enow = e[++eindex];
      } else {
        Fast_Two_Sum(fnow, Q, Qnew, hh);
        fnow = f[++findex];
      }
      Q = Qnew;
      if (hh != 0.0) { h[hindex++] = hh; }
>> *)
Definition merge_first_zeroelim (s : merge_state) : merge_state :=
  if e_is_next (m_enow s) (m_fnow s) then
    let '(Qnew, hh) := Fast_Two_Sum (m_enow s) (m_Q s) in
    let eindex := (m_eindex s + 1)%Z in
    let '(hindex, h) := put_nonzero hh (m_hindex s) (m_h s) in
    {| m_Q := Qnew; m_enow := e eindex; m_fnow := m_fnow s;
       m_eindex := eindex; m_findex := m_findex s;
       m_hindex := hindex; m_h := h |}
  else
    let '(Qnew, hh) := Fast_Two_Sum (m_fnow s) (m_Q s) in
    let findex := (m_findex s + 1)%Z in
    let '(hindex, h) := put_nonzero hh (m_hindex s) (m_h s) in
    {| m_Q := Qnew; m_enow := m_enow s; m_fnow := f findex;
       m_eindex := m_eindex s; m_findex := findex;
       m_hindex := hindex; m_h := h |}.

(** [int Predicates::fast_expansion_sum_zeroelim(elen, e, flen, f, h)]:
<<
      (opening)
      hindex = 0;
      if ((eindex < elen) && (findex < flen)) {
        (first merging turn)
        while ((eindex < elen) && (findex < flen)) { (merging turn) }
      }
      while (eindex < elen) { (turn on e) }
      while (findex < flen) { (turn on f) }
      if ((Q != 0.0) || (hindex == 0)) { h[hindex++] = Q; }
      return hindex;
>> *)
Definition fast_expansion_sum_zeroelim (h : buf) : Z * buf :=
  let s := merge_start h in
  let s :=
    if both_left s then
      while_loop merge_fuel both_left merge_step_zeroelim
        (merge_first_zeroelim s)
    else s in
  let s :=
    while_loop merge_fuel (fun s => (m_eindex s <? elen)%Z)
      drain_e_zeroelim s in
  let s :=
    while_loop merge_fuel (fun s => (m_findex s <? flen)%Z)
      drain_f_zeroelim s in
  put_last (m_Q s) (m_hindex s) (m_h s).

End FastSum.

Section LinearSum.

Variables (elen : Z) (e : buf) (flen : Z) (f : buf).

(** [(eindex < elen) && ((findex >= flen) || ((fnow > enow) == (fnow > -enow)))] *)
Definition linear_takes_e (s : merge_state) : bool :=
  (m_eindex s <? elen)%Z
  && ((m_findex s >=? flen)%Z || e_is_next (m_enow s) (m_fnow s)).

(** <<
      if ((eindex < elen) && ((findex >= flen)
                              || ((fnow > enow) == (fnow > -enow)))) {
        Fast_Two_Sum(enow, q, R, hh);
        enow = e[++eindex];
      } else {
        Fast_Two_Sum(fnow, q, R, hh);
        fnow = f[++findex];
      }
>>
    The result is [(R, hh)] and the state with the input advanced. *)
Definition linear_take (q : tREAL) (s : merge_state)
  : tREAL * tREAL * merge_state :=
  if linear_takes_e s then
    let '(R, hh) := Fast_Two_Sum (m_enow s) q in
    let eindex := (m_eindex s + 1)%Z in
    (R, hh,
     {| m_Q := m_Q s; m_enow := e eindex; m_fnow := m_fnow s;
        m_eindex := eindex; m_findex := m_findex s;
        m_hindex := m_hindex s; m_h := m_h s |})
  else
    let '(R, hh) := Fast_Two_Sum (m_fnow s) q in
    let findex := (m_findex s + 1)%Z in
    (R, hh,
     {| m_Q := m_Q s; m_enow := m_enow s; m_fnow := f findex;
        m_eindex := m_eindex s; m_findex := findex;
        m_hindex := m_hindex s; m_h := m_h s |}).

(** [int Predicates::linear_expansion_sum_zeroelim(elen, e, flen, f, h)]:
<<
      (opening, into g0)
      (take with g0: Fast_Two_Sum(.., g0, Qnew, q))
      Q = Qnew;
      for (count = 2; count < elen + flen; count++) {
        (take with q: Fast_Two_Sum(.., q, R, hh))
        Two_Sum(Q, R, Qnew, q);
        Q = Qnew;
        if (hh != 0) { h[hindex++] = hh; }
      }
      if (q != 0) { h[hindex++] = q; }
      if ((Q != 0.0) || (hindex == 0)) { h[hindex++] = Q; }
      return hindex;
>>
    The opening is that of the fast sum, its [m_Q] holding [g0]. *)
Definition linear_expansion_sum_zeroelim (h : buf) : Z * buf :=
  let s := merge_start e f h in
  let g0 := m_Q s in
  let '(Qnew, q, s) := linear_take g0 s in
  let Q := Qnew in
  let '(_, (Q, q, s)) :=
    for_range 2 (elen + flen)
      (fun count '(Q, q, s) =>
         let '(R, hh, s) := linear_take q s in
         let '(Qnew, q) := Two_Sum Q R in
         let '(hindex, h) := put_nonzero hh (m_hindex s) (m_h s) in
         (Qnew, q,
          {| m_Q := m_Q s; m_enow := m_enow s; m_fnow := m_fnow s;
             m_eindex := m_eindex s; m_findex := m_findex s;
             m_hindex := hindex; m_h := h |}))
      (Q, q, s) in
  let '(hindex, h) := put_nonzero q (m_hindex s) (m_h s) in
  put_last Q hindex h.

End LinearSum.

Section Scale.

Variable P : Predicates.

(** <<
      tSPLIT(b, bhi, blo);
      Two_Product_Presplit(e[0], b, bhi, blo, Q, h[0]);
      hindex = 1;
      for (eindex = 1; eindex < elen; eindex++) {
        enow = e[eindex];
        Two_Product_Presplit(enow, b, bhi, blo, product1, product0);
        Two_Sum(Q, product0, sum, h[hindex]);
        hindex++;
        Two_Sum(product1, sum, Q, h[hindex]);
        hindex++;
      }
      h[hindex] = Q;
      return elen + elen;
>> *)
Definition scale_expansion (elen : Z) (e : buf) (b : tREAL) (h : buf)
  : Z * buf :=
  let '(bhi, blo) := tSPLIT P b in
  let '(Q, h0) := Two_Product_Presplit P (e 0%Z) b bhi blo in
  let h := upd h 0 h0 in
  let hindex := 1%Z in
  let '(_, (Q, (hindex, h))) :=
    for_range 1 elen
      (fun eindex '(Q, (hindex, h)) =>
         let enow := e eindex in
         let '(product1, product0) :=
           Two_Product_Presplit P enow b bhi blo in
         let '(sum, hh) := Two_Sum Q product0 in
         let h := upd h hindex hh in
         let hindex := (hindex + 1)%Z in
         let '(Q, hh) := Two_Sum product1 sum in
         let h := upd h hindex hh in
         let hindex := (hindex + 1)%Z in
         (Q, (hindex, h)))
      (Q, (hindex, h)) in
  let h := upd h hindex Q in
  ((elen + elen)%Z, h).

(** <<
      tSPLIT(b, bhi, blo);
      Two_Product_Presplit(e[0], b, bhi, blo, Q, hh);
      hindex = 0;
      if (hh != 0) { h[hindex++] = hh; }
      for (eindex = 1; eindex < elen; eindex++) {
        enow = e[eindex];
        Two_Product_Presplit(enow, b, bhi, blo, product1, product0);
        Two_Sum(Q, product0, sum, hh);
        if (hh != 0) { h[hindex++] = hh; }
        Fast_Two_Sum(product1, sum, Q, hh);
        if (hh != 0) { h[hindex++] = hh; }
      }
      if ((Q != 0.0) || (hindex == 0)) { h[hindex++] = Q; }
      return hindex;
>> *)
Definition scale_expansion_zeroelim (elen : Z) (e : buf) (b : tREAL)
  (h : buf) : Z * buf :=
  let '(bhi, blo) := tSPLIT P b in
  let '(Q, hh) := Two_Product_Presplit P (e 0%Z) b bhi blo in
  let hindex := 0%Z in
  let '(hindex, h) := put_nonzero hh hindex h in
  let '(_, (Q, (hindex, h))) :=
    for_range 1 elen
      (fun eindex '(Q, (hindex, h)) =>
         let enow := e eindex in
         let '(product1, product0) :=
           Two_Product_Presplit P enow b bhi blo in
         let '(sum, hh) := Two_Sum Q product0 in
         let '(hindex, h) := put_nonzero hh hindex h in
         let '(Q, hh) := Fast_Two_Sum product1 sum in
         (Q, put_nonzero hh hindex h))
      (Q, (hindex, h)) in
  put_last Q hindex h.

End Scale.

(** <<
      Q = e[0];
      for (eindex = 1; eindex < elen; eindex++) { Q += e[eindex]; }
      return Q;
>> *)
Definition estimate (elen : Z) (e : buf) : tREAL :=
  let Q := e 0%Z in
  let '(_, Q) := for_range 1 elen (fun eindex Q => Q + e eindex) Q in
  Q.

(** ** The predicates *)

(** A local array before the function has written to it.  The functions
    below read a cell of a local array only after writing it, but for the
    merging sums, whose [e[++eindex]] and [f[++findex]] fetch the cell one
    past the last component into a head that is never used afterwards. *)
Definition local : buf := fun _ => Dbl.zero.

(** The stores that follow a [Two_Two_Diff] or [Two_Two_Sum] whose targets
    are [x3, h[2], h[1], h[0]]: the macro assigns [h[0]], [h[1]], [h[2]],
    and [h[3] = x3;] follows it. *)
Definition set4 (h : buf) (x : tREAL * tREAL * tREAL * tREAL) : buf :=
  let '(x3, x2, x1, x0) := x in
  upd (upd (upd (upd h 0 x0) 1 x1) 2 x2) 3 x3.

(** [(det >= errbound) || (-det >= errbound)] *)
Definition beyond (det errbound : tREAL) : bool :=
  (det >=? errbound) || (- det >=? errbound).

(** The chain of sign tests that opens [orient2d] and
    [DifferenceOfProductsOfDifferences]:
<<
      if (detleft > 0.0) {
        if (detright <= 0.0) return det;
        else detsum = detleft + detright;
      } else if (detleft < 0.0) {
        if (detright >= 0.0) return det;
        else detsum = -detleft - detright;
      } else return det;
>>
    [None] stands for the three [return det;], [Some detsum] for falling
    through with [detsum] set. *)
Definition sign_chain (detleft detright : tREAL) : option tREAL :=
  if detleft >? Dbl.zero then
    if detright <=? Dbl.zero then None
    else Some (detleft + detright)
  else if detleft <? Dbl.zero then
    if detright >=? Dbl.zero then None
    else Some (- detleft - detright)
  else None.

Section Predicate.

(** The object the member functions are called on: they read its table
    and assign none of its members. *)
Variable P : Predicates.

(** [double Predicates::AdaptDiffOfProdsOfDiffs(terma, ..., termh, sum)] *)
Definition AdaptDiffOfProdsOfDiffs
  (terma termb termc termd terme termf termg termh : tREAL) (sum : tREAL)
  : tREAL :=
  let diff1 := terma - termb in
  let diff2 := termc - termd in
  let diff3 := terme - termf in
  let diff4 := termg - termh in
  let '(leftprod, leftprodtail) := Two_Product P diff1 diff2 in
  let '(rightprod, rightprodtail) := Two_Product P diff3 diff4 in
  let B :=
    set4 local (Two_Two_Diff leftprod leftprodtail rightprod rightprodtail)
  in
  let diff := estimate 4 B in
  let errbound := ccwerrboundB P * sum in
  if beyond diff errbound then diff else
  let diff1tail := Two_Diff_Tail terma termb diff1 in
  let diff2tail := Two_Diff_Tail termc termd diff2 in
  let diff3tail := Two_Diff_Tail terme termf diff3 in
  let diff4tail := Two_Diff_Tail termg termh diff4 in
  if (diff1tail ==? Dbl.zero) && (diff2tail ==? Dbl.zero)
     && (diff3tail ==? Dbl.zero) && (diff4tail ==? Dbl.zero)
  then diff else
  let errbound := ccwerrboundC P * sum + resulterrbound P * Absolute diff in
  let diff :=
    diff + ((diff1 * diff2tail + diff2 * diff1tail)
            - (diff3 * diff4tail + diff4 * diff3tail)) in
  if beyond diff errbound then diff else
  let '(s1, s0) := Two_Product P diff1tail diff2 in
  let '(t1, t0) := Two_Product P diff3tail diff4 in
  let u := set4 local (Two_Two_Diff s1 s0 t1 t0) in
  let '(C1length, C1) := fast_expansion_sum_zeroelim 4 B 4 u local in
  let '(s1, s0) := Two_Product P diff1 diff2tail in
  let '(t1, t0) := Two_Product P diff3 diff4tail in
  let u := set4 u (Two_Two_Diff s1 s0 t1 t0) in
  let '(C2length, C2) := fast_expansion_sum_zeroelim C1length C1 4 u local in
  let '(s1, s0) := Two_Product P diff1tail diff2tail in
  let '(t1, t0) := Two_Product P diff3tail diff4tail in
  let u := set4 u (Two_Two_Diff s1 s0 t1 t0) in
  let '(Dlength, D) := fast_expansion_sum_zeroelim C2length C2 4 u local in
  D (Dlength - 1)%Z.

(** [double Predicates::DifferenceOfProductsOfDifferences(a, ..., h)]:
<<
      left = ( a - b ) * ( c - d );
      right = ( e - f ) * ( g - h );
      diff = left - right;
      (the sign chain: return diff, or set sum)
      errbound = ccwerrboundA * sum;
      if( diff >= errbound || -diff >= errbound ) return diff;
      return AdaptDiffOfProdsOfDiffs( a, b, c, d, e, f, g, h, sum );
>> *)
Definition DifferenceOfProductsOfDifferences (a b c d e f g h : tREAL)
  : tREAL :=
  let left := (a - b) * (c - d) in
  let right := (e - f) * (g - h) in
  let diff := left - right in
  match sign_chain left right with
  | None => diff
  | Some sum =>
      let errbound := ccwerrboundA P * sum in
      if beyond diff errbound then diff
      else AdaptDiffOfProdsOfDiffs a b c d e f g h sum
  end.

(** [tREAL Predicates::orient2dadapt(pa, pb, pc, detsum)] *)
Definition orient2dadapt (pa pb pc : buf) (detsum : tREAL) : tREAL :=
  let acx := pa 0%Z - pc 0%Z in
  let bcx := pb 0%Z - pc 0%Z in
  let acy := pa 1%Z - pc 1%Z in
  let bcy := pb 1%Z - pc 1%Z in
  let '(detleft, detlefttail) := Two_Product P acx bcy in
  let '(detright, detrighttail) := Two_Product P acy bcx in
  let B :=
    set4 local (Two_Two_Diff detleft detlefttail detright detrighttail) in
  let det := estimate 4 B in
  let errbound := ccwerrboundB P * detsum in
  if beyond det errbound then det else
  let acxtail := Two_Diff_Tail (pa 0%Z) (pc 0%Z) acx in
  let bcxtail := Two_Diff_Tail (pb 0%Z) (pc 0%Z) bcx in
  let acytail := Two_Diff_Tail (pa 1%Z) (pc 1%Z) acy in
  let bcytail := Two_Diff_Tail (pb 1%Z) (pc 1%Z) bcy in
  if (acxtail ==? Dbl.zero) && (acytail ==? Dbl.zero)
     && (bcxtail ==? Dbl.zero) && (bcytail ==? Dbl.zero)
  then det else
  let errbound :=
    ccwerrboundC P * detsum + resulterrbound P * Absolute det in
  let det :=
    det + ((acx * bcytail + bcy * acxtail)
           - (acy * bcxtail + bcx * acytail)) in
  if beyond det errbound then det else
  let '(s1, s0) := Two_Product P acxtail bcy in
  let '(t1, t0) := Two_Product P acytail bcx in
  let u := set4 local (Two_Two_Diff s1 s0 t1 t0) in
  let '(C1length, C1) := fast_expansion_sum_zeroelim 4 B 4 u local in
  let '(s1, s0) := Two_Product P acx bcytail in
  let '(t1, t0) := Two_Product P acy bcxtail in
  let u := set4 u (Two_Two_Diff s1 s0 t1 t0) in
  let '(C2length, C2) := fast_expansion_sum_zeroelim C1length C1 4 u local in
  let '(s1, s0) := Two_Product P acxtail bcytail in
  let '(t1, t0) := Two_Product P acytail bcxtail in
  let u := set4 u (Two_Two_Diff s1 s0 t1 t0) in
  let '(Dlength, D) := fast_expansion_sum_zeroelim C2length C2 4 u local in
  D (Dlength - 1)%Z.

(** [tREAL Predicates::orient2d(pa, pb, pc)]:
<<
      detleft = (pa[0] - pc[0]) * (pb[1] - pc[1]);
      detright = (pa[1] - pc[1]) * (pb[0] - pc[0]);
      det = detleft - detright;
      (the sign chain: return det, or set detsum)
      errbound = ccwerrboundA * detsum;
      if ((det >= errbound) || (-det >= errbound)) { return det; }
      return orient2dadapt(pa, pb, pc, detsum);
>> *)
Definition orient2d (pa pb pc : buf) : tREAL :=
  let detleft := (pa 0%Z - pc 0%Z) * (pb 1%Z - pc 1%Z) in
  let detright := (pa 1%Z - pc 1%Z) * (pb 0%Z - pc 0%Z) in
  let det := detleft - detright in
  match sign_chain detleft detright with
  | None => det
  | Some detsum =>
      let errbound := ccwerrboundA P * detsum in
      if beyond det errbound then det
      else orient2dadapt pa pb pc detsum
  end.

End Predicate.

(** A point, as the two-cell array the predicates take. *)
Definition point (x y : tREAL) : buf := of_list [x; y].

Section InCircle.

Variable P : Predicates.

(** The accumulator of [incircleadapt]: [finlength], and the buffers that
    [finnow] and [finother] point to. *)
Definition fin_state : Type := (Z * buf * buf)%type.

(** <<
      finlength = fast_expansion_sum_zeroelim(finlength, finnow, templen,
                                              temp, finother);
      finswap = finnow; finnow = finother; finother = finswap;
>> *)
Definition fin_add (fin : fin_state) (templen : Z) (temp : buf)
  : fin_state :=
  let '(finlength, finnow, finother) := fin in
  let '(finlength, finother) :=
    fast_expansion_sum_zeroelim finlength finnow templen temp finother in
  (finlength, finother, finnow).

(** A scratch array is handed to a callee as [local]: the callee fills the
    cells below the length it returns, and the caller reads those only. *)

(** The block run for a nonzero tail of a coordinate difference; for
    [adxtail] it reads
<<
      axtbclen = scale_expansion_zeroelim(4, bc, adxtail, axtbc);
      temp16alen = scale_expansion_zeroelim(axtbclen, axtbc, 2.0 * adx,
                                            temp16a);
      axtcclen = scale_expansion_zeroelim(4, cc, adxtail, axtcc);
      temp16blen = scale_expansion_zeroelim(axtcclen, axtcc, bdy, temp16b);
      axtbblen = scale_expansion_zeroelim(4, bb, adxtail, axtbb);
      temp16clen = scale_expansion_zeroelim(axtbblen, axtbb, -cdy, temp16c);
      temp32alen = fast_expansion_sum_zeroelim(temp16alen, temp16a,
                                               temp16blen, temp16b, temp32a);
      temp48len = fast_expansion_sum_zeroelim(temp16clen, temp16c,
                                              temp32alen, temp32a, temp48);
      (fin_add temp48len temp48)
>>
    and the five others differ in the operands only, given here as
    [det4] ([bc]), [tail] ([adxtail]), [d] ([adx]), [lift1] ([cc]), [w1]
    ([bdy]), [lift2] ([bb]) and [w2] ([-cdy]).  The result carries the
    first product ([axtbclen], [axtbc]), which a later block reads. *)
Definition tail_block (det4 : buf) (tail d : tREAL)
  (lift1 : buf) (w1 : tREAL) (lift2 : buf) (w2 : tREAL) (fin : fin_state)
  : fin_state * (Z * buf) :=
  let '(axtbclen, axtbc) := scale_expansion_zeroelim P 4 det4 tail local in
  let '(temp16alen, temp16a) :=
    scale_expansion_zeroelim P axtbclen axtbc (Dbl.two * d) local in
  let '(axtcclen, axtcc) := scale_expansion_zeroelim P 4 lift1 tail local in
  let '(temp16blen, temp16b) :=
    scale_expansion_zeroelim P axtcclen axtcc w1 local in
  let '(axtbblen, axtbb) := scale_expansion_zeroelim P 4 lift2 tail local in
  let '(temp16clen, temp16c) :=
    scale_expansion_zeroelim P axtbblen axtbb w2 local in
  let '(temp32alen, temp32a) :=
    fast_expansion_sum_zeroelim temp16alen temp16a temp16blen temp16b local
  in
  let '(temp48len, temp48) :=
    fast_expansion_sum_zeroelim temp16clen temp16c temp32alen temp32a local
  in
  (fin_add fin temp48len temp48, (axtbclen, axtbc)).

(** The expansions [bct] and [bctt] of the block guarded by
    [(adxtail != 0.0) || (adytail != 0.0)], when one of the four other
    tails is nonzero:
<<
      Two_Product(bdxtail, cdy, ti1, ti0);
      Two_Product(bdx, cdytail, tj1, tj0);
      Two_Two_Sum(ti1, ti0, tj1, tj0, u3, u[2], u[1], u[0]);
      u[3] = u3;
      negate = -bdy;
      Two_Product(cdxtail, negate, ti1, ti0);
      negate = -bdytail;
      Two_Product(cdx, negate, tj1, tj0);
      Two_Two_Sum(ti1, ti0, tj1, tj0, v3, v[2], v[1], v[0]);
      v[3] = v3;
      bctlen = fast_expansion_sum_zeroelim(4, u, 4, v, bct);
      Two_Product(bdxtail, cdytail, ti1, ti0);
      Two_Product(cdxtail, bdytail, tj1, tj0);
      Two_Two_Diff(ti1, ti0, tj1, tj0, bctt3, bctt[2], bctt[1], bctt[0]);
      bctt[3] = bctt3;
      bcttlen = 4;
>>
    and otherwise
<<
      bct[0] = 0.0; bctlen = 1; bctt[0] = 0.0; bcttlen = 1;
>>
    The two other guarded blocks turn the letters: [b, c] become [c, a],
    then [a, b].  [u] and [v] are the arrays as the caller holds them. *)
Definition cross_tails (others : bool)
  (bdx bdy bdxtail bdytail cdx cdy cdxtail cdytail : tREAL) (u v : buf)
  : (Z * buf) * (Z * buf) * (buf * buf) :=
  if others then
    let '(ti1, ti0) := Two_Product P bdxtail cdy in
    let '(tj1, tj0) := Two_Product P bdx cdytail in
    let u := set4 u (Two_Two_Sum ti1 ti0 tj1 tj0) in
    let negate := - bdy in
    let '(ti1, ti0) := Two_Product P cdxtail negate in
    let negate := - bdytail in
    let '(tj1, tj0) := Two_Product P cdx negate in
    let v := set4 v (Two_Two_Sum ti1 ti0 tj1 tj0) in
    let '(bctlen, bct) := fast_expansion_sum_zeroelim 4 u 4 v local in
    let '(ti1, ti0) := Two_Product P bdxtail cdytail in
    let '(tj1, tj0) := Two_Product P cdxtail bdytail in
    let bctt := set4 local (Two_Two_Diff ti1 ti0 tj1 tj0) in
    let bcttlen := 4%Z in
    ((bctlen, bct), (bcttlen, bctt), (u, v))
  else
    ((1%Z, upd local 0 Dbl.zero), (1%Z, upd local 0 Dbl.zero), (u, v)).

(** The part of a guarded block run for a nonzero y tail; for [adytail]:
<<
      temp16alen = scale_expansion_zeroelim(aytbclen, aytbc, adytail,
                                            temp16a);
      aytbctlen = scale_expansion_zeroelim(bctlen, bct, adytail, aytbct);
      temp32alen = scale_expansion_zeroelim(aytbctlen, aytbct, 2.0 * ady,
                                            temp32a);
      temp48len = fast_expansion_sum_zeroelim(temp16alen, temp16a,
                                              temp32alen, temp32a, temp48);
      (fin_add temp48len temp48)
>>
    (the opening, shared with the x tail), then
<<
      temp32alen = scale_expansion_zeroelim(aytbctlen, aytbct, adytail,
                                            temp32a);
      aytbcttlen = scale_expansion_zeroelim(bcttlen, bctt, adytail,
                                            aytbctt);
      temp16alen = scale_expansion_zeroelim(aytbcttlen, aytbctt, 2.0 * ady,
                                            temp16a);
      temp16blen = scale_expansion_zeroelim(aytbcttlen, aytbctt, adytail,
                                            temp16b);
      temp32blen = fast_expansion_sum_zeroelim(temp16alen, temp16a,
                                               temp16blen, temp16b, temp32b);
      temp64len = fast_expansion_sum_zeroelim(temp32alen, temp32a,
                                              temp32blen, temp32b, temp64);
      (fin_add temp64len temp64)
>>
    (the closing, shared with the x tail).  [mid] is what runs between
    the two: nothing for a y tail. *)
Definition second_order (aytbc : Z * buf) (bct bctt : Z * buf)
  (tail d : tREAL) (mid : fin_state -> fin_state) (fin : fin_state)
  : fin_state :=
  let '(aytbclen, aytbc) := aytbc in
  let '(bctlen, bct) := bct in
  let '(bcttlen, bctt) := bctt in
  let '(temp16alen, temp16a) :=
    scale_expansion_zeroelim P aytbclen aytbc tail local in
  let '(aytbctlen, aytbct) :=
    scale_expansion_zeroelim P bctlen bct tail local in
  let '(temp32alen, temp32a) :=
    scale_expansion_zeroelim P aytbctlen aytbct (Dbl.two * d) local in
  let '(temp48len, temp48) :=
    fast_expansion_sum_zeroelim temp16alen temp16a temp32alen temp32a local
  in
  let fin := fin_add fin temp48len temp48 in
  let fin := mid fin in
  let '(temp32alen, temp32a) :=
    scale_expansion_zeroelim P aytbctlen aytbct tail local in
  let '(aytbcttlen, aytbctt) :=
    scale_expansion_zeroelim P bcttlen bctt tail local in
  let '(temp16alen, temp16a) :=
    scale_expansion_zeroelim P aytbcttlen aytbctt (Dbl.two * d) local in
  let '(temp16blen, temp16b) :=
    scale_expansion_zeroelim P aytbcttlen aytbctt tail local in
  let '(temp32blen, temp32b) :=
    fast_expansion_sum_zeroelim temp16alen temp16a temp16blen temp16b local
  in
  let '(temp64len, temp64) :=
    fast_expansion_sum_zeroelim temp32alen temp32a temp32blen temp32b local
  in
  fin_add fin temp64len temp64.

(** What runs between the opening and the closing for an x tail; for
    [adxtail]:
<<
      if (bdytail != 0.0) {
        temp8len = scale_expansion_zeroelim(4, cc, adxtail, temp8);
        temp16alen = scale_expansion_zeroelim(temp8len, temp8, bdytail,
                                              temp16a);
        (fin_add temp16alen temp16a)
      }
      if (cdytail != 0.0) {
        temp8len = scale_expansion_zeroelim(4, bb, -adxtail, temp8);
        temp16alen = scale_expansion_zeroelim(temp8len, temp8, cdytail,
                                              temp16a);
        (fin_add temp16alen temp16a)
      }
>> *)
Definition x_tail_mid (adxtail bdytail cdytail : tREAL) (cc bb : buf)
  (fin : fin_state) : fin_state :=
  let fin :=
    if bdytail !=? Dbl.zero then
      let '(temp8len, temp8) :=
        scale_expansion_zeroelim P 4 cc adxtail local in
      let '(temp16alen, temp16a) :=
        scale_expansion_zeroelim P temp8len temp8 bdytail local in
      fin_add fin temp16alen temp16a
    else fin in
  if cdytail !=? Dbl.zero then
    let '(temp8len, temp8) :=
      scale_expansion_zeroelim P 4 bb (- adxtail) local in
    let '(temp16alen, temp16a) :=
      scale_expansion_zeroelim P temp8len temp8 cdytail local in
    fin_add fin temp16alen temp16a
  else fin.

(** [tREAL Predicates::incircleadapt(pa, pb, pc, pd, permanent)] *)
Definition incircleadapt (pa pb pc pd : buf) (permanent : tREAL) : tREAL :=
  let adx := pa 0%Z - pd 0%Z in
  let bdx := pb 0%Z - pd 0%Z in
  let cdx := pc 0%Z - pd 0%Z in
  let ady := pa 1%Z - pd 1%Z in
  let bdy := pb 1%Z - pd 1%Z in
  let cdy := pc 1%Z - pd 1%Z in

  let '(bdxcdy1, bdxcdy0) := Two_Product P bdx cdy in
  let '(cdxbdy1, cdxbdy0) := Two_Product P cdx bdy in
  let bc := set4 local (Two_Two_Diff bdxcdy1 bdxcdy0 cdxbdy1 cdxbdy0) in
  let '(axbclen, axbc) := scale_expansion_zeroelim P 4 bc adx local in
  let '(axxbclen, axxbc) :=
    scale_expansion_zeroelim P axbclen axbc adx local in
  let '(aybclen, aybc) := scale_expansion_zeroelim P 4 bc ady local in
  let '(ayybclen, ayybc) :=
    scale_expansion_zeroelim P aybclen aybc ady local in
  let '(alen, adet) :=
    fast_expansion_sum_zeroelim axxbclen axxbc ayybclen ayybc local in

  let '(cdxady1, cdxady0) := Two_Product P cdx ady in
  let '(adxcdy1, adxcdy0) := Two_Product P adx cdy in
  let ca := set4 local (Two_Two_Diff cdxady1 cdxady0 adxcdy1 adxcdy0) in
  let '(bxcalen, bxca) := scale_expansion_zeroelim P 4 ca bdx local in
  let '(bxxcalen, bxxca) :=
    scale_expansion_zeroelim P bxcalen bxca bdx local in
  let '(bycalen, byca) := scale_expansion_zeroelim P 4 ca bdy local in
  let '(byycalen, byyca) :=
    scale_expansion_zeroelim P bycalen byca bdy local in
  let '(blen, bdet) :=
    fast_expansion_sum_zeroelim bxxcalen bxxca byycalen byyca local in

  let '(adxbdy1, adxbdy0) := Two_Product P adx bdy in
  let '(bdxady1, bdxady0) := Two_Product P bdx ady in
  let ab := set4 local (Two_Two_Diff adxbdy1 adxbdy0 bdxady1 bdxady0) in
  let '(cxablen, cxab) := scale_expansion_zeroelim P 4 ab cdx local in
  let '(cxxablen, cxxab) :=
    scale_expansion_zeroelim P cxablen cxab cdx local in
  let '(cyablen, cyab) := scale_expansion_zeroelim P 4 ab cdy local in
  let '(cyyablen, cyyab) :=
    scale_expansion_zeroelim P cyablen cyab cdy local in
  let '(clen, cdet) :=
    fast_expansion_sum_zeroelim cxxablen cxxab cyyablen cyyab local in

  let '(ablen, abdet) :=
    fast_expansion_sum_zeroelim alen adet blen bdet local in
  let '(finlength, fin1) :=
    fast_expansion_sum_zeroelim ablen abdet clen cdet local in

  let det := estimate finlength fin1 in
  let errbound := iccerrboundB P * permanent in
  if beyond det errbound then det else

  let adxtail := Two_Diff_Tail (pa 0%Z) (pd 0%Z) adx in
  let adytail := Two_Diff_Tail (pa 1%Z) (pd 1%Z) ady in
  let bdxtail := Two_Diff_Tail (pb 0%Z) (pd 0%Z) bdx in
  let bdytail := Two_Diff_Tail (pb 1%Z) (pd 1%Z) bdy in
  let cdxtail := Two_Diff_Tail (pc 0%Z) (pd 0%Z) cdx in
  let cdytail := Two_Diff_Tail (pc 1%Z) (pd 1%Z) cdy in
  if (adxtail ==? Dbl.zero) && (bdxtail ==? Dbl.zero)
     && (cdxtail ==? Dbl.zero) && (adytail ==? Dbl.zero)
     && (bdytail ==? Dbl.zero) && (cdytail ==? Dbl.zero)
  then det else

  let errbound :=
    iccerrboundC P * permanent + resulterrbound P * Absolute det in
  let det :=
    det
    + (((adx * adx + ady * ady)
        * ((bdx * cdytail + cdy * bdxtail)
           - (bdy * cdxtail + cdx * bdytail))
        + Dbl.two * (adx * adxtail + ady * adytail)
          * (bdx * cdy - bdy * cdx))
       + ((bdx * bdx + bdy * bdy)
          * ((cdx * adytail + ady * cdxtail)
             - (cdy * adxtail + adx * cdytail))
          + Dbl.two * (bdx * bdxtail + bdy * bdytail)
            * (cdx * ady - cdy * adx))
       + ((cdx * cdx + cdy * cdy)
          * ((adx * bdytail + bdy * adxtail)
             - (ady * bdxtail + bdx * adytail))
          + Dbl.two * (cdx * cdxtail + cdy * cdytail)
            * (adx * bdy - ady * bdx))) in
  if beyond det errbound then det else

  (* finnow = fin1; finother = fin2; *)
  let fin : fin_state := (finlength, fin1, local) in

  let a_tail := (adxtail !=? Dbl.zero) || (adytail !=? Dbl.zero) in
  let b_tail := (bdxtail !=? Dbl.zero) || (bdytail !=? Dbl.zero) in
  let c_tail := (cdxtail !=? Dbl.zero) || (cdytail !=? Dbl.zero) in

  (* if ((bdxtail != 0.0) || (bdytail != 0.0)
         || (cdxtail != 0.0) || (cdytail != 0.0)) *)
  let aa :=
    if b_tail || c_tail then
      let '(adxadx1, adxadx0) := Square P adx in
      let '(adyady1, adyady0) := Square P ady in
      set4 local (Two_Two_Sum adxadx1 adxadx0 adyady1 adyady0)
    else local in
  (* if ((cdxtail != 0.0) || (cdytail != 0.0)
         || (adxtail != 0.0) || (adytail != 0.0)) *)
  let bb :=
    if c_tail || a_tail then
      let '(bdxbdx1, bdxbdx0) := Square P bdx in
      let '(bdybdy1, bdybdy0) := Square P bdy in
      set4 local (Two_Two_Sum bdxbdx1 bdxbdx0 bdybdy1 bdybdy0)
    else local in
  (* if ((adxtail != 0.0) || (adytail != 0.0)
         || (bdxtail != 0.0) || (bdytail != 0.0)) *)
  let cc :=
    if a_tail || b_tail then
      let '(cdxcdx1, cdxcdx0) := Square P cdx in
      let '(cdycdy1, cdycdy0) := Square P cdy in
      set4 local (Two_Two_Sum cdxcdx1 cdxcdx0 cdycdy1 cdycdy0)
    else local in

  (* An [int] or an array that a skipped block leaves unset is shown as
     0 or [local]; it is read under the same guard only. *)
  let unset : Z * buf := (0%Z, local) in

  let '(fin, axtbc) :=
    if adxtail !=? Dbl.zero
    then tail_block bc adxtail adx cc bdy bb (- cdy) fin
    else (fin, unset) in
  let '(fin, aytbc) :=
    if adytail !=? Dbl.zero
    then tail_block bc adytail ady bb cdx cc (- bdx) fin
    else (fin, unset) in
  let '(fin, bxtca) :=
    if bdxtail !=? Dbl.zero
    then tail_block ca bdxtail bdx aa cdy cc (- ady) fin
    else (fin, unset) in
  let '(fin, bytca) :=
    if bdytail !=? Dbl.zero
    then tail_block ca bdytail bdy cc adx aa (- cdx) fin
    else (fin, unset) in
  let '(fin, cxtab) :=
    if cdxtail !=? Dbl.zero
    then tail_block ab cdxtail cdx bb ady aa (- bdy) fin
    else (fin, unset) in
  let '(fin, cytab) :=
    if cdytail !=? Dbl.zero
    then tail_block ab cdytail cdy aa bdx bb (- adx) fin
    else (fin, unset) in

  let u := local in
  let v := local in

  let '(fin, (u, v)) :=
    if a_tail then
      let '(bct, bctt, uv) :=
        cross_tails (b_tail || c_tail)
          bdx bdy bdxtail bdytail cdx cdy cdxtail cdytail u v in
      let fin :=
        if adxtail !=? Dbl.zero
        then second_order axtbc bct bctt adxtail adx
               (x_tail_mid adxtail bdytail cdytail cc bb) fin
        else fin in
      let fin :=
        if adytail !=? Dbl.zero
        then second_order aytbc bct bctt adytail ady (fun fin => fin) fin
        else fin in
      (fin, uv)
    else (fin, (u, v)) in
  let '(fin, (u, v)) :=
    if b_tail then
      let '(cat, catt, uv) :=
        cross_tails (c_tail || a_tail)
          cdx cdy cdxtail cdytail adx ady adxtail adytail u v in
      let fin :=
        if bdxtail !=? Dbl.zero
        then second_order bxtca cat catt bdxtail bdx
               (x_tail_mid bdxtail cdytail adytail aa cc) fin
        else fin in
      let fin :=
        if bdytail !=? Dbl.zero
        then second_order bytca cat catt bdytail bdy (fun fin => fin) fin
        else fin in
      (fin, uv)
    else (fin, (u, v)) in
  let '(fin, _) :=
    if c_tail then
      let '(abt, abtt, uv) :=
        cross_tails (a_tail || b_tail)
          adx ady adxtail adytail bdx bdy bdxtail bdytail u v in
      let fin :=
        if cdxtail !=? Dbl.zero
        then second_order cxtab abt abtt cdxtail cdx
               (x_tail_mid cdxtail adytail bdytail bb aa) fin
        else fin in
      let fin :=
        if cdytail !=? Dbl.zero
        then second_order cytab abt abtt cdytail cdy (fun fin => fin) fin
        else fin in
      (fin, uv)
    else (fin, (u, v)) in

  let '(finlength, finnow, _) := fin in
  finnow (finlength - 1)%Z.

(** [tREAL Predicates::incircle(pa, pb, pc, pd)] *)
Definition incircle (pa pb pc pd : buf) : tREAL :=
  let adx := pa 0%Z - pd 0%Z in
  let bdx := pb 0%Z - pd 0%Z in
  let cdx := pc 0%Z - pd 0%Z in
  let ady := pa 1%Z - pd 1%Z in
  let bdy := pb 1%Z - pd 1%Z in
  let cdy := pc 1%Z - pd 1%Z in

  let bdxcdy := bdx * cdy in
  let cdxbdy := cdx * bdy in
  let alift := adx * adx + ady * ady in

  let cdxady := cdx * ady in
  let adxcdy := adx * cdy in
  let blift := bdx * bdx + bdy * bdy in

  let adxbdy := adx * bdy in
  let bdxady := bdx * ady in
  let clift := cdx * cdx + cdy * cdy in

  let det :=
    alift * (bdxcdy - cdxbdy)
    + blift * (cdxady - adxcdy)
    + clift * (adxbdy - bdxady) in

  let permanent :=
    (Absolute bdxcdy + Absolute cdxbdy) * alift
    + (Absolute cdxady + Absolute adxcdy) * blift
    + (Absolute adxbdy + Absolute bdxady) * clift in
  let errbound := iccerrboundA P * permanent in
  if (det >? errbound) || (- det >? errbound) then det
  else incircleadapt pa pb pc pd permanent.

End InCircle.

(** ** The exact quantities the predicates stand for *)

Local Open Scope Q_scope.

(** The determinant whose sign [orient2d] is to return, over the rationals:
    [(a.x - c.x) * (b.y - c.y) - (a.y - c.y) * (b.x - c.x)], positive when
    [a], [b], [c] turn counterclockwise. *)
Definition orient2d_exact (pa pb pc : buf) : Q :=
  let v := Dbl.value in
  (v (pa 0%Z) - v (pc 0%Z)) * (v (pb 1%Z) - v (pc 1%Z))
  - (v (pa 1%Z) - v (pc 1%Z)) * (v (pb 0%Z) - v (pc 0%Z)).

(** The circle through three points that are not collinear: its centre
    [(ux, uy)], by the perpendicular bisectors, and the squared distance of
    a point to it. *)
Definition circumcentre (pa pb pc : buf) : Q * Q :=
  let v := Dbl.value in
  let '(ax, ay) := (v (pa 0%Z), v (pa 1%Z)) in
  let '(bx, by_) := (v (pb 0%Z), v (pb 1%Z)) in
  let '(cx, cy) := (v (pc 0%Z), v (pc 1%Z)) in
  let a2 := ax * ax + ay * ay in
  let b2 := bx * bx + by_ * by_ in
  let c2 := cx * cx + cy * cy in
  let d := 2 * (ax * (by_ - cy) + bx * (cy - ay) + cx * (ay - by_)) in
  ((a2 * (by_ - cy) + b2 * (cy - ay) + c2 * (ay - by_)) / d,
   (a2 * (cx - bx) + b2 * (ax - cx) + c2 * (bx - ax)) / d).

Definition dist2 (centre : Q * Q) (p : buf) : Q :=
  let '(ux, uy) := centre in
  let dx := Dbl.value (p 0%Z) - ux in
  let dy := Dbl.value (p 1%Z) - uy in
  dx * dx + dy * dy.

(** [pd] lies strictly inside, or strictly outside, the circle through
    [pa], [pb] and [pc]. *)
Definition strictly_inside (pa pb pc pd : buf) : Prop :=
  let o := circumcentre pa pb pc in dist2 o pd < dist2 o pa.

Definition strictly_outside (pa pb pc pd : buf) : Prop :=
  let o := circumcentre pa pb pc in dist2 o pa < dist2 o pd.

(** The determinant whose sign [incircle] is to return, over the
    rationals. *)
Definition incircle_exact (pa pb pc pd : buf) : Q :=
  let v := Dbl.value in
  let adx := v (pa 0%Z) - v (pd 0%Z) in
  let ady := v (pa 1%Z) - v (pd 1%Z) in
  let bdx := v (pb 0%Z) - v (pd 0%Z) in
  let bdy := v (pb 1%Z) - v (pd 1%Z) in
  let cdx := v (pc 0%Z) - v (pd 0%Z) in
  let cdy := v (pc 1%Z) - v (pd 1%Z) in
  (adx * adx + ady * ady) * (bdx * cdy - cdx * bdy)
  + (bdx * bdx + bdy * bdy) * (cdx * ady - adx * cdy)
  + (cdx * cdx + cdy * cdy) * (adx * bdy - bdx * ady).

Local Close Scope Q_scope.

(** A double is positive, negative or zero exactly when a rational is: what
    a predicate owes the quantity it stands for. *)
Definition sign_agrees (r : tREAL) (q : Q) : Prop :=
  (Dbl.gt r Dbl.zero = true <-> (0 < q)%Q) /\
  (Dbl.lt r Dbl.zero = true <-> (q < 0)%Q) /\
  (Dbl.eq r Dbl.zero = true <-> (q == 0)%Q).

(** A power of two, among the doubles. *)
Fixpoint pos_power_of_two (m : positive) : bool :=
  match m with
  | xH => true
  | xO m' => pos_power_of_two m'
  | xI _ => false
  end.

Definition power_of_two (x : tREAL) : bool :=
  match x with
  | S754_finite false m _ => pos_power_of_two m
  | _ => false
  end.

(** The sum of the first [n] components of an expansion, over the
    rationals. *)
Fixpoint sum_cells (n : nat) (h : buf) : Q :=
  match n with
  | O => 0%Q
  | S n' => (sum_cells n' h + Dbl.value (h (Z.of_nat n')))%Q
  end.

Definition expansion_value (len : Z) (h : buf) : Q :=
  sum_cells (Z.to_nat len) h.

(** The first [n] components of an expansion are finite. *)
Fixpoint finite_cells (n : nat) (h : buf) : bool :=
  match n with
  | O => true
  | S n' => finite_cells n' h && Dbl.is_finite (h (Z.of_nat n'))
  end.

Definition expansion_finite (len : Z) (h : buf) : bool :=
  finite_cells (Z.to_nat len) h.

(** Two results are the same double: the same bits, a zero of either sign
    standing for the other. *)
Definition same_double (x y : tREAL) : Prop :=
  x = y \/ (Dbl.eq x Dbl.zero = true /\ Dbl.eq y Dbl.zero = true).

(** The first stage of [orient2d]: the value it returns there, or [None]
    when it goes on to [orient2dadapt]. *)
Definition orient2d_first_stage (P : Predicates) (pa pb pc : buf)
  : option tREAL :=
  let detleft := (pa 0%Z - pc 0%Z) * (pb 1%Z - pc 1%Z) in
  let detright := (pa 1%Z - pc 1%Z) * (pb 0%Z - pc 0%Z) in
  let det := detleft - detright in
  match sign_chain detleft detright with
  | None => Some det
  | Some detsum =>
      if beyond det (ccwerrboundA P * detsum) then Some det else None
  end.

Definition is_nan (x : tREAL) : bool :=
  match x with
  | S754_nan => true
  | _ => false
  end.

(** ** Error-free steps

    A [Two_Sum] or a [Two_Product_Presplit] is error-free on its operands
    when its two results are finite and add up, over the rationals, to the
    sum or the product of the operands. *)

Definition error_free_sum (a b : tREAL) : bool :=
  let '(x, y) := Two_Sum a b in
  Dbl.is_finite a && Dbl.is_finite b && Dbl.is_finite x && Dbl.is_finite y
  && Qeq_bool (Dbl.value x + Dbl.value y) (Dbl.value a + Dbl.value b).

Definition error_free_product (P : Predicates) (a b : tREAL) : bool :=
  let '(bhi, blo) := tSPLIT P b in
  let '(x, y) := Two_Product_Presplit P a b bhi blo in
  Dbl.is_finite a && Dbl.is_finite b && Dbl.is_finite x && Dbl.is_finite y
  && Qeq_bool (Dbl.value x + Dbl.value y) (Dbl.value a * Dbl.value b).

(** Every [Two_Sum] that [grow_expansion(elen, e, b, h)] evaluates is
    error-free: the loop of [grow_expansion], keeping the conjunction of
    the checks in place of the output. *)
Definition grow_expansion_error_free (elen : Z) (e : buf) (b : tREAL)
  : bool :=
  let Q := b in
  let '(_, (Q, ok)) :=
    for_range 0 elen
      (fun eindex '(Q, ok) =>
         let enow := e eindex in
         let '(Qnew, hh) := Two_Sum Q enow in
         (Qnew, ok && error_free_sum Q enow))
      (Q, true) in
  ok.

(** Every [Two_Sum] that [expansion_sum(elen, e, flen, f, h)] evaluates is
    error-free: the loops of [expansion_sum], with the conjunction of the
    checks next to the output (which the second phase reads back). *)
Definition expansion_sum_error_free (elen : Z) (e : buf) (flen : Z) (f : buf)
  (h : buf) : bool :=
  let Q := f 0%Z in
  let '(hindex, (Q, h, ok)) :=
    for_range 0 elen
      (fun hindex '(Q, h, ok) =>
         let hnow := e hindex in
         let '(Qnew, hh) := Two_Sum Q hnow in
         (Qnew, upd h hindex hh, ok && error_free_sum Q hnow))
      (Q, h, true) in
  let h := upd h hindex Q in
  let hlast := hindex in
  let '(_, (hlast, h, ok)) :=
    for_range 1 flen
      (fun findex '(hlast, h, ok) =>
         let Q := f findex in
         let '(_, (Q, h, ok)) :=
           for_range findex (hlast + 1)
             (fun hindex '(Q, h, ok) =>
                let hnow := h hindex in
                let '(Qnew, hh) := Two_Sum Q hnow in
                (Qnew, upd h hindex hh, ok && error_free_sum Q hnow))
             (Q, h, ok) in
         let hlast := (hlast + 1)%Z in
         (hlast, upd h hlast Q, ok))
      (hlast, h, ok) in
  ok.

(** Every [Two_Product_Presplit] and every [Two_Sum] that
    [scale_expansion(elen, e, b, h)] evaluates is error-free. *)
Definition scale_expansion_error_free (P : Predicates) (elen : Z) (e : buf)
  (b : tREAL) : bool :=
  let '(bhi, blo) := tSPLIT P b in
  let '(Q, h0) := Two_Product_Presplit P (e 0%Z) b bhi blo in
  let ok := error_free_product P (e 0%Z) b in
  let '(_, (Q, ok)) :=
    for_range 1 elen
      (fun eindex '(Q, ok) =>
         let enow := e eindex in
         let '(product1, product0) :=
           Two_Product_Presplit P enow b bhi blo in
         let '(sum, hh) := Two_Sum Q product0 in
         let '(Q', hh') := Two_Sum product1 sum in
         (Q',
          ok && error_free_product P enow b && error_free_sum Q product0
          && error_free_sum product1 sum))
      (Q, ok) in
  ok.
Local Close Scope dbl_scope.
Local Open Scope Z_scope.

(** ** Doubles as integers

    Every finite double is an integer multiple of [2^-1074], the smallest
    positive double; sums and differences of doubles, taken exactly, are
    such multiples too.  Counting in these units turns the arithmetic of
    [double] into rounding of integers to 53 significant bits. *)

(** A well-formed double: a significand of at most 53 bits, normalised, and
    an exponent within range.  Every value that the operations return is
    one. *)
Definition valid (x : tREAL) : bool := valid_binary 53 1024 x.

(** The value of a finite double, counted in units of [2^-1074]. *)
Definition units (x : tREAL) : Z :=
  match x with
  | S754_finite s m e => cond_Zopp s (Z.pos m) * 2 ^ (e + 1074)
  | _ => 0
  end.

(** [m / 2^k], rounded to the nearest integer, a tie going to the even
    one. *)
Definition rne_div (m k : Z) : Z :=
  let q := m / 2 ^ k in
  let r := m mod 2 ^ k in
  match 2 * r ?= 2 ^ k with
  | Lt => q
  | Eq => if Z.even q then q else q + 1
  | Gt => q + 1
  end.

(** An integer rounded to 53 significant bits. *)
Definition round53 (z : Z) : Z :=
  let k := Z.max (Zdigits2 z - 53) 0 in
  Z.sgn z * (rne_div (Z.abs z) k * 2 ^ k).

(** The number of low bits that rounding to 53 bits drops. *)
Definition dropped (z : Z) : Z := Z.max (Zdigits2 z - 53) 0.

(** What [k] right shifts of the significand [m] leave in the record that
    the rounding of [spec_float] keeps: the quotient, the bit shifted out
    last, and whether a bit shifted out before it was set. *)
Definition shr_inv (m k : Z) (mrs : shr_record) : Prop :=
  shr_m mrs = m / 2 ^ k /\
  shr_r mrs = (2 ^ k <=? 2 * (m mod 2 ^ k)) /\
  shr_s mrs = negb ((m mod 2 ^ k =? 0) || (2 * (m mod 2 ^ k) =? 2 ^ k)).

(** The value that [exactinit] leaves in [splitter]. *)
Definition splitter_value : Z := 2 ^ 27 + 1.

(** The four roundings of Split ([c = splitter * a], [abig = c - a],
    [ahi = c - abig], [alo = a - ahi]), on integers. *)
Definition split_hi (m : Z) : Z :=
  let c := round53 (134217729 * m) in
  let abig := round53 (c - m) in
  round53 (c - abig).

Definition split_lo (m : Z) : Z := round53 (m - split_hi m).

(** [x] is the double [n * 2^g]. *)
Definition on_grid (g : Z) (x : tREAL) (n : Z) : Prop :=
  valid x = true /\ Dbl.is_finite x = true /\ units x = n * 2 ^ (g + 1074).

(** [p] is the point [(x * 2^g, y * 2^g)], of integers [x] and [y] of at
    most 24 bits. *)
Definition grid_point (g : Z) (p : buf) (x y : Z) : Prop :=
  on_grid g (p 0) x /\ on_grid g (p 1) y /\
  Z.abs x <= 2 ^ 24 /\ Z.abs y <= 2 ^ 24.

(** [x] is an integer of at most [bits] bits times a power of two. *)
Definition fits (bits : Z) (x : tREAL) : Prop :=
  exists n e, Z.abs n < 2 ^ bits /\ (Dbl.value x == inject_Z n * Dbl.pow2 e)%Q.

Local Open Scope dbl_scope.
(** ** The other members of the class

    The sums that keep their zero components, [compress], and the two
    approximate predicates. *)

Fixpoint for_down_loop {St : Type} (n : nat) (i : Z) (body : Z -> St -> St)
  (s : St) : Z * St :=
  match n with
  | O => (i, s)
  | S n' => for_down_loop n' (i - 1)%Z body (body i s)
  end.

(** [for (i = hi; i >= lo; i--) body]: the index on exit, and the state. *)
Definition for_down {St : Type} (hi lo : Z) (body : Z -> St -> St)
  (s : St) : Z * St :=
  for_down_loop (Z.to_nat (hi - lo + 1)) hi body s.

Section FastSumPlain.

Variables (elen : Z) (e : buf) (flen : Z) (f : buf).

(** <<
      if ((fnow > enow) == (fnow > -enow)) {
        Fast_Two_Sum(enow, Q, Qnew, h[0]);
        enow = e[++eindex];
      } else {
        Fast_Two_Sum(fnow, Q, Qnew, h[0]);
        fnow = f[++findex];
      }
      Q = Qnew;
      hindex = 1;
>> *)
Definition merge_first (s : merge_state) : merge_state :=
  if e_is_next (m_enow s) (m_fnow s) then
    let '(Qnew, hh) := Fast_Two_Sum (m_enow s) (m_Q s) in
    let eindex := (m_eindex s + 1)%Z in
    {| m_Q := Qnew; m_enow := e eindex; m_fnow := m_fnow s;
       m_eindex := eindex; m_findex := m_findex s;
       m_hindex := 1; m_h := upd (m_h s) 0 hh |}
  else
    let '(Qnew, hh) := Fast_Two_Sum (m_fnow s) (m_Q s) in
    let findex := (m_findex s + 1)%Z in
    {| m_Q := Qnew; m_enow := m_enow s; m_fnow := f findex;
       m_eindex := m_eindex s; m_findex := findex;
       m_hindex := 1; m_h := upd (m_h s) 0 hh |}.

(** <<
      if ((fnow > enow) == (fnow > -enow)) {
        Two_Sum(Q, enow, Qnew, h[hindex]);
        enow = e[++eindex];
      } else {
        Two_Sum(Q, fnow, Qnew, h[hindex]);
        fnow = f[++findex];
      }
      Q = Qnew;
      hindex++;
>> *)
Definition merge_step (s : merge_state) : merge_state :=
  if e_is_next (m_enow s) (m_fnow s) then
    let '(Qnew, hh) := Two_Sum (m_Q s) (m_enow s) in
    let eindex := (m_eindex s + 1)%Z in
    {| m_Q := Qnew; m_enow := e eindex; m_fnow := m_fnow s;
       m_eindex := eindex; m_findex := m_findex s;
       m_hindex := (m_hindex s + 1)%Z;
       m_h := upd (m_h s) (m_hindex s) hh |}
  else
    let '(Qnew, hh) := Two_Sum (m_Q s) (m_fnow s) in
    let findex := (m_findex s + 1)%Z in
    {| m_Q := Qnew; m_enow := m_enow s; m_fnow := f findex;
       m_eindex := m_eindex s; m_findex := findex;
       m_hindex := (m_hindex s + 1)%Z;
       m_h := upd (m_h s) (m_hindex s) hh |}.

(** <<
      Two_Sum(Q, enow, Qnew, h[hindex]);
      enow = e[++eindex];
      Q = Qnew;
      hindex++;
>> *)
Definition drain_e (s : merge_state) : merge_state :=
  let '(Qnew, hh) := Two_Sum (m_Q s) (m_enow s) in
  let eindex := (m_eindex s + 1)%Z in
  {| m_Q := Qnew; m_enow := e eindex; m_fnow := m_fnow s;
     m_eindex := eindex; m_findex := m_findex s;
     m_hindex := (m_hindex s + 1)%Z;
     m_h := upd (m_h s) (m_hindex s) hh |}.

(** <<
      Two_Sum(Q, fnow, Qnew, h[hindex]);
      fnow = f[++findex];
      Q = Qnew;
      hindex++;
>> *)
Definition drain_f (s : merge_state) : merge_state :=
  let '(Qnew, hh) := Two_Sum (m_Q s) (m_fnow s) in
  let findex := (m_findex s + 1)%Z in
  {| m_Q := Qnew; m_enow := m_enow s; m_fnow := f findex;
     m_eindex := m_eindex s; m_findex := findex;
     m_hindex := (m_hindex s + 1)%Z;
     m_h := upd (m_h s) (m_hindex s) hh |}.

(** [int Predicates::fast_expansion_sum(elen, e, flen, f, h)]:
<<
      (opening)
      hindex = 0;
      if ((eindex < elen) && (findex < flen)) {
        (first merging turn)
        while ((eindex < elen) && (findex < flen)) { (merging turn) }
      }
      while (eindex < elen) { (turn on e) }
      while (findex < flen) { (turn on f) }
      h[hindex] = Q;
      return hindex + 1;
>> *)
Definition fast_expansion_sum (h : buf) : Z * buf :=
  let s := merge_start e f h in
  let s :=
    if both_left elen flen s then
      while_loop (merge_fuel elen flen) (both_left elen flen) merge_step
        (merge_first s)
    else s in
  let s :=
    while_loop (merge_fuel elen flen) (fun s => (m_eindex s <? elen)%Z)
      drain_e s in
  let s :=
    while_loop (merge_fuel elen flen) (fun s => (m_findex s <? flen)%Z)
      drain_f s in
  let h := upd (m_h s) (m_hindex s) (m_Q s) in
  ((m_hindex s + 1)%Z, h).

(** [int Predicates::linear_expansion_sum(elen, e, flen, f, h)]:
<<
      (opening, into g0)
      (take with g0: Fast_Two_Sum(.., g0, Qnew, q))
      Q = Qnew;
      for (hindex = 0; hindex < elen + flen - 2; hindex++) {
        (take with q: Fast_Two_Sum(.., q, R, h[hindex]))
        Two_Sum(Q, R, Qnew, q);
        Q = Qnew;
      }
      h[hindex] = q;
      h[hindex + 1] = Q;
      return hindex + 2;
>>
    The loop counter is [hindex] itself; the [m_hindex] of the state is not
    used. *)
Definition linear_expansion_sum (h : buf) : Z * buf :=
  let s := merge_start e f h in
  let g0 := m_Q s in
  let '(Qnew, q, s) := linear_take elen e flen f g0 s in
  let Q := Qnew in
  let '(hindex, (Q, q, s)) :=
    for_range 0 (elen + flen - 2)
      (fun hindex '(Q, q, s) =>
         let '(R, hh, s) := linear_take elen e flen f q s in
         let h := upd (m_h s) hindex hh in
         let '(Qnew, q) := Two_Sum Q R in
         (Qnew, q,
          {| m_Q := m_Q s; m_enow := m_enow s; m_fnow := m_fnow s;
             m_eindex := m_eindex s; m_findex := m_findex s;
             m_hindex := m_hindex s; m_h := h |}))
      (Q, q, s) in
  let h := upd (m_h s) hindex q in
  let h := upd h (hindex + 1) Q in
  ((hindex + 2)%Z, h).

End FastSumPlain.

(** [int Predicates::compress(elen, e, h)]:
<<
      bottom = elen - 1;
      Q = e[bottom];
      for (eindex = elen - 2; eindex >= 0; eindex--) {
        enow = e[eindex];
        Fast_Two_Sum(Q, enow, Qnew, q);
        if (q != 0) {
          h[bottom--] = Qnew;
          Q = q;
        } else {
          Q = Qnew;
        }
      }
      top = 0;
      for (hindex = bottom + 1; hindex < elen; hindex++) {
        hnow = h[hindex];
        Fast_Two_Sum(hnow, Q, Qnew, q);
        if (q != 0) { h[top++] = q; }
        Q = Qnew;
      }
      h[top] = Q;
      return top + 1;
>> *)
Definition compress (elen : Z) (e : buf) (h : buf) : Z * buf :=
  let bottom := (elen - 1)%Z in
  let Q := e bottom in
  let '(_, (Q, (bottom, h))) :=
    for_down (elen - 2) 0
      (fun eindex '(Q, (bottom, h)) =>
         let enow := e eindex in
         let '(Qnew, q) := Fast_Two_Sum Q enow in
         if q !=? Dbl.zero
         then (q, ((bottom - 1)%Z, upd h bottom Qnew))
         else (Qnew, (bottom, h)))
      (Q, (bottom, h)) in
  let top := 0%Z in
  let '(_, (Q, (top, h))) :=
    for_range (bottom + 1) elen
      (fun hindex '(Q, (top, h)) =>
         let hnow := h hindex in
         let '(Qnew, q) := Fast_Two_Sum hnow Q in
         (Qnew, put_nonzero q top h))
      (Q, (top, h)) in
  let h := upd h top Q in
  ((top + 1)%Z, h).

(** [compress] run in place, [h] being [e] itself: every read of [e] is a
    read of the array as the earlier turns have left it. *)
Definition compress_in_place (elen : Z) (h : buf) : Z * buf :=
  let bottom := (elen - 1)%Z in
  let Q := h bottom in
  let '(_, (Q, (bottom, h))) :=
    for_down (elen - 2) 0
      (fun eindex '(Q, (bottom, h)) =>
         let enow := h eindex in
         let '(Qnew, q) := Fast_Two_Sum Q enow in
         if q !=? Dbl.zero
         then (q, ((bottom - 1)%Z, upd h bottom Qnew))
         else (Qnew, (bottom, h)))
      (Q, (bottom, h)) in
  let top := 0%Z in
  let '(_, (Q, (top, h))) :=
    for_range (bottom + 1) elen
      (fun hindex '(Q, (top, h)) =>
         let hnow := h hindex in
         let '(Qnew, q) := Fast_Two_Sum hnow Q in
         (Qnew, put_nonzero q top h))
      (Q, (top, h)) in
  let h := upd h top Q in
  ((top + 1)%Z, h).

(** [tREAL Predicates::orient2dfast(pa, pb, pc)]:
<<
      acx = pa[0] - pc[0];
      bcx = pb[0] - pc[0];
      acy = pa[1] - pc[1];
      bcy = pb[1] - pc[1];
      return acx * bcy - acy * bcx;
>> *)
Definition orient2dfast (pa pb pc : buf) : tREAL :=
  let acx := pa 0%Z - pc 0%Z in
  let bcx := pb 0%Z - pc 0%Z in
  let acy := pa 1%Z - pc 1%Z in
  let bcy := pb 1%Z - pc 1%Z in
  acx * bcy - acy * bcx.

(** [tREAL Predicates::incirclefast(pa, pb, pc, pd)]:
<<
      adx = pa[0] - pd[0];
      ady = pa[1] - pd[1];
      bdx = pb[0] - pd[0];
      bdy = pb[1] - pd[1];
      cdx = pc[0] - pd[0];
      cdy = pc[1] - pd[1];

      abdet = adx * bdy - bdx * ady;
      bcdet = bdx * cdy - cdx * bdy;
      cadet = cdx * ady - adx * cdy;
      alift = adx * adx + ady * ady;
      blift = bdx * bdx + bdy * bdy;
      clift = cdx * cdx + cdy * cdy;

      return alift * bcdet + blift * cadet + clift * abdet;
>> *)
Definition incirclefast (pa pb pc pd : buf) : tREAL :=
  let adx := pa 0%Z - pd 0%Z in
  let ady := pa 1%Z - pd 1%Z in
  let bdx := pb 0%Z - pd 0%Z in
  let bdy := pb 1%Z - pd 1%Z in
  let cdx := pc 0%Z - pd 0%Z in
  let cdy := pc 1%Z - pd 1%Z in

  let abdet := adx * bdy - bdx * ady in
  let bcdet := bdx * cdy - cdx * bdy in
  let cadet := cdx * ady - adx * cdy in
  let alift := adx * adx + ady * ady in
  let blift := bdx * bdx + bdy * bdy in
  let clift := cdx * cdx + cdy * cdy in

  alift * bcdet + blift * cadet + clift * abdet.


Local Close Scope dbl_scope.
Local Open Scope Z_scope.

(** ** Output buffers *)

(** [outside n h h0]: the buffers [h] and [h0] hold the same values in every
    cell that is not one of the cells [0 .. n-1]. *)
Definition outside (n : Z) (h h0 : buf) : Prop :=
  forall i, i < 0 \/ n <= i -> h i = h0 i.

(** [agree n h h']: the cells [0 .. n-1] of the two buffers hold the same
    values. *)
Definition agree (n : Z) (h h' : buf) : Prop :=
  forall i, 0 <= i < n -> h i = h' i.

(** Two results of a call, run on two output buffers, are the same output:
    the same length, and the same components below it.  When this holds
    whatever the buffers held before, the call has written every component
    that it returns. *)
Definition same_out (r r' : Z * buf) : Prop :=
  fst r = fst r' /\ agree (fst r) (snd r) (snd r').

(** The same, for an output under construction at a position [hindex >= 0]. *)
Definition same_so_far (r r' : Z * buf) : Prop :=
  fst r = fst r' /\ 0 <= fst r /\ agree (fst r) (snd r) (snd r').

(** What a call returns when its output buffer is [h]: at least one
    component, and the same output as with any other buffer [h']. *)
Definition keeps_one (call : buf -> Z * buf) : Prop :=
  forall h h', 1 <= fst (call h) /\ same_out (call h) (call h').

(** Two runs of a merging sum on two output buffers: the same locals, and
    the same output so far. *)
Definition merge_same (s s' : merge_state) : Prop :=
  m_Q s = m_Q s' /\ m_enow s = m_enow s' /\ m_fnow s = m_fnow s' /\
  m_eindex s = m_eindex s' /\ m_findex s = m_findex s' /\
  same_so_far (m_hindex s, m_h s) (m_hindex s', m_h s').


(** ** Inputs for concrete runs *)

(** Two expansions whose sums round: [2^-60 + 1] and [3 * 2^-70 + 5], and
    the double nearest to one tenth. *)
Definition e_demo : buf := of_list [Dbl.scaled 1 (-60); Dbl.one].
Definition f_demo : buf := of_list [Dbl.scaled 3 (-70); Dbl.of_Z 5].
Definition tenth : tREAL := Dbl.scaled 3602879701896397 (-55).

Local Open Scope dbl_scope.
Local Close Scope dbl_scope.
Local Open Scope Z_scope.

(** ** Invariants of the merging sums *)

(** A merging sum under way: the indices are within the inputs, at least
    one component is taken, the output holds at most one component less
    than are taken, and only its first [m_hindex] cells are written. *)
Definition merge_inv (elen flen : Z) (h0 : buf) (s : merge_state) : Prop :=
  0 <= m_eindex s <= elen /\ 0 <= m_findex s <= flen /\
  1 <= m_eindex s + m_findex s /\
  0 <= m_hindex s <= m_eindex s + m_findex s - 1 /\
  outside (m_hindex s) (m_h s) h0.

(** The output holds exactly one component less than are taken. *)
Definition merge_full (s : merge_state) : Prop :=
  m_hindex s = m_eindex s + m_findex s - 1.

(** A call that was given the output buffer [h0] has returned a length
    between 1 and [n], and has written no cell other than
    [h[0 .. n-1]]. *)
Definition within (n : Z) (r : Z * buf) (h0 : buf) : Prop :=
  1 <= fst r <= n /\ outside n (snd r) h0.

(** An output under construction: [hindex] components, at most [n], in the
    first [hindex] cells. *)
Definition so_far (n : Z) (r : Z * buf) (h0 : buf) : Prop :=
  0 <= fst r <= n /\ outside (fst r) (snd r) h0.

(** Every component of [r] below the index [n] compares unequal to zero. *)
Definition nonzero_below (n : Z) (h : buf) : Prop :=
  forall i, 0 <= i < n -> Dbl.ne (h i) Dbl.zero = true.

(** An output that holds no zero: every component compares unequal to
    zero, unless the output is a single component. *)
Definition zero_free (r : Z * buf) : Prop :=
  2 <= fst r -> nonzero_below (fst r) (snd r).

(** A point of the grid of spacing [2^g] whose coordinates are at most
    [2^11] steps from the origin. *)
Definition near_grid_point (g : Z) (p : buf) (x y : Z) : Prop :=
  on_grid g (p 0) x /\ on_grid g (p 1) y /\
  Z.abs x <= 2 ^ 11 /\ Z.abs y <= 2 ^ 11.

(** Two outputs have the same value: their components add up, over the
    rationals, to the same sum. *)
Definition same_value (r r' : Z * buf) : Prop :=
  (expansion_value (fst r) (snd r) == expansion_value (fst r') (snd r'))%Q.

(** Two runs of a merging sum, one dropping the zero tails and one storing
    them: the same locals, and outputs of the same value so far. *)
Definition merge_same_value (s s' : merge_state) : Prop :=
  m_Q s = m_Q s' /\ m_enow s = m_enow s' /\ m_fnow s = m_fnow s' /\
  m_eindex s = m_eindex s' /\ m_findex s = m_findex s' /\
  0 <= m_hindex s /\ 0 <= m_hindex s' /\
  same_value (m_hindex s, m_h s) (m_hindex s', m_h s').

(** Two runs of a merging sum that are at the same point of their inputs. *)
Definition merge_same_locals (s s' : merge_state) : Prop :=
  m_enow s = m_enow s' /\ m_fnow s = m_fnow s' /\
  m_eindex s = m_eindex s' /\ m_findex s = m_findex s'.

(** Two runs of a merging sum on inputs that agree below [elen] and
    [flen]: the same sum, indices and output, and the same head of each
    input that is not used up. *)
Definition merge_reads_same (elen flen : Z) (s s' : merge_state) : Prop :=
  m_Q s = m_Q s' /\ m_eindex s = m_eindex s' /\ m_findex s = m_findex s' /\
  m_hindex s = m_hindex s' /\ m_h s = m_h s' /\
  0 <= m_eindex s <= elen /\ 0 <= m_findex s <= flen /\
  (m_eindex s < elen -> m_enow s = m_enow s') /\
  (m_findex s < flen -> m_fnow s = m_fnow s').

(** ** The macros on integers

    The steps of [Two_Sum] and of [Two_Product_Presplit] on the counts in
    units of two doubles, each rounded to 53 bits as the double operation
    rounds. *)

(** An integer that rounding to 53 bits leaves alone. *)
Definition representable (z : Z) : Prop := round53 z = z.

(** The tail [y] of [Two_Sum(a, b, x, y)]. *)
Definition two_sum_tail (a b : Z) : Z :=
  let x := round53 (a + b) in
  let bvirt := round53 (x - a) in
  let avirt := round53 (x - bvirt) in
  let bround := round53 (b - bvirt) in
  let around := round53 (a - avirt) in
  round53 (around + bround).

(** The bit from which the high half of a significand starts. *)
Definition half_bit (m : Z) : Z := Z.max (Zdigits2 m - 26) 0.

(** The tail [y] of [Two_Product(a, b, x, y)]. *)
Definition two_product_tail (a b : Z) : Z :=
  let x := round53 (a * b) in
  let err1 := round53 (x - round53 (split_hi a * split_hi b)) in
  let err2 := round53 (err1 - round53 (split_lo a * split_hi b)) in
  let err3 := round53 (err2 - round53 (split_hi a * split_lo b)) in
  round53 (round53 (split_lo a * split_lo b) - err3).

(** A finite double of magnitude at most [2^k]. *)
Definition magnitude_le (k : Z) (x : tREAL) : Prop :=
  valid x = true /\ Dbl.is_finite x = true /\
  Z.abs (units x) <= 2 ^ (k + 1074).

(** A double that is an integer multiple of [2^g]. *)
Definition multiple_of (g : Z) (x : tREAL) : Prop :=
  (2 ^ (g + 1074) | units x).

(** An expansion on a grid whose components below the last are zero: the
    last component is [n * 2^g]. *)
Definition grid_expansion (g : Z) (len : Z) (h : buf) (n : Z) : Prop :=
  1 <= len /\ (forall i, 0 <= i < len - 1 -> on_grid g (h i) 0) /\
  on_grid g (h (len - 1)) n.

Local Open Scope dbl_scope.

(** * Properties *)

Local Close Scope dbl_scope.
Local Open Scope Z_scope.

(** The macros stay folded in the proofs that do not look into them. *)
Arguments Two_Sum : simpl never.
Arguments Fast_Two_Sum : simpl never.
Arguments Two_Diff : simpl never.
Arguments Two_Diff_Tail : simpl never.
Arguments tSPLIT : simpl never.
Arguments Two_Product : simpl never.
Arguments Two_Product_Presplit : simpl never.
Arguments Square : simpl never.

(** ** Loops *)

Lemma for_loop_index {St : Type} (n : nat) (i : Z) (body : Z -> St -> St)
  (s : St) :
  fst (for_loop n i body s) = (i + Z.of_nat n)%Z.
Proof.
  revert i s; induction n as [|n IH]; intros i s; simpl.
  - lia.
  - rewrite IH. lia.
Qed.

(** The invariant rule of a [for] loop. *)
Lemma for_loop_inv {St : Type} (Inv : Z -> St -> Prop) (n : nat) (i : Z)
  (body : Z -> St -> St) (s : St) :
  Inv i s ->
  (forall k t, (i <= k < i + Z.of_nat n)%Z -> Inv k t ->
               Inv (k + 1)%Z (body k t)) ->
  Inv (i + Z.of_nat n)%Z (snd (for_loop n i body s)).
Proof.
  revert i s; induction n as [|n IH]; intros i s H0 Hstep; simpl.
  - replace (i + 0)%Z with i by lia. exact H0.
  - replace (i + Z.pos (Pos.of_succ_nat n))%Z with (i + 1 + Z.of_nat n)%Z
      by lia.
    apply IH.
    + apply Hstep; [lia | exact H0].
    + intros k t Hk. apply Hstep. lia.
Qed.

Lemma for_range_index {St : Type} (lo hi : Z) (body : Z -> St -> St)
  (s : St) :
  fst (for_range lo hi body s) = Z.max lo hi.
Proof. unfold for_range. rewrite for_loop_index. lia. Qed.

Lemma for_range_inv {St : Type} (Inv : Z -> St -> Prop) (lo hi : Z)
  (body : Z -> St -> St) (s : St) :
  Inv lo s ->
  (forall k t, (lo <= k < hi)%Z -> Inv k t -> Inv (k + 1)%Z (body k t)) ->
  Inv (Z.max lo hi) (snd (for_range lo hi body s)).
Proof.
  intros H0 Hstep. unfold for_range.
  replace (Z.max lo hi) with (lo + Z.of_nat (Z.to_nat (hi - lo)))%Z by lia.
  apply for_loop_inv; [exact H0|].
  intros k t Hk. apply Hstep. lia.
Qed.

(** A loop seen as its exit index and its final state. *)
Lemma for_range_spec {St : Type} (Inv : Z -> St -> Prop) (lo hi : Z)
  (body : Z -> St -> St) (s : St) :
  Inv lo s ->
  (forall k t, (lo <= k < hi)%Z -> Inv k t -> Inv (k + 1)%Z (body k t)) ->
  exists t, for_range lo hi body s = (Z.max lo hi, t) /\ Inv (Z.max lo hi) t.
Proof.
  intros H0 Hstep.
  exists (snd (for_range lo hi body s)). split.
  - rewrite <- (for_range_index lo hi body s).
    destruct (for_range lo hi body s); reflexivity.
  - apply for_range_inv; assumption.
Qed.

(** Two loops over the same range, kept related turn by turn. *)
Lemma for_loop_rel {St St' : Type} (R : Z -> St -> St' -> Prop) (n : nat)
  (i : Z) (body : Z -> St -> St) (body' : Z -> St' -> St') (s : St)
  (s' : St') :
  R i s s' ->
  (forall k t t', (i <= k < i + Z.of_nat n)%Z -> R k t t' ->
                  R (k + 1)%Z (body k t) (body' k t')) ->
  R (i + Z.of_nat n)%Z (snd (for_loop n i body s))
    (snd (for_loop n i body' s')).
Proof.
  revert i s s'; induction n as [|n IH]; intros i s s' H0 Hstep; simpl.
  - replace (i + 0)%Z with i by lia. exact H0.
  - replace (i + Z.pos (Pos.of_succ_nat n))%Z with (i + 1 + Z.of_nat n)%Z
      by lia.
    apply IH.
    + apply Hstep; [lia | exact H0].
    + intros k t t' Hk. apply Hstep. lia.
Qed.

Lemma for_range_rel {St St' : Type} (R : Z -> St -> St' -> Prop) (lo hi : Z)
  (body : Z -> St -> St) (body' : Z -> St' -> St') (s : St) (s' : St') :
  R lo s s' ->
  (forall k t t', (lo <= k < hi)%Z -> R k t t' ->
                  R (k + 1)%Z (body k t) (body' k t')) ->
  exists t t',
    for_range lo hi body s = (Z.max lo hi, t) /\
    for_range lo hi body' s' = (Z.max lo hi, t') /\
    R (Z.max lo hi) t t'.
Proof.
  intros H0 Hstep.
  exists (snd (for_range lo hi body s)), (snd (for_range lo hi body' s')).
  split; [|split].
  - rewrite <- (for_range_index lo hi body s).
    destruct (for_range lo hi body s); reflexivity.
  - rewrite <- (for_range_index lo hi body' s').
    destruct (for_range lo hi body' s'); reflexivity.
  - unfold for_range.
    replace (Z.max lo hi) with (lo + Z.of_nat (Z.to_nat (hi - lo)))%Z by lia.
    apply for_loop_rel; [exact H0|].
    intros k t t' Hk. apply Hstep. lia.
Qed.

Lemma while_loop_inv {St : Type} (Inv : St -> Prop) (fuel : nat)
  (cond : St -> bool) (body : St -> St) (s : St) :
  Inv s ->
  (forall t, Inv t -> cond t = true -> Inv (body t)) ->
  Inv (while_loop fuel cond body s).
Proof.
  revert s; induction fuel as [|fuel IH]; intros s H0 Hstep; simpl.
  - exact H0.
  - destruct (cond s) eqn:Hc; [|exact H0].
    apply IH; [apply Hstep; assumption | exact Hstep].
Qed.

Lemma while_loop_rel {St : Type} (R : St -> St -> Prop) (fuel : nat)
  (cond cond' : St -> bool) (body body' : St -> St) (s s' : St) :
  R s s' ->
  (forall t t', R t t' -> cond t = cond' t') ->
  (forall t t', R t t' -> cond t = true -> R (body t) (body' t')) ->
  R (while_loop fuel cond body s) (while_loop fuel cond' body' s').
Proof.
  revert s s'; induction fuel as [|fuel IH]; intros s s' H0 Hc Hstep; simpl.
  - exact H0.
  - rewrite <- (Hc s s' H0).
    destruct (cond s) eqn:E; [|exact H0].
    apply IH; [apply Hstep; assumption | exact Hc | exact Hstep].
Qed.

(** A [while] loop leaves by its condition once a measure that every turn
    decreases has run out within the fuel. *)
Lemma while_loop_exits {St : Type} (mu : St -> Z) (fuel : nat)
  (cond : St -> bool) (body : St -> St) (s : St) :
  (forall t, cond t = true -> (0 < mu t)%Z /\ (mu (body t) < mu t)%Z) ->
  (mu s <= Z.of_nat fuel)%Z ->
  cond (while_loop fuel cond body s) = false.
Proof.
  intros Hmu. revert s; induction fuel as [|fuel IH]; intros s Hs; simpl.
  - destruct (cond s) eqn:Hc; [|reflexivity].
    destruct (Hmu s Hc). lia.
  - destruct (cond s) eqn:Hc; [|exact Hc].
    apply IH. destruct (Hmu s Hc). lia.
Qed.

(** Picks a loop of the goal and replaces it by its exit index and a final
    state satisfying the invariant. *)
Ltac loop_with Inv :=
  match goal with
  | |- context [@for_range ?St ?lo ?hi ?b ?s] =>
      let t := fresh "t" in
      let Heq := fresh "Heq" in
      let Hinv := fresh "Hinv" in
      destruct (@for_range_spec St Inv lo hi b s) as (t & Heq & Hinv);
      [ | | rewrite Heq; clear Heq ]
  end.

(** ** Buffers *)

Lemma upd_same (h : buf) (i : Z) (v : tREAL) : upd h i v i = v.
Proof. unfold upd. rewrite Z.eqb_refl. reflexivity. Qed.

Lemma upd_other (h : buf) (i j : Z) (v : tREAL) :
  j <> i -> upd h i v j = h j.
Proof. intros H. unfold upd. destruct (Z.eqb_spec j i); congruence. Qed.

Lemma outside_refl (n : Z) (h : buf) : outside n h h.
Proof. intros i _. reflexivity. Qed.

Lemma outside_upd (n m i : Z) (h h0 : buf) (v : tREAL) :
  outside n h h0 -> 0 <= i < m -> n <= m -> outside m (upd h i v) h0.
Proof.
  intros H Hi Hnm j Hj. rewrite upd_other by lia. apply H. lia.
Qed.

Lemma outside_weaken (n m : Z) (h h0 : buf) :
  outside n h h0 -> n <= m -> outside m h h0.
Proof. intros H Hnm j Hj. apply H. lia. Qed.

(** ** [expansion_sum] stays within [elen + flen] cells *)

Lemma expansion_sum_phases_spec (elen : Z) (e : buf) (flen : Z) (f : buf)
  (h : buf) :
  0 <= elen -> 1 <= flen ->
  fst (expansion_sum_phases elen e flen f h) = elen + flen - 1 /\
  outside (elen + flen) (snd (expansion_sum_phases elen e flen f h)) h.
Proof.
  intros He Hf. unfold expansion_sum_phases.
  (* the first phase writes h[0 .. elen-1] *)
  loop_with (fun (k : Z) (t : tREAL * buf) =>
               0 <= k /\ outside k (snd t) h).
  { simpl. split; [lia | apply outside_refl]. }
  { intros k [Q h1] Hk [_ Hout]. simpl in *.
    destruct (Two_Sum Q (e k)) as [Qnew hh]. simpl.
    split; [lia|]. eapply outside_upd; eauto; lia. }
  destruct t as [Q h1]. simpl in Hinv. destruct Hinv as [_ Hout1].
  replace (Z.max 0 elen) with elen in * by lia.
  (* the second phase adds one cell for each further component of f *)
  loop_with (fun (k : Z) (t : Z * buf) =>
               fst t = elen + k - 1 /\ outside (elen + k) (snd t) h).
  { simpl. split; [lia|].
    eapply outside_upd; eauto; lia. }
  { intros k [hlast h2] Hk [Hl Hout]. simpl in Hl, Hout. subst hlast.
    loop_with (fun (j : Z) (t : tREAL * buf) =>
                 outside (elen + k) (snd t) h).
    { exact Hout. }
    { intros j [Q' h3] Hj Hout3. simpl in *.
      destruct (Two_Sum Q' (h3 j)) as [Qnew hh]. simpl.
      eapply outside_upd; eauto; lia. }
    destruct t as [Q' h3]. simpl in *. split; [lia|].
    eapply outside_upd; eauto; lia. }
  destruct t as [hlast h2]. simpl in Hinv. destruct Hinv as [Hl Hout].
  replace (Z.max 1 flen) with flen in * by lia.
  subst hlast. simpl. split; [reflexivity | exact Hout].
Qed.

Lemma expansion_sum_length (elen : Z) (e : buf) (flen : Z) (f : buf)
  (h : buf) :
  0 <= elen -> 1 <= flen ->
  fst (expansion_sum elen e flen f h) = elen + flen.
Proof.
  intros He Hf. unfold expansion_sum.
  destruct (expansion_sum_phases_spec elen e flen f h He Hf) as (Heq & _).
  destruct (expansion_sum_phases elen e flen f h) as [hlast h'].
  simpl in *. lia.
Qed.

(** C8. For expansions [e] of length [elen >= 1] and [f] of length
    [flen >= 1], [expansion_sum] returns a length of at most [elen + flen]
    and leaves every cell of [h] other than [h[0 .. elen+flen-1]] as the
    caller passed it: a buffer of [elen + flen] components is not overrun. *)
Theorem expansion_sum_within_bounds (elen : Z) (e : buf) (flen : Z) (f : buf)
  (h : buf) :
  1 <= elen -> 1 <= flen ->
  fst (expansion_sum elen e flen f h) <= elen + flen /\
  outside (elen + flen) (snd (expansion_sum elen e flen f h)) h.
Proof.
  intros He Hf. unfold expansion_sum.
  destruct (expansion_sum_phases_spec elen e flen f h) as (Heq & Hout);
    [lia | lia |].
  destruct (expansion_sum_phases elen e flen f h) as [hlast h'].
  simpl in *. split; [lia | exact Hout].
Qed.

(** ** The zero-eliminating operations keep one component *)

Lemma agree_upd (n i : Z) (h h' : buf) (v : tREAL) :
  agree n h h' -> agree n (upd h i v) (upd h' i v).
Proof.
  intros H j Hj. unfold upd. destruct (j =? i); [reflexivity | apply H, Hj].
Qed.

Lemma agree_push (n : Z) (h h' : buf) (v : tREAL) :
  agree n h h' -> agree (n + 1) (upd h n v) (upd h' n v).
Proof.
  intros H j Hj. unfold upd. destruct (Z.eqb_spec j n); [reflexivity|].
  apply H. lia.
Qed.

Lemma agree_weaken (n m : Z) (h h' : buf) :
  agree n h h' -> m <= n -> agree m h h'.
Proof. intros H Hm j Hj. apply H. lia. Qed.

(** Closes the routine side goals about indices and agreeing cells. *)
Ltac rel_auto :=
  repeat split; simpl;
  try lia; try assumption; try reflexivity;
  try (apply agree_push; assumption);
  try (apply agree_upd; assumption);
  try (intros ? ?; lia).

Lemma put_nonzero_same (hh : tREAL) (hindex : Z) (h h' : buf) :
  same_so_far (hindex, h) (hindex, h') ->
  same_so_far (put_nonzero hh hindex h) (put_nonzero hh hindex h').
Proof.
  intros (_ & Hpos & Hag). unfold same_so_far, put_nonzero. simpl in *.
  destruct (Dbl.ne hh Dbl.zero); simpl.
  - rel_auto.
  - repeat split; assumption.
Qed.

Lemma put_last_same (Q : tREAL) (hindex : Z) (h h' : buf) :
  same_so_far (hindex, h) (hindex, h') ->
  1 <= fst (put_last Q hindex h) /\
  same_out (put_last Q hindex h) (put_last Q hindex h').
Proof.
  intros (_ & Hpos & Hag). unfold put_last, same_out. simpl in *.
  destruct (Dbl.ne Q Dbl.zero); simpl.
  - rel_auto.
  - destruct (Z.eqb_spec hindex 0); simpl.
    + rel_auto.
    + rel_auto.
Qed.

(** Picks a loop that the goal runs from two states and replaces both runs
    by final states in the relation. *)
Ltac loops_with R :=
  match goal with
  | |- context [@for_range ?St ?lo ?hi ?b ?s] =>
      match goal with
      | |- context [@for_range ?St' lo hi ?b' ?s'] =>
          tryif constr_eq s s' then fail else
            let t := fresh "t" in
            let t' := fresh "t'" in
            let Heq := fresh "Heq" in
            let Heq' := fresh "Heq'" in
            let HR := fresh "HR" in
            destruct (@for_range_rel St St' R lo hi b b' s s')
              as (t & t' & Heq & Heq' & HR);
            [ | | rewrite Heq, Heq'; clear Heq Heq' ]
      end
  end.

Lemma grow_expansion_zeroelim_keeps_one (elen : Z) (e : buf) (b : tREAL) :
  keeps_one (grow_expansion_zeroelim elen e b).
Proof.
  intros h h'. unfold grow_expansion_zeroelim.
  loops_with (fun (k : Z) (t t' : tREAL * (Z * buf)) =>
                fst t = fst t' /\ same_so_far (snd t) (snd t')).
  { unfold same_so_far. simpl. rel_auto. }
  { intros k [Q r] [Q' r'] Hk [HQ Hs]. simpl in HQ, Hs. subst Q'.
    destruct r as [hi g], r' as [hi' g'].
    assert (hi' = hi) by (symmetry; apply Hs). subst hi'.
    destruct (Two_Sum Q (e k)) as [Qnew hh]. simpl.
    split; [reflexivity | apply put_nonzero_same, Hs]. }
  destruct t as [Q [hi g]], t' as [Q' [hi' g']]. simpl in HR.
  destruct HR as [HQ Hs]. subst Q'.
  assert (hi' = hi) by (symmetry; apply Hs). subst hi'.
  apply put_last_same, Hs.
Qed.

(** Names the two results of a [put_nonzero] run on related outputs. *)
Ltac put_both hh hi g g' Hs :=
  let Hs' := fresh "Hput" in
  pose proof (put_nonzero_same hh hi g g' Hs) as Hs';
  let hi1 := fresh "hi" in
  let g1 := fresh "g" in
  let hi1' := fresh "hi'" in
  let g1' := fresh "g'" in
  destruct (put_nonzero hh hi g) as [hi1 g1];
  destruct (put_nonzero hh hi g') as [hi1' g1'];
  assert (hi1' = hi1) by (symmetry; apply Hs'); subst hi1'.

Lemma same_so_far_start (h h' : buf) : same_so_far (0, h) (0, h').
Proof.
  unfold same_so_far. simpl. rel_auto.
Qed.

Lemma scale_expansion_zeroelim_keeps_one (P : Predicates) (elen : Z)
  (e : buf) (b : tREAL) :
  keeps_one (scale_expansion_zeroelim P elen e b).
Proof.
  intros h h'. unfold scale_expansion_zeroelim.
  destruct (tSPLIT P b) as [bhi blo].
  destruct (Two_Product_Presplit P (e 0) b bhi blo) as [Q0 hh0].
  put_both hh0 0 h h' (same_so_far_start h h').
  loops_with (fun (k : Z) (t t' : tREAL * (Z * buf)) =>
                fst t = fst t' /\ same_so_far (snd t) (snd t')).
  { simpl. split; [reflexivity | assumption]. }
  { intros k [Q r] [Q' r'] Hk [HQ Hs]. simpl in HQ, Hs. subst Q'.
    destruct r as [hj gj], r' as [hj' gj'].
    assert (hj' = hj) by (symmetry; apply Hs). subst hj'.
    destruct (Two_Product_Presplit P (e k) b bhi blo)
      as [product1 product0].
    destruct (Two_Sum Q product0) as [sum hh].
    put_both hh hj gj gj' Hs.
    destruct (Fast_Two_Sum product1 sum) as [Q1 hh1]. simpl.
    split; [reflexivity | apply put_nonzero_same; assumption]. }
  destruct t as [Q [hj gj]], t' as [Q' [hj' gj']]. simpl in HR.
  destruct HR as [HQ Hs]. subst Q'.
  assert (hj' = hj) by (symmetry; apply Hs). subst hj'.
  apply put_last_same, Hs.
Qed.

(** The phases shared by [expansion_sum] and [expansion_sum_zeroelim1]
    write every cell up to [hlast]. *)
Lemma expansion_sum_phases_same (elen : Z) (e : buf) (flen : Z) (f : buf)
  (h h' : buf) :
  let r := expansion_sum_phases elen e flen f h in
  let r' := expansion_sum_phases elen e flen f h' in
  fst r = fst r' /\ 0 <= fst r /\ agree (fst r + 1) (snd r) (snd r').
Proof.
  unfold expansion_sum_phases.
  loops_with (fun (k : Z) (t t' : tREAL * buf) =>
                0 <= k /\ fst t = fst t' /\ agree k (snd t) (snd t')).
  { simpl. rel_auto. }
  { intros k [Q g] [Q' g'] Hk (Hk0 & HQ & Hag). simpl in HQ, Hag. subst Q'.
    destruct (Two_Sum Q (e k)) as [Qnew hh]. simpl.
    rel_auto. }
  destruct t as [Q g], t' as [Q' g']. simpl in HR.
  destruct HR as (_ & HQ & Hag). subst Q'.
  loops_with (fun (k : Z) (t t' : Z * buf) =>
                fst t = fst t' /\ 0 <= fst t /\
                agree (fst t + 1) (snd t) (snd t')).
  { simpl. rel_auto. }
  { intros k [hlast g1] [hlast' g1'] Hk (Hl & Hpos & Hag1).
    simpl in Hl, Hpos, Hag1. subst hlast'.
    loops_with (fun (j : Z) (t t' : tREAL * buf) =>
                  fst t = fst t' /\ agree (hlast + 1) (snd t) (snd t')).
    { simpl. split; [reflexivity | exact Hag1]. }
    { intros j [Q1 g2] [Q1' g2'] Hj (HQ1 & Hag2). simpl in HQ1, Hag2.
      subst Q1'. rewrite <- (Hag2 j) by lia.
      destruct (Two_Sum Q1 (g2 j)) as [Qnew hh]. simpl.
      split; [reflexivity | apply agree_upd, Hag2]. }
    destruct t as [Q1 g2], t' as [Q1' g2']. simpl in HR.
    destruct HR as (HQ1 & Hag2). subst Q1'. simpl.
    rel_auto. }
  destruct t as [hlast g1], t' as [hlast' g1']. simpl in HR.
  destruct HR as (Hl & Hpos & Hag1). subst hlast'.
  simpl. rel_auto.
Qed.

Lemma expansion_sum_zeroelim1_keeps_one (elen : Z) (e : buf) (flen : Z)
  (f : buf) :
  keeps_one (expansion_sum_zeroelim1 elen e flen f).
Proof.
  intros h h'. unfold expansion_sum_zeroelim1.
  pose proof (expansion_sum_phases_same elen e flen f h h') as Hph.
  destruct (expansion_sum_phases elen e flen f h) as [hlast g].
  destruct (expansion_sum_phases elen e flen f h') as [hlast' g'].
  simpl in Hph. destruct Hph as (Hl & Hpos & Hag). subst hlast'.
  (* the compaction keeps [hindex < index], below the cells it reads *)
  loops_with (fun (k : Z) (t t' : Z * buf) =>
                fst t = fst t' /\ -1 <= fst t < k /\
                agree (hlast + 1) (snd t) (snd t')).
  { simpl. rel_auto. }
  { intros k [hi g1] [hi' g1'] Hk (Hi & Hr & Hag1). simpl in Hi, Hr, Hag1.
    subst hi'. rewrite <- (Hag1 k) by lia.
    destruct (Dbl.ne (g1 k) Dbl.zero); simpl.
    - rel_auto.
    - rel_auto. }
  destruct t as [hi g1], t' as [hi' g1']. simpl in HR.
  destruct HR as (Hi & Hr & Hag1). subst hi'.
  unfold same_out.
  destruct (Z.eqb_spec hi (-1)); simpl.
  - rel_auto. eapply agree_weaken; [exact Hag1 | lia].
  - rel_auto. eapply agree_weaken; [exact Hag1 | lia].
Qed.

Lemma expansion_sum_zeroelim2_keeps_one (elen : Z) (e : buf) (flen : Z)
  (f : buf) :
  keeps_one (expansion_sum_zeroelim2 elen e flen f).
Proof.
  intros h h'. unfold expansion_sum_zeroelim2.
  loops_with (fun (k : Z) (t t' : tREAL * (Z * buf)) =>
                fst t = fst t' /\ same_so_far (snd t) (snd t')).
  { simpl. split; [reflexivity | apply same_so_far_start]. }
  { intros k [Q r] [Q' r'] Hk [HQ Hs]. simpl in HQ, Hs. subst Q'.
    destruct r as [hj gj], r' as [hj' gj'].
    assert (hj' = hj) by (symmetry; apply Hs). subst hj'.
    destruct (Two_Sum Q (e k)) as [Qnew hh]. simpl.
    split; [reflexivity | apply put_nonzero_same, Hs]. }
  destruct t as [Q [hj gj]], t' as [Q' [hj' gj']]. simpl in HR.
  destruct HR as [HQ Hs]. subst Q'.
  assert (hj' = hj) by (symmetry; apply Hs). subst hj'.
  destruct Hs as (_ & Hpos & Hag). simpl in Hpos, Hag.
  loops_with (fun (k : Z) (t t' : Z * buf) =>
                fst t = fst t' /\ 0 <= fst t /\
                agree (fst t + 1) (snd t) (snd t')).
  { simpl. rel_auto. }
  { intros k [hlast g1] [hlast' g1'] Hk (Hl & Hpos1 & Hag1).
    simpl in Hl, Hpos1, Hag1. subst hlast'.
    (* the inner loop keeps [hindex <= eindex], below the cells it reads *)
    loops_with (fun (j : Z) (t t' : tREAL * (Z * buf)) =>
                  fst t = fst t' /\ fst (snd t) = fst (snd t') /\
                  0 <= fst (snd t) <= j /\
                  agree (hlast + 1) (snd (snd t)) (snd (snd t'))).
    { simpl. rel_auto. }
    { intros j [Q1 [hj1 g2]] [Q1' [hj1' g2']] Hj (HQ1 & Hh & Hr & Hag2).
      simpl in HQ1, Hh, Hr, Hag2. subst Q1' hj1'.
      rewrite <- (Hag2 j) by lia.
      destruct (Two_Sum Q1 (g2 j)) as [Qnew hh]. simpl.
      unfold put_nonzero. destruct (Dbl.ne hh Dbl.zero); simpl.
      - rel_auto.
      - rel_auto. }
    destruct t as [Q1 [hj1 g2]], t' as [Q1' [hj1' g2']]. simpl in HR.
    destruct HR as (HQ1 & Hh & Hr & Hag2). subst Q1' hj1'. simpl.
    rel_auto.
    apply agree_push. eapply agree_weaken; [exact Hag2 | lia]. }
  destruct t as [hlast g1], t' as [hlast' g1']. simpl in HR.
  destruct HR as (Hl & Hpos1 & Hag1). subst hlast'.
  unfold same_out. simpl. rel_auto.
Qed.

Ltac merge_same_intro :=
  let s := fresh "s" in
  let s' := fresh "s'" in
  let HQ := fresh "HQ" in
  let He := fresh "He" in
  let Hf := fresh "Hf" in
  let Hei := fresh "Hei" in
  let Hfi := fresh "Hfi" in
  let Hs := fresh "Hs" in
  intros s s' (HQ & He & Hf & Hei & Hfi & Hs);
  destruct s as [Q enow fnow eindex findex hindex g];
  destruct s' as [Q' enow' fnow' eindex' findex' hindex' g'];
  simpl in HQ, He, Hf, Hei, Hfi, Hs; subst Q' enow' fnow' eindex' findex';
  assert (hindex' = hindex) by (symmetry; apply Hs); subst hindex'.

Ltac merge_same_step :=
  simpl;
  repeat match goal with
    | |- context [if ?c then _ else _] => destruct c
    | |- context [Two_Sum ?a ?b] => destruct (Two_Sum a b)
    | |- context [Fast_Two_Sum ?a ?b] => destruct (Fast_Two_Sum a b)
    end;
  match goal with
  | Hs : same_so_far (?hi, ?g) (?hi, ?g') |- context [put_nonzero ?hh ?hi ?g]
    => put_both hh hi g g' Hs
  end;
  unfold merge_same; simpl; do 5 (split; [reflexivity |]); assumption.

Lemma merge_start_same (e f h h' : buf) :
  merge_same (merge_start e f h) (merge_start e f h').
Proof.
  unfold merge_start, merge_same.
  destruct (e_is_next (e 0) (f 0)); unfold same_so_far; rel_auto.
Qed.

Lemma merge_first_zeroelim_same (e f : buf) (s s' : merge_state) :
  merge_same s s' ->
  merge_same (merge_first_zeroelim e f s) (merge_first_zeroelim e f s').
Proof.
  revert s s'. merge_same_intro. unfold merge_first_zeroelim.
  merge_same_step.
Qed.

Lemma merge_step_zeroelim_same (e f : buf) (s s' : merge_state) :
  merge_same s s' ->
  merge_same (merge_step_zeroelim e f s) (merge_step_zeroelim e f s').
Proof.
  revert s s'. merge_same_intro. unfold merge_step_zeroelim.
  merge_same_step.
Qed.

Lemma drain_e_zeroelim_same (e : buf) (s s' : merge_state) :
  merge_same s s' ->
  merge_same (drain_e_zeroelim e s) (drain_e_zeroelim e s').
Proof.
  revert s s'. merge_same_intro. unfold drain_e_zeroelim. merge_same_step.
Qed.

Lemma drain_f_zeroelim_same (f : buf) (s s' : merge_state) :
  merge_same s s' ->
  merge_same (drain_f_zeroelim f s) (drain_f_zeroelim f s').
Proof.
  revert s s'. merge_same_intro. unfold drain_f_zeroelim. merge_same_step.
Qed.

Lemma fast_expansion_sum_zeroelim_keeps_one (elen : Z) (e : buf) (flen : Z)
  (f : buf) :
  keeps_one (fast_expansion_sum_zeroelim elen e flen f).
Proof.
  intros h h'. unfold fast_expansion_sum_zeroelim.
  pose proof (merge_start_same e f h h') as H0.
  set (s0 := merge_start e f h) in *.
  set (s0' := merge_start e f h') in *.
  assert (Hb : both_left elen flen s0 = both_left elen flen s0').
  { unfold both_left. destruct H0 as (_ & _ & _ & -> & -> & _).
    reflexivity. }
  rewrite <- Hb.
  set (s1 := if both_left elen flen s0 then _ else s0).
  set (s1' := if both_left elen flen s0 then _ else s0').
  assert (H1 : merge_same s1 s1').
  { subst s1 s1'. destruct (both_left elen flen s0); [|exact H0].
    apply while_loop_rel.
    - apply merge_first_zeroelim_same, H0.
    - intros t t' (_ & _ & _ & Hei & Hfi & _). unfold both_left.
      rewrite Hei, Hfi. reflexivity.
    - intros t t' Ht _. apply merge_step_zeroelim_same, Ht. }
  clearbody s1 s1'.
  set (s2 := while_loop _ _ (drain_e_zeroelim e) s1).
  set (s2' := while_loop _ _ (drain_e_zeroelim e) s1').
  assert (H2 : merge_same s2 s2').
  { subst s2 s2'. apply while_loop_rel.
    - exact H1.
    - intros t t' (_ & _ & _ & Hei & _). rewrite Hei. reflexivity.
    - intros t t' Ht _. apply drain_e_zeroelim_same, Ht. }
  clearbody s2 s2'.
  set (s3 := while_loop _ _ (drain_f_zeroelim f) s2).
  set (s3' := while_loop _ _ (drain_f_zeroelim f) s2').
  assert (H3 : merge_same s3 s3').
  { subst s3 s3'. apply while_loop_rel.
    - exact H2.
    - intros t t' (_ & _ & _ & _ & Hfi & _). rewrite Hfi. reflexivity.
    - intros t t' Ht _. apply drain_f_zeroelim_same, Ht. }
  clearbody s3 s3'.
  revert H3. generalize s3 s3'. merge_same_intro. simpl.
  apply put_last_same, Hs.
Qed.

Lemma linear_take_same (elen : Z) (e : buf) (flen : Z) (f : buf) (q : tREAL)
  (s s' : merge_state) :
  merge_same s s' ->
  fst (linear_take elen e flen f q s) = fst (linear_take elen e flen f q s')
  /\ merge_same (snd (linear_take elen e flen f q s))
                (snd (linear_take elen e flen f q s')).
Proof.
  revert s s'. merge_same_intro. unfold linear_take, linear_takes_e. simpl.
  destruct ((eindex <? elen) && ((findex >=? flen) || e_is_next enow fnow))%bool.
  - destruct (Fast_Two_Sum enow q) as [R hh]. simpl.
    split; [reflexivity|]. unfold merge_same. simpl.
    do 5 (split; [reflexivity|]). exact Hs.
  - destruct (Fast_Two_Sum fnow q) as [R hh]. simpl.
    split; [reflexivity|]. unfold merge_same. simpl.
    do 5 (split; [reflexivity|]). exact Hs.
Qed.

Lemma linear_expansion_sum_zeroelim_keeps_one (elen : Z) (e : buf)
  (flen : Z) (f : buf) :
  keeps_one (linear_expansion_sum_zeroelim elen e flen f).
Proof.
  intros h h'. unfold linear_expansion_sum_zeroelim.
  pose proof (merge_start_same e f h h') as H0.
  set (s0 := merge_start e f h) in *.
  set (s0' := merge_start e f h') in *.
  assert (Hg : m_Q s0' = m_Q s0) by (symmetry; apply H0). rewrite Hg.
  destruct (linear_take_same elen e flen f (m_Q s0) s0 s0' H0) as [Hr H1].
  destruct (linear_take elen e flen f (m_Q s0) s0) as [[Qnew q] s1].
  destruct (linear_take elen e flen f (m_Q s0) s0') as [[Qnew' q'] s1'].
  simpl in Hr, H1. injection Hr as -> ->.
  loops_with (fun (k : Z) (t t' : tREAL * tREAL * merge_state) =>
                fst t = fst t' /\ merge_same (snd t) (snd t')).
  { simpl. split; [reflexivity | exact H1]. }
  { intros k [[Q1 q1] t1] [[Q1' q1'] t1'] Hk [Hq Ht]. simpl in Hq, Ht.
    injection Hq as -> ->.
    destruct (linear_take_same elen e flen f q1' t1 t1' Ht) as [Hr2 H2].
    destruct (linear_take elen e flen f q1' t1) as [[R hh] t2].
    destruct (linear_take elen e flen f q1' t1') as [[R' hh'] t2'].
    simpl in Hr2, H2. injection Hr2 as -> ->.
    destruct (Two_Sum Q1' R') as [Qn qn].
    revert H2. generalize t2 t2'. merge_same_intro.
    cbn [m_hindex m_h m_Q m_enow m_fnow m_eindex m_findex].
    put_both hh' hindex g g' Hs. simpl.
    split; [reflexivity|]. unfold merge_same. simpl.
    do 5 (split; [reflexivity|]). assumption. }
  destruct t as [[Q1 q1] t1], t' as [[Q1' q1'] t1']. simpl in HR.
  destruct HR as [Hq Ht]. injection Hq as -> ->.
  revert Ht. generalize t1 t1'. merge_same_intro.
  cbn [m_hindex m_h m_Q m_enow m_fnow m_eindex m_findex].
  put_both q1' hindex g g' Hs.
  apply put_last_same. assumption.
Qed.

(** The merging loops of [fast_expansion_sum_zeroelim] leave by their
    conditions: [merge_fuel] is enough. *)

Lemma merge_start_indices (e f h : buf) :
  let s := merge_start e f h in
  0 <= m_eindex s /\ 0 <= m_findex s /\ m_eindex s + m_findex s = 1.
Proof.
  unfold merge_start. destruct (e_is_next (e 0) (f 0)); simpl; lia.
Qed.

Lemma merge_both_done (elen : Z) (e : buf) (flen : Z) (f : buf)
  (s : merge_state) :
  0 <= m_eindex s -> 0 <= m_findex s ->
  both_left elen flen
    (while_loop (merge_fuel elen flen) (both_left elen flen)
       (merge_step_zeroelim e f) s) = false.
Proof.
  intros He Hf.
  apply while_loop_exits
    with (mu := fun t => (elen - m_eindex t) + (flen - m_findex t)).
  - intros t Ht. unfold both_left in Ht.
    apply andb_true_iff in Ht. destruct Ht as [H1 H2].
    apply Z.ltb_lt in H1, H2. unfold merge_step_zeroelim.
    destruct (e_is_next (m_enow t) (m_fnow t));
      destruct (Two_Sum _ _); destruct (put_nonzero _ _ _); simpl; lia.
  - unfold merge_fuel. lia.
Qed.

Lemma merge_e_done (elen : Z) (e : buf) (flen : Z) (s : merge_state) :
  0 <= m_eindex s -> 0 <= flen ->
  (m_eindex
     (while_loop (merge_fuel elen flen) (fun s => m_eindex s <? elen)
        (drain_e_zeroelim e) s) <? elen) = false.
Proof.
  intros He Hf.
  apply (while_loop_exits (fun t => elen - m_eindex t) (merge_fuel elen flen)
           (fun s => m_eindex s <? elen)).
  - intros t Ht. apply Z.ltb_lt in Ht. unfold drain_e_zeroelim.
    destruct (Two_Sum _ _); destruct (put_nonzero _ _ _); simpl; lia.
  - unfold merge_fuel. lia.
Qed.

Lemma merge_f_done (elen : Z) (flen : Z) (f : buf) (s : merge_state) :
  0 <= m_findex s -> 0 <= elen ->
  (m_findex
     (while_loop (merge_fuel elen flen) (fun s => m_findex s <? flen)
        (drain_f_zeroelim f) s) <? flen) = false.
Proof.
  intros Hf He.
  apply (while_loop_exits (fun t => flen - m_findex t) (merge_fuel elen flen)
           (fun s => m_findex s <? flen)).
  - intros t Ht. apply Z.ltb_lt in Ht. unfold drain_f_zeroelim.
    destruct (Two_Sum _ _); destruct (put_nonzero _ _ _); simpl; lia.
  - unfold merge_fuel. lia.
Qed.

(** C7. Each zero-eliminating operation, on expansions of length at least 1,
    returns a length of at least 1, and has itself written every component
    below the length it returns (the output is the same whatever the buffer
    [h] held before): [h[length - 1]] is a component of the result. *)
Theorem zeroelim_keeps_one_component (P : Predicates) (elen : Z) (e : buf)
  (flen : Z) (f : buf) (b : tREAL) :
  1 <= elen -> 1 <= flen ->
  keeps_one (grow_expansion_zeroelim elen e b) /\
  keeps_one (expansion_sum_zeroelim1 elen e flen f) /\
  keeps_one (expansion_sum_zeroelim2 elen e flen f) /\
  keeps_one (fast_expansion_sum_zeroelim elen e flen f) /\
  keeps_one (linear_expansion_sum_zeroelim elen e flen f) /\
  keeps_one (scale_expansion_zeroelim P elen e b).
Proof.
  intros _ _. repeat apply conj.
  - apply grow_expansion_zeroelim_keeps_one.
  - apply expansion_sum_zeroelim1_keeps_one.
  - apply expansion_sum_zeroelim2_keeps_one.
  - apply fast_expansion_sum_zeroelim_keeps_one.
  - apply linear_expansion_sum_zeroelim_keeps_one.
  - apply scale_expansion_zeroelim_keeps_one.
Qed.

(** ** The generalized predicate is [orient2d] *)

Lemma andb_reorder (a b c d : bool) :
  (a && b && c && d = a && c && d && b)%bool.
Proof. destruct a, b, c, d; reflexivity. Qed.

(** Called on the differences of [orient2d], the adaptive stage of the
    generalized predicate is [orient2dadapt]. *)
Lemma AdaptDiffOfProdsOfDiffs_orient2dadapt (P : Predicates)
  (pa pb pc : buf) (detsum : tREAL) :
  AdaptDiffOfProdsOfDiffs P (pa 0) (pc 0) (pb 1) (pc 1) (pa 1) (pc 1)
    (pb 0) (pc 0) detsum
  = orient2dadapt P pa pb pc detsum.
Proof.
  unfold AdaptDiffOfProdsOfDiffs, orient2dadapt.
  destruct (Two_Product P (Dbl.sub (pa 0) (pc 0)) (Dbl.sub (pb 1) (pc 1)))
    as [detleft detlefttail].
  destruct (Two_Product P (Dbl.sub (pa 1) (pc 1)) (Dbl.sub (pb 0) (pc 0)))
    as [detright detrighttail].
  cbv zeta.
  match goal with
  | |- (if ?c then _ else _) = _ => destruct c; [reflexivity|]
  end.
  match goal with
  | |- (if (?a && ?b && ?c && ?d)%bool then _ else _) = _ =>
      rewrite (andb_reorder a b c d)
  end.
  reflexivity.
Qed.

(** C10. [DifferenceOfProductsOfDifferences], called on the coordinates as
    [orient2d] pairs them, returns what [orient2d] returns, to the bit, for
    all doubles and in every stage. *)
Theorem DifferenceOfProductsOfDifferences_orient2d (P : Predicates)
  (pa pb pc : buf) :
  DifferenceOfProductsOfDifferences P (pa 0) (pc 0) (pb 1) (pc 1)
    (pa 1) (pc 1) (pb 0) (pc 0)
  = orient2d P pa pb pc.
Proof.
  unfold DifferenceOfProductsOfDifferences, orient2d. cbv zeta.
  destruct (sign_chain _ _) as [detsum|]; [|reflexivity].
  destruct (beyond _ _); [reflexivity|].
  apply AdaptDiffOfProdsOfDiffs_orient2dadapt.
Qed.

(** ** The predicates at the edge of the exponent range *)

(** C1. Three points that turn counterclockwise, for which [orient2d]
    returns zero: the product [2^-600 * 2^-600] underflows to [0.0] in the
    first stage, the sign chain takes [detleft] for zero and returns
    [det = 0.0]. *)
Theorem orient2d_underflow :
  let pa := point (Dbl.scaled 1 (-600)) Dbl.zero in
  let pb := point Dbl.zero (Dbl.scaled 1 (-600)) in
  let pc := point Dbl.zero Dbl.zero in
  orient2d exactinit pa pb pc = Dbl.zero /\
  (0 < orient2d_exact pa pb pc)%Q /\
  ~ sign_agrees (orient2d exactinit pa pb pc) (orient2d_exact pa pb pc).
Proof.
  intros pa pb pc.
  assert (Hr : orient2d exactinit pa pb pc = Dbl.zero)
    by (vm_compute; reflexivity).
  assert (Hq : (0 < orient2d_exact pa pb pc)%Q)
    by (vm_compute; reflexivity).
  repeat apply conj; [exact Hr | exact Hq |].
  rewrite Hr. intros (Hpos & _ & _).
  apply Hpos in Hq. vm_compute in Hq. discriminate.
Qed.

(** C2. Four points, the first three counterclockwise and the fourth
    strictly outside their circle, for which [incircle] returns a positive
    value in its first stage: [adx * cdy = 2^-1080] underflows to [0.0], so
    the term [blift * (cdxady - adxcdy)], which decides the sign, is lost
    from [det] and from [permanent] alike. *)
Theorem incircle_underflow :
  let pa := point (Dbl.scaled 1 (-10)) Dbl.zero in
  let pb := point (Dbl.scaled 1 20) Dbl.zero in
  let pc := point Dbl.zero (Dbl.scaled 1 (-1070)) in
  let pd := point Dbl.zero Dbl.zero in
  (0 < orient2d_exact pa pb pc)%Q /\
  strictly_outside pa pb pc pd /\
  (incircle_exact pa pb pc pd < 0)%Q /\
  incircle exactinit pa pb pc pd = Dbl.scaled 1 (-1070) /\
  Dbl.gt (incircle exactinit pa pb pc pd) Dbl.zero = true.
Proof.
  intros pa pb pc pd. repeat apply conj; vm_compute; reflexivity.
Qed.

(** ** The table that [exactinit] computes *)

(** The loop of [exactinit] leaves by its condition, within its fuel. *)
Lemma exactinit_loop_exits : exactinit_cond exactinit_loop = false.
Proof. vm_compute. reflexivity. Qed.

(** It does so after 53 halvings: [epsilon] is [2^-53]. *)
Lemma exactinit_epsilon : epsilon exactinit = Dbl.scaled 1 (-53).
Proof. vm_compute. reflexivity. Qed.

(** C3, as stated, fails: [splitter] is not a power of two. *)
Lemma splitter_not_power_of_two :
  power_of_two (splitter exactinit) = false.
Proof. vm_compute. reflexivity. Qed.

(** After [exactinit], [splitter] is [2^27 + 1 = 134217729]: the power of
    two [2^27], which the loop reaches by doubling on every other of its 53
    turns, and the [1.0] that [splitter += 1.0] adds. *)
Lemma exactinit_splitter :
  splitter exactinit = Dbl.of_Z (2 ^ 27 + 1) /\
  (Dbl.value (splitter exactinit) == 134217729 # 1)%Q /\
  i_splitter exactinit_loop = Dbl.of_Z (2 ^ 27) /\
  power_of_two (i_splitter exactinit_loop) = true /\
  splitter exactinit = Dbl.add (i_splitter exactinit_loop) Dbl.one.
Proof. repeat apply conj; vm_compute; reflexivity. Qed.

(** ** The value of [orient2d] under a permutation of its arguments *)

(** C4, as stated, fails.  With [a = (0, 0)], [b = (0, 3)] and
    [c = (1 + 2^-52, 0.5)], both calls return in the first stage:
    [orient2d(a, b, c)] rounds [-2.5 * c.x] and then the difference, and
    returns [-(3 + 2^-51)]; [orient2d(b, c, a)] rounds [3 * c.x], a tie,
    to even, and returns [-(3 + 2^-50)].  The exact determinant,
    [-(3 + 3 * 2^-52)], lies between the two. *)
Lemma orient2d_rotation_differs :
  let pa := point Dbl.zero Dbl.zero in
  let pb := point Dbl.zero (Dbl.of_Z 3) in
  let pc := point (Dbl.scaled (2 ^ 52 + 1) (-52)) (Dbl.scaled 1 (-1)) in
  orient2d exactinit pa pb pc = Dbl.scaled (- (3 * 2 ^ 51 + 1)) (-51) /\
  orient2d exactinit pb pc pa = Dbl.scaled (- (3 * 2 ^ 50 + 1)) (-50) /\
  Dbl.eq (orient2d exactinit pa pb pc) (orient2d exactinit pb pc pa) = false.
Proof. repeat apply conj; vm_compute; reflexivity. Qed.


(** ** The expansion operations and the value of an expansion *)

Lemma sum_cells_upd_above (n : nat) (h : buf) (j : Z) (v : tREAL) :
  Z.of_nat n <= j -> sum_cells n (upd h j v) = sum_cells n h.
Proof.
  induction n as [|n IH]; intros Hj; simpl; [reflexivity|].
  rewrite IH by lia. rewrite upd_other by lia. reflexivity.
Qed.

Lemma sum_cells_upd_below (n : nat) (h : buf) (j : Z) (v : tREAL) :
  0 <= j < Z.of_nat n ->
  (sum_cells n (upd h j v) == sum_cells n h - Dbl.value (h j) + Dbl.value v)%Q.
Proof.
  induction n as [|n IH]; intros Hj; simpl; [lia|].
  destruct (Z.eq_dec j (Z.of_nat n)) as [->|Hne].
  - rewrite sum_cells_upd_above by lia. rewrite upd_same. ring.
  - rewrite IH by lia. rewrite upd_other by lia. ring.
Qed.

Lemma finite_cells_upd_above (n : nat) (h : buf) (j : Z) (v : tREAL) :
  Z.of_nat n <= j -> finite_cells n (upd h j v) = finite_cells n h.
Proof.
  induction n as [|n IH]; intros Hj; simpl; [reflexivity|].
  rewrite IH by lia. rewrite upd_other by lia. reflexivity.
Qed.

Lemma finite_cells_upd_below (n : nat) (h : buf) (j : Z) (v : tREAL) :
  finite_cells n h = true -> Dbl.is_finite v = true ->
  finite_cells n (upd h j v) = true.
Proof.
  induction n as [|n IH]; intros Hf Hv; simpl in *; [reflexivity|].
  apply andb_true_iff in Hf. destruct Hf as [Hf Hn].
  rewrite IH by assumption. simpl.
  unfold upd. destruct (Z.of_nat n =? j); assumption.
Qed.

Lemma finite_cells_get (n : nat) (h : buf) (j : Z) :
  finite_cells n h = true -> 0 <= j < Z.of_nat n ->
  Dbl.is_finite (h j) = true.
Proof.
  induction n as [|n IH]; intros Hf Hj; simpl in *; [lia|].
  apply andb_true_iff in Hf. destruct Hf as [Hf Hn].
  destruct (Z.eq_dec j (Z.of_nat n)) as [->|Hne]; [exact Hn|].
  apply IH; [exact Hf | lia].
Qed.

(** Pushing a component on top of an expansion. *)
Lemma expansion_value_push (k : Z) (h : buf) (v : tREAL) :
  0 <= k ->
  (expansion_value (k + 1) (upd h k v) == expansion_value k h + Dbl.value v)%Q.
Proof.
  intros Hk. unfold expansion_value.
  replace (Z.to_nat (k + 1)) with (S (Z.to_nat k)) by lia. simpl.
  rewrite sum_cells_upd_above by lia.
  rewrite Z2Nat.id by lia. rewrite upd_same. reflexivity.
Qed.

Lemma expansion_finite_push (k : Z) (h : buf) (v : tREAL) :
  0 <= k -> expansion_finite k h = true -> Dbl.is_finite v = true ->
  expansion_finite (k + 1) (upd h k v) = true.
Proof.
  intros Hk Hf Hv. unfold expansion_finite in *.
  replace (Z.to_nat (k + 1)) with (S (Z.to_nat k)) by lia. simpl.
  rewrite finite_cells_upd_above by lia. rewrite Hf.
  rewrite Z2Nat.id by lia. rewrite upd_same. exact Hv.
Qed.

Lemma expansion_value_next (k : Z) (h : buf) :
  0 <= k ->
  (expansion_value (k + 1) h == expansion_value k h + Dbl.value (h k))%Q.
Proof.
  intros Hk. unfold expansion_value.
  replace (Z.to_nat (k + 1)) with (S (Z.to_nat k)) by lia. simpl.
  rewrite Z2Nat.id by lia. reflexivity.
Qed.

(** Replacing a component of an expansion. *)
Lemma expansion_value_upd (n j : Z) (h : buf) (v : tREAL) :
  0 <= j < n ->
  (expansion_value n (upd h j v)
   == expansion_value n h - Dbl.value (h j) + Dbl.value v)%Q.
Proof.
  intros Hj. unfold expansion_value. apply sum_cells_upd_below. lia.
Qed.

Lemma expansion_finite_upd (n j : Z) (h : buf) (v : tREAL) :
  expansion_finite n h = true -> Dbl.is_finite v = true ->
  expansion_finite n (upd h j v) = true.
Proof. apply finite_cells_upd_below. Qed.

(** What an error-free step gives. *)
Lemma error_free_sum_spec (a b : tREAL) :
  error_free_sum a b = true ->
  Dbl.is_finite a = true /\ Dbl.is_finite b = true /\
  Dbl.is_finite (fst (Two_Sum a b)) = true /\
  Dbl.is_finite (snd (Two_Sum a b)) = true /\
  (Dbl.value (fst (Two_Sum a b)) + Dbl.value (snd (Two_Sum a b))
   == Dbl.value a + Dbl.value b)%Q.
Proof.
  unfold error_free_sum. destruct (Two_Sum a b) as [x y]. simpl.
  intros H. repeat (apply andb_true_iff in H; destruct H as [H ?]).
  repeat apply conj; try assumption. apply Qeq_bool_iff. assumption.
Qed.

Lemma error_free_product_spec (P : Predicates) (a b : tREAL) :
  error_free_product P a b = true ->
  let r := Two_Product_Presplit P a b (fst (tSPLIT P b)) (snd (tSPLIT P b)) in
  Dbl.is_finite a = true /\ Dbl.is_finite b = true /\
  Dbl.is_finite (fst r) = true /\ Dbl.is_finite (snd r) = true /\
  (Dbl.value (fst r) + Dbl.value (snd r) == Dbl.value a * Dbl.value b)%Q.
Proof.
  unfold error_free_product. destruct (tSPLIT P b) as [bhi blo]. simpl.
  destruct (Two_Product_Presplit P a b bhi blo) as [x y]. simpl.
  intros H. repeat (apply andb_true_iff in H; destruct H as [H ?]).
  repeat apply conj; try assumption. apply Qeq_bool_iff. assumption.
Qed.

Lemma expansion_finite_next (k : Z) (h : buf) :
  0 <= k ->
  expansion_finite (k + 1) h
  = (expansion_finite k h && Dbl.is_finite (h k))%bool.
Proof.
  intros Hk. unfold expansion_finite.
  replace (Z.to_nat (k + 1)) with (S (Z.to_nat k)) by lia. simpl.
  rewrite Z2Nat.id by lia. reflexivity.
Qed.

Lemma grow_expansion_exact (elen : Z) (e : buf) (b : tREAL) (h : buf) :
  1 <= elen ->
  grow_expansion_error_free elen e b = true ->
  let r := grow_expansion elen e b h in
  expansion_finite (fst r) (snd r) = true /\
  (expansion_value (fst r) (snd r)
   == expansion_value elen e + Dbl.value b)%Q.
Proof.
  intros He. unfold grow_expansion_error_free, grow_expansion.
  loops_with (fun (k : Z) (t : tREAL * bool) (t' : tREAL * buf) =>
     fst t' = fst t /\ 0 <= k /\
     (snd t = true ->
      (0 < k -> Dbl.is_finite (fst t) = true) /\
      expansion_finite k (snd t') = true /\
      (expansion_value k (snd t') + Dbl.value (fst t)
       == expansion_value k e + Dbl.value b)%Q)).
  { simpl. repeat apply conj; try reflexivity; try lia.
    intros _. repeat apply conj; [lia | reflexivity |].
    unfold expansion_value. simpl. ring. }
  { intros k [Q ok] [Q' g] Hk (HQ & Hk0 & Hinv). simpl in HQ, Hinv.
    subst Q'. pose proof (error_free_sum_spec Q (e k)) as Hef.
    destruct (Two_Sum Q (e k)) as [Qnew hh]. simpl in *.
    repeat apply conj; try reflexivity; try lia.
    intros Hok. apply andb_true_iff in Hok. destruct Hok as [Hok Hstep].
    destruct (Hinv Hok) as (_ & Hfin & Hval).
    destruct (Hef Hstep) as (HfQ & Hfe & Hfx & Hfy & Hsum).
    repeat apply conj.
    - intros _. exact Hfx.
    - apply expansion_finite_push; [lia | exact Hfin | exact Hfy].
    - rewrite expansion_value_push by lia.
      rewrite expansion_value_next by lia. lra. }
  destruct t as [Q ok], t' as [Q' g]. simpl in HR.
  destruct HR as (HQ & _ & Hinv). subst Q'.
  replace (Z.max 0 elen) with elen in * by lia.
  intros Hok. simpl. destruct (Hinv Hok) as (HfQ & Hfin & Hval).
  split.
  - apply expansion_finite_push; [lia | exact Hfin | apply HfQ; lia].
  - rewrite expansion_value_push by lia. exact Hval.
Qed.

Lemma expansion_sum_exact (elen : Z) (e : buf) (flen : Z) (f : buf)
  (h : buf) :
  1 <= elen -> 1 <= flen ->
  expansion_sum_error_free elen e flen f h = true ->
  let r := expansion_sum elen e flen f h in
  expansion_finite (fst r) (snd r) = true /\
  (expansion_value (fst r) (snd r)
   == expansion_value elen e + expansion_value flen f)%Q.
Proof.
  intros He Hf.
  unfold expansion_sum_error_free, expansion_sum, expansion_sum_phases.
  (* the first phase is [grow_expansion] of [e] by [f[0]] *)
  loops_with (fun (k : Z) (t : tREAL * buf * bool) (t' : tREAL * buf) =>
     t' = fst t /\ 0 <= k /\
     (snd t = true ->
      (0 < k -> Dbl.is_finite (fst (fst t)) = true) /\
      expansion_finite k (snd (fst t)) = true /\
      (expansion_value k (snd (fst t)) + Dbl.value (fst (fst t))
       == expansion_value k e + Dbl.value (f 0%Z))%Q)).
  { simpl. repeat apply conj; try reflexivity; try lia.
    intros _. repeat apply conj; [lia | reflexivity |].
    unfold expansion_value. simpl. ring. }
  { intros k [[Q g] ok] [Q' g'] Hk (Ht & Hk0 & Hinv). simpl in Ht, Hinv.
    injection Ht as -> ->.
    pose proof (error_free_sum_spec Q (e k)) as Hef.
    destruct (Two_Sum Q (e k)) as [Qnew hh]. simpl in *.
    repeat apply conj; try reflexivity; try lia.
    intros Hok. apply andb_true_iff in Hok. destruct Hok as [Hok Hstep].
    destruct (Hinv Hok) as (_ & Hfin & Hval).
    destruct (Hef Hstep) as (HfQ & Hfe & Hfx & Hfy & Hsum).
    repeat apply conj.
    - intros _. exact Hfx.
    - apply expansion_finite_push; [lia | exact Hfin | exact Hfy].
    - rewrite expansion_value_push by lia.
      rewrite expansion_value_next by lia. lra. }
  destruct t as [[Q g] ok], t' as [Q' g']. simpl in HR.
  destruct HR as (Ht & _ & Hinv). injection Ht as -> ->.
  replace (Z.max 0 elen) with elen in * by lia.
  (* each further component of [f] is carried through [h] *)
  loops_with (fun (k : Z) (t : Z * buf * bool) (t' : Z * buf) =>
     t' = fst t /\ fst (fst t) = elen + k - 1 /\
     (snd t = true ->
      expansion_finite (elen + k) (snd (fst t)) = true /\
      (expansion_value (elen + k) (snd (fst t))
       == expansion_value elen e + expansion_value k f)%Q)).
  { simpl. repeat apply conj; try reflexivity; try lia.
    intros Hok. destruct (Hinv Hok) as (HfQ & Hfin & Hval). split.
    - apply expansion_finite_push; [lia | exact Hfin | apply HfQ; lia].
    - rewrite expansion_value_push by lia.
      assert (H1 : (expansion_value 1 f == Dbl.value (f 0%Z))%Q)
        by (unfold expansion_value; simpl; ring).
      lra. }
  { intros k [[hlast g1] ok1] [hlast' g1'] Hk (Ht & Hl & Hinv1).
    simpl in Ht, Hl, Hinv1. injection Ht as -> ->. subst hlast.
    loops_with (fun (j : Z) (t : tREAL * buf * bool) (t' : tREAL * buf) =>
       t' = fst t /\
       (snd t = true ->
        (k < j -> Dbl.is_finite (fst (fst t)) = true) /\
        expansion_finite (elen + k) (snd (fst t)) = true /\
        (expansion_value (elen + k) (snd (fst t)) + Dbl.value (fst (fst t))
         == expansion_value elen e + expansion_value k f
            + Dbl.value (f k))%Q)).
    { simpl. split; [reflexivity|]. intros Hok.
      destruct (Hinv1 Hok) as (Hfin & Hval).
      repeat apply conj; [lia | exact Hfin | lra]. }
    { intros j [[Q2 g2] ok2] [Q2' g2'] Hj (Ht & Hinv2).
      simpl in Ht, Hinv2. injection Ht as -> ->.
      pose proof (error_free_sum_spec Q2 (g2 j)) as Hef.
      destruct (Two_Sum Q2 (g2 j)) as [Qnew hh]. simpl in *.
      split; [reflexivity|].
      intros Hok. apply andb_true_iff in Hok. destruct Hok as [Hok Hstep].
      destruct (Hinv2 Hok) as (_ & Hfin & Hval).
      destruct (Hef Hstep) as (HfQ & Hfe & Hfx & Hfy & Hsum).
      repeat apply conj.
      - intros _. exact Hfx.
      - apply expansion_finite_upd; assumption.
      - rewrite expansion_value_upd by lia. lra. }
    destruct t as [[Q2 g2] ok2], t' as [Q2' g2']. simpl in HR.
    destruct HR as (Ht & Hinv2). injection Ht as -> ->. simpl.
    repeat apply conj; try reflexivity; try lia.
    intros Hok. destruct (Hinv2 Hok) as (HfQ & Hfin & Hval).
    replace (elen + k - 1 + 1) with (elen + k) by lia.
    replace (elen + (k + 1)) with (elen + k + 1) by lia. split.
    - apply expansion_finite_push; [lia | exact Hfin | apply HfQ; lia].
    - rewrite expansion_value_push by lia.
      rewrite (expansion_value_next k f) by lia. lra. }
  destruct t as [[hlast g1] ok1], t' as [hlast' g1']. simpl in HR.
  destruct HR as (Ht & Hl & Hinv1). injection Ht as -> ->.
  replace (Z.max 1 flen) with flen in * by lia.
  intros Hok. simpl. destruct (Hinv1 Hok) as (Hfin & Hval).
  subst hlast. replace (elen + flen - 1 + 1) with (elen + flen) by lia.
  split; assumption.
Qed.

Lemma scale_expansion_exact (P : Predicates) (elen : Z) (e : buf)
  (b : tREAL) (h : buf) :
  1 <= elen ->
  scale_expansion_error_free P elen e b = true ->
  let r := scale_expansion P elen e b h in
  expansion_finite (fst r) (snd r) = true /\
  (expansion_value (fst r) (snd r)
   == Dbl.value b * expansion_value elen e)%Q.
Proof.
  intros He. unfold scale_expansion_error_free, scale_expansion.
  pose proof (error_free_product_spec P (e 0) b) as Hef0.
  assert (Hstepspec : forall a, error_free_product P a b = true ->
            let r := Two_Product_Presplit P a b (fst (tSPLIT P b))
                       (snd (tSPLIT P b)) in
            Dbl.is_finite (fst r) = true /\ Dbl.is_finite (snd r) = true /\
            (Dbl.value (fst r) + Dbl.value (snd r)
             == Dbl.value a * Dbl.value b)%Q).
  { intros a Ha. destruct (error_free_product_spec P a b Ha)
      as (_ & _ & H1 & H2 & H3). repeat apply conj; assumption. }
  destruct (tSPLIT P b) as [bhi blo]. cbn [fst snd] in Hef0, Hstepspec.
  destruct (Two_Product_Presplit P (e 0) b bhi blo) as [Q0 h0].
  cbn [fst snd] in Hef0.
  loops_with (fun (k : Z) (t : tREAL * bool) (t' : tREAL * (Z * buf)) =>
     fst t' = fst t /\ fst (snd t') = 2 * k - 1 /\
     (snd t = true ->
      Dbl.is_finite (fst t) = true /\
      expansion_finite (2 * k - 1) (snd (snd t')) = true /\
      (expansion_value (2 * k - 1) (snd (snd t')) + Dbl.value (fst t)
       == Dbl.value b * expansion_value k e)%Q)).
  { cbn [fst snd]. repeat apply conj; try reflexivity.
    intros Hok. destruct (Hef0 Hok) as (_ & _ & HfQ & Hfh & Hprod).
    repeat apply conj.
    - exact HfQ.
    - apply (expansion_finite_push 0); [lia | reflexivity | exact Hfh].
    - rewrite (expansion_value_push 0) by lia.
      unfold expansion_value. simpl. lra. }
  { intros k [Q ok] [Q' [hi g]] Hk (HQ & Hi & Hinv). cbn [fst snd] in HQ, Hi, Hinv.
    subst Q' hi.
    pose proof (Hstepspec (e k)) as Hefp.
    destruct (Two_Product_Presplit P (e k) b bhi blo)
      as [product1 product0]. cbn [fst snd] in Hefp.
    pose proof (error_free_sum_spec Q product0) as Hef1.
    destruct (Two_Sum Q product0) as [sum hh]. cbn [fst snd] in Hef1.
    pose proof (error_free_sum_spec product1 sum) as Hef2.
    destruct (Two_Sum product1 sum) as [Q1 hh1]. cbn [fst snd] in Hef2.
    cbn [fst snd].
    repeat apply conj; try reflexivity; try lia.
    intros Hok.
    apply andb_true_iff in Hok. destruct Hok as [Hok Hs2].
    apply andb_true_iff in Hok. destruct Hok as [Hok Hs1].
    apply andb_true_iff in Hok. destruct Hok as [Hok Hp].
    destruct (Hinv Hok) as (HfQ & Hfin & Hval).
    destruct (Hefp Hp) as (Hfp1 & Hfp0 & Hprod).
    destruct (Hef1 Hs1) as (_ & _ & Hfsum & Hfhh & Hsum1).
    destruct (Hef2 Hs2) as (_ & _ & HfQ1 & Hfhh1 & Hsum2).
    replace (2 * (k + 1) - 1) with (2 * k - 1 + 1 + 1) by lia.
    repeat apply conj.
    - exact HfQ1.
    - apply expansion_finite_push; [lia | | exact Hfhh1].
      apply expansion_finite_push; [lia | exact Hfin | exact Hfhh].
    - rewrite expansion_value_push by lia.
      rewrite expansion_value_push by lia.
      rewrite (expansion_value_next k e) by lia. lra. }
  destruct t as [Q ok], t' as [Q' [hi g]]. cbn [fst snd] in HR.
  destruct HR as (HQ & Hi & Hinv). subst Q' hi.
  replace (Z.max 1 elen) with elen in * by lia.
  intros Hok. cbn [fst snd]. destruct (Hinv Hok) as (HfQ & Hfin & Hval).
  replace (elen + elen) with (2 * elen - 1 + 1) by lia. split.
  - apply expansion_finite_push; [lia | exact Hfin | exact HfQ].
  - rewrite expansion_value_push by lia. exact Hval.
Qed.

(** C6. The expansion operations lose the value at the ends of the exponent
    range, against their headers ("Sets h = be", "Sets h = e + b").
    Scaling the one-component expansion [2^-600] by [2^-600] gives the two
    components [0.0] and [0.0], whose sum is not [2^-1200]; growing the
    expansion of the largest double by the largest double gives an infinite
    component, which has no value. *)
Lemma expansion_value_lost_out_of_range :
  (let e := of_list [Dbl.scaled 1 (-600)] in
   let b := Dbl.scaled 1 (-600) in
   let r := scale_expansion exactinit 1 e b local in
   prefix (fst r) (snd r) = [Dbl.zero; Dbl.zero] /\
   ~ (expansion_value (fst r) (snd r)
      == Dbl.value b * expansion_value 1 e)%Q) /\
  (let e := of_list [Dbl.scaled (2 ^ 53 - 1) 971] in
   let b := Dbl.scaled (2 ^ 53 - 1) 971 in
   let r := grow_expansion 1 e b local in
   Dbl.is_finite (snd r 1) = false /\
   expansion_finite (fst r) (snd r) = false).
Proof.
  split.
  - split.
    + vm_compute. reflexivity.
    + intros H. vm_compute in H. discriminate.
  - split; vm_compute; reflexivity.
Qed.


(** ** Swapping two arguments of [orient2d] *)

Lemma mul_comm (x y : tREAL) : Dbl.mul x y = Dbl.mul y x.
Proof.
  unfold Dbl.mul, SFmul.
  destruct x as [sx|sx| |sx mx ex], y as [sy|sy| |sy my ey];
    try reflexivity; try (rewrite xorb_comm; reflexivity).
  rewrite xorb_comm, Pos.mul_comm, Z.add_comm. reflexivity.
Qed.

Lemma add_comm (x y : tREAL) : Dbl.add x y = Dbl.add y x.
Proof.
  unfold Dbl.add, SFadd.
  destruct x as [sx|sx| |sx mx ex], y as [sy|sy| |sy my ey];
    try reflexivity;
    try (destruct sx, sy; reflexivity).
  rewrite Z.min_comm, Z.add_comm. reflexivity.
Qed.

Lemma binary_round_aux_neg (s : bool) (m e : Z) (l : location) :
  binary_round_aux Dbl.prec Dbl.emax (negb s) m e l
  = SFopp (binary_round_aux Dbl.prec Dbl.emax s m e l).
Proof.
  unfold binary_round_aux.
  destruct (shr_fexp Dbl.prec Dbl.emax m e l) as [mrs' e'].
  destruct (shr_fexp Dbl.prec Dbl.emax _ e' loc_Exact) as [mrs'' e''].
  destruct (shr_m mrs''); try reflexivity.
  destruct (e'' <=? Dbl.emax - Dbl.prec); reflexivity.
Qed.

Lemma binary_normalize_opp (m e : Z) :
  m <> 0 ->
  binary_normalize Dbl.prec Dbl.emax (- m) e false
  = SFopp (binary_normalize Dbl.prec Dbl.emax m e false).
Proof.
  intros Hm. unfold binary_normalize, binary_round.
  destruct m as [|p|p]; [congruence | |]; simpl;
    destruct (shl_align p e _) as [mz ez].
  - apply (binary_round_aux_neg false).
  - rewrite (binary_round_aux_neg false). destruct (binary_round_aux _ _ _ _ _ _);
      simpl; rewrite ?negb_involutive; reflexivity.
Qed.

Lemma same_double_refl (x : tREAL) : same_double x x.
Proof. left. reflexivity. Qed.

(** [x - y] and [-(y - x)] are the same double. *)
Lemma sub_antisym (x y : tREAL) :
  same_double (Dbl.sub x y) (Dbl.neg (Dbl.sub y x)).
Proof.
  unfold Dbl.sub, Dbl.neg, SFsub.
  destruct x as [sx|sx| |sx mx ex], y as [sy|sy| |sy my ey];
    try (left; reflexivity);
    try (destruct sx, sy; (left; reflexivity) || (right; split; reflexivity)).
  rewrite (Z.min_comm ey ex).
  set (a := cond_Zopp sx (Z.pos (fst (shl_align mx ex (Z.min ex ey))))).
  set (b := cond_Zopp sy (Z.pos (fst (shl_align my ey (Z.min ex ey))))).
  destruct (Z.eq_dec (a - b) 0) as [H0|H0].
  - replace (b - a) with 0 by lia. rewrite H0.
    right. split; reflexivity.
  - left. replace (a - b) with (- (b - a)) by lia.
    rewrite binary_normalize_opp by lia.
    destruct (binary_normalize _ _ _ _ _); simpl;
      rewrite ?negb_involutive; reflexivity.
Qed.

Lemma neg_involutive (x : tREAL) : Dbl.neg (Dbl.neg x) = x.
Proof. destruct x; simpl; rewrite ?negb_involutive; reflexivity. Qed.

Lemma cond_Zopp_negb (s : bool) (m : Z) :
  cond_Zopp (negb s) m = - cond_Zopp s m.
Proof. destruct s; simpl; lia. Qed.

(** [-x - y] and [-y - x] are the same bits. *)
Lemma neg_sub_swap (x y : tREAL) :
  Dbl.sub (Dbl.neg x) y = Dbl.sub (Dbl.neg y) x.
Proof.
  unfold Dbl.sub, Dbl.neg, SFsub.
  destruct x as [sx|sx| |sx mx ex], y as [sy|sy| |sy my ey];
    simpl; try reflexivity;
    try (destruct sx, sy; reflexivity).
  rewrite (Z.min_comm ey ex), !cond_Zopp_negb. f_equal. lia.
Qed.

(** Comparisons do not see the sign of a zero. *)
Lemma same_double_ge (x y e : tREAL) :
  same_double x y -> Dbl.ge x e = Dbl.ge y e.
Proof.
  intros [->|[Hx Hy]]; [reflexivity|].
  destruct x as [sx|sx| |sx mx ex]; try discriminate;
    destruct y as [sy|sy| |sy my ey]; try discriminate;
    try (destruct sx; discriminate); try (destruct sy; discriminate).
  destruct e; reflexivity.
Qed.

Lemma same_double_neg (x y : tREAL) :
  same_double x y -> same_double (Dbl.neg x) (Dbl.neg y).
Proof.
  intros [->|[Hx Hy]]; [left; reflexivity|]. right.
  destruct x as [sx|sx| |sx mx ex]; try discriminate;
    destruct y as [sy|sy| |sy my ey]; try discriminate;
    try (destruct sx; discriminate); try (destruct sy; discriminate).
  split; reflexivity.
Qed.

Lemma beyond_same (x y e : tREAL) :
  same_double x y -> beyond x e = beyond y e.
Proof.
  intros H. unfold beyond.
  rewrite (same_double_ge x y e H).
  rewrite (same_double_ge _ _ e (same_double_neg x y H)). reflexivity.
Qed.

Lemma beyond_neg (x e : tREAL) : beyond (Dbl.neg x) e = beyond x e.
Proof. unfold beyond. rewrite neg_involutive. apply orb_comm. Qed.

(** On doubles that are not NaN, the sign tests are exhaustive. *)
Lemma le_zero_not_gt (x : tREAL) :
  is_nan x = false -> Dbl.le x Dbl.zero = negb (Dbl.gt x Dbl.zero).
Proof.
  destruct x as [[]|[]| |[] m e]; intros H; try discriminate H; reflexivity.
Qed.

Lemma ge_zero_not_lt (x : tREAL) :
  is_nan x = false -> Dbl.ge x Dbl.zero = negb (Dbl.lt x Dbl.zero).
Proof.
  destruct x as [[]|[]| |[] m e]; intros H; try discriminate H; reflexivity.
Qed.

Lemma gt_zero_not_lt (x : tREAL) :
  Dbl.gt x Dbl.zero = true -> Dbl.lt x Dbl.zero = false.
Proof.
  destruct x as [[]|[]| |[] m e]; intros H; try discriminate H; reflexivity.
Qed.

(** With its arguments swapped, the sign chain returns where it returned,
    and sets the same [detsum] where it went on. *)
Lemma sign_chain_swap (l r : tREAL) :
  is_nan l = false -> is_nan r = false ->
  sign_chain r l = sign_chain l r.
Proof.
  intros Hl Hr. unfold sign_chain.
  rewrite (le_zero_not_gt l Hl), (le_zero_not_gt r Hr).
  rewrite (ge_zero_not_lt l Hl), (ge_zero_not_lt r Hr).
  destruct (Dbl.gt l Dbl.zero) eqn:Hgl.
  - rewrite (gt_zero_not_lt l Hgl).
    destruct (Dbl.gt r Dbl.zero) eqn:Hgr; simpl.
    + rewrite (add_comm r l). reflexivity.
    + destruct (Dbl.lt r Dbl.zero); reflexivity.
  - destruct (Dbl.gt r Dbl.zero) eqn:Hgr; simpl.
    + rewrite (gt_zero_not_lt r Hgr).
      destruct (Dbl.lt l Dbl.zero); reflexivity.
    + destruct (Dbl.lt l Dbl.zero), (Dbl.lt r Dbl.zero); simpl;
        try reflexivity.
      rewrite (neg_sub_swap r l). reflexivity.
Qed.

Lemma sub_nan (x y : tREAL) :
  is_nan (Dbl.sub x y) = false -> is_nan x = false /\ is_nan y = false.
Proof. destruct x, y; simpl; intros H; split; congruence. Qed.

Lemma orient2d_first_stage_spec (P : Predicates) (pa pb pc : buf)
  (r : tREAL) :
  orient2d_first_stage P pa pb pc = Some r ->
  orient2d P pa pb pc = r /\
  r = Dbl.sub (Dbl.mul (Dbl.sub (pa 0) (pc 0)) (Dbl.sub (pb 1) (pc 1)))
              (Dbl.mul (Dbl.sub (pa 1) (pc 1)) (Dbl.sub (pb 0) (pc 0))).
Proof.
  unfold orient2d_first_stage, orient2d. cbv zeta.
  destruct (sign_chain _ _) as [detsum|].
  - destruct (beyond _ _); [|discriminate].
    intros H; injection H as <-. split; reflexivity.
  - intros H; injection H as <-. split; reflexivity.
Qed.


(** ** The theorems at concrete inputs *)

Lemma expansion_sum_within_bounds_witness :
  fst (expansion_sum 2 e_demo 2 f_demo local) <= 2 + 2 /\
  outside (2 + 2) (snd (expansion_sum 2 e_demo 2 f_demo local)) local.
Proof.
  apply (expansion_sum_within_bounds 2 e_demo 2 f_demo local); lia.
Defined.

Lemma zeroelim_keeps_one_component_witness :
  keeps_one (grow_expansion_zeroelim 2 e_demo tenth) /\
  keeps_one (expansion_sum_zeroelim1 2 e_demo 2 f_demo) /\
  keeps_one (expansion_sum_zeroelim2 2 e_demo 2 f_demo) /\
  keeps_one (fast_expansion_sum_zeroelim 2 e_demo 2 f_demo) /\
  keeps_one (linear_expansion_sum_zeroelim 2 e_demo 2 f_demo) /\
  keeps_one (scale_expansion_zeroelim exactinit 2 e_demo tenth).
Proof.
  apply (zeroelim_keeps_one_component exactinit 2 e_demo 2 f_demo tenth);
    lia.
Defined.

(** Everything cancels: the sum of [1] and [-1] is the single component
    [0.0]. *)
Example fast_expansion_sum_zeroelim_cancels :
  let r :=
    fast_expansion_sum_zeroelim 1 (of_list [Dbl.one])
      1 (of_list [Dbl.neg Dbl.one]) local in
  prefix (fst r) (snd r) = [Dbl.zero].
Proof. vm_compute. reflexivity. Qed.

(** ** The arithmetic of [double], in units of [2^-1074] *)

Local Arguments Z.mul : simpl never.
Local Arguments Z.pow : simpl never.
Local Arguments Z.add : simpl never.
Local Arguments Z.sub : simpl never.

(** The digit count of [spec_float] is the binary size of a positive. *)
Lemma digits2_pos_size (p : positive) : digits2_pos p = Pos.size p.
Proof. induction p; simpl; congruence. Qed.

(** A significand of [d] digits lies between [2^(d-1)] and [2^d]. *)
Lemma digits2_pos_bounds (p : positive) :
  2 ^ (Z.pos (digits2_pos p) - 1) <= Z.pos p < 2 ^ Z.pos (digits2_pos p).
Proof.
  rewrite digits2_pos_size. split.
  - pose proof (Pos.size_le p) as H.
    assert (H' : 2 ^ Z.pos (Pos.size p) <= 2 * Z.pos p).
    { change (2 * Z.pos p) with (Z.pos p~0).
      rewrite <- Pos2Z.inj_pow. apply Pos2Z.pos_le_pos. exact H. }
    replace (Z.pos (Pos.size p)) with (Z.pos (Pos.size p) - 1 + 1) in H' by lia.
    rewrite Z.pow_add_r in H' by lia. lia.
  - pose proof (Pos.size_gt p) as H.
    rewrite <- Pos2Z.inj_pow. apply Pos2Z.pos_lt_pos. exact H.
Qed.

(** The digit count is the only [d] with these bounds. *)
Lemma digits_unique (m d : Z) :
  0 < d -> 2 ^ (d - 1) <= m < 2 ^ d ->
  forall p, m = Z.pos p -> Z.pos (digits2_pos p) = d.
Proof.
  intros Hd [H1 H2] p ->.
  pose proof (digits2_pos_bounds p) as [H3 H4].
  set (d' := Z.pos (digits2_pos p)) in *.
  destruct (Z.lt_trichotomy d' d) as [Hlt|[Heq|Hgt]]; [|exact Heq|].
  - assert (2 ^ d' <= 2 ^ (d - 1)) by (apply Z.pow_le_mono_r; lia). lia.
  - assert (2 ^ d <= 2 ^ (d' - 1)) by (apply Z.pow_le_mono_r; lia). lia.
Qed.



(** The iterator of [spec_float] is [Pos.iter]. *)
Lemma iter_pos_iter {A : Type} (f : A -> A) (p : positive) (x : A) :
  iter_pos f p x = Pos.iter f x p.
Proof.
  revert x. induction p as [p IH | p IH |]; intros x; simpl.
  - rewrite !IH. rewrite !Pos.iter_swap. reflexivity.
  - rewrite !IH. reflexivity.
  - reflexivity.
Qed.

(** One right shift halves the significand and keeps the bit it drops. *)
Lemma shr_1_halves (q : Z) (r s : bool) :
  0 <= q ->
  exists q' b, q = 2 * q' + b /\ 0 <= q' /\ (b = 0 \/ b = 1) /\
    shr_1 (Build_shr_record q r s) = Build_shr_record q' (b =? 1) (r || s).
Proof.
  intros Hq. destruct q as [| p | p]; [| | lia].
  - exists 0, 0. simpl. repeat split; auto; lia.
  - destruct p as [p | p |].
    + exists (Z.pos p), 1. simpl. repeat split; auto; lia.
    + exists (Z.pos p), 0. simpl. repeat split; auto; lia.
    + exists 0, 1. simpl. repeat split; auto; lia.
Qed.

Lemma shr_inv_start (m : Z) : shr_inv m 0 (Build_shr_record m false false).
Proof.
  unfold shr_inv. simpl. rewrite Z.div_1_r, Z.mod_1_r. simpl. auto.
Qed.

(** One more shift keeps the record in step with the quotient. *)
Lemma shr_inv_step (m k : Z) (mrs : shr_record) :
  0 <= m -> 0 <= k -> shr_inv m k mrs -> shr_inv m (k + 1) (shr_1 mrs).
Proof.
  intros Hm Hk [Hq [Hr Hs]].
  destruct mrs as [q r s]. cbn [shr_m shr_r shr_s] in Hq, Hr, Hs.
  assert (Hp : 0 < 2 ^ k) by (apply Z.pow_pos_nonneg; lia).
  assert (Hq0 : 0 <= q) by (subst q; apply Z.div_pos; lia).
  destruct (shr_1_halves q r s Hq0) as (q' & b & Hqb & Hq' & Hb & Hstep).
  rewrite Hstep. unfold shr_inv. cbn [shr_m shr_r shr_s].
  pose proof (Z.div_mod m (2 ^ k) ltac:(lia)) as Hdm.
  pose proof (Z.mod_pos_bound m (2 ^ k) Hp) as Hrem.
  rewrite <- Hq in Hdm.
  set (rem := m mod 2 ^ k) in *.
  assert (Hpk : 2 ^ (k + 1) = 2 * 2 ^ k) by (rewrite Z.pow_add_r by lia; lia).
  assert (Hdiv : m / 2 ^ (k + 1) = q' /\ m mod 2 ^ (k + 1) = b * 2 ^ k + rem).
  { assert (H : m = 2 ^ (k + 1) * q' + (b * 2 ^ k + rem)) by (rewrite Hpk; nia).
    assert (Hb' : 0 <= b * 2 ^ k + rem < 2 ^ (k + 1)) by (rewrite Hpk; nia).
    split; symmetry.
    - apply (Z.div_unique m (2 ^ (k + 1)) q' (b * 2 ^ k + rem)); [left; exact Hb' | exact H].
    - apply (Z.mod_unique m (2 ^ (k + 1)) q' (b * 2 ^ k + rem)); [left; exact Hb' | exact H]. }
  destruct Hdiv as [Hd1 Hd2]. rewrite Hd1, Hd2, Hpk.
  split; [reflexivity |].
  rewrite Hr, Hs.
  destruct Hb as [-> | ->]; simpl (_ =? 1).
  - rewrite Z.mul_0_l, Z.add_0_l. split.
    + symmetry. apply Z.leb_gt. lia.
    + destruct (Z.eqb_spec rem 0) as [H0 | H0]; simpl.
      * destruct (Z.leb_spec (2 ^ k) (2 * rem)); simpl; [lia | reflexivity].
      * destruct (Z.leb_spec (2 ^ k) (2 * rem)); simpl;
          destruct (Z.eqb_spec (2 * rem) (2 ^ k)); simpl;
          destruct (Z.eqb_spec (2 * rem) (2 * 2 ^ k)); simpl; try reflexivity; lia.
  - rewrite Z.mul_1_l. split.
    + symmetry. apply Z.leb_le. lia.
    + destruct (Z.eqb_spec (2 ^ k + rem) 0) as [H0 | H0]; [lia |]. simpl.
      destruct (Z.eqb_spec rem 0) as [H1 | H1]; simpl.
      * destruct (Z.leb_spec (2 ^ k) (2 * rem)); simpl; [lia |].
        destruct (Z.eqb_spec (2 * (2 ^ k + rem)) (2 * 2 ^ k)); [reflexivity | lia].
      * destruct (Z.eqb_spec (2 * (2 ^ k + rem)) (2 * 2 ^ k)); [lia |].
        destruct (Z.leb_spec (2 ^ k) (2 * rem)); simpl; [reflexivity |].
        destruct (Z.eqb_spec (2 * rem) (2 ^ k)); [lia | reflexivity].
Qed.

(** So do [p] shifts in a row. *)
Lemma shr_inv_iter (m : Z) (p : positive) :
  0 <= m ->
  shr_inv m (Z.pos p) (iter_pos shr_1 p (Build_shr_record m false false)).
Proof.
  intros Hm. rewrite iter_pos_iter.
  induction p as [| p IH] using Pos.peano_ind.
  - change (Pos.iter shr_1 {| shr_m := m; shr_r := false; shr_s := false |} 1)
      with (shr_1 {| shr_m := m; shr_r := false; shr_s := false |}).
    apply (shr_inv_step m 0); [exact Hm | lia | apply shr_inv_start].
  - rewrite Pos.iter_succ, Pos2Z.inj_succ.
    apply shr_inv_step; [exact Hm | lia | exact IH].
Qed.

(** Rounding the record of [k] shifts is [rne_div]. *)
Lemma shr_inv_round (m k : Z) (mrs : shr_record) :
  0 <= k -> shr_inv m k mrs ->
  round_nearest_even (shr_m mrs) (loc_of_shr_record mrs) = rne_div m k.
Proof.
  intros Hk [Hq [Hr Hs]]. destruct mrs as [q r s]. cbn [shr_m shr_r shr_s] in *.
  assert (Hp : 0 < 2 ^ k) by (apply Z.pow_pos_nonneg; lia).
  pose proof (Z.mod_pos_bound m (2 ^ k) Hp) as Hrem.
  unfold rne_div. rewrite <- Hq.
  set (rem := m mod 2 ^ k) in *.
  destruct (Z.leb_spec (2 ^ k) (2 * rem)) as [H1 | H1];
    destruct (Z.eqb_spec rem 0) as [H2 | H2];
    destruct (Z.eqb_spec (2 * rem) (2 ^ k)) as [H3 | H3];
    cbn [negb orb] in Hs; subst r s; cbn [loc_of_shr_record round_nearest_even]; try lia.
  - rewrite H3, Z.compare_refl. reflexivity.
  - assert (Hc : (2 * rem ?= 2 ^ k) = Gt) by (apply Z.compare_gt_iff; lia).
    rewrite Hc. reflexivity.
  - assert (Hc : (2 * rem ?= 2 ^ k) = Lt) by (apply Z.compare_lt_iff; lia).
    rewrite Hc. reflexivity.
  - assert (Hc : (2 * rem ?= 2 ^ k) = Lt) by (apply Z.compare_lt_iff; lia).
    rewrite Hc. reflexivity.
Qed.

(** The exponent of the last bit kept, for a magnitude of [e] bits. *)
Lemma fexp_eq (e : Z) : fexp 53 1024 e = Z.max (e - 53) (-1074).
Proof. reflexivity. Qed.

Lemma Zdigits2_bounds (m : Z) :
  0 < m -> 0 < Zdigits2 m /\ 2 ^ (Zdigits2 m - 1) <= m < 2 ^ Zdigits2 m.
Proof.
  intros Hm. destruct m as [| p | p]; try lia.
  cbn [Zdigits2]. split; [lia | apply digits2_pos_bounds].
Qed.

Lemma Zdigits2_unique (m d : Z) :
  2 ^ (d - 1) <= m < 2 ^ d -> 0 < m -> 0 < d -> Zdigits2 m = d.
Proof.
  intros H Hm Hd. destruct m as [| p | p]; try lia.
  cbn [Zdigits2]. apply (digits_unique (Z.pos p) d Hd H p eq_refl).
Qed.

(** The rounded quotient is the quotient or the next integer. *)
Lemma rne_div_bounds (m k : Z) :
  m / 2 ^ k <= rne_div m k <= m / 2 ^ k + 1.
Proof.
  unfold rne_div. destruct (2 * (m mod 2 ^ k) ?= 2 ^ k); [destruct (Z.even _) | |]; lia.
Qed.

(** A multiple of [2^k] is divided exactly. *)
Lemma rne_div_exact (m k : Z) :
  0 <= k -> m mod 2 ^ k = 0 -> rne_div m k = m / 2 ^ k.
Proof.
  intros Hk H. unfold rne_div. rewrite H.
  assert (Hp : 0 < 2 ^ k) by (apply Z.pow_pos_nonneg; lia).
  assert (Hc : (2 * 0 ?= 2 ^ k) = Lt) by (apply Z.compare_lt_iff; lia).
  rewrite Hc. reflexivity.
Qed.

Lemma rne_div_0 (m : Z) : rne_div m 0 = m.
Proof.
  rewrite rne_div_exact; [apply Z.div_1_r | lia | apply Z.mod_1_r].
Qed.

Lemma pow2_split (a b : Z) : 0 <= a -> 0 <= b -> 2 ^ (a + b) = 2 ^ a * 2 ^ b.
Proof. intros. apply Z.pow_add_r; assumption. Qed.

(** The significand that rounding leaves has at most 53 bits, or is [2^53];
    unless the result is subnormal it has exactly 53. *)
Lemma round_range (m e : Z) :
  0 < m ->
  let f := fexp 53 1024 (Zdigits2 m + e) in
  0 <= f - e ->
  let M' := rne_div m (f - e) in
  -1074 <= f /\ 0 <= M' <= 2 ^ 53 /\ (f = -1074 \/ 2 ^ 52 <= M') /\
  (0 < M' < 2 ^ 53 -> fexp 53 1024 (Zdigits2 M' + f) = f).
Proof.
  intros Hm f Hk M'.
  destruct (Zdigits2_bounds m Hm) as [Hd [Hlo Hhi]].
  set (d := Zdigits2 m) in *.
  assert (Hf : f = Z.max (d + e - 53) (-1074)) by reflexivity.
  set (k := f - e) in *.
  assert (Hp : 0 < 2 ^ k) by (apply Z.pow_pos_nonneg; lia).
  pose proof (rne_div_bounds m k) as HM. fold M' in HM.
  assert (Hq0 : 0 <= m / 2 ^ k) by (apply Z.div_pos; lia).
  assert (Hq1 : m / 2 ^ k < 2 ^ 53).
  { apply Z.div_lt_upper_bound; [exact Hp |].
    rewrite <- pow2_split by lia.
    apply Z.lt_le_trans with (2 ^ d); [exact Hhi |].
    apply Z.pow_le_mono_r; lia. }
  assert (Hnorm : f = -1074 \/ 2 ^ 52 <= M').
  { destruct (Z.eq_dec f (-1074)) as [Hs | Hs]; [left; exact Hs | right].
    apply Z.le_trans with (m / 2 ^ k); [| lia].
    apply Z.div_le_lower_bound; [exact Hp |].
    rewrite <- pow2_split by lia.
    apply Z.le_trans with (2 ^ (d - 1)); [| exact Hlo].
    apply Z.pow_le_mono_r; lia. }
  split; [lia |]. split; [lia |]. split; [exact Hnorm |].
  intros HM'.
  destruct (Zdigits2_bounds M' ltac:(lia)) as [Hd' [Hlo' Hhi']].
  set (d' := Zdigits2 M') in *.
  assert (Hd53 : d' <= 53).
  { destruct (Z.le_gt_cases d' 53) as [H | H]; [exact H |].
    assert (2 ^ 53 <= 2 ^ (d' - 1)) by (apply Z.pow_le_mono_r; lia). lia. }
  rewrite fexp_eq.
  destruct Hnorm as [Hs | Hn]; [lia |].
  assert (d' = 53).
  { destruct (Z.eq_dec d' 53) as [H | H]; [exact H |].
    assert (2 ^ d' <= 2 ^ 52) by (apply Z.pow_le_mono_r; lia). lia. }
  lia.
Qed.



(** [shr_fexp] shifts by the number of bits to drop. *)
Lemma shr_fexp_spec (m e : Z) :
  0 <= m ->
  let k := fexp 53 1024 (Zdigits2 m + e) - e in
  0 <= k ->
  exists mrs, shr_fexp 53 1024 m e loc_Exact = (mrs, e + k) /\ shr_inv m k mrs.
Proof.
  intros Hm k Hk. unfold shr_fexp. fold k. cbn [shr_record_of_loc].
  destruct k as [| p | p] eqn:Ek; [| | lia].
  - exists (Build_shr_record m false false).
    split; [cbn [shr]; f_equal; lia | apply shr_inv_start].
  - exists (iter_pos shr_1 p (Build_shr_record m false false)).
    split; [reflexivity | apply shr_inv_iter; exact Hm].
Qed.

(** The rounding of [spec_float]: a well-formed finite double whose value is
    the rounded significand at the exponent of the last bit kept, when that
    value is within range. *)
Lemma binary_round_aux_spec (s : bool) (m : positive) (e : Z) :
  let f := fexp 53 1024 (Z.pos (digits2_pos m) + e) in
  0 <= f - e ->
  let M' := rne_div (Z.pos m) (f - e) in
  M' * 2 ^ (f + 1074) < 2 ^ 2098 ->
  let r := binary_round_aux 53 1024 s (Z.pos m) e loc_Exact in
  valid r = true /\ Dbl.is_finite r = true /\
  units r = cond_Zopp s M' * 2 ^ (f + 1074) /\
  (r = S754_zero s \/ exists m' e', r = S754_finite s m' e').
Proof.
  intros f Hk M' Hov r.
  destruct (round_range (Z.pos m) e ltac:(lia) Hk) as (Hf & HM & Hnorm & Hcan).
  change (Zdigits2 (Z.pos m)) with (Z.pos (digits2_pos m)) in Hf, HM, Hnorm, Hcan.
  fold f in Hf, HM, Hnorm, Hcan. fold M' in HM, Hnorm, Hcan.
  destruct (shr_fexp_spec (Z.pos m) e ltac:(lia) Hk) as (mrs & Hshr & Hinv).
  change (Zdigits2 (Z.pos m)) with (Z.pos (digits2_pos m)) in Hshr, Hinv.
  fold f in Hshr, Hinv.
  replace (e + (f - e)) with f in Hshr by lia.
  pose proof (shr_inv_round _ _ _ Hk Hinv) as Hrnd. fold M' in Hrnd.
  assert (Hr : r =
    let '(mrs'', e'') := shr_fexp 53 1024 M' f loc_Exact in
    match shr_m mrs'' with
    | 0 => S754_zero s
    | Z.pos m0 => if e'' <=? 1024 - 53 then S754_finite s m0 e'' else S754_infinity s
    | Z.neg _ => S754_nan
    end).
  { unfold r, binary_round_aux. rewrite Hshr. rewrite Hrnd. reflexivity. }
  clearbody r. clear Hshr Hinv Hrnd mrs.
  assert (Hpf : 0 < 2 ^ (f + 1074)) by (apply Z.pow_pos_nonneg; lia).
  assert (Hcases : M' = 0 \/ 0 < M' < 2 ^ 53 \/ M' = 2 ^ 53) by lia.
  destruct Hcases as [H0 | [Hmid | Htop]].
  - (* the result is a zero *)
    assert (Hf' : f = -1074).
    { destruct Hnorm as [H | H]; [exact H |].
      assert (0 < 2 ^ 52) by (apply Z.pow_pos_nonneg; lia). lia. }
    rewrite H0 in Hr |- *. rewrite Hf' in Hr. vm_compute in Hr. subst r.
    cbn [cond_Zopp]. destruct s; cbn; repeat split; auto.
  - (* no renormalisation *)
    specialize (Hcan Hmid).
    destruct (shr_fexp_spec M' f ltac:(lia)) as (mrs & Hshr & Hinv).
    { rewrite Hcan. lia. }
    rewrite Hcan in Hshr, Hinv. replace (f - f) with 0 in Hinv by lia.
    replace (f + (f - f)) with f in Hshr by lia.
    rewrite Hshr in Hr. destruct Hinv as [Hq _]. rewrite Z.div_1_r in Hq.
    rewrite Hq in Hr.
    assert (Hf971 : f <= 971).
    { destruct Hnorm as [H | H]; [lia |].
      destruct (Z.le_gt_cases f 971) as [Hle | Hgt]; [exact Hle |].
      assert (2 ^ 52 * 2 ^ (f + 1074) < 2 ^ 2098) by nia.
      rewrite <- pow2_split in H0 by lia.
      assert (2 ^ 2098 <= 2 ^ (52 + (f + 1074))) by (apply Z.pow_le_mono_r; lia).
      lia. }
    destruct M' as [| m' | m'] eqn:EM; try lia.
    replace (f <=? 1024 - 53) with true in Hr by (symmetry; apply Z.leb_le; lia).
    subst r. unfold valid, valid_binary, bounded, canonical_mantissa.
    change (Zdigits2 (Z.pos m')) with (Z.pos (digits2_pos m')) in Hcan.
    rewrite Hcan, Z.eqb_refl.
    replace (f <=? 1024 - 53) with true by (symmetry; apply Z.leb_le; lia).
    cbn [andb Dbl.is_finite units].
    repeat split; auto. right. eauto.
  - (* the significand was rounded up to a power of two *)
    assert (Hf970 : f < 971).
    { destruct (Z.lt_ge_cases f 971) as [Hlt | Hge]; [exact Hlt |].
      rewrite Htop in Hov. rewrite <- pow2_split in Hov by lia.
      assert (2 ^ 2098 <= 2 ^ (53 + (f + 1074))) by (apply Z.pow_le_mono_r; lia).
      lia. }
    assert (Hsh : shr_fexp 53 1024 M' f loc_Exact =
                  (Build_shr_record (2 ^ 52) false false, f + 1)).
    { rewrite Htop. unfold shr_fexp.
      change (Zdigits2 (2 ^ 53)) with 54. rewrite fexp_eq.
      replace (Z.max (54 + f - 53) (-1074) - f) with 1 by lia.
      reflexivity. }
    rewrite Hsh in Hr. cbn [shr_m] in Hr.
    change (2 ^ 52) with (Z.pos (2 ^ 52)%positive) in Hr.
    cbv iota beta in Hr.
    replace (f + 1 <=? 1024 - 53) with true in Hr by (symmetry; apply Z.leb_le; lia).
    subst r. unfold valid, valid_binary, bounded, canonical_mantissa.
    change (Z.pos (digits2_pos (2 ^ 52)%positive)) with 53. rewrite fexp_eq.
    replace (Z.max (53 + (f + 1) - 53) (-1074) =? f + 1) with true
      by (symmetry; apply Z.eqb_eq; lia).
    replace (f + 1 <=? 1024 - 53) with true by (symmetry; apply Z.leb_le; lia).
    cbn [andb Dbl.is_finite units].
    repeat split; auto.
    + rewrite Htop. replace (f + 1 + 1074) with (1 + (f + 1074)) by lia.
      rewrite pow2_split by lia.
      change (Z.pos (2 ^ 52)%positive) with (2 ^ 52).
      destruct s; cbn [cond_Zopp]; change (2 ^ 53) with (2 ^ 52 * 2 ^ 1); ring.
    + right. eauto.
Qed.


Lemma mul_compare_r (a b p : Z) : 0 < p -> (a * p ?= b * p) = (a ?= b).
Proof.
  intros Hp. destruct (Z.compare_spec a b) as [H | H | H].
  - apply Z.compare_eq_iff. subst. reflexivity.
  - apply Z.compare_lt_iff. nia.
  - apply Z.compare_gt_iff. nia.
Qed.

(** Common trailing zeros do not change the rounded quotient. *)
Lemma rne_div_scale (m j k : Z) :
  0 <= j -> 0 <= k -> rne_div (m * 2 ^ j) (k + j) = rne_div m k.
Proof.
  intros Hj Hk. unfold rne_div.
  assert (Hpj : 0 < 2 ^ j) by (apply Z.pow_pos_nonneg; lia).
  assert (Hpk : 0 < 2 ^ k) by (apply Z.pow_pos_nonneg; lia).
  rewrite (pow2_split k j) by lia.
  rewrite Z.div_mul_cancel_r by lia.
  rewrite Z.mul_mod_distr_r by lia.
  replace (2 * (m mod 2 ^ k * 2 ^ j)) with (2 * (m mod 2 ^ k) * 2 ^ j) by ring.
  rewrite mul_compare_r by lia.
  reflexivity.
Qed.

Lemma rne_div_multiple (m j k : Z) :
  0 <= k <= j -> rne_div (m * 2 ^ j) k * 2 ^ k = m * 2 ^ j.
Proof.
  intros Hkj.
  assert (Hpk : 0 < 2 ^ k) by (apply Z.pow_pos_nonneg; lia).
  assert (Hj : 2 ^ j = 2 ^ (j - k) * 2 ^ k)
    by (rewrite <- pow2_split by lia; f_equal; lia).
  rewrite Hj, Z.mul_assoc.
  rewrite rne_div_exact; [| lia | apply Z.mod_mul; lia].
  rewrite Z.div_mul by lia. reflexivity.
Qed.

(** A left shift adds to the digit count. *)
Lemma Zdigits2_shift (m j : Z) :
  0 < m -> 0 <= j -> Zdigits2 (m * 2 ^ j) = Zdigits2 m + j.
Proof.
  intros Hm Hj.
  destruct (Zdigits2_bounds m Hm) as [Hd [Hlo Hhi]].
  assert (Hpj : 0 < 2 ^ j) by (apply Z.pow_pos_nonneg; lia).
  apply Zdigits2_unique; [| nia | lia].
  replace (Zdigits2 m + j - 1) with ((Zdigits2 m - 1) + j) by lia.
  rewrite !pow2_split by lia. nia.
Qed.

Lemma Zdigits2_opp (z : Z) : Zdigits2 (- z) = Zdigits2 z.
Proof. destruct z; reflexivity. Qed.

Lemma Zdigits2_abs (z : Z) : Zdigits2 (Z.abs z) = Zdigits2 z.
Proof. destruct z; reflexivity. Qed.

(** Rounding is odd. *)
Lemma round53_opp (z : Z) : round53 (- z) = - round53 z.
Proof.
  unfold round53. rewrite Zdigits2_opp, Z.abs_opp, Z.sgn_opp. ring.
Qed.

Lemma round53_pos (z : Z) :
  0 < z -> round53 z = let k := Z.max (Zdigits2 z - 53) 0 in rne_div z k * 2 ^ k.
Proof.
  intros Hz. unfold round53. rewrite Z.sgn_pos, Z.abs_eq by lia. cbv zeta. ring.
Qed.

Lemma round53_0 : round53 0 = 0.
Proof. reflexivity. Qed.

(** A value of at most 53 significant bits is its own rounding. *)
Lemma round53_exact (w t : Z) :
  Z.abs w <= 2 ^ 53 -> 0 <= t -> round53 (w * 2 ^ t) = w * 2 ^ t.
Proof.
  intros Hw Ht.
  assert (Hpos : forall v, 0 < v -> v <= 2 ^ 53 -> round53 (v * 2 ^ t) = v * 2 ^ t).
  { intros v Hv Hv53.
    assert (Hpt : 0 < 2 ^ t) by (apply Z.pow_pos_nonneg; lia).
    rewrite round53_pos by nia. cbv zeta.
    destruct (Z.eq_dec v (2 ^ 53)) as [-> | Hne].
    - rewrite <- pow2_split by lia.
      replace (2 ^ (53 + t)) with (1 * 2 ^ (53 + t)) by ring.
      rewrite Zdigits2_shift by lia. change (Zdigits2 1) with 1.
      apply rne_div_multiple. lia.
    - rewrite Zdigits2_shift by lia.
      destruct (Zdigits2_bounds v Hv) as [Hd [Hlo Hhi]].
      assert (Zdigits2 v <= 53).
      { destruct (Z.le_gt_cases (Zdigits2 v) 53) as [H | H]; [exact H |].
        assert (2 ^ 53 <= 2 ^ (Zdigits2 v - 1)) by (apply Z.pow_le_mono_r; lia). lia. }
      apply rne_div_multiple. lia. }
  destruct (Z.lt_trichotomy w 0) as [Hneg | [-> | Hp]].
  - replace (w * 2 ^ t) with (- ((- w) * 2 ^ t)) by ring.
    rewrite round53_opp, Hpos by lia. reflexivity.
  - reflexivity.
  - apply Hpos; lia.
Qed.

(** Appending zero bits multiplies by a power of two. *)
Lemma iter_xO (m d : positive) :
  Z.pos (Pos.iter xO m d) = Z.pos m * 2 ^ Z.pos d.
Proof.
  induction d as [| d IH] using Pos.peano_ind.
  - cbn [Pos.iter]. rewrite Pos2Z.inj_xO. change (2 ^ 1) with 2. ring.
  - rewrite Pos.iter_succ, Pos2Z.inj_xO, IH, Pos2Z.inj_succ.
    rewrite Z.pow_succ_r by lia. ring.
Qed.

(** Aligning to a lower exponent scales the significand. *)
Lemma shl_align_fst (m : positive) (e e' : Z) :
  e' <= e -> Z.pos (fst (shl_align m e e')) = Z.pos m * 2 ^ (e - e').
Proof.
  intros H. unfold shl_align.
  destruct (e' - e) as [| d | d] eqn:E; try lia.
  - cbn [fst]. replace (e - e') with 0 by lia. change (2 ^ 0) with 1. ring.
  - cbn [fst]. rewrite iter_xO. replace (e - e') with (Z.pos d) by lia. reflexivity.
Qed.

(** [binary_round], in units: the value [m * 2^e] rounded to 53 bits. *)
Lemma binary_round_spec (s : bool) (m : positive) (e : Z) :
  -1074 <= e ->
  let z := Z.pos m * 2 ^ (e + 1074) in
  round53 z < 2 ^ 2098 ->
  let r := binary_round 53 1024 s m e in
  valid r = true /\ Dbl.is_finite r = true /\
  units r = cond_Zopp s (round53 z) /\
  (r = S754_zero s \/ exists m' e', r = S754_finite s m' e').
Proof.
  intros He z Hov r.
  assert (Hpj : 0 < 2 ^ (e + 1074)) by (apply Z.pow_pos_nonneg; lia).
  assert (Hz : 0 < z) by (unfold z; nia).
  set (d := Z.pos (digits2_pos m)).
  set (f := fexp 53 1024 (d + e)).
  assert (Hf : f = Z.max (d + e - 53) (-1074)) by reflexivity.
  assert (Hk0 : Z.max (Zdigits2 z - 53) 0 = f + 1074).
  { unfold z. rewrite Zdigits2_shift by lia.
    change (Zdigits2 (Z.pos m)) with d. lia. }
  rewrite round53_pos in Hov |- * by exact Hz. cbv zeta in Hov |- *.
  rewrite Hk0 in Hov |- *.
  unfold r, binary_round. fold d. fold f.
  unfold shl_align.
  destruct (f - e) as [| k | k] eqn:Ek.
  - (* already aligned *)
    assert (Hfe : f = e) by lia.
    pose proof (binary_round_aux_spec s m e) as H. cbv zeta in H.
    fold d in H. fold f in H. rewrite Ek, rne_div_0 in H.
    rewrite Hfe in H, Hov |- *.
    unfold z in Hov |- *. rewrite rne_div_multiple in Hov |- * by lia.
    destruct (H ltac:(lia) Hov) as (H1 & H2 & H3 & H4).
    repeat split; try assumption.
    rewrite H3. destruct s; cbn [cond_Zopp]; ring.
  - (* digits are dropped *)
    pose proof (binary_round_aux_spec s m e) as H. cbv zeta in H.
    fold d in H. fold f in H. rewrite Ek in H.
    assert (Hsc : rne_div z (f + 1074) = rne_div (Z.pos m) (Z.pos k)).
    { unfold z. replace (f + 1074) with (Z.pos k + (e + 1074)) by lia.
      apply rne_div_scale; lia. }
    rewrite Hsc in Hov |- *.
    destruct (H ltac:(lia) Hov) as (H1 & H2 & H3 & H4).
    repeat split; try assumption.
    rewrite H3. destruct s; cbn [cond_Zopp]; ring.
  - (* the significand is shifted left *)
    set (mz := Pos.iter xO m k).
    assert (Hmz : Z.pos mz = Z.pos m * 2 ^ Z.pos k) by apply iter_xO.
    assert (Hdz : Z.pos (digits2_pos mz) = d + Z.pos k).
    { change (Z.pos (digits2_pos mz)) with (Zdigits2 (Z.pos mz)).
      rewrite Hmz, Zdigits2_shift by lia. reflexivity. }
    pose proof (binary_round_aux_spec s mz f) as H. cbv zeta in H.
    rewrite Hdz in H. replace (d + Z.pos k + f) with (d + e) in H by lia.
    fold f in H. replace (f - f) with 0 in H by lia. rewrite rne_div_0 in H.
    assert (Hzz : rne_div z (f + 1074) * 2 ^ (f + 1074) = Z.pos mz * 2 ^ (f + 1074)).
    { unfold z. rewrite rne_div_multiple by lia.
      rewrite Hmz. replace (e + 1074) with (Z.pos k + (f + 1074)) by lia.
      rewrite pow2_split by lia. ring. }
    rewrite Hzz in Hov |- *.
    destruct (H ltac:(lia) Hov) as (H1 & H2 & H3 & H4).
    repeat split; try assumption.
    rewrite H3. destruct s; cbn [cond_Zopp]; ring.
Qed.

Lemma round53_nonneg (z : Z) : 0 <= z -> 0 <= round53 z.
Proof.
  intros Hz. destruct (Z.eq_dec z 0) as [-> | Hne]; [rewrite round53_0; lia |].
  rewrite round53_pos by lia. cbv zeta.
  set (k := Z.max (Zdigits2 z - 53) 0).
  assert (0 < 2 ^ k) by (apply Z.pow_pos_nonneg; lia).
  pose proof (rne_div_bounds z k).
  assert (0 <= z / 2 ^ k) by (apply Z.div_pos; lia).
  nia.
Qed.

(** [binary_normalize], in units, for a signed significand. *)
Lemma binary_normalize_spec (M e : Z) :
  -1074 <= e ->
  let z := M * 2 ^ (e + 1074) in
  Z.abs (round53 z) < 2 ^ 2098 ->
  let r := binary_normalize 53 1024 M e false in
  valid r = true /\ Dbl.is_finite r = true /\ units r = round53 z.
Proof.
  intros He z Hov r.
  assert (Hpj : 0 < 2 ^ (e + 1074)) by (apply Z.pow_pos_nonneg; lia).
  destruct M as [| p | p]; unfold r, binary_normalize.
  - repeat split; reflexivity.
  - pose proof (round53_nonneg z ltac:(unfold z; nia)) as Hnn.
    destruct (binary_round_spec false p e He ltac:(fold z; lia)) as (H1 & H2 & H3 & _).
    repeat split; assumption.
  - assert (Hz : z = - (Z.pos p * 2 ^ (e + 1074))).
    { unfold z. rewrite <- Pos2Z.opp_pos. ring. }
    rewrite Hz, round53_opp in Hov |- *.
    pose proof (round53_nonneg (Z.pos p * 2 ^ (e + 1074)) ltac:(nia)) as Hnn.
    destruct (binary_round_spec true p e He ltac:(lia)) as (H1 & H2 & H3 & _).
    repeat split; assumption.
Qed.

(** What [valid] says of a finite double. *)
Lemma valid_finite (s : bool) (m : positive) (e : Z) :
  valid (S754_finite s m e) = true ->
  Z.pos m < 2 ^ 53 /\ -1074 <= e <= 971 /\
  (Zdigits2 (Z.pos m) = 53 \/ e = -1074).
Proof.
  unfold valid, valid_binary, bounded, canonical_mantissa. intros H.
  apply andb_prop in H. destruct H as [Hc Hb].
  apply Z.eqb_eq in Hc. apply Z.leb_le in Hb.
  rewrite fexp_eq in Hc.
  change (Z.pos (digits2_pos m)) with (Zdigits2 (Z.pos m)) in Hc.
  destruct (Zdigits2_bounds (Z.pos m) ltac:(lia)) as [Hd [Hlo Hhi]].
  set (d := Zdigits2 (Z.pos m)) in *.
  assert (Hd53 : d <= 53) by lia.
  assert (2 ^ d <= 2 ^ 53) by (apply Z.pow_le_mono_r; lia).
  change (1024 - 53) with 971 in Hb.
  repeat split; lia.
Qed.

(** A double is its own rounding. *)
Lemma round53_units (x : tREAL) :
  valid x = true -> round53 (units x) = units x.
Proof.
  intros Hv. destruct x as [s | s | | s m e]; try reflexivity.
  destruct (valid_finite s m e Hv) as (Hm & He & _).
  cbn [units]. apply round53_exact; [| lia].
  destruct s; cbn [cond_Zopp]; lia.
Qed.

(** A double is below [2^1024]. *)
Lemma units_bound (x : tREAL) :
  valid x = true -> Z.abs (units x) < 2 ^ 2098.
Proof.
  intros Hv. destruct x as [s | s | | s m e]; try reflexivity.
  destruct (valid_finite s m e Hv) as (Hm & He & _).
  cbn [units].
  assert (Hp : 0 < 2 ^ (e + 1074)) by (apply Z.pow_pos_nonneg; lia).
  assert (Hp' : 2 ^ (e + 1074) <= 2 ^ 2045) by (apply Z.pow_le_mono_r; lia).
  change (2 ^ 2098) with (2 ^ 53 * 2 ^ 2045).
  assert (H53 : 0 < 2 ^ 53) by reflexivity.
  rewrite Z.abs_mul, (Z.abs_eq (2 ^ (e + 1074))) by lia.
  assert (Ha : Z.abs (cond_Zopp s (Z.pos m)) = Z.pos m) by (destruct s; reflexivity).
  rewrite Ha.
  apply Z.lt_le_trans with (2 ^ 53 * 2 ^ (e + 1074)).
  - apply Z.mul_lt_mono_pos_r; assumption.
  - apply Z.mul_le_mono_nonneg_l; lia.
Qed.

Lemma units_aligned (s : bool) (m : positive) (e ez : Z) :
  -1074 <= ez <= e ->
  cond_Zopp s (Z.pos (fst (shl_align m e ez))) * 2 ^ (ez + 1074) =
  units (S754_finite s m e).
Proof.
  intros H. rewrite shl_align_fst by lia. cbn [units].
  replace (e + 1074) with ((e - ez) + (ez + 1074)) by lia.
  rewrite (pow2_split (e - ez) (ez + 1074)) by lia.
  destruct s; cbn [cond_Zopp]; ring.
Qed.

(** [a + b] is the exact sum rounded to 53 bits, unless it overflows. *)
Lemma add_spec (x y : tREAL) :
  valid x = true -> valid y = true ->
  Dbl.is_finite x = true -> Dbl.is_finite y = true ->
  let z := units x + units y in
  Z.abs (round53 z) < 2 ^ 2098 ->
  let r := Dbl.add x y in
  valid r = true /\ Dbl.is_finite r = true /\ units r = round53 z.
Proof.
  intros Vx Vy Fx Fy z Hov r.
  destruct x as [sx | sx | | sx mx ex]; try discriminate Fx;
    destruct y as [sy | sy | | sy my ey]; try discriminate Fy.
  - unfold r. destruct sx, sy; repeat split; reflexivity.
  - unfold r, z. cbn [Dbl.add SFadd]. change (Dbl.add ?a ?b) with (SFadd 53 1024 a b).
    cbn [SFadd]. change (units (S754_zero sx)) with 0. rewrite Z.add_0_l.
    rewrite round53_units by exact Vy. repeat split; assumption.
  - unfold r, z. change (Dbl.add ?a ?b) with (SFadd 53 1024 a b).
    cbn [SFadd]. change (units (S754_zero sy)) with 0. rewrite Z.add_0_r.
    rewrite round53_units by exact Vx. repeat split; assumption.
  - destruct (valid_finite _ _ _ Vx) as (_ & Hex & _).
    destruct (valid_finite _ _ _ Vy) as (_ & Hey & _).
    unfold r. change (Dbl.add ?a ?b) with (SFadd 53 1024 a b). cbn [SFadd].
    set (ez := Z.min ex ey).
    pose proof (binary_normalize_spec
      (cond_Zopp sx (Z.pos (fst (shl_align mx ex ez))) +
       cond_Zopp sy (Z.pos (fst (shl_align my ey ez)))) ez ltac:(lia)) as H.
    cbv zeta in H.
    rewrite Z.mul_add_distr_r, !units_aligned in H by lia.
    exact (H Hov).
Qed.

(** [a - b] is the exact difference rounded to 53 bits, unless it overflows. *)
Lemma sub_spec (x y : tREAL) :
  valid x = true -> valid y = true ->
  Dbl.is_finite x = true -> Dbl.is_finite y = true ->
  let z := units x - units y in
  Z.abs (round53 z) < 2 ^ 2098 ->
  let r := Dbl.sub x y in
  valid r = true /\ Dbl.is_finite r = true /\ units r = round53 z.
Proof.
  intros Vx Vy Fx Fy z Hov r.
  destruct x as [sx | sx | | sx mx ex]; try discriminate Fx;
    destruct y as [sy | sy | | sy my ey]; try discriminate Fy.
  - unfold r. destruct sx, sy; repeat split; reflexivity.
  - unfold r, z. change (Dbl.sub ?a ?b) with (SFsub 53 1024 a b).
    cbn [SFsub]. change (units (S754_zero sx)) with 0. rewrite Z.sub_0_l.
    rewrite round53_opp, round53_units by exact Vy.
    repeat split; try assumption.
    cbn [units]. destruct sy; cbn [negb cond_Zopp]; ring.
  - unfold r, z. change (Dbl.sub ?a ?b) with (SFsub 53 1024 a b).
    cbn [SFsub]. change (units (S754_zero sy)) with 0. rewrite Z.sub_0_r.
    rewrite round53_units by exact Vx. repeat split; assumption.
  - destruct (valid_finite _ _ _ Vx) as (_ & Hex & _).
    destruct (valid_finite _ _ _ Vy) as (_ & Hey & _).
    unfold r. change (Dbl.sub ?a ?b) with (SFsub 53 1024 a b). cbn [SFsub].
    set (ez := Z.min ex ey).
    pose proof (binary_normalize_spec
      (cond_Zopp sx (Z.pos (fst (shl_align mx ex ez))) -
       cond_Zopp sy (Z.pos (fst (shl_align my ey ez)))) ez ltac:(lia)) as H.
    cbv zeta in H.
    rewrite Z.mul_sub_distr_r, !units_aligned in H by lia.
    exact (H Hov).
Qed.

(** A product has at least one digit less than its factors together. *)
Lemma Zdigits2_mul_lower (a b : Z) :
  0 < a -> 0 < b -> Zdigits2 a + Zdigits2 b - 1 <= Zdigits2 (a * b).
Proof.
  intros Ha Hb.
  destruct (Zdigits2_bounds a Ha) as [Hda [Hla Hha]].
  destruct (Zdigits2_bounds b Hb) as [Hdb [Hlb Hhb]].
  destruct (Zdigits2_bounds (a * b) ltac:(nia)) as [Hd [Hl Hh]].
  set (da := Zdigits2 a) in *. set (db := Zdigits2 b) in *.
  set (d := Zdigits2 (a * b)) in *.
  destruct (Z.le_gt_cases (da + db - 1) d) as [H | H]; [exact H |].
  assert (Hp : 2 ^ d <= 2 ^ ((da - 1) + (db - 1))) by (apply Z.pow_le_mono_r; lia).
  rewrite pow2_split in Hp by lia.
  assert (0 < 2 ^ (da - 1)) by (apply Z.pow_pos_nonneg; lia).
  assert (0 < 2 ^ (db - 1)) by (apply Z.pow_pos_nonneg; lia).
  nia.
Qed.

Lemma Zdigits2_scaled (a b i j : Z) :
  0 < a -> 0 < b -> 0 <= i -> 0 <= j -> a * 2 ^ i = b * 2 ^ j ->
  Zdigits2 a + i = Zdigits2 b + j.
Proof.
  intros Ha Hb Hi Hj H.
  rewrite <- (Zdigits2_shift a i), <- (Zdigits2_shift b j) by lia.
  rewrite H. reflexivity.
Qed.

(** The product of two significands, rounded. *)
Lemma mul_core (s : bool) (mx my : positive) (ex ey W : Z) :
  valid (S754_finite false mx ex) = true ->
  valid (S754_finite false my ey) = true ->
  0 < W ->
  W * 2 ^ 1074 = Z.pos (mx * my) * 2 ^ (ex + ey + 2148) ->
  round53 W < 2 ^ 2098 ->
  let r := binary_round_aux 53 1024 s (Z.pos (mx * my)) (ex + ey) loc_Exact in
  valid r = true /\ Dbl.is_finite r = true /\ units r = cond_Zopp s (round53 W).
Proof.
  intros Vx Vy HW HWeq Hov r.
  destruct (valid_finite _ _ _ Vx) as (Hmx & Hex & Hcx).
  destruct (valid_finite _ _ _ Vy) as (Hmy & Hey & Hcy).
  destruct (Zdigits2_bounds (Z.pos mx) ltac:(lia)) as [Hdx _].
  destruct (Zdigits2_bounds (Z.pos my) ltac:(lia)) as [Hdy _].
  pose proof (Zdigits2_mul_lower (Z.pos mx) (Z.pos my) ltac:(lia) ltac:(lia)) as Hd.
  rewrite <- Pos2Z.inj_mul in Hd.
  pose proof (Zdigits2_scaled W (Z.pos (mx * my)) 1074 (ex + ey + 2148)
                ltac:(lia) ltac:(lia) ltac:(lia) ltac:(lia) HWeq) as HdW.
  set (M := (mx * my)%positive) in *.
  set (e := ex + ey) in *.
  pose proof (binary_round_aux_spec s M e) as H. cbv zeta in H.
  change (Z.pos (digits2_pos M)) with (Zdigits2 (Z.pos M)) in H.
  set (d := Zdigits2 (Z.pos M)) in *.
  rewrite fexp_eq in H.
  set (f := Z.max (d + e - 53) (-1074)) in *.
  assert (Hk : 0 <= f - e) by lia.
  assert (Hk0 : Z.max (Zdigits2 W - 53) 0 = f + 1074) by lia.
  rewrite round53_pos in Hov |- * by exact HW. cbv zeta in Hov |- *.
  rewrite Hk0 in Hov |- *.
  assert (Hsc : rne_div W (f + 1074) = rne_div (Z.pos M) (f - e)).
  { destruct (Z.le_gt_cases 0 (e + 1074)) as [Hj | Hj].
    - assert (HWM : W = Z.pos M * 2 ^ (e + 1074)).
      { replace (e + 2148) with ((e + 1074) + 1074) in HWeq by lia.
        rewrite pow2_split in HWeq by lia.
        assert (0 < 2 ^ 1074) by reflexivity. nia. }
      rewrite HWM. replace (f + 1074) with ((f - e) + (e + 1074)) by lia.
      apply rne_div_scale; lia.
    - assert (HMW : Z.pos M = W * 2 ^ (- (e + 1074))).
      { assert (Hs : 2 ^ 1074 = 2 ^ (- (e + 1074)) * 2 ^ (e + 2148))
          by (rewrite <- pow2_split by lia; f_equal; lia).
        rewrite Hs in HWeq.
        assert (0 < 2 ^ (e + 2148)) by (apply Z.pow_pos_nonneg; lia).
        nia. }
      rewrite HMW. replace (f - e) with ((f + 1074) + (- (e + 1074))) by lia.
      symmetry. apply rne_div_scale; lia. }
  rewrite Hsc in Hov |- *.
  destruct (H Hk Hov) as (H1 & H2 & H3 & _).
  repeat split; try assumption.
  fold r in H3. rewrite H3. destruct s; cbn [cond_Zopp]; ring.
Qed.

(** [a * b] is the exact product rounded to 53 bits, when the exact product
    is a multiple of [2^-1074] and the rounding within range. *)
Lemma mul_spec (x y : tREAL) (W : Z) :
  valid x = true -> valid y = true ->
  Dbl.is_finite x = true -> Dbl.is_finite y = true ->
  units x * units y = W * 2 ^ 1074 ->
  Z.abs (round53 W) < 2 ^ 2098 ->
  let r := Dbl.mul x y in
  valid r = true /\ Dbl.is_finite r = true /\ units r = round53 W.
Proof.
  intros Vx Vy Fx Fy HW Hov r.
  assert (H1074 : 0 < 2 ^ 1074) by reflexivity.
  assert (Hzero : units x * units y = 0 -> W = 0) by (intros H0; rewrite H0 in HW; nia).
  destruct x as [sx | sx | | sx mx ex]; try discriminate Fx;
    destruct y as [sy | sy | | sy my ey]; try discriminate Fy;
    try (unfold r; rewrite (Hzero ltac:(cbn [units]; ring)); repeat split; reflexivity).
  destruct (valid_finite _ _ _ Vx) as (_ & Hex & _).
  destruct (valid_finite _ _ _ Vy) as (_ & Hey & _).
  unfold r. change (Dbl.mul ?a ?b) with (SFmul 53 1024 a b). cbn [SFmul].
  assert (Hprod : units (S754_finite sx mx ex) * units (S754_finite sy my ey) =
                  cond_Zopp (xorb sx sy) (Z.pos (mx * my) * 2 ^ (ex + ey + 2148))).
  { cbn [units]. replace (ex + ey + 2148) with ((ex + 1074) + (ey + 1074)) by lia.
    rewrite (pow2_split (ex + 1074) (ey + 1074)) by lia. rewrite Pos2Z.inj_mul.
    destruct sx, sy; cbn [xorb cond_Zopp]; ring. }
  rewrite Hprod in HW.
  assert (Hpp : 0 < Z.pos (mx * my) * 2 ^ (ex + ey + 2148)).
  { assert (0 < 2 ^ (ex + ey + 2148)) by (apply Z.pow_pos_nonneg; lia). nia. }
  destruct (xorb sx sy) eqn:Es; cbn [cond_Zopp] in HW.
  - assert (HWn : 0 < - W) by nia.
    pose proof (round53_nonneg (- W) ltac:(lia)) as Hnn.
    rewrite <- (Z.opp_involutive W) in Hov |- *.
    rewrite round53_opp in Hov |- *.
    apply (mul_core true mx my ex ey (- W)); try assumption; lia.
  - assert (HWp : 0 < W) by nia.
    pose proof (round53_nonneg W ltac:(lia)) as Hnn.
    apply (mul_core false mx my ex ey W); try assumption; lia.
Qed.

(** ** Points on a grid *)

Lemma on_grid_ext (g : Z) (x : tREAL) (n n' : Z) :
  on_grid g x n -> n = n' -> on_grid g x n'.
Proof. intros H <-. exact H. Qed.

Lemma pow2_bound (n j : Z) :
  Z.abs n <= 2 ^ 53 -> 0 <= j <= 2044 -> Z.abs (n * 2 ^ j) < 2 ^ 2098.
Proof.
  intros Hn Hj.
  assert (Hp : 0 < 2 ^ j) by (apply Z.pow_pos_nonneg; lia).
  assert (Hp' : 2 ^ j <= 2 ^ 2044) by (apply Z.pow_le_mono_r; lia).
  rewrite Z.abs_mul, (Z.abs_eq (2 ^ j)) by lia.
  change (2 ^ 2098) with (2 ^ 54 * 2 ^ 2044).
  assert (H53 : 0 < 2 ^ 53) by reflexivity.
  apply Z.le_lt_trans with (2 ^ 53 * 2 ^ 2044).
  - apply Z.mul_le_mono_nonneg; lia.
  - apply Z.mul_lt_mono_pos_r; [lia | reflexivity].
Qed.

Lemma grid_scale (a b g1 g2 : Z) :
  -1074 <= g1 -> -1074 <= g2 -> -1074 <= g1 + g2 ->
  a * 2 ^ (g1 + 1074) * (b * 2 ^ (g2 + 1074)) =
  a * b * 2 ^ (g1 + g2 + 1074) * 2 ^ 1074.
Proof.
  intros H1 H2 H.
  assert (Hp : 2 ^ (g1 + 1074) * 2 ^ (g2 + 1074) = 2 ^ (g1 + g2 + 1074) * 2 ^ 1074).
  { rewrite <- !pow2_split by lia. f_equal. lia. }
  replace (a * 2 ^ (g1 + 1074) * (b * 2 ^ (g2 + 1074)))
    with (a * b * (2 ^ (g1 + 1074) * 2 ^ (g2 + 1074))) by ring.
  rewrite Hp. ring.
Qed.

(** On a grid, a sum of at most 53 bits is exact. *)
Lemma grid_add (g : Z) (x y : tREAL) (a b : Z) :
  -1074 <= g <= 970 -> on_grid g x a -> on_grid g y b ->
  Z.abs (a + b) <= 2 ^ 53 -> on_grid g (Dbl.add x y) (a + b).
Proof.
  intros Hg (Vx & Fx & Ux) (Vy & Fy & Uy) Hb.
  pose proof (add_spec x y Vx Vy Fx Fy) as H. cbv zeta in H.
  rewrite Ux, Uy, <- Z.mul_add_distr_r in H.
  rewrite round53_exact in H by lia.
  apply H. apply pow2_bound; [exact Hb | lia].
Qed.

(** So is a difference. *)
Lemma grid_sub (g : Z) (x y : tREAL) (a b : Z) :
  -1074 <= g <= 970 -> on_grid g x a -> on_grid g y b ->
  Z.abs (a - b) <= 2 ^ 53 -> on_grid g (Dbl.sub x y) (a - b).
Proof.
  intros Hg (Vx & Fx & Ux) (Vy & Fy & Uy) Hb.
  pose proof (sub_spec x y Vx Vy Fx Fy) as H. cbv zeta in H.
  rewrite Ux, Uy, <- Z.mul_sub_distr_r in H.
  rewrite round53_exact in H by lia.
  apply H. apply pow2_bound; [exact Hb | lia].
Qed.

(** A product of at most 53 bits is exact, on the product grid. *)
Lemma grid_mul (g1 g2 : Z) (x y : tREAL) (a b : Z) :
  -1074 <= g1 -> -1074 <= g2 -> -1074 <= g1 + g2 <= 970 ->
  on_grid g1 x a -> on_grid g2 y b ->
  Z.abs (a * b) <= 2 ^ 53 -> on_grid (g1 + g2) (Dbl.mul x y) (a * b).
Proof.
  intros Hg1 Hg2 Hg (Vx & Fx & Ux) (Vy & Fy & Uy) Hb.
  pose proof (mul_spec x y (a * b * 2 ^ (g1 + g2 + 1074)) Vx Vy Fx Fy) as H.
  cbv zeta in H.
  rewrite round53_exact in H by lia.
  apply H.
  - rewrite Ux, Uy. apply grid_scale; lia.
  - apply pow2_bound; [exact Hb | lia].
Qed.

(** Zero is on every grid. *)
Lemma on_grid_zero (g g' : Z) (x : tREAL) : on_grid g x 0 -> on_grid g' x 0.
Proof.
  intros (V & F & U). split; [exact V | split; [exact F |]].
  rewrite U. rewrite !Z.mul_0_l. reflexivity.
Qed.

(** A double of value zero is a zero. *)
Lemma units_zero (x : tREAL) :
  valid x = true -> Dbl.is_finite x = true -> units x = 0 ->
  exists s, x = S754_zero s.
Proof.
  intros V F U. destruct x as [s | s | | s m e]; try discriminate F.
  - exists s. reflexivity.
  - destruct (valid_finite s m e V) as (_ & He & _).
    cbn [units] in U.
    assert (0 < 2 ^ (e + 1074)) by (apply Z.pow_pos_nonneg; lia).
    destruct s; cbn [cond_Zopp] in U; nia.
Qed.

(** It compares equal to [0.0]. *)
Lemma on_grid_eq_zero (g : Z) (x : tREAL) :
  on_grid g x 0 -> Dbl.eq x Dbl.zero = true.
Proof.
  intros (V & F & U). rewrite Z.mul_0_l in U.
  destruct (units_zero x V F U) as [s ->]. destruct s; reflexivity.
Qed.

Section Grid.

Variable g : Z.
Hypothesis Hg : -1074 <= g <= 970.

Ltac grid_op :=
  first [ apply grid_add | apply grid_sub ];
  [ exact Hg | eassumption | eassumption | lia ].

(** [Two_Sum] of two grid values: the sum, and a zero tail. *)
Lemma Two_Sum_grid (a b : tREAL) (n m : Z) :
  on_grid g a n -> on_grid g b m ->
  Z.abs n <= 2 ^ 52 -> Z.abs m <= 2 ^ 52 ->
  on_grid g (fst (Two_Sum a b)) (n + m) /\ on_grid g (snd (Two_Sum a b)) 0.
Proof.
  intros Ha Hb Hn Hm. unfold Two_Sum. cbn [fst snd].
  assert (H53 : 2 ^ 53 = 2 * 2 ^ 52) by reflexivity.
  assert (Hx : on_grid g (Dbl.add a b) (n + m)) by grid_op.
  assert (Hbv : on_grid g (Dbl.sub (Dbl.add a b) a) (n + m - n)) by grid_op.
  assert (Hav : on_grid g (Dbl.sub (Dbl.add a b) (Dbl.sub (Dbl.add a b) a))
                  (n + m - (n + m - n))) by grid_op.
  assert (Hbr : on_grid g (Dbl.sub b (Dbl.sub (Dbl.add a b) a)) (m - (n + m - n)))
    by grid_op.
  assert (Har : on_grid g
                  (Dbl.sub a (Dbl.sub (Dbl.add a b) (Dbl.sub (Dbl.add a b) a)))
                  (n - (n + m - (n + m - n)))) by grid_op.
  split; [exact Hx |].
  eapply on_grid_ext; [grid_op | lia].
Qed.

(** The tail of an exact difference is zero. *)
Lemma Two_Diff_Tail_grid (a b : tREAL) (n m : Z) :
  on_grid g a n -> on_grid g b m ->
  Z.abs n <= 2 ^ 52 -> Z.abs m <= 2 ^ 52 ->
  on_grid g (Two_Diff_Tail a b (Dbl.sub a b)) 0.
Proof.
  intros Ha Hb Hn Hm. unfold Two_Diff_Tail.
  assert (H53 : 2 ^ 53 = 2 * 2 ^ 52) by reflexivity.
  assert (Hx : on_grid g (Dbl.sub a b) (n - m)) by grid_op.
  assert (Hbv : on_grid g (Dbl.sub a (Dbl.sub a b)) (n - (n - m))) by grid_op.
  assert (Hav : on_grid g (Dbl.add (Dbl.sub a b) (Dbl.sub a (Dbl.sub a b)))
                  (n - m + (n - (n - m)))) by grid_op.
  assert (Hbr : on_grid g (Dbl.sub (Dbl.sub a (Dbl.sub a b)) b) (n - (n - m) - m))
    by grid_op.
  assert (Har : on_grid g
                  (Dbl.sub a (Dbl.add (Dbl.sub a b) (Dbl.sub a (Dbl.sub a b))))
                  (n - (n - m + (n - (n - m))))) by grid_op.
  eapply on_grid_ext; [grid_op | lia].
Qed.

Lemma Two_Diff_grid (a b : tREAL) (n m : Z) :
  on_grid g a n -> on_grid g b m ->
  Z.abs n <= 2 ^ 52 -> Z.abs m <= 2 ^ 52 ->
  on_grid g (fst (Two_Diff a b)) (n - m) /\ on_grid g (snd (Two_Diff a b)) 0.
Proof.
  intros Ha Hb Hn Hm. unfold Two_Diff. cbn [fst snd].
  assert (H53 : 2 ^ 53 = 2 * 2 ^ 52) by reflexivity.
  split; [grid_op | apply (Two_Diff_Tail_grid a b n m); assumption].
Qed.

Lemma Two_One_Diff_grid (a1 a0 b : tREAL) (n m : Z) :
  on_grid g a1 n -> on_grid g a0 0 -> on_grid g b m ->
  Z.abs n <= 2 ^ 52 -> Z.abs m <= 2 ^ 52 ->
  let '(x2, x1, x0) := Two_One_Diff a1 a0 b in
  on_grid g x2 (n - m) /\ on_grid g x1 0 /\ on_grid g x0 0.
Proof.
  intros Ha1 Ha0 Hb Hn Hm. unfold Two_One_Diff.
  assert (H52 : 0 < 2 ^ 52) by reflexivity.
  destruct (Two_Diff_grid a0 b 0 m Ha0 Hb ltac:(lia) Hm) as [Hi Hx0].
  destruct (Two_Diff a0 b) as [_i x0]. cbn [fst snd] in Hi, Hx0.
  destruct (Two_Sum_grid a1 _i n (0 - m) Ha1 Hi Hn ltac:(lia)) as [Hx2 Hx1].
  destruct (Two_Sum a1 _i) as [x2 x1]. cbn [fst snd] in Hx2, Hx1.
  split; [| split; assumption].
  eapply on_grid_ext; [exact Hx2 | lia].
Qed.

(** [Two_Two_Diff] of two grid values with zero tails: the difference on top
    of three zeros. *)
Lemma Two_Two_Diff_grid (a1 a0 b1 b0 : tREAL) (n m : Z) :
  on_grid g a1 n -> on_grid g a0 0 -> on_grid g b1 m -> on_grid g b0 0 ->
  Z.abs n <= 2 ^ 51 -> Z.abs m <= 2 ^ 51 ->
  let '(x3, x2, x1, x0) := Two_Two_Diff a1 a0 b1 b0 in
  on_grid g x3 (n - m) /\ on_grid g x2 0 /\ on_grid g x1 0 /\ on_grid g x0 0.
Proof.
  intros Ha1 Ha0 Hb1 Hb0 Hn Hm. unfold Two_Two_Diff.
  assert (H52 : 2 ^ 52 = 2 * 2 ^ 51) by reflexivity.
  assert (H51 : 0 < 2 ^ 51) by reflexivity.
  pose proof (Two_One_Diff_grid a1 a0 b0 n 0 Ha1 Ha0 Hb0 ltac:(lia) ltac:(lia)) as H.
  destruct (Two_One_Diff a1 a0 b0) as [[_j _0] x0].
  destruct H as (Hj & H0 & Hx0).
  pose proof (Two_One_Diff_grid _j _0 b1 (n - 0) m Hj H0 Hb1 ltac:(lia) ltac:(lia)) as H.
  destruct (Two_One_Diff _j _0 b1) as [[x3 x2] x1].
  destruct H as (Hx3 & Hx2 & Hx1).
  split; [| repeat (split; [assumption |]); assumption].
  eapply on_grid_ext; [exact Hx3 | lia].
Qed.

End Grid.


Lemma splitter_on_grid (P : Predicates) :
  splitter P = Dbl.of_Z splitter_value -> on_grid 0 (splitter P) 134217729.
Proof.
  intros ->. unfold on_grid. repeat split; vm_compute; reflexivity.
Qed.

(** A grid value of at most 25 bits is its own high half. *)
Lemma tSPLIT_grid (P : Predicates) (g : Z) (a : tREAL) (n : Z) :
  splitter P = Dbl.of_Z splitter_value ->
  -1074 <= g <= 970 -> on_grid g a n -> Z.abs n <= 2 ^ 25 ->
  on_grid g (fst (tSPLIT P a)) n /\ on_grid g (snd (tSPLIT P a)) 0.
Proof.
  intros HP Hg Ha Hn. unfold tSPLIT. cbn [fst snd].
  assert (H25 : 2 ^ 25 = 33554432) by reflexivity.
  assert (H53 : 2 ^ 53 = 9007199254740992) by reflexivity.
  assert (Hc : on_grid g (Dbl.mul (splitter P) a) (134217729 * n)).
  { apply (grid_mul 0 g); [lia | lia | lia | apply splitter_on_grid; exact HP
                           | exact Ha | lia]. }
  assert (Hab : on_grid g (Dbl.sub (Dbl.mul (splitter P) a) a) (134217729 * n - n))
    by (apply grid_sub; [exact Hg | exact Hc | exact Ha | lia]).
  assert (Hhi : on_grid g (Dbl.sub (Dbl.mul (splitter P) a)
                                   (Dbl.sub (Dbl.mul (splitter P) a) a))
                          (134217729 * n - (134217729 * n - n)))
    by (apply grid_sub; [exact Hg | exact Hc | exact Hab | lia]).
  split.
  - eapply on_grid_ext; [exact Hhi | lia].
  - eapply on_grid_ext;
      [apply grid_sub; [exact Hg | exact Ha | exact Hhi | lia] | lia].
Qed.

(** [Two_Product] of two grid values of at most 25 bits: the product, and a
    zero tail. *)
Lemma Two_Product_grid (P : Predicates) (g1 g2 : Z) (a b : tREAL) (n m : Z) :
  splitter P = Dbl.of_Z splitter_value ->
  -1074 <= g1 <= 970 -> -1074 <= g2 <= 970 -> -1074 <= g1 + g2 <= 970 ->
  on_grid g1 a n -> on_grid g2 b m ->
  Z.abs n <= 2 ^ 25 -> Z.abs m <= 2 ^ 25 ->
  on_grid (g1 + g2) (fst (Two_Product P a b)) (n * m) /\
  on_grid (g1 + g2) (snd (Two_Product P a b)) 0.
Proof.
  intros HP Hg1 Hg2 Hg Ha Hb Hn Hm. unfold Two_Product.
  destruct (tSPLIT_grid P g1 a n HP Hg1 Ha Hn) as [Hahi Halo].
  destruct (tSPLIT_grid P g2 b m HP Hg2 Hb Hm) as [Hbhi Hblo].
  destruct (tSPLIT P a) as [ahi alo]. destruct (tSPLIT P b) as [bhi blo].
  cbn [fst snd] in *.
  assert (Hnm : Z.abs (n * m) <= 2 ^ 50).
  { rewrite Z.abs_mul. change (2 ^ 50) with (2 ^ 25 * 2 ^ 25).
    apply Z.mul_le_mono_nonneg; lia. }
  assert (H50 : 2 ^ 50 = 1125899906842624) by reflexivity.
  assert (H53 : 2 ^ 53 = 9007199254740992) by reflexivity.
  assert (Hx : on_grid (g1 + g2) (Dbl.mul a b) (n * m))
    by (apply grid_mul; [lia | lia | lia | exact Ha | exact Hb | lia]).
  assert (Hhh : on_grid (g1 + g2) (Dbl.mul ahi bhi) (n * m))
    by (apply grid_mul; [lia | lia | lia | exact Hahi | exact Hbhi | lia]).
  assert (Hlh : on_grid (g1 + g2) (Dbl.mul alo bhi) (0 * m))
    by (apply grid_mul; [lia | lia | lia | exact Halo | exact Hbhi | lia]).
  assert (Hhl : on_grid (g1 + g2) (Dbl.mul ahi blo) (n * 0))
    by (apply grid_mul; [lia | lia | lia | exact Hahi | exact Hblo | lia]).
  assert (Hll : on_grid (g1 + g2) (Dbl.mul alo blo) (0 * 0))
    by (apply grid_mul; [lia | lia | lia | exact Halo | exact Hblo | lia]).
  assert (He1 : on_grid (g1 + g2) (Dbl.sub (Dbl.mul a b) (Dbl.mul ahi bhi))
                  (n * m - n * m))
    by (apply grid_sub; [exact Hg | exact Hx | exact Hhh | lia]).
  assert (He2 : on_grid (g1 + g2)
                  (Dbl.sub (Dbl.sub (Dbl.mul a b) (Dbl.mul ahi bhi)) (Dbl.mul alo bhi))
                  (n * m - n * m - 0 * m))
    by (apply grid_sub; [exact Hg | exact He1 | exact Hlh | lia]).
  assert (He3 : on_grid (g1 + g2)
                  (Dbl.sub (Dbl.sub (Dbl.sub (Dbl.mul a b) (Dbl.mul ahi bhi))
                                    (Dbl.mul alo bhi)) (Dbl.mul ahi blo))
                  (n * m - n * m - 0 * m - n * 0))
    by (apply grid_sub; [exact Hg | exact He2 | exact Hhl | lia]).
  split; [exact Hx |].
  eapply on_grid_ext;
    [apply grid_sub; [exact Hg | exact Hll | exact He3 | lia] | lia].
Qed.

Lemma estimate_4 (B : buf) :
  estimate 4 B = Dbl.add (Dbl.add (Dbl.add (B 0) (B 1)) (B 2)) (B 3).
Proof. reflexivity. Qed.

Lemma set4_cells (h : buf) (x3 x2 x1 x0 : tREAL) :
  set4 h (x3, x2, x1, x0) 0 = x0 /\ set4 h (x3, x2, x1, x0) 1 = x1 /\
  set4 h (x3, x2, x1, x0) 2 = x2 /\ set4 h (x3, x2, x1, x0) 3 = x3.
Proof. repeat split; reflexivity. Qed.

Section Orient.

Variable P : Predicates.
Hypothesis HP : splitter P = Dbl.of_Z splitter_value.
Variable g : Z.
Hypothesis Hg : -537 <= g <= 485.
Variables pa pb pc : buf.
Variables ax ay bx by_ cx cy : Z.
Hypothesis Hax : on_grid g (pa 0) ax.
Hypothesis Hay : on_grid g (pa 1) ay.
Hypothesis Hbx : on_grid g (pb 0) bx.
Hypothesis Hby : on_grid g (pb 1) by_.
Hypothesis Hcx : on_grid g (pc 0) cx.
Hypothesis Hcy : on_grid g (pc 1) cy.
Hypothesis Bax : Z.abs ax <= 2 ^ 24.
Hypothesis Bay : Z.abs ay <= 2 ^ 24.
Hypothesis Bbx : Z.abs bx <= 2 ^ 24.
Hypothesis Bby : Z.abs by_ <= 2 ^ 24.
Hypothesis Bcx : Z.abs cx <= 2 ^ 24.
Hypothesis Bcy : Z.abs cy <= 2 ^ 24.

(** The four coordinate differences are exact. *)
Lemma grid_differences :
  on_grid g (Dbl.sub (pa 0) (pc 0)) (ax - cx) /\
  on_grid g (Dbl.sub (pb 0) (pc 0)) (bx - cx) /\
  on_grid g (Dbl.sub (pa 1) (pc 1)) (ay - cy) /\
  on_grid g (Dbl.sub (pb 1) (pc 1)) (by_ - cy).
Proof.
  assert (H24 : 2 ^ 24 = 16777216) by reflexivity.
  assert (H53 : 2 ^ 53 = 9007199254740992) by reflexivity.
  split; [| split; [| split]]; apply grid_sub; try assumption; lia.
Qed.

Lemma grid_products :
  Z.abs ((ax - cx) * (by_ - cy)) <= 2 ^ 50 /\
  Z.abs ((ay - cy) * (bx - cx)) <= 2 ^ 50.
Proof.
  assert (H24 : 2 ^ 24 = 16777216) by reflexivity.
  change (2 ^ 50) with (2 ^ 25 * 2 ^ 25).
  assert (H25 : 2 ^ 25 = 33554432) by reflexivity.
  split; rewrite Z.abs_mul; apply Z.mul_le_mono_nonneg; lia.
Qed.

(** [orient2dadapt] returns the determinant: its first estimate is exact,
    and the tails of the differences are all zero. *)
Lemma orient2dadapt_grid (detsum : tREAL) :
  on_grid (g + g) (orient2dadapt P pa pb pc detsum)
    ((ax - cx) * (by_ - cy) - (ay - cy) * (bx - cx)).
Proof.
  destruct grid_differences as (Hacx & Hbcx & Hacy & Hbcy).
  destruct grid_products as (HL & HR).
  assert (H24 : 2 ^ 24 = 16777216) by reflexivity.
  assert (H25 : 2 ^ 25 = 33554432) by reflexivity.
  assert (H50 : 2 ^ 50 = 1125899906842624) by reflexivity.
  assert (H51 : 2 ^ 51 = 2251799813685248) by reflexivity.
  assert (H52 : 2 ^ 52 = 4503599627370496) by reflexivity.
  assert (H53 : 2 ^ 53 = 9007199254740992) by reflexivity.
  assert (Hgg : -1074 <= g + g <= 970) by lia.
  unfold orient2dadapt.
  set (acx := Dbl.sub (pa 0) (pc 0)) in *.
  set (bcx := Dbl.sub (pb 0) (pc 0)) in *.
  set (acy := Dbl.sub (pa 1) (pc 1)) in *.
  set (bcy := Dbl.sub (pb 1) (pc 1)) in *.
  destruct (Two_Product_grid P g g acx bcy (ax - cx) (by_ - cy) HP
              ltac:(lia) ltac:(lia) Hgg Hacx Hbcy ltac:(lia) ltac:(lia))
    as [Hdl Hdlt].
  destruct (Two_Product_grid P g g acy bcx (ay - cy) (bx - cx) HP
              ltac:(lia) ltac:(lia) Hgg Hacy Hbcx ltac:(lia) ltac:(lia))
    as [Hdr Hdrt].
  destruct (Two_Product P acx bcy) as [detleft detlefttail].
  destruct (Two_Product P acy bcx) as [detright detrighttail].
  cbn [fst snd] in Hdl, Hdlt, Hdr, Hdrt.
  pose proof (Two_Two_Diff_grid (g + g) Hgg detleft detlefttail detright
                detrighttail _ _ Hdl Hdlt Hdr Hdrt ltac:(lia) ltac:(lia)) as HB.
  destruct (Two_Two_Diff detleft detlefttail detright detrighttail)
    as [[[x3 x2] x1] x0].
  destruct HB as (Hx3 & Hx2 & Hx1 & Hx0).
  set (B := set4 local (x3, x2, x1, x0)).
  destruct (set4_cells local x3 x2 x1 x0) as (B0 & B1 & B2 & B3).
  fold B in B0, B1, B2, B3.
  assert (Hdet : on_grid (g + g) (estimate 4 B)
                   ((ax - cx) * (by_ - cy) - (ay - cy) * (bx - cx))).
  { rewrite estimate_4, B0, B1, B2, B3.
    assert (H01 : on_grid (g + g) (Dbl.add x0 x1) (0 + 0))
      by (apply grid_add; [exact Hgg | exact Hx0 | exact Hx1 | lia]).
    assert (H012 : on_grid (g + g) (Dbl.add (Dbl.add x0 x1) x2) (0 + 0 + 0))
      by (apply grid_add; [exact Hgg | exact H01 | exact Hx2 | lia]).
    eapply on_grid_ext;
      [apply grid_add; [exact Hgg | exact H012 | exact Hx3 | lia] | lia]. }
  destruct (beyond (estimate 4 B) _); [exact Hdet |].
  assert (Ht1 : Dbl.eq (Two_Diff_Tail (pa 0) (pc 0) acx) Dbl.zero = true).
  { apply (on_grid_eq_zero g).
    apply (Two_Diff_Tail_grid g ltac:(lia) _ _ ax cx); try assumption; lia. }
  assert (Ht2 : Dbl.eq (Two_Diff_Tail (pb 0) (pc 0) bcx) Dbl.zero = true).
  { apply (on_grid_eq_zero g).
    apply (Two_Diff_Tail_grid g ltac:(lia) _ _ bx cx); try assumption; lia. }
  assert (Ht3 : Dbl.eq (Two_Diff_Tail (pa 1) (pc 1) acy) Dbl.zero = true).
  { apply (on_grid_eq_zero g).
    apply (Two_Diff_Tail_grid g ltac:(lia) _ _ ay cy); try assumption; lia. }
  assert (Ht4 : Dbl.eq (Two_Diff_Tail (pb 1) (pc 1) bcy) Dbl.zero = true).
  { apply (on_grid_eq_zero g).
    apply (Two_Diff_Tail_grid g ltac:(lia) _ _ by_ cy); try assumption; lia. }
  rewrite Ht1, Ht2, Ht3, Ht4. cbn [andb]. exact Hdet.
Qed.

(** [orient2d] returns the determinant, whichever [return] it takes. *)
Lemma orient2d_grid :
  on_grid (g + g) (orient2d P pa pb pc)
    ((ax - cx) * (by_ - cy) - (ay - cy) * (bx - cx)).
Proof.
  destruct grid_differences as (Hacx & Hbcx & Hacy & Hbcy).
  destruct grid_products as (HL & HR).
  assert (H50 : 2 ^ 50 = 1125899906842624) by reflexivity.
  assert (H53 : 2 ^ 53 = 9007199254740992) by reflexivity.
  assert (Hgg : -1074 <= g + g <= 970) by lia.
  unfold orient2d.
  assert (Hdl : on_grid (g + g) (Dbl.mul (Dbl.sub (pa 0) (pc 0)) (Dbl.sub (pb 1) (pc 1)))
                  ((ax - cx) * (by_ - cy)))
    by (apply grid_mul; [lia | lia | lia | exact Hacx | exact Hbcy | lia]).
  assert (Hdr : on_grid (g + g) (Dbl.mul (Dbl.sub (pa 1) (pc 1)) (Dbl.sub (pb 0) (pc 0)))
                  ((ay - cy) * (bx - cx)))
    by (apply grid_mul; [lia | lia | lia | exact Hacy | exact Hbcx | lia]).
  assert (Hdet : on_grid (g + g)
                   (Dbl.sub (Dbl.mul (Dbl.sub (pa 0) (pc 0)) (Dbl.sub (pb 1) (pc 1)))
                            (Dbl.mul (Dbl.sub (pa 1) (pc 1)) (Dbl.sub (pb 0) (pc 0))))
                   ((ax - cx) * (by_ - cy) - (ay - cy) * (bx - cx)))
    by (apply grid_sub; [exact Hgg | exact Hdl | exact Hdr | lia]).
  destruct (sign_chain _ _) as [detsum |]; [| exact Hdet].
  destruct (beyond _ _); [exact Hdet | apply orient2dadapt_grid].
Qed.

End Orient.

Lemma valid_canonical (s : bool) (m : positive) (e : Z) :
  valid (S754_finite s m e) = true ->
  fexp 53 1024 (Zdigits2 (Z.pos m) + e) = e.
Proof.
  unfold valid, valid_binary, bounded, canonical_mantissa. intros H.
  apply andb_prop in H. destruct H as [Hc _].
  apply Z.eqb_eq in Hc. exact Hc.
Qed.

Lemma eq_refl_finite (s : bool) (m : positive) (e : Z) :
  Dbl.eq (S754_finite s m e) (S754_finite s m e) = true.
Proof.
  unfold Dbl.eq, SFeqb, SFcompare.
  destruct s; rewrite Z.compare_refl, Pos.compare_cont_refl; reflexivity.
Qed.

Lemma units_sign (s : bool) (m : positive) (e : Z) :
  -1074 <= e ->
  if s then units (S754_finite s m e) < 0 else 0 < units (S754_finite s m e).
Proof.
  intros He. cbn [units].
  assert (0 < 2 ^ (e + 1074)) by (apply Z.pow_pos_nonneg; lia).
  destruct s; cbn [cond_Zopp]; nia.
Qed.

(** Doubles of the same value compare equal. *)
Lemma units_eq (x y : tREAL) :
  valid x = true -> valid y = true ->
  Dbl.is_finite x = true -> Dbl.is_finite y = true ->
  units x = units y -> Dbl.eq x y = true.
Proof.
  intros Vx Vy Fx Fy U.
  destruct x as [sx | sx | | sx mx ex]; try discriminate Fx;
    destruct y as [sy | sy | | sy my ey]; try discriminate Fy.
  - reflexivity.
  - destruct (units_zero _ Vy Fy (eq_sym U)) as [s Hs]. discriminate Hs.
  - destruct (units_zero _ Vx Fx U) as [s Hs]. discriminate Hs.
  - destruct (valid_finite _ _ _ Vx) as (_ & Hex & _).
    destruct (valid_finite _ _ _ Vy) as (_ & Hey & _).
    pose proof (units_sign sx mx ex ltac:(lia)) as Sx.
    pose proof (units_sign sy my ey ltac:(lia)) as Sy.
    assert (Hs : sx = sy) by (destruct sx, sy; try reflexivity; cbv iota in Sx, Sy; lia).
    subst sy.
    assert (Hm : Z.pos mx * 2 ^ (ex + 1074) = Z.pos my * 2 ^ (ey + 1074)).
    { cbn [units] in U. destruct sx; cbn [cond_Zopp] in U; lia. }
    pose proof (Zdigits2_scaled (Z.pos mx) (Z.pos my) (ex + 1074) (ey + 1074) ltac:(lia) ltac:(lia) ltac:(lia)
                  ltac:(lia) Hm) as Hd.
    pose proof (valid_canonical _ _ _ Vx) as Cx.
    pose proof (valid_canonical _ _ _ Vy) as Cy.
    assert (He : ex = ey).
    { rewrite <- Cx, <- Cy. f_equal. lia. }
    subst ey.
    assert (Hmm : mx = my).
    { assert (0 < 2 ^ (ex + 1074)) by (apply Z.pow_pos_nonneg; lia).
      apply Pos2Z.inj. nia. }
    subst my. apply eq_refl_finite.
Qed.

Lemma on_grid_eq (g : Z) (x y : tREAL) (n : Z) :
  on_grid g x n -> on_grid g y n -> Dbl.eq x y = true.
Proof.
  intros (Vx & Fx & Ux) (Vy & Fy & Uy).
  apply units_eq; try assumption. congruence.
Qed.

(** The rational value and the count in units agree. *)
Lemma pow2_units (e : Z) :
  -1074 <= e ->
  (Dbl.pow2 e * inject_Z (2 ^ 1074) == inject_Z (2 ^ (e + 1074)))%Q.
Proof.
  intros He. destruct e as [| p | p]; unfold Dbl.pow2.
  - rewrite Qmult_1_l. reflexivity.
  - rewrite <- inject_Z_mult.
    change (Z.pow_pos 2 p) with (2 ^ Z.pos p).
    rewrite <- pow2_split by lia. reflexivity.
  - unfold Qeq, Qmult, inject_Z. cbn [Qnum Qden].
    rewrite Pos.mul_1_r, !Z.mul_1_l, Z.mul_1_r.
    rewrite Pos2Z.inj_pow.
    change (Z.pos 2) with 2.
    rewrite <- pow2_split by lia. f_equal. lia.
Qed.

Lemma value_units (x : tREAL) :
  valid x = true ->
  (Dbl.value x * inject_Z (2 ^ 1074) == inject_Z (units x))%Q.
Proof.
  intros V. destruct x as [s | s | | s m e]; try (cbn; reflexivity).
  destruct (valid_finite _ _ _ V) as (_ & He & _).
  cbn [Dbl.value units].
  rewrite <- Qmult_assoc, pow2_units by lia.
  rewrite <- inject_Z_mult. reflexivity.
Qed.

Lemma inject_Z_sub (x y : Z) : inject_Z (x - y) = (inject_Z x - inject_Z y)%Q.
Proof.
  unfold Z.sub. rewrite inject_Z_plus, inject_Z_opp. reflexivity.
Qed.

Lemma on_grid_value (g : Z) (x : tREAL) (n : Z) :
  on_grid g x n ->
  (Dbl.value x * inject_Z (2 ^ 1074) == inject_Z n * inject_Z (2 ^ (g + 1074)))%Q.
Proof.
  intros (V & _ & U). rewrite value_units by exact V.
  rewrite U, inject_Z_mult. reflexivity.
Qed.

(** The determinant on the grid is the exact determinant of the points. *)
Lemma orient2d_grid_value (g : Z) (r : tREAL) (pa pb pc : buf)
  (ax ay bx by_ cx cy : Z) :
  -537 <= g ->
  on_grid g (pa 0) ax -> on_grid g (pa 1) ay ->
  on_grid g (pb 0) bx -> on_grid g (pb 1) by_ ->
  on_grid g (pc 0) cx -> on_grid g (pc 1) cy ->
  on_grid (g + g) r ((ax - cx) * (by_ - cy) - (ay - cy) * (bx - cx)) ->
  (Dbl.value r == orient2d_exact pa pb pc)%Q.
Proof.
  intros Hg Hax Hay Hbx Hby Hcx Hcy Hr.
  apply on_grid_value in Hax, Hay, Hbx, Hby, Hcx, Hcy, Hr.
  set (K := inject_Z (2 ^ 1074)) in *.
  set (G := inject_Z (2 ^ (g + 1074))) in *.
  set (GG := inject_Z (2 ^ (g + g + 1074))) in *.
  assert (HK : ~ (K * K == 0)%Q).
  { unfold K. rewrite <- inject_Z_mult. change 0%Q with (inject_Z 0).
    rewrite inject_Z_injective. vm_compute. discriminate. }
  assert (HGK : (GG * K == G * G)%Q).
  { unfold GG, K, G. rewrite <- !inject_Z_mult. rewrite inject_Z_injective.
    rewrite <- !pow2_split by lia. f_equal. lia. }
  apply (Qmult_inj_r _ _ (K * K)%Q HK).
  unfold orient2d_exact. cbv zeta.
  transitivity
    ((Dbl.value (pa 0%Z) * K - Dbl.value (pc 0%Z) * K)
     * (Dbl.value (pb 1%Z) * K - Dbl.value (pc 1%Z) * K)
     - (Dbl.value (pa 1%Z) * K - Dbl.value (pc 1%Z) * K)
       * (Dbl.value (pb 0%Z) * K - Dbl.value (pc 0%Z) * K))%Q; [| ring].
  rewrite Hax, Hay, Hbx, Hby, Hcx, Hcy.
  transitivity (Dbl.value r * K * K)%Q; [ring |].
  rewrite Hr.
  rewrite !inject_Z_sub, !inject_Z_mult, !inject_Z_sub.
  transitivity
    (((inject_Z ax - inject_Z cx) * (inject_Z by_ - inject_Z cy)
      - (inject_Z ay - inject_Z cy) * (inject_Z bx - inject_Z cx)) * (GG * K))%Q;
    [ring |].
  rewrite HGK. ring.
Qed.

(** C4, amended.  After initialization, on points whose six coordinates are
    multiples [n * 2^g] of one power of two, with [|n| <= 2^24] and
    [-537 <= g <= 485], no step of [orient2d] rounds: the value returned is
    the exact determinant, so that [orient2d(a,b,c) == orient2d(b,c,a)] and
    [orient2d(b,c,a) == orient2d(c,a,b)]. *)
Theorem orient2d_rotation_on_grid (P : Predicates) (g : Z) (pa pb pc : buf)
  (ax ay bx by_ cx cy : Z) :
  splitter P = splitter exactinit ->
  -537 <= g <= 485 ->
  grid_point g pa ax ay -> grid_point g pb bx by_ -> grid_point g pc cx cy ->
  Dbl.eq (orient2d P pa pb pc) (orient2d P pb pc pa) = true /\
  Dbl.eq (orient2d P pb pc pa) (orient2d P pc pa pb) = true /\
  (Dbl.value (orient2d P pa pb pc) == orient2d_exact pa pb pc)%Q.
Proof.
  intros HP Hg (Hax & Hay & Bax & Bay) (Hbx & Hby & Bbx & Bby)
    (Hcx & Hcy & Bcx & Bcy).
  assert (HP' : splitter P = Dbl.of_Z splitter_value)
    by (rewrite HP; vm_compute; reflexivity).
  pose proof (orient2d_grid P HP' g Hg pa pb pc ax ay bx by_ cx cy
                Hax Hay Hbx Hby Hcx Hcy Bax Bay Bbx Bby Bcx Bcy) as H1.
  pose proof (orient2d_grid P HP' g Hg pb pc pa bx by_ cx cy ax ay
                Hbx Hby Hcx Hcy Hax Hay Bbx Bby Bcx Bcy Bax Bay) as H2.
  pose proof (orient2d_grid P HP' g Hg pc pa pb cx cy ax ay bx by_
                Hcx Hcy Hax Hay Hbx Hby Bcx Bcy Bax Bay Bbx Bby) as H3.
  split; [| split].
  - apply (on_grid_eq (g + g) _ _ _ H1).
    eapply on_grid_ext; [exact H2 | ring].
  - apply (on_grid_eq (g + g) _ _ _ H2).
    eapply on_grid_ext; [exact H3 | ring].
  - apply (orient2d_grid_value g _ pa pb pc ax ay bx by_ cx cy); try assumption; lia.
Qed.

(** The collinear points [(0,0)], [(1,1)], [(2,2)], which [orient2d] hands
    to [orient2dadapt]. *)
Lemma orient2d_rotation_on_grid_witness :
  let a := point (Dbl.of_Z 0) (Dbl.of_Z 0) in
  let b := point (Dbl.of_Z 1) (Dbl.of_Z 1) in
  let c := point (Dbl.of_Z 2) (Dbl.of_Z 2) in
  Dbl.eq (orient2d exactinit a b c) (orient2d exactinit b c a) = true /\
  Dbl.eq (orient2d exactinit b c a) (orient2d exactinit c a b) = true /\
  (Dbl.value (orient2d exactinit a b c) == orient2d_exact a b c)%Q.
Proof.
  intros a b c.
  apply (orient2d_rotation_on_grid exactinit 0 a b c 0 0 1 1 2 2).
  - reflexivity.
  - lia.
  - unfold grid_point, on_grid. repeat split; vm_compute; congruence.
  - unfold grid_point, on_grid. repeat split; vm_compute; congruence.
  - unfold grid_point, on_grid. repeat split; vm_compute; congruence.
Defined.

(** ** Split *)

Lemma round53_dropped (z : Z) :
  round53 z = Z.sgn z * (rne_div (Z.abs z) (dropped z) * 2 ^ dropped z).
Proof. reflexivity. Qed.

Lemma dropped_nonneg (z : Z) : 0 <= dropped z.
Proof. unfold dropped. lia. Qed.

(** Rounding is off by at most half a unit of the last bit kept. *)
Lemma rne_div_error (m k : Z) :
  0 <= m -> 0 <= k -> 2 * Z.abs (rne_div m k * 2 ^ k - m) <= 2 ^ k.
Proof.
  intros Hm Hk.
  assert (Hp : 0 < 2 ^ k) by (apply Z.pow_pos_nonneg; lia).
  pose proof (Z.div_mod m (2 ^ k) ltac:(lia)) as Hdm.
  pose proof (Z.mod_pos_bound m (2 ^ k) Hp) as Hrem.
  unfold rne_div.
  set (q := m / 2 ^ k) in *. set (r := m mod 2 ^ k) in *.
  destruct (Z.compare_spec (2 * r) (2 ^ k)) as [H | H | H];
    [destruct (Z.even q) | |]; nia.
Qed.

Lemma round53_error (z : Z) : 2 * Z.abs (round53 z - z) <= 2 ^ dropped z.
Proof.
  assert (Hpos : forall v, 0 < v -> 2 * Z.abs (round53 v - v) <= 2 ^ dropped v).
  { intros v Hv. rewrite round53_pos by exact Hv. cbv zeta. fold (dropped v).
    apply rne_div_error; [lia | apply dropped_nonneg]. }
  destruct (Z.lt_trichotomy z 0) as [Hn | [-> | Hp]].
  - specialize (Hpos (- z) ltac:(lia)).
    rewrite round53_opp in Hpos. unfold dropped in *.
    rewrite Zdigits2_opp in Hpos. lia.
  - vm_compute. discriminate.
  - apply Hpos. exact Hp.
Qed.

(** Nothing dropped, nothing changed. *)
Lemma round53_keeps (z : Z) : dropped z = 0 -> round53 z = z.
Proof.
  intros H. rewrite round53_dropped, H, rne_div_0.
  change (2 ^ 0) with 1. rewrite Z.mul_1_r, Z.mul_comm. apply Z.abs_sgn.
Qed.

(** The rounded value is a multiple of the last bit kept. *)
Lemma round53_multiple (z : Z) : exists u, round53 z = u * 2 ^ dropped z.
Proof.
  exists (Z.sgn z * rne_div (Z.abs z) (dropped z)).
  rewrite round53_dropped. ring.
Qed.

Lemma Zdigits2_le (x d : Z) : 0 <= d -> Z.abs x < 2 ^ d -> Zdigits2 x <= d.
Proof.
  intros Hd Hx. rewrite <- Zdigits2_abs.
  destruct (Z.eq_dec x 0) as [-> | Hne]; [cbn; lia |].
  destruct (Zdigits2_bounds (Z.abs x) ltac:(lia)) as [Hd' [Hlo Hhi]].
  destruct (Z.le_gt_cases (Zdigits2 (Z.abs x)) d) as [H | H]; [exact H |].
  assert (2 ^ d <= 2 ^ (Zdigits2 (Z.abs x) - 1)) by (apply Z.pow_le_mono_r; lia).
  lia.
Qed.

Lemma Zdigits2_nonneg (x : Z) : 0 <= Zdigits2 x.
Proof. destruct x; cbn; lia. Qed.

Lemma Zdigits2_gt (x : Z) : Z.abs x < 2 ^ Zdigits2 x.
Proof.
  destruct (Z.eq_dec x 0) as [-> | Hne]; [cbn; lia |].
  rewrite <- (Zdigits2_abs x).
  destruct (Zdigits2_bounds (Z.abs x) ltac:(lia)) as [_ [_ H]]. exact H.
Qed.

(** Rounding does not go past the next power of two. *)
Lemma round53_bound (z : Z) : Z.abs (round53 z) <= 2 ^ Zdigits2 z.
Proof.
  assert (Hpos : forall v, 0 < v -> Z.abs (round53 v) <= 2 ^ Zdigits2 v).
  { intros v Hv.
    pose proof (round53_nonneg v ltac:(lia)) as Hnn.
    rewrite Z.abs_eq by exact Hnn.
    rewrite round53_pos by exact Hv. cbv zeta. fold (dropped v).
    pose proof (dropped_nonneg v) as Hk.
    destruct (Zdigits2_bounds v Hv) as [Hd [Hlo Hhi]].
    assert (Hp : 0 < 2 ^ dropped v) by (apply Z.pow_pos_nonneg; lia).
    destruct (Z.eq_dec (dropped v) 0) as [H0 | H0].
    - rewrite H0, rne_div_0. change (2 ^ 0) with 1. lia.
    - assert (Hkd : dropped v = Zdigits2 v - 53) by (unfold dropped in *; lia).
      pose proof (rne_div_bounds v (dropped v)) as Hb.
      assert (Hq : v / 2 ^ dropped v < 2 ^ 53).
      { apply Z.div_lt_upper_bound; [exact Hp |].
        rewrite <- pow2_split by lia.
        replace (dropped v + 53) with (Zdigits2 v) by lia. exact Hhi. }
      assert (Hd2 : 2 ^ Zdigits2 v = 2 ^ 53 * 2 ^ dropped v)
        by (rewrite <- pow2_split by lia; f_equal; lia).
      rewrite Hd2.
      apply Z.mul_le_mono_nonneg_r; lia. }
  destruct (Z.lt_trichotomy z 0) as [Hn | [-> | Hp]].
  - specialize (Hpos (- z) ltac:(lia)).
    rewrite round53_opp, Zdigits2_opp in Hpos. lia.
  - vm_compute. discriminate.
  - apply Hpos. exact Hp.
Qed.

(** Rounding commutes with scaling by a power of two. *)
Lemma round53_scale (z t : Z) : 0 <= t -> round53 (z * 2 ^ t) = round53 z * 2 ^ t.
Proof.
  intros Ht.
  assert (Hpt : 0 < 2 ^ t) by (apply Z.pow_pos_nonneg; lia).
  assert (Hpos : forall v, 0 < v -> round53 (v * 2 ^ t) = round53 v * 2 ^ t).
  { intros v Hv.
    destruct (Z.le_gt_cases (Zdigits2 v) 53) as [Hs | Hl].
    - rewrite (round53_keeps v) by (unfold dropped; lia).
      apply round53_exact; [| exact Ht].
      pose proof (Zdigits2_gt v).
      assert (2 ^ Zdigits2 v <= 2 ^ 53) by (apply Z.pow_le_mono_r; lia). lia.
    - rewrite (round53_pos v Hv), (round53_pos (v * 2 ^ t)) by nia. cbv zeta.
      rewrite Zdigits2_shift by lia.
      replace (Z.max (Zdigits2 v + t - 53) 0) with ((Zdigits2 v - 53) + t) by lia.
      replace (Z.max (Zdigits2 v - 53) 0) with (Zdigits2 v - 53) by lia.
      rewrite rne_div_scale by lia.
      rewrite pow2_split by lia. ring. }
  destruct (Z.lt_trichotomy z 0) as [Hn | [-> | Hp]].
  - replace (z * 2 ^ t) with (- ((- z) * 2 ^ t)) by ring.
    rewrite round53_opp, Hpos by lia. rewrite round53_opp. ring.
  - reflexivity.
  - apply Hpos. exact Hp.
Qed.

Lemma round53_small (z : Z) : Z.abs z < 2 ^ 53 -> round53 z = z.
Proof.
  intros H. apply round53_keeps. unfold dropped.
  pose proof (Zdigits2_le z 53 ltac:(lia) H). lia.
Qed.

Lemma round53_below (z d : Z) : 0 <= d -> Z.abs z < 2 ^ d -> Z.abs (round53 z) <= 2 ^ d.
Proof.
  intros Hd Hz. pose proof (round53_bound z) as H.
  pose proof (Zdigits2_le z d Hd Hz) as Hdz.
  assert (2 ^ Zdigits2 z <= 2 ^ d)
    by (apply Z.pow_le_mono_r; [lia | exact Hdz]).
  lia.
Qed.



(** A value of at least [2^n] has more than [n] digits. *)
Lemma Zdigits2_lower (x n : Z) : 0 <= n -> 2 ^ n <= x -> n + 1 <= Zdigits2 x.
Proof.
  intros Hn Hx.
  assert (0 < 2 ^ n) by (apply Z.pow_pos_nonneg; lia).
  pose proof (Zdigits2_gt x) as Hg. pose proof (Zdigits2_nonneg x) as H0.
  destruct (Z.le_gt_cases (n + 1) (Zdigits2 x)) as [H1 | H1]; [exact H1 |].
  assert (2 ^ Zdigits2 x <= 2 ^ n) by (apply Z.pow_le_mono_r; lia).
  lia.
Qed.

(** What Split does to a positive significand [m], with [y = c - m]:
    [ahi = c - abig] is exact, being a multiple of the last bit of [abig] of
    at most 53 bits; it differs from [m] by the rounding error of [abig];
    and [alo] is that error. *)
Lemma split_detail (m : Z) :
  0 < m < 2 ^ 53 ->
  let y := round53 (134217729 * m) - m in
  (exists u, split_hi m = u * 2 ^ dropped y) /\
  m - split_hi m = round53 y - y /\
  split_lo m = m - split_hi m /\
  2 ^ (Zdigits2 m + 26) <= y <= 2 ^ 80.
Proof.
  intros Hm y.
  assert (H53 : 2 ^ 53 = 9007199254740992) by reflexivity.
  set (x1 := 134217729 * m) in *.
  assert (Hx1 : 0 < x1 < 2 ^ 81).
  { unfold x1. change (2 ^ 81) with (268435456 * 2 ^ 53). lia. }
  pose proof (Zdigits2_le x1 81 ltac:(lia) ltac:(lia)) as Hd1.
  pose proof (Zdigits2_gt x1) as Hg1.
  pose proof (round53_error x1) as He1.
  pose proof (round53_bound x1) as Hb1.
  pose proof (round53_nonneg x1 ltac:(lia)) as Hn1.
  destruct (round53_multiple x1) as [u1 Hu1].
  set (c := round53 x1) in *.
  assert (Hk1 : 0 <= dropped x1 <= 28) by (unfold dropped; lia).
  assert (Hp1 : 2 ^ dropped x1 <= 2 ^ 28) by (apply Z.pow_le_mono_r; lia).
  change (2 ^ 28) with 268435456 in Hp1.
  (* the size of y *)
  assert (Hy80 : y <= 2 ^ 80).
  { change (2 ^ 80) with (134217728 * 2 ^ 53). unfold y, x1 in *. lia. }
  destruct (Zdigits2_bounds m ltac:(lia)) as [Hdm [Hlo Hhi]].
  assert (Hylo : 2 ^ (Zdigits2 m + 26) <= y).
  { replace (Zdigits2 m + 26) with (27 + (Zdigits2 m - 1)) by lia.
    rewrite pow2_split by lia. change (2 ^ 27) with 134217728.
    destruct (Z.eq_dec m (2 ^ (Zdigits2 m - 1))) as [Heq | Hne].
    - assert (Hc : c = x1).
      { unfold c, x1. rewrite Heq at 1.
        rewrite (round53_exact 134217729 (Zdigits2 m - 1)) by lia.
        rewrite <- Heq. reflexivity. }
      unfold y. rewrite Hc. unfold x1. lia.
    - unfold y, x1 in *. lia. }
  assert (Hy : Z.abs y < 2 ^ Zdigits2 x1).
  { assert (0 < 2 ^ (Zdigits2 m + 26)) by (apply Z.pow_pos_nonneg; lia).
    unfold y, x1 in *. lia. }
  pose proof (Zdigits2_le y (Zdigits2 x1) (Zdigits2_nonneg x1) Hy) as Hd2.
  pose proof (round53_error y) as He2.
  destruct (round53_multiple y) as [u2 Hu2].
  assert (Hk : dropped y <= dropped x1) by (unfold dropped; lia).
  pose proof (dropped_nonneg y) as Hk0.
  assert (Hhi' : split_hi m = c - round53 y /\ exists u, c - round53 y = u * 2 ^ dropped y).
  { unfold split_hi. fold x1. fold c. fold y.
    destruct (Z.eq_dec (dropped y) 0) as [Hz | Hnz].
    - assert (Hab : round53 y = y) by (apply round53_keeps; exact Hz).
      rewrite Hab. replace (c - y) with m by (unfold y; lia).
      rewrite (round53_small m) by lia.
      split; [reflexivity |]. exists m. rewrite Hz. change (2 ^ 0) with 1. lia.
    - set (k2 := dropped y) in *. set (k1 := dropped x1) in *.
      set (abig := round53 y) in *.
      assert (Hp2 : 1 <= 2 ^ k2)
        by (assert (0 < 2 ^ k2) by (apply Z.pow_pos_nonneg; lia); lia).
      assert (Hc2 : c = u1 * 2 ^ (k1 - k2) * 2 ^ k2).
      { rewrite Hu1. rewrite <- Z.mul_assoc, <- pow2_split by lia.
        do 2 f_equal. lia. }
      set (u := u1 * 2 ^ (k1 - k2) - u2).
      assert (Hzu : c - abig = u * 2 ^ k2)
        by (unfold u; rewrite Hc2 at 1; rewrite Hu2; ring).
      assert (Hzm : c - abig = m - (abig - y)) by (unfold y; lia).
      assert (Hu53 : Z.abs u <= 2 ^ 53).
      { destruct (Z.le_gt_cases (Z.abs u) (2 ^ 53)) as [H | H]; [exact H |].
        assert (Hmul : (2 ^ 53 + 1) * 2 ^ k2 <= Z.abs u * 2 ^ k2)
          by (apply Z.mul_le_mono_nonneg_r; lia).
        assert (Habs : Z.abs (c - abig) = Z.abs u * 2 ^ k2)
          by (rewrite Hzu, Z.abs_mul, (Z.abs_eq (2 ^ k2)) by lia; reflexivity).
        rewrite Hzm in Habs. lia. }
      split.
      + rewrite Hzu at 1. rewrite (round53_exact u k2 Hu53 Hk0). symmetry. exact Hzu.
      + exists u. exact Hzu. }
  destruct Hhi' as [Hhi1 [u Hu]].
  assert (Hdiff : m - split_hi m = round53 y - y) by (rewrite Hhi1; unfold y; lia).
  split; [exists u; rewrite Hhi1; exact Hu |].
  split; [exact Hdiff |].
  split; [| split; assumption].
  unfold split_lo. apply round53_small. rewrite Hdiff.
  assert (Hp : 2 ^ dropped y <= 2 ^ 28) by (apply Z.pow_le_mono_r; lia).
  change (2 ^ 28) with 268435456 in Hp. lia.
Qed.

(** Split is exact on a positive significand. *)
Lemma split_pos (m : Z) : 0 < m < 2 ^ 53 -> split_hi m + split_lo m = m.
Proof.
  intros Hm. destruct (split_detail m Hm) as (_ & _ & Hlo & _). lia.
Qed.

(** Split is odd. *)
Lemma split_opp (m : Z) :
  split_hi (- m) = - split_hi m /\ split_lo (- m) = - split_lo m.
Proof.
  assert (H : split_hi (- m) = - split_hi m).
  { unfold split_hi.
    replace (134217729 * - m) with (- (134217729 * m)) by ring.
    rewrite round53_opp.
    replace (- round53 (134217729 * m) - - m)
      with (- (round53 (134217729 * m) - m)) by ring.
    rewrite round53_opp.
    replace (- round53 (134217729 * m) - - round53 (round53 (134217729 * m) - m))
      with (- (round53 (134217729 * m) - round53 (round53 (134217729 * m) - m)))
      by ring.
    apply round53_opp. }
  split; [exact H |].
  unfold split_lo. rewrite H.
  replace (- m - - split_hi m) with (- (m - split_hi m)) by ring.
  apply round53_opp.
Qed.

Lemma split_exact (m : Z) : Z.abs m < 2 ^ 53 -> split_hi m + split_lo m = m.
Proof.
  intros Hm. destruct (Z.lt_trichotomy m 0) as [Hn | [-> | Hp]].
  - pose proof (split_pos (- m) ltac:(lia)) as H.
    destruct (split_opp m) as [H1 H2]. rewrite H1, H2 in H. lia.
  - reflexivity.
  - apply split_pos. lia.
Qed.

(** Split commutes with scaling by a power of two. *)
Lemma split_scale (m t : Z) :
  0 <= t ->
  split_hi (m * 2 ^ t) = split_hi m * 2 ^ t /\
  split_lo (m * 2 ^ t) = split_lo m * 2 ^ t.
Proof.
  intros Ht.
  assert (H : split_hi (m * 2 ^ t) = split_hi m * 2 ^ t).
  { unfold split_hi.
    rewrite Z.mul_assoc, round53_scale by exact Ht.
    rewrite <- Z.mul_sub_distr_r, round53_scale by exact Ht.
    rewrite <- Z.mul_sub_distr_r, round53_scale by exact Ht.
    reflexivity. }
  split; [exact H |].
  unfold split_lo. rewrite H, <- Z.mul_sub_distr_r. apply round53_scale. exact Ht.
Qed.

(** Each half has a significand of at most 26 bits. *)
Lemma split_halves_pos (m : Z) :
  0 < m < 2 ^ 53 ->
  (exists u j, 0 <= j /\ split_hi m = u * 2 ^ j /\ Z.abs u <= 2 ^ 26) /\
  Z.abs (split_lo m) <= 2 ^ 26.
Proof.
  intros Hm. destruct (split_detail m Hm) as ([u Hu] & Hdiff & Hlo & Hylo & Hy80).
  set (y := round53 (134217729 * m) - m) in *.
  destruct (Zdigits2_bounds m ltac:(lia)) as [Hdm [_ Hmhi]].
  pose proof (Zdigits2_lower y (Zdigits2 m + 26) ltac:(lia) Hylo) as Hdy.
  pose proof (round53_error y) as He.
  pose proof (dropped_nonneg y) as Hk0.
  set (k := dropped y) in *.
  assert (Hk : Zdigits2 m - 26 <= k) by (unfold k, dropped; lia).
  assert (HP : 0 < 2 ^ k) by (apply Z.pow_pos_nonneg; lia).
  assert (H26 : 2 ^ 26 = 67108864) by reflexivity.
  split.
  - exists u, k. split; [exact Hk0 | split; [exact Hu |]].
    assert (Hm26 : m < 2 ^ 26 * 2 ^ k).
    { rewrite <- pow2_split by lia.
      apply Z.lt_le_trans with (2 ^ Zdigits2 m); [exact Hmhi |].
      apply Z.pow_le_mono_r; lia. }
    destruct (Z.le_gt_cases (Z.abs u) (2 ^ 26)) as [H | H]; [exact H |].
    assert (Hmul : (2 ^ 26 + 1) * 2 ^ k <= Z.abs u * 2 ^ k)
      by (apply Z.mul_le_mono_nonneg_r; lia).
    assert (Habs : Z.abs (split_hi m) = Z.abs u * 2 ^ k)
      by (rewrite Hu, Z.abs_mul, (Z.abs_eq (2 ^ k)) by lia; reflexivity).
    lia.
  - rewrite Hlo, Hdiff.
    destruct (Z.eq_dec y (2 ^ 80)) as [Hy | Hy].
    + rewrite Hy. vm_compute. discriminate.
    + assert (Hd80 : Zdigits2 y <= 80).
      { apply Zdigits2_le; [lia |].
        assert (0 < 2 ^ (Zdigits2 m + 26)) by (apply Z.pow_pos_nonneg; lia). lia. }
      assert (Hp : 2 ^ k <= 2 ^ 27) by (apply Z.pow_le_mono_r; unfold k, dropped; lia).
      change (2 ^ 27) with 134217728 in Hp. lia.
Qed.

Lemma split_halves (m : Z) :
  Z.abs m < 2 ^ 53 ->
  (exists u j, 0 <= j /\ split_hi m = u * 2 ^ j /\ Z.abs u <= 2 ^ 26) /\
  Z.abs (split_lo m) <= 2 ^ 26.
Proof.
  intros Hm. destruct (Z.lt_trichotomy m 0) as [Hn | [-> | Hp]].
  - destruct (split_halves_pos (- m) ltac:(lia)) as [(u & j & Hj & Hu & Hb) Hl].
    destruct (split_opp m) as [H1 H2]. rewrite H1 in Hu. rewrite H2 in Hl.
    split; [| lia].
    exists (- u), j. split; [exact Hj | split; [lia | lia]].
  - split; [exists 0, 0; repeat split; try reflexivity; lia |].
    vm_compute. discriminate.
  - apply split_halves_pos. lia.
Qed.

(** A double is a significand below [2^53] times a power of two. *)
Lemma units_shape (x : tREAL) :
  valid x = true ->
  exists M t, units x = M * 2 ^ t /\ 0 <= t /\ Z.abs M < 2 ^ 53.
Proof.
  intros V. destruct x as [s | s | | s m e];
    try (exists 0, 0; repeat split; try reflexivity; lia).
  destruct (valid_finite _ _ _ V) as (Hm & He & _).
  exists (cond_Zopp s (Z.pos m)), (e + 1074).
  split; [reflexivity | split; [lia |]].
  destruct s; cbn [cond_Zopp]; lia.
Qed.

(** The macro computes [split_hi] and [split_lo], for operands up to
    [2^990]. *)
Lemma tSPLIT_units (P : Predicates) (a : tREAL) :
  splitter P = Dbl.of_Z splitter_value ->
  valid a = true -> Dbl.is_finite a = true ->
  Z.abs (units a) <= 2 ^ 2064 ->
  (valid (fst (tSPLIT P a)) = true /\ Dbl.is_finite (fst (tSPLIT P a)) = true /\
   units (fst (tSPLIT P a)) = split_hi (units a)) /\
  (valid (snd (tSPLIT P a)) = true /\ Dbl.is_finite (snd (tSPLIT P a)) = true /\
   units (snd (tSPLIT P a)) = split_lo (units a)).
Proof.
  intros HP Va Fa Ha.
  destruct (splitter_on_grid P HP) as (Vs & Fs & Us).
  unfold tSPLIT. cbn [fst snd]. unfold split_lo, split_hi.
  set (A := units a) in *.
  set (B := 2 ^ 2064) in *.
  assert (HB : 0 < B) by reflexivity.
  assert (H92 : 2 ^ 2092 = 268435456 * B) by reflexivity.
  assert (H93 : 2 ^ 2093 = 536870912 * B) by reflexivity.
  assert (H94 : 2 ^ 2094 = 1073741824 * B) by reflexivity.
  assert (H95 : 2 ^ 2095 = 2147483648 * B) by reflexivity.
  assert (H98 : 2 ^ 2098 = 17179869184 * B) by reflexivity.
  (* c = splitter * a *)
  pose proof (round53_below (134217729 * A) 2092 ltac:(lia) ltac:(lia)) as Bc.
  destruct (mul_spec (splitter P) a (134217729 * A) Vs Va Fs Fa
              ltac:(rewrite Us; fold A; change (0 + 1074) with 1074; ring)
              ltac:(lia)) as (Vc & Fc & Uc).
  set (c := Dbl.mul (splitter P) a) in *.
  set (cu := round53 (134217729 * A)) in *.
  (* abig = c - a *)
  pose proof (round53_below (cu - A) 2093 ltac:(lia) ltac:(lia)) as Bb.
  destruct (sub_spec c a Vc Va Fc Fa ltac:(rewrite Uc; fold A; lia))
    as (Vb & Fb & Ub).
  rewrite Uc in Ub. fold A in Ub.
  set (abig := Dbl.sub c a) in *.
  set (bu := round53 (cu - A)) in *.
  (* ahi = c - abig *)
  pose proof (round53_below (cu - bu) 2094 ltac:(lia) ltac:(lia)) as Bh.
  destruct (sub_spec c abig Vc Vb Fc Fb ltac:(rewrite Uc, Ub; lia))
    as (Vh & Fh & Uh).
  rewrite Uc, Ub in Uh.
  set (ahi := Dbl.sub c abig) in *.
  set (hu := round53 (cu - bu)) in *.
  (* alo = a - ahi *)
  pose proof (round53_below (A - hu) 2095 ltac:(lia) ltac:(lia)) as Bl.
  destruct (sub_spec a ahi Va Vh Fa Fh ltac:(rewrite Uh; fold A; lia))
    as (Vl & Fl & Ul).
  rewrite Uh in Ul. fold A in Ul.
  repeat split; assumption.
Qed.

(** Split is exact: the two halves add up to the operand. *)
Lemma tSPLIT_exact (P : Predicates) (a : tREAL) :
  splitter P = Dbl.of_Z splitter_value ->
  valid a = true -> Dbl.is_finite a = true ->
  Z.abs (units a) <= 2 ^ 2064 ->
  Dbl.is_finite (fst (tSPLIT P a)) = true /\
  Dbl.is_finite (snd (tSPLIT P a)) = true /\
  units (fst (tSPLIT P a)) + units (snd (tSPLIT P a)) = units a /\
  (Dbl.value (fst (tSPLIT P a)) + Dbl.value (snd (tSPLIT P a)) == Dbl.value a)%Q.
Proof.
  intros HP Va Fa Ha.
  destruct (tSPLIT_units P a HP Va Fa Ha) as ((Vh & Fh & Uh) & (Vl & Fl & Ul)).
  assert (Hsum : units (fst (tSPLIT P a)) + units (snd (tSPLIT P a)) = units a).
  { rewrite Uh, Ul.
    destruct (units_shape a Va) as (M & t & HU & Ht & HM).
    rewrite HU. destruct (split_scale M t Ht) as [-> ->].
    rewrite <- Z.mul_add_distr_r, split_exact by exact HM. reflexivity. }
  repeat split; try assumption.
  assert (HK : ~ (inject_Z (2 ^ 1074) == 0)%Q).
  { change 0%Q with (inject_Z 0). rewrite inject_Z_injective.
    vm_compute. discriminate. }
  apply (Qmult_inj_r _ _ _ HK).
  rewrite Qmult_plus_distr_l, !value_units by assumption.
  rewrite <- inject_Z_plus, Hsum. reflexivity.
Qed.

(** A double of at most 26 bits, counted in units. *)
Lemma units_fits (x : tREAL) (n j : Z) :
  valid x = true -> 0 <= j -> units x = n * 2 ^ j -> Z.abs n <= 2 ^ 26 ->
  fits 26 x.
Proof.
  intros V Hj U Hn.
  assert (HK : ~ (inject_Z (2 ^ 1074) == 0)%Q).
  { change 0%Q with (inject_Z 0). rewrite inject_Z_injective.
    vm_compute. discriminate. }
  assert (Hval : forall n' j', 0 <= j' -> units x = n' * 2 ^ j' ->
            (Dbl.value x == inject_Z n' * Dbl.pow2 (j' - 1074))%Q).
  { intros n' j' Hj' U'.
    apply (Qmult_inj_r _ _ _ HK).
    rewrite value_units by exact V.
    rewrite <- Qmult_assoc, pow2_units by lia.
    replace (j' - 1074 + 1074) with j' by lia.
    rewrite <- inject_Z_mult, U'. reflexivity. }
  assert (H26 : 2 ^ 26 = 67108864) by reflexivity.
  destruct (Z.eq_dec (Z.abs n) (2 ^ 26)) as [Heq | Hne].
  - exists (Z.sgn n), (j + 26 - 1074).
    split; [destruct (Z.sgn_spec n) as [[_ ->] | [[_ ->] | [_ ->]]]; lia |].
    apply Hval; [lia |]. rewrite U, pow2_split by lia.
    rewrite <- (Z.abs_sgn n) at 1. rewrite Heq. ring.
  - exists n, (j - 1074). split; [lia |]. apply Hval; assumption.
Qed.

Lemma tSPLIT_halves (P : Predicates) (a : tREAL) :
  splitter P = Dbl.of_Z splitter_value ->
  valid a = true -> Dbl.is_finite a = true ->
  Z.abs (units a) <= 2 ^ 2064 ->
  fits 26 (fst (tSPLIT P a)) /\ fits 26 (snd (tSPLIT P a)).
Proof.
  intros HP Va Fa Ha.
  destruct (tSPLIT_units P a HP Va Fa Ha) as ((Vh & Fh & Uh) & (Vl & Fl & Ul)).
  destruct (units_shape a Va) as (M & t & HU & Ht & HM).
  rewrite HU in Uh, Ul.
  destruct (split_scale M t Ht) as [Hh Hl]. rewrite Hh in Uh. rewrite Hl in Ul.
  destruct (split_halves M HM) as [(u & j & Hj & Hu & Hb) Hlo].
  split.
  - apply (units_fits _ u (j + t) Vh ltac:(lia)); [| exact Hb].
    rewrite Uh, Hu, pow2_split by lia. ring.
  - apply (units_fits _ (split_lo M) t Vl Ht Ul Hlo).
Qed.

(** C3, amended.  After [exactinit], [splitter] is [2^27 + 1 = 134217729]:
    the power of two [2^27] that the loop leaves, and the [1.0] that
    [splitter += 1.0] adds.  With it Split loses nothing: for every finite
    double [a] of magnitude at most [2^990] (that is, [2^2064] units), the
    halves [ahi] and [alo] are finite, each has a significand of at most 26
    bits, and [ahi + alo] is [a] exactly. *)
Theorem splitter_splits_exactly (a : tREAL) :
  valid a = true -> Dbl.is_finite a = true ->
  Z.abs (units a) <= 2 ^ 2064 ->
  splitter exactinit = Dbl.of_Z (2 ^ 27 + 1) /\
  i_splitter exactinit_loop = Dbl.of_Z (2 ^ 27) /\
  power_of_two (i_splitter exactinit_loop) = true /\
  splitter exactinit = Dbl.add (i_splitter exactinit_loop) Dbl.one /\
  let '(ahi, alo) := tSPLIT exactinit a in
  Dbl.is_finite ahi = true /\ Dbl.is_finite alo = true /\
  fits 26 ahi /\ fits 26 alo /\
  (Dbl.value ahi + Dbl.value alo == Dbl.value a)%Q.
Proof.
  intros Va Fa Ha.
  destruct exactinit_splitter as (H1 & _ & H2 & H3 & H4).
  do 4 (split; [assumption |]).
  destruct (tSPLIT_exact exactinit a H1 Va Fa Ha) as (Fh & Fl & _ & Hv).
  destruct (tSPLIT_halves exactinit a H1 Va Fa Ha) as (Hh & Hl).
  destruct (tSPLIT exactinit a) as [ahi alo]. cbn [fst snd] in *.
  do 4 (split; [assumption |]). exact Hv.
Qed.

(** A significand of 53 ones: the halves are [2^53 * 2^-30] and
    [-1 * 2^-30]. *)
Lemma splitter_splits_exactly_witness :
  let a := Dbl.scaled (2 ^ 53 - 1) (-30) in
  splitter exactinit = Dbl.of_Z (2 ^ 27 + 1) /\
  i_splitter exactinit_loop = Dbl.of_Z (2 ^ 27) /\
  power_of_two (i_splitter exactinit_loop) = true /\
  splitter exactinit = Dbl.add (i_splitter exactinit_loop) Dbl.one /\
  let '(ahi, alo) := tSPLIT exactinit a in
  Dbl.is_finite ahi = true /\ Dbl.is_finite alo = true /\
  fits 26 ahi /\ fits 26 alo /\
  (Dbl.value ahi + Dbl.value alo == Dbl.value a)%Q.
Proof.
  intros a.
  apply (splitter_splits_exactly a).
  - vm_compute. reflexivity.
  - vm_compute. reflexivity.
  - vm_compute. discriminate.
Defined.

Example tSPLIT_of_ones :
  tSPLIT exactinit (Dbl.scaled (2 ^ 53 - 1) (-30)) =
  (Dbl.scaled (2 ^ 53) (-30), Dbl.scaled (-1) (-30)).
Proof. vm_compute. reflexivity. Qed.
(** * The other operations of the class *)

(** ** Lengths and bounds of the plain operations *)

(** X1. [grow_expansion], on an expansion of [elen >= 0] components,
    returns the length [elen + 1] and leaves every cell of [h] other than
    [h[0 .. elen]] as the caller passed it. *)
Theorem grow_expansion_within_bounds (elen : Z) (e : buf) (b : tREAL)
  (h : buf) :
  0 <= elen ->
  fst (grow_expansion elen e b h) = elen + 1 /\
  outside (elen + 1) (snd (grow_expansion elen e b h)) h.
Proof.
  intros He. unfold grow_expansion.
  loop_with (fun (k : Z) (t : tREAL * buf) => 0 <= k /\ outside k (snd t) h).
  { simpl. split; [lia | apply outside_refl]. }
  { intros k [Q h1] Hk [_ Hout]. simpl in *.
    destruct (Two_Sum Q (e k)) as [Qnew hh]. simpl.
    split; [lia |]. eapply outside_upd; eauto; lia. }
  destruct t as [Q h1]. simpl in Hinv. destruct Hinv as [_ Hout].
  replace (Z.max 0 elen) with elen in * by lia. simpl.
  split; [reflexivity |]. eapply outside_upd; eauto; lia.
Qed.

Lemma grow_expansion_within_bounds_witness :
  fst (grow_expansion 2 e_demo tenth local) = 2 + 1 /\
  outside (2 + 1) (snd (grow_expansion 2 e_demo tenth local)) local.
Proof. apply grow_expansion_within_bounds. lia. Defined.

(** X2. [scale_expansion], on an expansion of [elen >= 1] components,
    returns the length [2 * elen] and leaves every cell of [h] other than
    [h[0 .. 2*elen-1]] as the caller passed it. *)
Theorem scale_expansion_within_bounds (P : Predicates) (elen : Z) (e : buf)
  (b : tREAL) (h : buf) :
  1 <= elen ->
  fst (scale_expansion P elen e b h) = 2 * elen /\
  outside (2 * elen) (snd (scale_expansion P elen e b h)) h.
Proof.
  intros He. unfold scale_expansion.
  destruct (tSPLIT P b) as [bhi blo].
  destruct (Two_Product_Presplit P (e 0) b bhi blo) as [Q0 h0].
  loop_with (fun (k : Z) (t : tREAL * (Z * buf)) =>
               fst (snd t) = 2 * k - 1 /\
               outside (2 * k - 1) (snd (snd t)) h).
  { simpl. split; [lia |]. apply (outside_upd 0); [apply outside_refl | lia | lia]. }
  { intros k [Q [hi g]] Hk [Hi Hout]. simpl in Hi, Hout. subst hi.
    destruct (Two_Product_Presplit P (e k) b bhi blo) as [p1 p0].
    destruct (Two_Sum Q p0) as [sum hh].
    destruct (Two_Sum p1 sum) as [Q' hh']. simpl.
    split; [lia |].
    apply (outside_upd (2 * k) (2 * (k + 1) - 1));
      [apply (outside_upd (2 * k - 1) (2 * k)); [exact Hout | lia | lia] | lia | lia]. }
  destruct t as [Q [hi g]]. simpl in Hinv. destruct Hinv as [Hi Hout].
  replace (Z.max 1 elen) with elen in * by lia. subst hi. simpl.
  split; [lia |]. eapply outside_upd; eauto; lia.
Qed.

Lemma scale_expansion_within_bounds_witness :
  fst (scale_expansion exactinit 2 e_demo tenth local) = 2 * 2 /\
  outside (2 * 2) (snd (scale_expansion exactinit 2 e_demo tenth local)) local.
Proof. apply scale_expansion_within_bounds. lia. Defined.

(** ** The merging sums *)

Lemma put_nonzero_bounds (hh : tREAL) (hindex : Z) (h h0 : buf) (n : Z) :
  0 <= hindex -> hindex < n -> outside hindex h h0 ->
  0 <= fst (put_nonzero hh hindex h) <= n /\
  hindex <= fst (put_nonzero hh hindex h) <= hindex + 1 /\
  outside (fst (put_nonzero hh hindex h)) (snd (put_nonzero hh hindex h)) h0.
Proof.
  intros H0 Hn Hout. unfold put_nonzero.
  destruct (Dbl.ne hh Dbl.zero); simpl.
  - repeat split; try lia. apply (outside_upd hindex); [exact Hout | lia | lia].
  - repeat split; try lia. exact Hout.
Qed.

Lemma put_last_bounds (Q : tREAL) (hindex : Z) (h h0 : buf) (n : Z) :
  0 <= hindex -> hindex < n -> outside hindex h h0 ->
  1 <= fst (put_last Q hindex h) <= n /\
  outside n (snd (put_last Q hindex h)) h0.
Proof.
  intros H0 Hn Hout. unfold put_last.
  destruct (Dbl.ne Q Dbl.zero); simpl.
  - split; [lia |]. apply (outside_upd hindex); [exact Hout | lia | lia].
  - destruct (Z.eqb_spec hindex 0); simpl.
    + split; [lia |]. apply (outside_upd hindex); [exact Hout | lia | lia].
    + split; [lia |]. apply (outside_weaken hindex); [exact Hout | lia].
Qed.

Lemma merge_start_inv (elen : Z) (e : buf) (flen : Z) (f : buf) (h : buf) :
  1 <= elen -> 1 <= flen ->
  merge_inv elen flen h (merge_start e f h) /\ merge_full (merge_start e f h).
Proof.
  intros He Hf. unfold merge_inv, merge_full, merge_start.
  destruct (e_is_next (e 0) (f 0)); simpl;
    (repeat split; try lia; apply outside_refl).
Qed.

(** Unfolds a turn of a merging loop that stores every tail. *)
Ltac merge_turn Hs :=
  let Hout := fresh "Hout" in
  destruct Hs as (? & ? & ? & ? & Hout);
  repeat match goal with
         | |- context [e_is_next ?a ?b] => destruct (e_is_next a b)
         | |- context [Two_Sum ?a ?b] => destruct (Two_Sum a b)
         | |- context [Fast_Two_Sum ?a ?b] => destruct (Fast_Two_Sum a b)
         end;
  cbn [m_Q m_enow m_fnow m_eindex m_findex m_hindex m_h];
  repeat split; try lia;
  try (eapply outside_upd; [exact Hout | lia | lia]).

Section MergeBounds.

Variables (elen : Z) (e : buf) (flen : Z) (f : buf) (h0 : buf).

Lemma merge_first_inv (s : merge_state) :
  merge_inv elen flen h0 s -> merge_full s -> m_hindex s = 0 ->
  both_left elen flen s = true ->
  merge_inv elen flen h0 (merge_first e f s) /\ merge_full (merge_first e f s).
Proof.
  intros Hs Hfull Hz Hb. unfold both_left in Hb.
  apply andb_true_iff in Hb. destruct Hb as [Hb1 Hb2].
  apply Z.ltb_lt in Hb1, Hb2.
  unfold merge_inv, merge_full, merge_first in *.
  rewrite Hz in *. merge_turn Hs.
Qed.

Lemma merge_step_inv (s : merge_state) :
  merge_inv elen flen h0 s /\ merge_full s ->
  both_left elen flen s = true ->
  merge_inv elen flen h0 (merge_step e f s) /\ merge_full (merge_step e f s).
Proof.
  intros [Hs Hfull] Hb. unfold both_left in Hb.
  apply andb_true_iff in Hb. destruct Hb as [Hb1 Hb2].
  apply Z.ltb_lt in Hb1, Hb2.
  unfold merge_inv, merge_full, merge_step in *. merge_turn Hs.
Qed.

Lemma drain_e_inv (s : merge_state) :
  merge_inv elen flen h0 s /\ merge_full s ->
  (m_eindex s <? elen) = true ->
  merge_inv elen flen h0 (drain_e e s) /\ merge_full (drain_e e s).
Proof.
  intros [Hs Hfull] Hb. apply Z.ltb_lt in Hb.
  unfold merge_inv, merge_full, drain_e in *. merge_turn Hs.
Qed.

Lemma drain_f_inv (s : merge_state) :
  merge_inv elen flen h0 s /\ merge_full s ->
  (m_findex s <? flen) = true ->
  merge_inv elen flen h0 (drain_f f s) /\ merge_full (drain_f f s).
Proof.
  intros [Hs Hfull] Hb. apply Z.ltb_lt in Hb.
  unfold merge_inv, merge_full, drain_f in *. merge_turn Hs.
Qed.

End MergeBounds.

Lemma merge_plain_both_done (elen : Z) (e : buf) (flen : Z) (f : buf)
  (s : merge_state) :
  0 <= m_eindex s -> 0 <= m_findex s ->
  both_left elen flen
    (while_loop (merge_fuel elen flen) (both_left elen flen)
       (merge_step e f) s) = false.
Proof.
  intros He Hf.
  apply while_loop_exits
    with (mu := fun t => (elen - m_eindex t) + (flen - m_findex t)).
  - intros t Ht. unfold both_left in Ht.
    apply andb_true_iff in Ht. destruct Ht as [H1 H2].
    apply Z.ltb_lt in H1, H2. unfold merge_step.
    destruct (e_is_next (m_enow t) (m_fnow t));
      destruct (Two_Sum _ _); simpl; lia.
  - unfold merge_fuel. lia.
Qed.

Lemma merge_plain_e_done (elen : Z) (e : buf) (flen : Z) (s : merge_state) :
  0 <= m_eindex s -> 0 <= flen ->
  (m_eindex
     (while_loop (merge_fuel elen flen) (fun s => m_eindex s <? elen)
        (drain_e e) s) <? elen) = false.
Proof.
  intros He Hf.
  apply (while_loop_exits (fun t => elen - m_eindex t) (merge_fuel elen flen)
           (fun s => m_eindex s <? elen)).
  - intros t Ht. apply Z.ltb_lt in Ht. unfold drain_e.
    destruct (Two_Sum _ _); simpl; lia.
  - unfold merge_fuel. lia.
Qed.

Lemma merge_plain_f_done (elen : Z) (flen : Z) (f : buf) (s : merge_state) :
  0 <= m_findex s -> 0 <= elen ->
  (m_findex
     (while_loop (merge_fuel elen flen) (fun s => m_findex s <? flen)
        (drain_f f) s) <? flen) = false.
Proof.
  intros Hf He.
  apply (while_loop_exits (fun t => flen - m_findex t) (merge_fuel elen flen)
           (fun s => m_findex s <? flen)).
  - intros t Ht. apply Z.ltb_lt in Ht. unfold drain_f.
    destruct (Two_Sum _ _); simpl; lia.
  - unfold merge_fuel. lia.
Qed.

(** X3. [fast_expansion_sum], on expansions of [elen >= 1] and
    [flen >= 1] components, leaves each of its loops by the loop's
    condition, returns the length [elen + flen], and writes no cell of [h]
    other than [h[0 .. elen+flen-1]]. *)
Theorem fast_expansion_sum_within_bounds (elen : Z) (e : buf) (flen : Z)
  (f : buf) (h : buf) :
  1 <= elen -> 1 <= flen ->
  fst (fast_expansion_sum elen e flen f h) = elen + flen /\
  outside (elen + flen) (snd (fast_expansion_sum elen e flen f h)) h.
Proof.
  intros He Hf. unfold fast_expansion_sum.
  destruct (merge_start_inv elen e flen f h He Hf) as [H0 F0].
  assert (Z0 : m_hindex (merge_start e f h) = 0)
    by (unfold merge_start; destruct (e_is_next _ _); reflexivity).
  set (s0 := merge_start e f h) in *.
  set (s1 := if both_left elen flen s0 then _ else s0).
  assert (H1 : (merge_inv elen flen h s1 /\ merge_full s1) /\
               both_left elen flen s1 = false).
  { subst s1. destruct (both_left elen flen s0) eqn:Hb.
    - split.
      + apply while_loop_inv.
        * apply merge_first_inv; assumption.
        * intros t Ht Hc. apply merge_step_inv; assumption.
      + apply merge_plain_both_done;
          destruct (merge_first_inv elen e flen f h s0 H0 F0 Z0 Hb)
            as [(? & ? & _) _]; lia.
    - split; [split; assumption | exact Hb]. }
  clearbody s1. destruct H1 as [H1 _].
  set (s2 := while_loop _ _ (drain_e e) s1).
  assert (H2 : (merge_inv elen flen h s2 /\ merge_full s2) /\
               (m_eindex s2 <? elen) = false).
  { subst s2. split.
    - apply while_loop_inv; [exact H1 |].
      intros t Ht Hc. apply drain_e_inv; assumption.
    - apply merge_plain_e_done; [destruct H1 as [(? & _) _]; lia | lia]. }
  clearbody s2. destruct H2 as [H2 E2]. apply Z.ltb_ge in E2.
  set (s3 := while_loop _ _ (drain_f f) s2).
  assert (H3 : ((merge_inv elen flen h s3 /\ merge_full s3) /\
                m_eindex s3 = elen) /\
               (m_findex s3 <? flen) = false).
  { subst s3. split.
    - apply (while_loop_inv
               (fun t => (merge_inv elen flen h t /\ merge_full t) /\
                         m_eindex t = elen)).
      + split; [exact H2 |]. destruct H2 as [(? & _) _]. lia.
      + intros t [Ht Et] Hc. split; [apply drain_f_inv; assumption |].
        unfold drain_f. destruct (Two_Sum _ _). simpl. exact Et.
    - apply merge_plain_f_done; [destruct H2 as [(_ & ? & _) _]; lia | lia]. }
  clearbody s3. destruct H3 as [[[H3 F3] E3] B3]. apply Z.ltb_ge in B3.
  destruct H3 as (_ & Hfi & _ & Hh & Hout). unfold merge_full in F3.
  simpl. split; [lia |].
  apply (outside_upd (m_hindex s3)); [exact Hout | lia | lia].
Qed.

Lemma fast_expansion_sum_within_bounds_witness :
  fst (fast_expansion_sum 2 e_demo 2 f_demo local) = 2 + 2 /\
  outside (2 + 2) (snd (fast_expansion_sum 2 e_demo 2 f_demo local)) local.
Proof. apply fast_expansion_sum_within_bounds; lia. Defined.

Lemma linear_take_h (elen : Z) (e : buf) (flen : Z) (f : buf) (q : tREAL)
  (s : merge_state) :
  m_h (snd (linear_take elen e flen f q s)) = m_h s /\
  m_hindex (snd (linear_take elen e flen f q s)) = m_hindex s.
Proof.
  unfold linear_take. destruct (linear_takes_e elen flen s).
  - destruct (Fast_Two_Sum _ _). simpl. split; reflexivity.
  - destruct (Fast_Two_Sum _ _). simpl. split; reflexivity.
Qed.

(** X4. [linear_expansion_sum], on expansions of [elen >= 1] and
    [flen >= 1] components, returns the length [elen + flen] and writes no
    cell of [h] other than [h[0 .. elen+flen-1]]. *)
Theorem linear_expansion_sum_within_bounds (elen : Z) (e : buf) (flen : Z)
  (f : buf) (h : buf) :
  1 <= elen -> 1 <= flen ->
  fst (linear_expansion_sum elen e flen f h) = elen + flen /\
  outside (elen + flen) (snd (linear_expansion_sum elen e flen f h)) h.
Proof.
  intros He Hf. unfold linear_expansion_sum.
  assert (H0 : m_h (merge_start e f h) = h)
    by (unfold merge_start; destruct (e_is_next _ _); reflexivity).
  set (s0 := merge_start e f h) in *.
  pose proof (linear_take_h elen e flen f (m_Q s0) s0) as [H1 _].
  destruct (linear_take elen e flen f (m_Q s0) s0) as [[Qnew q] s1].
  simpl in H1. rewrite H0 in H1.
  loop_with (fun (k : Z) (t : tREAL * tREAL * merge_state) =>
               0 <= k /\ outside k (m_h (snd t)) h).
  { simpl. rewrite H1. split; [lia | apply outside_refl]. }
  { intros k [[Q1 q1] t1] Hk [_ Hout]. simpl in Hout.
    pose proof (linear_take_h elen e flen f q1 t1) as [H2 _].
    destruct (linear_take elen e flen f q1 t1) as [[R hh] t2].
    simpl in H2. destruct (Two_Sum Q1 R) as [Qn qn]. simpl.
    split; [lia |]. rewrite H2.
    apply (outside_upd k); [exact Hout | lia | lia]. }
  destruct t as [[Q1 q1] t1]. simpl in Hinv. destruct Hinv as [_ Hout].
  replace (Z.max 0 (elen + flen - 2)) with (elen + flen - 2) in * by lia.
  simpl. split; [lia |].
  apply (outside_upd (elen + flen - 1)); [| lia | lia].
  apply (outside_upd (elen + flen - 2)); [exact Hout | lia | lia].
Qed.

Lemma linear_expansion_sum_within_bounds_witness :
  fst (linear_expansion_sum 2 e_demo 2 f_demo local) = 2 + 2 /\
  outside (2 + 2) (snd (linear_expansion_sum 2 e_demo 2 f_demo local)) local.
Proof. apply linear_expansion_sum_within_bounds; lia. Defined.

(** ** The zero-eliminating operations stay within their bounds *)

Lemma put_nonzero_so_far (hh : tREAL) (n : Z) (r : Z * buf) (h0 : buf) :
  so_far n r h0 -> so_far (n + 1) (put_nonzero hh (fst r) (snd r)) h0.
Proof.
  intros [Hn Hout]. unfold so_far, put_nonzero.
  destruct (Dbl.ne hh Dbl.zero); simpl.
  - split; [lia |]. apply (outside_upd (fst r)); [exact Hout | lia | lia].
  - split; [lia | exact Hout].
Qed.

Lemma put_last_within (Q : tREAL) (n : Z) (r : Z * buf) (h0 : buf) :
  so_far n r h0 -> within (n + 1) (put_last Q (fst r) (snd r)) h0.
Proof.
  intros [Hn Hout]. unfold within, put_last.
  destruct (Dbl.ne Q Dbl.zero); simpl.
  - split; [lia |]. apply (outside_upd (fst r)); [exact Hout | lia | lia].
  - destruct (Z.eqb_spec (fst r) 0); simpl.
    + split; [lia |]. apply (outside_upd (fst r)); [exact Hout | lia | lia].
    + split; [lia |]. apply (outside_weaken (fst r)); [exact Hout | lia].
Qed.

Lemma so_far_weaken (n m : Z) (r : Z * buf) (h0 : buf) :
  so_far n r h0 -> n <= m -> so_far m r h0.
Proof. intros [Hn Hout] Hm. split; [lia | exact Hout]. Qed.

Lemma within_weaken (n m : Z) (r : Z * buf) (h0 : buf) :
  within n r h0 -> n <= m -> within m r h0.
Proof.
  intros [Hn Hout] Hm. split; [lia |].
  apply (outside_weaken n); assumption.
Qed.

Lemma grow_expansion_zeroelim_within (elen : Z) (e : buf) (b : tREAL)
  (h : buf) :
  0 <= elen -> within (elen + 1) (grow_expansion_zeroelim elen e b h) h.
Proof.
  intros He. unfold grow_expansion_zeroelim.
  loop_with (fun (k : Z) (t : tREAL * (Z * buf)) => so_far k (snd t) h).
  { simpl. split; [simpl; lia | apply outside_refl]. }
  { intros k [Q r] Hk Hs. simpl in Hs.
    destruct (Two_Sum Q (e k)) as [Qnew hh]. simpl.
    destruct r as [hi g]. apply (put_nonzero_so_far hh k (hi, g)), Hs. }
  destruct t as [Q [hi g]]. simpl in Hinv.
  replace (Z.max 0 elen) with elen in * by lia.
  apply (put_last_within Q elen (hi, g)), Hinv.
Qed.

Lemma scale_expansion_zeroelim_within (P : Predicates) (elen : Z) (e : buf)
  (b : tREAL) (h : buf) :
  1 <= elen -> within (2 * elen) (scale_expansion_zeroelim P elen e b h) h.
Proof.
  intros He. unfold scale_expansion_zeroelim.
  destruct (tSPLIT P b) as [bhi blo].
  destruct (Two_Product_Presplit P (e 0) b bhi blo) as [Q0 h0].
  assert (H0 : so_far 1 (put_nonzero h0 0 h) h).
  { apply (put_nonzero_so_far h0 0 (0, h)).
    split; [simpl; lia | apply outside_refl]. }
  destruct (put_nonzero h0 0 h) as [hi0 g0].
  loop_with (fun (k : Z) (t : tREAL * (Z * buf)) =>
               so_far (2 * k - 1) (snd t) h).
  { simpl. exact H0. }
  { intros k [Q [hi g]] Hk Hs. simpl in Hs.
    destruct (Two_Product_Presplit P (e k) b bhi blo) as [p1 p0].
    destruct (Two_Sum Q p0) as [sum hh].
    pose proof (put_nonzero_so_far hh _ (hi, g) h Hs) as H1.
    simpl in H1. destruct (put_nonzero hh hi g) as [hi1 g1].
    destruct (Fast_Two_Sum p1 sum) as [Q' hh']. simpl.
    pose proof (put_nonzero_so_far hh' _ (hi1, g1) h H1) as H2.
    simpl in H2. apply (so_far_weaken _ _ _ _ H2). lia. }
  destruct t as [Q [hi g]]. simpl in Hinv.
  replace (Z.max 1 elen) with elen in * by lia.
  apply (within_weaken (2 * elen - 1 + 1));
    [apply (put_last_within Q _ (hi, g)), Hinv | lia].
Qed.

Lemma expansion_sum_zeroelim1_within (elen : Z) (e : buf) (flen : Z)
  (f : buf) (h : buf) :
  1 <= elen -> 1 <= flen ->
  within (elen + flen) (expansion_sum_zeroelim1 elen e flen f h) h.
Proof.
  intros He Hf. unfold expansion_sum_zeroelim1.
  destruct (expansion_sum_phases_spec elen e flen f h) as (Heq & Hout);
    [lia | lia |].
  destruct (expansion_sum_phases elen e flen f h) as [hlast h1].
  simpl in Heq, Hout. subst hlast.
  loop_with (fun (k : Z) (t : Z * buf) =>
               -1 <= fst t <= k - 1 /\ outside (elen + flen) (snd t) h).
  { simpl. split; [lia | exact Hout]. }
  { intros k [hi g] Hk [Hi Hg]. simpl in Hi, Hg.
    destruct (Dbl.ne (g k) Dbl.zero); simpl.
    - split; [lia |].
      apply (outside_upd (elen + flen)); [exact Hg | lia | lia].
    - split; [lia | exact Hg]. }
  destruct t as [hi g]. simpl in Hinv. destruct Hinv as [Hi Hg].
  replace (Z.max 0 (elen + flen - 1 + 1)) with (elen + flen) in * by lia.
  unfold within. destruct (Z.eqb_spec hi (-1)); simpl.
  - split; [lia | exact Hg].
  - split; [lia | exact Hg].
Qed.

Lemma expansion_sum_zeroelim2_within (elen : Z) (e : buf) (flen : Z)
  (f : buf) (h : buf) :
  1 <= elen -> 1 <= flen ->
  within (elen + flen) (expansion_sum_zeroelim2 elen e flen f h) h.
Proof.
  intros He Hf. unfold expansion_sum_zeroelim2.
  loop_with (fun (k : Z) (t : tREAL * (Z * buf)) => so_far k (snd t) h).
  { simpl. split; [simpl; lia | apply outside_refl]. }
  { intros k [Q r] Hk Hs. simpl in Hs.
    destruct (Two_Sum Q (e k)) as [Qnew hh]. simpl.
    destruct r as [hi g]. apply (put_nonzero_so_far hh k (hi, g)), Hs. }
  destruct t as [Q [hi g]]. simpl in Hinv.
  replace (Z.max 0 elen) with elen in * by lia.
  destruct Hinv as [Hi Hg]. simpl in Hi, Hg.
  loop_with (fun (k : Z) (t : Z * buf) =>
               0 <= fst t <= elen + k - 1 /\ outside (elen + k) (snd t) h).
  { simpl. split; [lia |].
    apply (outside_upd hi); [exact Hg | lia | lia]. }
  { intros k [hlast g1] Hk [Hl Hg1]. simpl in Hl, Hg1.
    loop_with (fun (j : Z) (t : tREAL * (Z * buf)) =>
                 0 <= fst (snd t) <= j /\ outside (elen + k) (snd (snd t)) h).
    { simpl. split; [lia | exact Hg1]. }
    { intros j [Q1 [hi1 g2]] Hj [Hi1 Hg2]. simpl in Hi1, Hg2.
      destruct (Two_Sum Q1 (g2 j)) as [Qnew hh]. unfold put_nonzero.
      destruct (Dbl.ne hh Dbl.zero); simpl.
      - split; [lia |].
        apply (outside_upd (elen + k)); [exact Hg2 | lia | lia].
      - split; [lia | exact Hg2]. }
    destruct t as [Q1 [hi1 g2]]. simpl in Hinv. destruct Hinv as [Hi1 Hg2].
    replace (Z.max 0 (hlast + 1)) with (hlast + 1) in * by lia.
    simpl. split; [lia |].
    apply (outside_upd (elen + k)); [exact Hg2 | lia | lia]. }
  destruct t as [hlast g1]. simpl in Hinv. destruct Hinv as [Hl Hg1].
  replace (Z.max 1 flen) with flen in * by lia.
  unfold within. simpl. split; [lia | exact Hg1].
Qed.

(** Unfolds a turn of a merging loop that drops the zero tails. *)
Ltac merge_turn_zeroelim Hs :=
  let Hout := fresh "Hout" in
  destruct Hs as (? & ? & ? & ? & Hout);
  unfold put_nonzero;
  repeat match goal with
         | |- context [e_is_next ?a ?b] => destruct (e_is_next a b)
         | |- context [Two_Sum ?a ?b] => destruct (Two_Sum a b)
         | |- context [Fast_Two_Sum ?a ?b] => destruct (Fast_Two_Sum a b)
         | |- context [Dbl.ne ?a ?b] => destruct (Dbl.ne a b)
         end;
  cbn [m_Q m_enow m_fnow m_eindex m_findex m_hindex m_h];
  repeat split; try lia; try exact Hout;
  try (eapply outside_upd; [exact Hout | lia | lia]).

Lemma fast_expansion_sum_zeroelim_within (elen : Z) (e : buf) (flen : Z)
  (f : buf) (h : buf) :
  1 <= elen -> 1 <= flen ->
  within (elen + flen) (fast_expansion_sum_zeroelim elen e flen f h) h.
Proof.
  intros He Hf. unfold fast_expansion_sum_zeroelim.
  destruct (merge_start_inv elen e flen f h He Hf) as [H0 _].
  set (s0 := merge_start e f h) in *.
  set (s1 := if both_left elen flen s0 then _ else s0).
  assert (H1 : merge_inv elen flen h s1).
  { subst s1. destruct (both_left elen flen s0) eqn:Hb; [| exact H0].
    unfold both_left in Hb. apply andb_true_iff in Hb.
    destruct Hb as [Hb1 Hb2]. apply Z.ltb_lt in Hb1, Hb2.
    apply while_loop_inv.
    - unfold merge_inv, merge_first_zeroelim in *. merge_turn_zeroelim H0.
    - intros t Ht Hc. unfold both_left in Hc. apply andb_true_iff in Hc.
      destruct Hc as [Hc1 Hc2]. apply Z.ltb_lt in Hc1, Hc2.
      unfold merge_inv, merge_step_zeroelim in *. merge_turn_zeroelim Ht. }
  clearbody s1.
  set (s2 := while_loop _ _ (drain_e_zeroelim e) s1).
  assert (H2 : merge_inv elen flen h s2).
  { subst s2. apply while_loop_inv; [exact H1 |].
    intros t Ht Hc. apply Z.ltb_lt in Hc.
    unfold merge_inv, drain_e_zeroelim in *. merge_turn_zeroelim Ht. }
  clearbody s2.
  set (s3 := while_loop _ _ (drain_f_zeroelim f) s2).
  assert (H3 : merge_inv elen flen h s3).
  { subst s3. apply while_loop_inv; [exact H2 |].
    intros t Ht Hc. apply Z.ltb_lt in Hc.
    unfold merge_inv, drain_f_zeroelim in *. merge_turn_zeroelim Ht. }
  clearbody s3. destruct H3 as (Hei & Hfi & _ & Hh & Hout).
  apply (within_weaken (elen + flen - 1 + 1)); [| lia].
  apply (put_last_within (m_Q s3) _ (m_hindex s3, m_h s3)).
  split; [simpl; lia | exact Hout].
Qed.

Lemma linear_expansion_sum_zeroelim_within (elen : Z) (e : buf) (flen : Z)
  (f : buf) (h : buf) :
  1 <= elen -> 1 <= flen ->
  within (elen + flen) (linear_expansion_sum_zeroelim elen e flen f h) h.
Proof.
  intros He Hf. unfold linear_expansion_sum_zeroelim.
  assert (H0 : m_h (merge_start e f h) = h /\ m_hindex (merge_start e f h) = 0)
    by (unfold merge_start; destruct (e_is_next _ _); split; reflexivity).
  set (s0 := merge_start e f h) in *. destruct H0 as [H0 Z0].
  pose proof (linear_take_h elen e flen f (m_Q s0) s0) as [H1 Z1].
  destruct (linear_take elen e flen f (m_Q s0) s0) as [[Qnew q] s1].
  simpl in H1, Z1. rewrite H0 in H1. rewrite Z0 in Z1.
  loop_with (fun (k : Z) (t : tREAL * tREAL * merge_state) =>
               so_far (k - 2) (m_hindex (snd t), m_h (snd t)) h).
  { simpl. rewrite H1, Z1. split; [simpl; lia | apply outside_refl]. }
  { intros k [[Q1 q1] t1] Hk Hs. simpl in Hs.
    pose proof (linear_take_h elen e flen f q1 t1) as [H2 Z2].
    destruct (linear_take elen e flen f q1 t1) as [[R hh] t2].
    simpl in H2, Z2. destruct (Two_Sum Q1 R) as [Qn qn].
    rewrite H2, Z2.
    pose proof (put_nonzero_so_far hh _ _ h Hs) as H3. simpl in H3.
    destruct (put_nonzero hh (m_hindex t1) (m_h t1)) as [hi g]. simpl.
    apply (so_far_weaken _ _ _ _ H3). lia. }
  destruct t as [[Q1 q1] t1]. simpl in Hinv.
  replace (Z.max 2 (elen + flen)) with (elen + flen) in * by lia.
  pose proof (put_nonzero_so_far q1 _ _ h Hinv) as H3. simpl in H3.
  destruct (put_nonzero q1 (m_hindex t1) (m_h t1)) as [hi g].
  apply (within_weaken (elen + flen - 2 + 1 + 1)); [| lia].
  apply (put_last_within Q1 _ (hi, g)), H3.
Qed.

(** X5. Each of the four zero-eliminating sums of two expansions, of
    [elen >= 1] and [flen >= 1] components, returns a length between 1 and
    [elen + flen] and writes no cell of [h] other than
    [h[0 .. elen+flen-1]]. *)
Theorem sum_zeroelim_within_bounds (elen : Z) (e : buf) (flen : Z) (f : buf)
  (h : buf) :
  1 <= elen -> 1 <= flen ->
  within (elen + flen) (expansion_sum_zeroelim1 elen e flen f h) h /\
  within (elen + flen) (expansion_sum_zeroelim2 elen e flen f h) h /\
  within (elen + flen) (fast_expansion_sum_zeroelim elen e flen f h) h /\
  within (elen + flen) (linear_expansion_sum_zeroelim elen e flen f h) h.
Proof.
  intros He Hf.
  split; [apply expansion_sum_zeroelim1_within; assumption |].
  split; [apply expansion_sum_zeroelim2_within; assumption |].
  split; [apply fast_expansion_sum_zeroelim_within; assumption |].
  apply linear_expansion_sum_zeroelim_within; assumption.
Qed.

Lemma sum_zeroelim_within_bounds_witness :
  within (2 + 2) (expansion_sum_zeroelim1 2 e_demo 2 f_demo local) local /\
  within (2 + 2) (expansion_sum_zeroelim2 2 e_demo 2 f_demo local) local /\
  within (2 + 2) (fast_expansion_sum_zeroelim 2 e_demo 2 f_demo local) local /\
  within (2 + 2) (linear_expansion_sum_zeroelim 2 e_demo 2 f_demo local)
    local.
Proof. apply sum_zeroelim_within_bounds; lia. Defined.

(** X6. On an expansion of [elen >= 1] components,
    [grow_expansion_zeroelim] returns a length between 1 and [elen + 1],
    [scale_expansion_zeroelim] one between 1 and [2 * elen], and neither
    writes a cell of [h] past that bound. *)
Theorem grow_scale_zeroelim_within_bounds (P : Predicates) (elen : Z)
  (e : buf) (b : tREAL) (h : buf) :
  1 <= elen ->
  within (elen + 1) (grow_expansion_zeroelim elen e b h) h /\
  within (2 * elen) (scale_expansion_zeroelim P elen e b h) h.
Proof.
  intros He.
  split; [apply grow_expansion_zeroelim_within; lia |].
  apply scale_expansion_zeroelim_within. exact He.
Qed.

Lemma grow_scale_zeroelim_within_bounds_witness :
  within (2 + 1) (grow_expansion_zeroelim 2 e_demo tenth local) local /\
  within (2 * 2) (scale_expansion_zeroelim exactinit 2 e_demo tenth local)
    local.
Proof. apply grow_scale_zeroelim_within_bounds; lia. Defined.

(** ** [compress] *)

Lemma for_down_loop_index {St : Type} (n : nat) (i : Z)
  (body : Z -> St -> St) (s : St) :
  fst (for_down_loop n i body s) = i - Z.of_nat n.
Proof.
  revert i s; induction n as [|n IH]; intros i s; simpl.
  - lia.
  - rewrite IH. lia.
Qed.

Lemma for_down_loop_inv {St : Type} (Inv : Z -> St -> Prop) (n : nat) (i : Z)
  (body : Z -> St -> St) (s : St) :
  Inv i s ->
  (forall k t, i - Z.of_nat n < k <= i -> Inv k t -> Inv (k - 1) (body k t)) ->
  Inv (i - Z.of_nat n) (snd (for_down_loop n i body s)).
Proof.
  revert i s; induction n as [|n IH]; intros i s H0 Hstep; simpl.
  - replace (i - 0) with i by lia. exact H0.
  - replace (i - Z.pos (Pos.of_succ_nat n)) with (i - 1 - Z.of_nat n) by lia.
    apply IH.
    + apply Hstep; [lia | exact H0].
    + intros k t Hk. apply Hstep. lia.
Qed.

(** A downward loop whose invariant holds on entry ends one below its lower
    bound, in a state that satisfies the invariant. *)
Lemma for_down_spec {St : Type} (Inv : Z -> St -> Prop) (hi lo : Z)
  (body : Z -> St -> St) (s : St) :
  lo - 1 <= hi ->
  Inv hi s ->
  (forall k t, lo <= k <= hi -> Inv k t -> Inv (k - 1) (body k t)) ->
  exists t, for_down hi lo body s = (lo - 1, t) /\ Inv (lo - 1) t.
Proof.
  intros Hr H0 Hstep. exists (snd (for_down hi lo body s)). split.
  - rewrite (surjective_pairing (for_down hi lo body s)). f_equal.
    unfold for_down. rewrite for_down_loop_index. lia.
  - unfold for_down.
    replace (lo - 1) with (hi - Z.of_nat (Z.to_nat (hi - lo + 1))) by lia.
    apply for_down_loop_inv; [exact H0 |].
    intros k t Hk. apply Hstep. lia.
Qed.

(** Two bodies that agree wherever the invariant holds run the same loop. *)
Lemma for_down_loop_ext {St : Type} (Inv : Z -> St -> Prop) (n : nat) (i : Z)
  (body body' : Z -> St -> St) (s : St) :
  Inv i s ->
  (forall k t, i - Z.of_nat n < k <= i -> Inv k t ->
               body k t = body' k t /\ Inv (k - 1) (body k t)) ->
  for_down_loop n i body s = for_down_loop n i body' s.
Proof.
  revert i s; induction n as [|n IH]; intros i s H0 Hstep; simpl.
  - reflexivity.
  - destruct (Hstep i s ltac:(lia) H0) as [Heq Hn]. rewrite <- Heq.
    apply IH; [exact Hn |]. intros k t Hk. apply Hstep. lia.
Qed.

Lemma put_nonzero_nonzero (hh : tREAL) (hindex : Z) (h : buf) :
  nonzero_below hindex h ->
  nonzero_below (fst (put_nonzero hh hindex h)) (snd (put_nonzero hh hindex h)).
Proof.
  intros H. unfold put_nonzero. destruct (Dbl.ne hh Dbl.zero) eqn:Hn; simpl.
  - intros i Hi. destruct (Z.eq_dec i hindex) as [-> | Hne].
    + rewrite upd_same. exact Hn.
    + rewrite upd_other by exact Hne. apply H. lia.
  - exact H.
Qed.

(** Picks a downward loop of the goal and replaces it by its exit index and
    a final state satisfying the invariant. *)
Ltac down_loop_with Inv :=
  match goal with
  | |- context [@for_down ?St ?hi ?lo ?b ?s] =>
      let t := fresh "t" in
      let Heq := fresh "Heq" in
      let Hinv := fresh "Hinv" in
      destruct (@for_down_spec St Inv hi lo b s) as (t & Heq & Hinv);
      [ | | | rewrite Heq; clear Heq ]
  end.

(** X7. [compress], on an expansion of [elen >= 1] components, returns a
    length between 1 and [elen], writes no cell of [h] other than
    [h[0 .. elen-1]], and every component it returns below the last one
    compares unequal to zero. *)
Theorem compress_within_bounds (elen : Z) (e : buf) (h : buf) :
  1 <= elen ->
  within elen (compress elen e h) h /\
  nonzero_below (fst (compress elen e h) - 1) (snd (compress elen e h)).
Proof.
  intros He. unfold compress.
  down_loop_with (fun (k : Z) (t : tREAL * (Z * buf)) =>
                    k + 1 <= fst (snd t) <= elen - 1 /\
                    outside elen (snd (snd t)) h).
  { lia. }
  { simpl. split; [lia | apply outside_refl]. }
  { intros k [Q [bottom g]] Hk [Hb Hg]. simpl in Hb, Hg.
    cbv beta zeta. destruct (Fast_Two_Sum Q (e k)) as [Qnew q].
    destruct (Dbl.ne q Dbl.zero); simpl.
    - split; [lia |]. apply (outside_upd elen); [exact Hg | lia | lia].
    - split; [lia | exact Hg]. }
  destruct t as [Q [bottom g]].
  simpl in Hinv. destruct Hinv as [Hb Hg].
  loop_with (fun (j : Z) (t : tREAL * (Z * buf)) =>
               (0 <= fst (snd t) <= j - (bottom + 1) /\
                outside elen (snd (snd t)) h) /\
               nonzero_below (fst (snd t)) (snd (snd t))).
  { simpl. split; [split; [lia | exact Hg] |]. intros i Hi. lia. }
  { intros j [Q1 [top g1]] Hj [[Ht Hg1] Hnz]. simpl in Ht, Hg1, Hnz.
    cbv beta zeta. destruct (Fast_Two_Sum (g1 j) Q1) as [Qnew q].
    cbn [fst snd]. split; [| apply put_nonzero_nonzero, Hnz].
    unfold put_nonzero. destruct (Dbl.ne q Dbl.zero); simpl.
    - split; [lia |]. apply (outside_upd elen); [exact Hg1 | lia | lia].
    - split; [lia | exact Hg1]. }
  destruct t as [Q1 [top g1]]. simpl in Hinv.
  destruct Hinv as [[Ht Hg1] Hnz].
  replace (Z.max (bottom + 1) elen) with elen in * by lia.
  unfold within. simpl. split; [split; [lia |] |].
  - apply (outside_upd elen); [exact Hg1 | lia | lia].
  - intros i Hi. rewrite upd_other by lia. apply Hnz. lia.
Qed.

Lemma compress_within_bounds_witness :
  within 2 (compress 2 e_demo local) local /\
  nonzero_below (fst (compress 2 e_demo local) - 1)
    (snd (compress 2 e_demo local)).
Proof. apply compress_within_bounds. lia. Defined.

(** X8. [compress] may be run in place: called with [h] being the array
    [e] itself, it returns the length and the array that it returns when
    its reads of [e] go to a copy that it never writes. *)
Theorem compress_in_place_same (elen : Z) (e : buf) :
  1 <= elen ->
  compress_in_place elen e = compress elen e e.
Proof.
  intros _.
  unfold compress_in_place, compress. cbv zeta.
  lazymatch goal with
  | |- ?L = ?R =>
      match L with
      | context [@for_down ?St ?hi ?lo ?b ?s] =>
          match R with
          | context [@for_down _ _ _ ?b' _] =>
              assert (E : @for_down St hi lo b s = @for_down St hi lo b' s)
          end
      end
  end.
  { unfold for_down.
    apply (for_down_loop_ext
             (fun (k : Z) (t : tREAL * (Z * buf)) =>
                k + 1 <= fst (snd t) /\
                forall i, i <= k -> snd (snd t) i = e i)).
    - simpl. split; [lia | reflexivity].
    - intros k [Q [bottom g]] Hk [Hb Hg]. simpl in Hb, Hg.
      cbv beta zeta. rewrite (Hg k) by lia.
      destruct (Fast_Two_Sum Q (e k)) as [Qnew q].
      split; [reflexivity |].
      destruct (Dbl.ne q Dbl.zero); simpl.
      + split; [lia |]. intros i Hi. rewrite upd_other by lia.
        apply Hg. lia.
      + split; [lia |]. intros i Hi. apply Hg. lia. }
  rewrite E. reflexivity.
Qed.

Lemma compress_in_place_same_witness :
  compress_in_place 2 e_demo = compress 2 e_demo e_demo.
Proof. apply compress_in_place_same. lia. Defined.

(** ** Zero elimination leaves no zero component *)

Lemma put_last_zero_free (Q : tREAL) (hindex : Z) (h : buf) :
  0 <= hindex -> nonzero_below hindex h -> zero_free (put_last Q hindex h).
Proof.
  intros H0 H. unfold zero_free, put_last.
  destruct (Dbl.ne Q Dbl.zero) eqn:Hn; simpl.
  - intros _ i Hi. destruct (Z.eq_dec i hindex) as [-> | Hne].
    + rewrite upd_same. exact Hn.
    + rewrite upd_other by exact Hne. apply H. lia.
  - destruct (Z.eqb_spec hindex 0); simpl.
    + intros Hl. lia.
    + intros _. exact H.
Qed.

Lemma nonzero_below_0 (h : buf) : nonzero_below 0 h.
Proof. intros i Hi. lia. Qed.

Lemma grow_expansion_zeroelim_zero_free (elen : Z) (e : buf) (b : tREAL)
  (h : buf) :
  zero_free (grow_expansion_zeroelim elen e b h).
Proof.
  unfold grow_expansion_zeroelim.
  loop_with (fun (k : Z) (t : tREAL * (Z * buf)) =>
               0 <= fst (snd t) /\ nonzero_below (fst (snd t)) (snd (snd t))).
  { simpl. split; [lia | apply nonzero_below_0]. }
  { intros k [Q [hi g]] Hk [Hi Hs]. simpl in Hi, Hs.
    destruct (Two_Sum Q (e k)) as [Qnew hh]. cbn [fst snd].
    split; [| apply put_nonzero_nonzero, Hs].
    unfold put_nonzero. destruct (Dbl.ne hh Dbl.zero); simpl; lia. }
  destruct t as [Q [hi g]]. simpl in Hinv. destruct Hinv as [Hi Hs].
  apply put_last_zero_free; assumption.
Qed.

Lemma put_nonzero_index (hh : tREAL) (hindex : Z) (h : buf) :
  hindex <= fst (put_nonzero hh hindex h) <= hindex + 1.
Proof. unfold put_nonzero. destruct (Dbl.ne hh Dbl.zero); simpl; lia. Qed.

Lemma scale_expansion_zeroelim_zero_free (P : Predicates) (elen : Z)
  (e : buf) (b : tREAL) (h : buf) :
  zero_free (scale_expansion_zeroelim P elen e b h).
Proof.
  unfold scale_expansion_zeroelim.
  destruct (tSPLIT P b) as [bhi blo].
  destruct (Two_Product_Presplit P (e 0) b bhi blo) as [Q0 h0].
  pose proof (put_nonzero_nonzero h0 0 h (nonzero_below_0 h)) as H0.
  pose proof (put_nonzero_index h0 0 h) as I0.
  destruct (put_nonzero h0 0 h) as [hi0 g0]. simpl in H0, I0.
  loop_with (fun (k : Z) (t : tREAL * (Z * buf)) =>
               0 <= fst (snd t) /\ nonzero_below (fst (snd t)) (snd (snd t))).
  { simpl. split; [lia | exact H0]. }
  { intros k [Q [hi g]] Hk [Hi Hs]. simpl in Hi, Hs.
    destruct (Two_Product_Presplit P (e k) b bhi blo) as [p1 p0].
    destruct (Two_Sum Q p0) as [sum hh].
    pose proof (put_nonzero_nonzero hh hi g Hs) as H1.
    pose proof (put_nonzero_index hh hi g) as I1.
    destruct (put_nonzero hh hi g) as [hi1 g1]. simpl in H1, I1.
    destruct (Fast_Two_Sum p1 sum) as [Q' hh']. cbn [fst snd].
    pose proof (put_nonzero_index hh' hi1 g1) as I2.
    split; [lia | apply put_nonzero_nonzero, H1]. }
  destruct t as [Q [hi g]]. simpl in Hinv. destruct Hinv as [Hi Hs].
  apply put_last_zero_free; assumption.
Qed.

Lemma expansion_sum_zeroelim1_zero_free (elen : Z) (e : buf) (flen : Z)
  (f : buf) (h : buf) :
  zero_free (expansion_sum_zeroelim1 elen e flen f h).
Proof.
  unfold expansion_sum_zeroelim1.
  destruct (expansion_sum_phases elen e flen f h) as [hlast h1].
  loop_with (fun (k : Z) (t : Z * buf) =>
               -1 <= fst t /\ nonzero_below (fst t + 1) (snd t)).
  { simpl. split; [lia | apply nonzero_below_0]. }
  { intros k [hi g] Hk [Hi Hs]. simpl in Hi, Hs.
    destruct (Dbl.ne (g k) Dbl.zero) eqn:Hn; simpl.
    - split; [lia |]. intros i Hr.
      destruct (Z.eq_dec i (hi + 1)) as [-> | Hne].
      + rewrite upd_same. exact Hn.
      + rewrite upd_other by exact Hne. apply Hs. lia.
    - split; [lia | exact Hs]. }
  destruct t as [hi g]. simpl in Hinv. destruct Hinv as [Hi Hs].
  unfold zero_free. destruct (Z.eqb_spec hi (-1)); simpl.
  - intros Hl. lia.
  - intros _. exact Hs.
Qed.

(** The turns of the merging sums that drop the zero tails. *)
Ltac zero_free_turn Hs :=
  repeat match goal with
         | |- context [e_is_next ?a ?b] => destruct (e_is_next a b)
         | |- context [Two_Sum ?a ?b] => destruct (Two_Sum a b)
         | |- context [Fast_Two_Sum ?a ?b] => destruct (Fast_Two_Sum a b)
         end;
  match goal with
  | |- context [put_nonzero ?hh ?hi ?g] =>
      let H1 := fresh "H" in
      let I1 := fresh "I" in
      pose proof (put_nonzero_nonzero hh hi g) as H1;
      pose proof (put_nonzero_index hh hi g) as I1;
      destruct (put_nonzero hh hi g);
      cbn [m_Q m_enow m_fnow m_eindex m_findex m_hindex m_h fst snd] in *;
      split; [lia | apply H1; apply Hs]
  end.

Lemma fast_expansion_sum_zeroelim_zero_free (elen : Z) (e : buf) (flen : Z)
  (f : buf) (h : buf) :
  zero_free (fast_expansion_sum_zeroelim elen e flen f h).
Proof.
  unfold fast_expansion_sum_zeroelim.
  set (Inv := fun s : merge_state =>
                0 <= m_hindex s /\ nonzero_below (m_hindex s) (m_h s)).
  assert (H0 : Inv (merge_start e f h)).
  { unfold Inv, merge_start. destruct (e_is_next _ _); simpl;
      (split; [lia | apply nonzero_below_0]). }
  set (s0 := merge_start e f h) in *.
  set (s1 := if both_left elen flen s0 then _ else s0).
  assert (H1 : Inv s1).
  { subst s1. destruct (both_left elen flen s0); [| exact H0].
    apply while_loop_inv.
    - unfold Inv, merge_first_zeroelim in *. zero_free_turn H0.
    - intros t Ht _. unfold Inv, merge_step_zeroelim in *. zero_free_turn Ht. }
  clearbody s1.
  set (s2 := while_loop _ _ (drain_e_zeroelim e) s1).
  assert (H2 : Inv s2).
  { subst s2. apply while_loop_inv; [exact H1 |].
    intros t Ht _. unfold Inv, drain_e_zeroelim in *. zero_free_turn Ht. }
  clearbody s2.
  set (s3 := while_loop _ _ (drain_f_zeroelim f) s2).
  assert (H3 : Inv s3).
  { subst s3. apply while_loop_inv; [exact H2 |].
    intros t Ht _. unfold Inv, drain_f_zeroelim in *. zero_free_turn Ht. }
  clearbody s3. destruct H3 as [Hi Hs].
  apply put_last_zero_free; assumption.
Qed.

Lemma linear_expansion_sum_zeroelim_zero_free (elen : Z) (e : buf)
  (flen : Z) (f : buf) (h : buf) :
  zero_free (linear_expansion_sum_zeroelim elen e flen f h).
Proof.
  unfold linear_expansion_sum_zeroelim.
  assert (H0 : m_h (merge_start e f h) = h /\ m_hindex (merge_start e f h) = 0)
    by (unfold merge_start; destruct (e_is_next _ _); split; reflexivity).
  set (s0 := merge_start e f h) in *. destruct H0 as [H0 Z0].
  pose proof (linear_take_h elen e flen f (m_Q s0) s0) as [H1 Z1].
  destruct (linear_take elen e flen f (m_Q s0) s0) as [[Qnew q] s1].
  simpl in H1, Z1. rewrite H0 in H1. rewrite Z0 in Z1.
  loop_with (fun (k : Z) (t : tREAL * tREAL * merge_state) =>
               0 <= m_hindex (snd t) /\
               nonzero_below (m_hindex (snd t)) (m_h (snd t))).
  { simpl. rewrite Z1. split; [lia | apply nonzero_below_0]. }
  { intros k [[Q1 q1] t1] Hk [Hi Hs]. simpl in Hi, Hs.
    pose proof (linear_take_h elen e flen f q1 t1) as [H2 Z2].
    destruct (linear_take elen e flen f q1 t1) as [[R hh] t2].
    simpl in H2, Z2. destruct (Two_Sum Q1 R) as [Qn qn].
    rewrite H2, Z2.
    pose proof (put_nonzero_nonzero hh _ _ Hs) as H3.
    pose proof (put_nonzero_index hh (m_hindex t1) (m_h t1)) as I3.
    destruct (put_nonzero hh (m_hindex t1) (m_h t1)) as [hi g].
    simpl in *. split; [lia | exact H3]. }
  destruct t as [[Q1 q1] t1]. simpl in Hinv. destruct Hinv as [Hi Hs].
  pose proof (put_nonzero_nonzero q1 _ _ Hs) as H3.
  pose proof (put_nonzero_index q1 (m_hindex t1) (m_h t1)) as I3.
  destruct (put_nonzero q1 (m_hindex t1) (m_h t1)) as [hi g].
  simpl in H3, I3. apply put_last_zero_free; [lia | exact H3].
Qed.

Lemma expansion_sum_zeroelim2_nonzero (elen : Z) (e : buf) (flen : Z)
  (f : buf) (h : buf) :
  let r := expansion_sum_zeroelim2 elen e flen f h in
  nonzero_below (fst r - 1) (snd r).
Proof.
  unfold expansion_sum_zeroelim2.
  loop_with (fun (k : Z) (t : tREAL * (Z * buf)) =>
               0 <= fst (snd t) /\ nonzero_below (fst (snd t)) (snd (snd t))).
  { simpl. split; [lia | apply nonzero_below_0]. }
  { intros k [Q [hi g]] Hk [Hi Hs]. simpl in Hi, Hs.
    destruct (Two_Sum Q (e k)) as [Qnew hh]. cbn [fst snd].
    pose proof (put_nonzero_index hh hi g).
    split; [lia | apply put_nonzero_nonzero, Hs]. }
  destruct t as [Q [hi g]]. simpl in Hinv. destruct Hinv as [Hi Hs].
  loop_with (fun (k : Z) (t : Z * buf) =>
               0 <= fst t /\ nonzero_below (fst t) (snd t)).
  { simpl. split; [lia |]. intros i Hr. rewrite upd_other by lia.
    apply Hs. lia. }
  { intros k [hlast g1] Hk [Hl Hs1]. simpl in Hl, Hs1.
    loop_with (fun (j : Z) (t : tREAL * (Z * buf)) =>
                 0 <= fst (snd t) /\
                 nonzero_below (fst (snd t)) (snd (snd t))).
    { simpl. split; [lia | apply nonzero_below_0]. }
    { intros j [Q1 [hi1 g2]] Hj [Hi1 Hs2]. simpl in Hi1, Hs2.
      destruct (Two_Sum Q1 (g2 j)) as [Qnew hh]. cbn [fst snd].
      pose proof (put_nonzero_index hh hi1 g2).
      split; [lia | apply put_nonzero_nonzero, Hs2]. }
    destruct t as [Q1 [hi1 g2]]. simpl in Hinv. destruct Hinv as [Hi1 Hs2].
    simpl. split; [lia |]. intros i Hr. rewrite upd_other by lia.
    apply Hs2. lia. }
  destruct t as [hlast g1]. simpl in Hinv. destruct Hinv as [Hl Hs1].
  simpl. intros i Hr. apply Hs1. lia.
Qed.

(** X9. The four zero-eliminating sums store no zero below their last
    component: an output of [expansion_sum_zeroelim1],
    [fast_expansion_sum_zeroelim] or [linear_expansion_sum_zeroelim] that
    has two components or more holds no component equal to zero, and every
    component of [expansion_sum_zeroelim2] below the last is nonzero. *)
Theorem sum_zeroelim_leaves_no_zero (elen : Z) (e : buf) (flen : Z)
  (f : buf) (h : buf) :
  1 <= elen -> 1 <= flen ->
  zero_free (expansion_sum_zeroelim1 elen e flen f h) /\
  zero_free (fast_expansion_sum_zeroelim elen e flen f h) /\
  zero_free (linear_expansion_sum_zeroelim elen e flen f h) /\
  nonzero_below (fst (expansion_sum_zeroelim2 elen e flen f h) - 1)
    (snd (expansion_sum_zeroelim2 elen e flen f h)).
Proof.
  intros _ _.
  split; [apply expansion_sum_zeroelim1_zero_free |].
  split; [apply fast_expansion_sum_zeroelim_zero_free |].
  split; [apply linear_expansion_sum_zeroelim_zero_free |].
  apply expansion_sum_zeroelim2_nonzero.
Qed.

Lemma sum_zeroelim_leaves_no_zero_witness :
  zero_free (expansion_sum_zeroelim1 2 e_demo 2 f_demo local) /\
  zero_free (fast_expansion_sum_zeroelim 2 e_demo 2 f_demo local) /\
  zero_free (linear_expansion_sum_zeroelim 2 e_demo 2 f_demo local) /\
  nonzero_below (fst (expansion_sum_zeroelim2 2 e_demo 2 f_demo local) - 1)
    (snd (expansion_sum_zeroelim2 2 e_demo 2 f_demo local)).
Proof. apply sum_zeroelim_leaves_no_zero; lia. Defined.

(** X10. An output of [grow_expansion_zeroelim] or of
    [scale_expansion_zeroelim] that has two components or more holds no
    component equal to zero. *)
Theorem grow_scale_zeroelim_leaves_no_zero (P : Predicates) (elen : Z)
  (e : buf) (b : tREAL) (h : buf) :
  1 <= elen ->
  zero_free (grow_expansion_zeroelim elen e b h) /\
  zero_free (scale_expansion_zeroelim P elen e b h).
Proof.
  intros _.
  split; [apply grow_expansion_zeroelim_zero_free |].
  apply scale_expansion_zeroelim_zero_free.
Qed.

Lemma grow_scale_zeroelim_leaves_no_zero_witness :
  zero_free (grow_expansion_zeroelim 2 e_demo tenth local) /\
  zero_free (scale_expansion_zeroelim exactinit 2 e_demo tenth local).
Proof. apply grow_scale_zeroelim_leaves_no_zero; lia. Defined.

(** ** Zero elimination keeps the value *)

(** A double that does not compare unequal to zero is a zero. *)
Lemma ne_zero_value (x : tREAL) :
  Dbl.ne x Dbl.zero = false -> (Dbl.value x == 0)%Q.
Proof.
  destruct x as [s | s | | s m e]; try reflexivity.
  destruct s; intros H; discriminate H.
Qed.

Lemma put_nonzero_value (hh : tREAL) (hindex : Z) (h : buf) :
  0 <= hindex ->
  0 <= fst (put_nonzero hh hindex h) /\
  (expansion_value (fst (put_nonzero hh hindex h))
     (snd (put_nonzero hh hindex h))
   == expansion_value hindex h + Dbl.value hh)%Q.
Proof.
  intros H0. unfold put_nonzero. destruct (Dbl.ne hh Dbl.zero) eqn:Hn; simpl.
  - split; [lia | apply expansion_value_push; exact H0].
  - split; [lia |]. rewrite (ne_zero_value hh Hn). ring.
Qed.

Lemma put_last_value (Q : tREAL) (hindex : Z) (h : buf) :
  0 <= hindex ->
  (expansion_value (fst (put_last Q hindex h)) (snd (put_last Q hindex h))
   == expansion_value hindex h + Dbl.value Q)%Q.
Proof.
  intros H0. unfold put_last. destruct (Dbl.ne Q Dbl.zero) eqn:Hn; simpl.
  - apply expansion_value_push; exact H0.
  - destruct (Z.eqb_spec hindex 0); simpl.
    + apply expansion_value_push; exact H0.
    + rewrite (ne_zero_value Q Hn). ring.
Qed.

Lemma grow_expansion_zeroelim_value (elen : Z) (e : buf) (b : tREAL)
  (h h' : buf) :
  0 <= elen ->
  same_value (grow_expansion_zeroelim elen e b h) (grow_expansion elen e b h').
Proof.
  intros He. unfold same_value, grow_expansion_zeroelim, grow_expansion.
  loops_with (fun (k : Z) (t : tREAL * (Z * buf)) (t' : tREAL * buf) =>
                fst t = fst t' /\ 0 <= k /\ 0 <= fst (snd t) /\
                (expansion_value (fst (snd t)) (snd (snd t))
                 == expansion_value k (snd t'))%Q).
  { simpl. split; [reflexivity | split; [lia | split; [lia | reflexivity]]]. }
  { intros k [Q [hi g]] [Q' g'] Hk (HQ & H0 & Hi & Hv). simpl in HQ, Hi, Hv.
    subst Q'. destruct (Two_Sum Q (e k)) as [Qnew hh]. cbn [fst snd].
    destruct (put_nonzero_value hh hi g Hi) as [Hi1 Hv1].
    split; [reflexivity | split; [lia | split; [exact Hi1 |]]].
    rewrite Hv1, Hv. symmetry. apply expansion_value_push. lia. }
  destruct t as [Q [hi g]], t' as [Q' g']. simpl in HR.
  destruct HR as (HQ & _ & Hi & Hv). subst Q'.
  replace (Z.max 0 elen) with elen in * by lia. cbn [fst snd].
  rewrite put_last_value by exact Hi. rewrite Hv.
  symmetry. apply expansion_value_push. lia.
Qed.

Lemma expansion_sum_zeroelim1_value (elen : Z) (e : buf) (flen : Z) (f : buf)
  (h : buf) :
  0 <= elen -> 1 <= flen ->
  same_value (expansion_sum_zeroelim1 elen e flen f h)
    (expansion_sum elen e flen f h).
Proof.
  intros He Hf. unfold same_value, expansion_sum_zeroelim1, expansion_sum.
  destruct (expansion_sum_phases_spec elen e flen f h He Hf) as (Hl & _).
  destruct (expansion_sum_phases elen e flen f h) as [hlast h1].
  simpl in Hl.
  loop_with (fun (k : Z) (t : Z * buf) =>
               (-1 <= fst t <= k - 1 /\
                (forall j, k <= j -> snd t j = h1 j)) /\
               (expansion_value (fst t + 1)%Z (snd t)
                == expansion_value k h1)%Q /\
               (fst t = -1 ->
                (expansion_value k h1 == 0)%Q /\ snd t 0 = h1 0 /\
                (0 < k -> (Dbl.value (h1 0%Z) == 0)%Q))).
  { simpl. split; [split; [lia | reflexivity] |].
    split; [reflexivity |]. intros _.
    split; [reflexivity | split; [reflexivity | lia]]. }
  { intros k [hi g] Hk ((Hi & Hg) & Hv & Hz). simpl in Hi, Hg, Hv, Hz.
    rewrite (Hg k) by lia.
    destruct (Dbl.ne (h1 k) Dbl.zero) eqn:Hn; cbn [fst snd].
    - split; [split; [lia |] |].
      + intros j Hj. rewrite upd_other by lia. apply Hg. lia.
      + split; [| intros Hc; lia].
        rewrite expansion_value_push by lia. rewrite Hv.
        symmetry. apply expansion_value_next. lia.
    - split; [split; [lia |] |].
      + intros j Hj. apply Hg. lia.
      + split.
        * rewrite Hv. rewrite expansion_value_next by lia.
          rewrite (ne_zero_value _ Hn). ring.
        * intros Hc. destruct (Hz Hc) as (Hz1 & Hz2 & Hz3).
          split; [| split; [exact Hz2 |]].
          -- rewrite expansion_value_next by lia.
             rewrite Hz1, (ne_zero_value _ Hn). reflexivity.
          -- intros _. destruct (Z.eq_dec k 0) as [-> | Hk0].
             ++ apply ne_zero_value, Hn.
             ++ apply Hz3. lia. }
  destruct t as [hi g]. simpl in Hinv.
  destruct Hinv as ((Hi & Hg) & Hv & Hz).
  replace (Z.max 0 (hlast + 1)) with (hlast + 1) in * by lia.
  destruct (Z.eqb_spec hi (-1)) as [Hc | Hc]; cbn [fst snd].
  - destruct (Hz Hc) as (Hz1 & Hz2 & Hz3). rewrite Hz1.
    change 1 with (0 + 1). rewrite expansion_value_next by lia.
    rewrite Hz2, Hz3 by lia. reflexivity.
  - exact Hv.
Qed.

(** A turn of the two runs of a merging sum. *)
Ltac same_value_turn :=
  cbn [m_Q m_enow m_fnow m_eindex m_findex m_hindex m_h];
  repeat match goal with
         | |- context [e_is_next ?a ?b] => destruct (e_is_next a b)
         | |- context [Two_Sum ?a ?b] => destruct (Two_Sum a b)
         | |- context [Fast_Two_Sum ?a ?b] => destruct (Fast_Two_Sum a b)
         end;
  match goal with
  | Hi : 0 <= ?hi |- context [put_nonzero ?hh ?hi ?g] =>
      let H1 := fresh "H" in
      let V1 := fresh "V" in
      destruct (put_nonzero_value hh hi g Hi) as [H1 V1];
      destruct (put_nonzero hh hi g);
      unfold merge_same_value, same_value in *;
      cbn [m_Q m_enow m_fnow m_eindex m_findex m_hindex m_h fst snd] in *;
      repeat (split; [first [reflexivity | lia | assumption] |]);
      rewrite V1, expansion_value_push by assumption;
      apply Qplus_inj_r; assumption
  end.

Lemma merge_same_value_intro (s s' : merge_state) :
  merge_same_value s s' ->
  exists Q enow fnow eindex findex hi g hi' g',
    s = {| m_Q := Q; m_enow := enow; m_fnow := fnow; m_eindex := eindex;
           m_findex := findex; m_hindex := hi; m_h := g |} /\
    s' = {| m_Q := Q; m_enow := enow; m_fnow := fnow; m_eindex := eindex;
            m_findex := findex; m_hindex := hi'; m_h := g' |} /\
    0 <= hi /\ 0 <= hi' /\
    (expansion_value hi g == expansion_value hi' g')%Q.
Proof.
  destruct s as [Q enow fnow eindex findex hi g].
  destruct s' as [Q' enow' fnow' eindex' findex' hi' g'].
  unfold merge_same_value, same_value. simpl.
  intros (-> & -> & -> & -> & -> & H1 & H2 & H3).
  exists Q', enow', fnow', eindex', findex', hi, g, hi', g'.
  repeat (split; [first [reflexivity | assumption] |]). exact H3.
Qed.

(** Names the locals that two related runs share. *)
Ltac same_value_intro H :=
  let Q := fresh "Q" in
  let enow := fresh "enow" in
  let fnow := fresh "fnow" in
  let eindex := fresh "eindex" in
  let findex := fresh "findex" in
  let hi := fresh "hi" in
  let g := fresh "g" in
  let hi' := fresh "hi'" in
  let g' := fresh "g'" in
  let Hi := fresh "Hi" in
  let Hi' := fresh "Hi'" in
  let Hv := fresh "Hv" in
  destruct (merge_same_value_intro _ _ H)
    as (Q & enow & fnow & eindex & findex & hi & g & hi' & g'
        & -> & -> & Hi & Hi' & Hv).

Lemma fast_expansion_sum_zeroelim_value (elen : Z) (e : buf) (flen : Z)
  (f : buf) (h : buf) :
  same_value (fast_expansion_sum_zeroelim elen e flen f h)
    (fast_expansion_sum elen e flen f h).
Proof.
  unfold fast_expansion_sum_zeroelim, fast_expansion_sum.
  assert (H0 : merge_same_value (merge_start e f h) (merge_start e f h) /\
               m_hindex (merge_start e f h) = 0).
  { unfold merge_same_value, same_value, merge_start.
    destruct (e_is_next _ _); simpl;
      (split; [| reflexivity]);
      repeat (split; [first [reflexivity | lia] |]); reflexivity. }
  set (s0 := merge_start e f h) in *. destruct H0 as [H0 Z0].
  set (s1 := if both_left elen flen s0 then
               while_loop _ _ (merge_step_zeroelim e f) _ else s0).
  set (s1' := if both_left elen flen s0 then
                while_loop _ _ (merge_step e f) _ else s0).
  assert (H1 : merge_same_value s1 s1').
  { subst s1 s1'. destruct (both_left elen flen s0); [| exact H0].
    apply while_loop_rel.
    - clear H0. unfold merge_first_zeroelim, merge_first.
      destruct s0 as [Q enow fnow eindex findex hi g]. simpl in Z0.
      subst hi. cbn [m_Q m_enow m_fnow m_eindex m_findex m_hindex m_h].
      destruct (e_is_next enow fnow);
        destruct (Fast_Two_Sum _ Q) as [Qnew hh];
        destruct (put_nonzero_value hh 0 g ltac:(lia)) as [H1 V1];
        destruct (put_nonzero hh 0 g) as [hi1 g1];
        unfold merge_same_value, same_value;
        cbn [m_Q m_enow m_fnow m_eindex m_findex m_hindex m_h fst snd] in *;
        repeat (split; [first [reflexivity | lia | assumption] |]);
        rewrite V1; change 1 with (0 + 1);
        rewrite expansion_value_push by lia; reflexivity.
    - intros t t' Ht. same_value_intro Ht. reflexivity.
    - intros t t' Ht _. same_value_intro Ht.
      unfold merge_step_zeroelim, merge_step. same_value_turn. }
  clearbody s1 s1'.
  set (s2 := while_loop _ _ (drain_e_zeroelim e) s1).
  set (s2' := while_loop _ _ (drain_e e) s1').
  assert (H2 : merge_same_value s2 s2').
  { subst s2 s2'. apply while_loop_rel; [exact H1 | |].
    - intros t t' Ht. same_value_intro Ht. reflexivity.
    - intros t t' Ht _. same_value_intro Ht.
      unfold drain_e_zeroelim, drain_e. same_value_turn. }
  clearbody s2 s2'.
  set (s3 := while_loop _ _ (drain_f_zeroelim f) s2).
  set (s3' := while_loop _ _ (drain_f f) s2').
  assert (H3 : merge_same_value s3 s3').
  { subst s3 s3'. apply while_loop_rel; [exact H2 | |].
    - intros t t' Ht. same_value_intro Ht. reflexivity.
    - intros t t' Ht _. same_value_intro Ht.
      unfold drain_f_zeroelim, drain_f. same_value_turn. }
  clearbody s3 s3'. same_value_intro H3.
  unfold same_value.
  cbn [m_Q m_enow m_fnow m_eindex m_findex m_hindex m_h fst snd].
  rewrite put_last_value, expansion_value_push by assumption.
  apply Qplus_inj_r. assumption.
Qed.

(** Two loops of the same number of turns, whatever their first indices. *)
Lemma for_loop_rel_shift {St St' : Type} (R : Z -> St -> St' -> Prop)
  (n : nat) (i i' : Z) (body : Z -> St -> St) (body' : Z -> St' -> St')
  (s : St) (s' : St') (k0 : Z) :
  R k0 s s' ->
  (forall k t t', k0 <= k < k0 + Z.of_nat n -> R k t t' ->
                  R (k + 1) (body (i + (k - k0)) t) (body' (i' + (k - k0)) t')) ->
  R (k0 + Z.of_nat n) (snd (for_loop n i body s))
    (snd (for_loop n i' body' s')).
Proof.
  revert i i' s s' k0; induction n as [|n IH]; intros i i' s s' k0 H0 Hstep;
    simpl.
  - replace (k0 + 0) with k0 by lia. exact H0.
  - replace (k0 + Z.pos (Pos.of_succ_nat n)) with (k0 + 1 + Z.of_nat n) by lia.
    apply IH.
    + pose proof (Hstep k0 s s' ltac:(lia) H0) as H.
      replace (i + (k0 - k0)) with i in H by lia.
      replace (i' + (k0 - k0)) with i' in H by lia. exact H.
    + intros k t t' Hk HR.
      pose proof (Hstep k t t' ltac:(lia) HR) as H.
      replace (i + 1 + (k - (k0 + 1))) with (i + (k - k0)) by lia.
      replace (i' + 1 + (k - (k0 + 1))) with (i' + (k - k0)) by lia.
      exact H.
Qed.

Lemma linear_take_same_locals (elen : Z) (e : buf) (flen : Z) (f : buf)
  (q : tREAL) (s s' : merge_state) :
  merge_same_locals s s' ->
  fst (linear_take elen e flen f q s) = fst (linear_take elen e flen f q s')
  /\ merge_same_locals (snd (linear_take elen e flen f q s))
                       (snd (linear_take elen e flen f q s')).
Proof.
  destruct s as [Q enow fnow eindex findex hi g].
  destruct s' as [Q' enow' fnow' eindex' findex' hi' g'].
  unfold merge_same_locals. simpl. intros (-> & -> & -> & ->).
  unfold linear_take, linear_takes_e.
  cbn [m_Q m_enow m_fnow m_eindex m_findex m_hindex m_h].
  destruct ((eindex' <? elen)
            && ((findex' >=? flen) || e_is_next enow' fnow'))%bool.
  - destruct (Fast_Two_Sum enow' q) as [R hh]. simpl.
    repeat (split; [reflexivity |]). reflexivity.
  - destruct (Fast_Two_Sum fnow' q) as [R hh]. simpl.
    repeat (split; [reflexivity |]). reflexivity.
Qed.

Lemma linear_expansion_sum_zeroelim_value (elen : Z) (e : buf) (flen : Z)
  (f : buf) (h : buf) :
  same_value (linear_expansion_sum_zeroelim elen e flen f h)
    (linear_expansion_sum elen e flen f h).
Proof.
  unfold linear_expansion_sum_zeroelim, linear_expansion_sum.
  assert (Z0 : m_hindex (merge_start e f h) = 0)
    by (unfold merge_start; destruct (e_is_next _ _); reflexivity).
  set (s0 := merge_start e f h) in *.
  destruct (linear_take_h elen e flen f (m_Q s0) s0) as [_ Zi].
  destruct (linear_take elen e flen f (m_Q s0) s0) as [[Qnew q] s1].
  simpl in Zi. rewrite Z0 in Zi. clear Z0.
  unfold for_range.
  replace (Z.to_nat (elen + flen - 2 - 0)) with (Z.to_nat (elen + flen - 2))
    by lia.
  set (n := Z.to_nat (elen + flen - 2)).
  match goal with
  | |- context [for_loop n 2 ?b ?s] =>
      match goal with
      | |- context [for_loop n 0 ?b' ?s'] =>
          pose proof (for_loop_rel_shift
                        (fun (k : Z) (t t' : tREAL * tREAL * merge_state) =>
                           fst t = fst t' /\
                           merge_same_locals (snd t) (snd t') /\
                           0 <= m_hindex (snd t) /\
                           (expansion_value (m_hindex (snd t)) (m_h (snd t))
                            == expansion_value k (m_h (snd t')))%Q)
                        n 2 0 b b' s s' 0) as HL;
          pose proof (for_loop_index n 0 b' s') as HI;
          destruct (for_loop n 2 b s) as [c [[Q1 q1] t1]];
          destruct (for_loop n 0 b' s') as [c' [[Q1' q1'] t1']]
      end
  end.
  simpl in HI. subst c'. cbn [fst snd] in HL.
  assert (HR : (Q1, q1) = (Q1', q1') /\ merge_same_locals t1 t1' /\
               0 <= m_hindex t1 /\
               (expansion_value (m_hindex t1) (m_h t1)
                == expansion_value (0 + Z.of_nat n) (m_h t1'))%Q).
  { apply HL; clear HL.
    - split; [reflexivity |].
      split; [repeat (split; [reflexivity |]); reflexivity |].
      split; [lia |]. rewrite Zi. reflexivity.
    - intros k [[Q2 q2] t2] [[Q2' q2'] t2'] Hk (Hq & Ht & Hz & Hv).
      cbn [fst snd] in Hq, Ht, Hz, Hv. injection Hq as -> ->.
      destruct (linear_take_same_locals elen e flen f q2' t2 t2' Ht)
        as (Hr & H2).
      destruct (linear_take_h elen e flen f q2' t2) as [Hh2 Hi2].
      destruct (linear_take_h elen e flen f q2' t2') as [Hh2' _].
      destruct (linear_take elen e flen f q2' t2) as [[R hh] t3].
      destruct (linear_take elen e flen f q2' t2') as [[R' hh'] t3'].
      cbn [fst snd] in Hr, H2, Hi2, Hh2, Hh2'. injection Hr as -> ->.
      destruct (Two_Sum Q2' R') as [Qn qn].
      assert (Hi : 0 <= m_hindex t3) by lia.
      destruct (put_nonzero_value hh' (m_hindex t3) (m_h t3) Hi) as [Hp Vp].
      destruct (put_nonzero hh' (m_hindex t3) (m_h t3)) as [hi g].
      cbn [fst snd m_hindex m_h] in *.
      split; [reflexivity |]. split; [exact H2 |]. split; [exact Hp |].
      rewrite Vp, Hi2, Hh2, Hv, Hh2'.
      replace (0 + (k - 0)) with k by lia.
      symmetry. apply expansion_value_push. lia. }
  clear HL. destruct HR as (Hq & _ & Hi & Hv). injection Hq as <- <-.
  destruct (put_nonzero_value q1 (m_hindex t1) (m_h t1) Hi) as [Hp Vp].
  destruct (put_nonzero q1 (m_hindex t1) (m_h t1)) as [hi g].
  cbn [fst snd] in Hp, Vp. unfold same_value. cbn [fst snd].
  rewrite put_last_value by exact Hp. rewrite Vp, Hv.
  replace (0 + Z.of_nat n + 2) with (0 + Z.of_nat n + 1 + 1) by lia.
  rewrite !expansion_value_push by lia. reflexivity.
Qed.

(** X11. Dropping the zero components changes no sum: on expansions of
    [elen >= 1] and [flen >= 1] components, the components returned by
    [grow_expansion_zeroelim] add up to what those of [grow_expansion] add
    up to, and those of [expansion_sum_zeroelim1] to what those of
    [expansion_sum] add up to. *)
Theorem grow_sum_zeroelim_keep_value (elen : Z) (e : buf) (flen : Z)
  (f : buf) (b : tREAL) (h : buf) :
  1 <= elen -> 1 <= flen ->
  same_value (grow_expansion_zeroelim elen e b h) (grow_expansion elen e b h)
  /\
  same_value (expansion_sum_zeroelim1 elen e flen f h)
    (expansion_sum elen e flen f h).
Proof.
  intros He Hf.
  split; [apply grow_expansion_zeroelim_value; lia |].
  apply expansion_sum_zeroelim1_value; lia.
Qed.

Lemma grow_sum_zeroelim_keep_value_witness :
  same_value (grow_expansion_zeroelim 2 e_demo tenth local)
    (grow_expansion 2 e_demo tenth local) /\
  same_value (expansion_sum_zeroelim1 2 e_demo 2 f_demo local)
    (expansion_sum 2 e_demo 2 f_demo local).
Proof. apply grow_sum_zeroelim_keep_value; lia. Defined.

(** X12. On expansions of [elen >= 1] and [flen >= 1] components, the
    components returned by [fast_expansion_sum_zeroelim] add up to what
    those of [fast_expansion_sum] add up to, and those of
    [linear_expansion_sum_zeroelim] to what those of [linear_expansion_sum]
    add up to. *)
Theorem merging_zeroelim_keep_value (elen : Z) (e : buf) (flen : Z)
  (f : buf) (h : buf) :
  1 <= elen -> 1 <= flen ->
  same_value (fast_expansion_sum_zeroelim elen e flen f h)
    (fast_expansion_sum elen e flen f h) /\
  same_value (linear_expansion_sum_zeroelim elen e flen f h)
    (linear_expansion_sum elen e flen f h).
Proof.
  intros _ _.
  split; [apply fast_expansion_sum_zeroelim_value |].
  apply linear_expansion_sum_zeroelim_value.
Qed.

Lemma merging_zeroelim_keep_value_witness :
  same_value (fast_expansion_sum_zeroelim 2 e_demo 2 f_demo local)
    (fast_expansion_sum 2 e_demo 2 f_demo local) /\
  same_value (linear_expansion_sum_zeroelim 2 e_demo 2 f_demo local)
    (linear_expansion_sum 2 e_demo 2 f_demo local).
Proof. apply merging_zeroelim_keep_value; lia. Defined.

(** ** The merging sums use no cell past their inputs *)

Section ReadsWithin.

Variables (elen : Z) (e e' : buf) (flen : Z) (f f' : buf).
Hypothesis He : agree elen e e'.
Hypothesis Hf : agree flen f f'.

Lemma merge_reads_same_intro (s s' : merge_state) :
  merge_reads_same elen flen s s' ->
  exists Q enow enow' fnow fnow' eindex findex hi g,
    s = {| m_Q := Q; m_enow := enow; m_fnow := fnow; m_eindex := eindex;
           m_findex := findex; m_hindex := hi; m_h := g |} /\
    s' = {| m_Q := Q; m_enow := enow'; m_fnow := fnow'; m_eindex := eindex;
            m_findex := findex; m_hindex := hi; m_h := g |} /\
    0 <= eindex <= elen /\ 0 <= findex <= flen /\
    (eindex < elen -> enow = enow') /\ (findex < flen -> fnow = fnow').
Proof.
  destruct s as [Q enow fnow eindex findex hi g].
  destruct s' as [Q' enow' fnow' eindex' findex' hi' g'].
  unfold merge_reads_same. simpl.
  intros (-> & -> & -> & -> & -> & H1 & H2 & H3 & H4).
  exists Q', enow, enow', fnow, fnow', eindex', findex', hi', g'.
  repeat (split; [first [reflexivity | assumption] |]). exact H4.
Qed.

End ReadsWithin.

(** Names the locals of two runs on agreeing inputs. *)
Ltac reads_intro H :=
  let Q := fresh "Q" in
  let enow := fresh "enow" in
  let enow' := fresh "enow'" in
  let fnow := fresh "fnow" in
  let fnow' := fresh "fnow'" in
  let eindex := fresh "eindex" in
  let findex := fresh "findex" in
  let hi := fresh "hi" in
  let g := fresh "g" in
  let Hei := fresh "Hei" in
  let Hfi := fresh "Hfi" in
  let Hen := fresh "Hen" in
  let Hfn := fresh "Hfn" in
  destruct (merge_reads_same_intro _ _ _ _ H)
    as (Q & enow & enow' & fnow & fnow' & eindex & findex & hi & g
        & -> & -> & Hei & Hfi & Hen & Hfn).

(** Closes a turn of two runs on agreeing inputs: the heads in use are the
    same, and the cell fetched next is within the input or never used. *)
Ltac reads_turn He Hf :=
  cbn [m_Q m_enow m_fnow m_eindex m_findex m_hindex m_h] in *;
  repeat match goal with
         | H : (_ <? _) = true |- _ => apply Z.ltb_lt in H
         | H : (_ <? _) = false |- _ => apply Z.ltb_ge in H
         | H : (_ >=? _) = true |- _ => apply Z.geb_le in H
         | H : (_ && _)%bool = true |- _ =>
             apply andb_true_iff in H; destruct H
         | H : ?a < ?b -> _ = _, H' : ?a < ?b |- _ =>
             specialize (H H'); try subst
         end;
  repeat match goal with
         | |- context [e_is_next ?a ?b] => destruct (e_is_next a b)
         | |- context [Two_Sum ?a ?b] => destruct (Two_Sum a b)
         | |- context [Fast_Two_Sum ?a ?b] => destruct (Fast_Two_Sum a b)
         | |- context [put_nonzero ?a ?b ?c] => destruct (put_nonzero a b c)
         end;
  unfold merge_reads_same;
  cbn [m_Q m_enow m_fnow m_eindex m_findex m_hindex m_h];
  repeat (split; [first [reflexivity | lia | assumption] |]);
  try split; intros;
  first [reflexivity | assumption | apply He; lia | apply Hf; lia
        | match goal with H : _ -> ?x = ?y |- ?x = ?y => apply H; lia end].

Section ReadsWithinSums.

Variables (elen : Z) (e e' : buf) (flen : Z) (f f' : buf).
Hypothesis Hel : 1 <= elen.
Hypothesis Hfl : 1 <= flen.
Hypothesis He : agree elen e e'.
Hypothesis Hf : agree flen f f'.

Lemma merge_start_reads (h : buf) :
  merge_reads_same elen flen (merge_start e f h) (merge_start e' f' h).
Proof.
  unfold merge_start. rewrite <- (He 0), <- (Hf 0) by lia.
  destruct (e_is_next (e 0) (f 0)); unfold merge_reads_same; simpl;
    repeat (split; [first [reflexivity | lia] |]);
    try split; intros; first [reflexivity | apply He; lia | apply Hf; lia].
Qed.

Lemma fast_expansion_sum_reads (h : buf) :
  fast_expansion_sum elen e flen f h = fast_expansion_sum elen e' flen f' h.
Proof.
  unfold fast_expansion_sum.
  pose proof (merge_start_reads h) as H0.
  set (s0 := merge_start e f h) in *. set (s0' := merge_start e' f' h) in *.
  assert (Hb : both_left elen flen s0 = both_left elen flen s0').
  { reads_intro H0. reflexivity. }
  rewrite <- Hb.
  set (s1 := if both_left elen flen s0 then _ else s0).
  set (s1' := if both_left elen flen s0 then _ else s0').
  assert (H1 : merge_reads_same elen flen s1 s1').
  { subst s1 s1'. destruct (both_left elen flen s0) eqn:Hc; [| exact H0].
    apply while_loop_rel.
    - reads_intro H0. unfold both_left in Hc. unfold merge_first.
      reads_turn He Hf.
    - intros t t' Ht. reads_intro Ht. reflexivity.
    - intros t t' Ht Hc'. reads_intro Ht. unfold both_left in Hc'.
      unfold merge_step. reads_turn He Hf. }
  clearbody s1 s1'.
  set (s2 := while_loop _ _ (drain_e e) s1).
  set (s2' := while_loop _ _ (drain_e e') s1').
  assert (H2 : merge_reads_same elen flen s2 s2').
  { subst s2 s2'. apply while_loop_rel; [exact H1 | |].
    - intros t t' Ht. reads_intro Ht. reflexivity.
    - intros t t' Ht Hc'. reads_intro Ht. unfold drain_e.
      reads_turn He Hf. }
  clearbody s2 s2'.
  set (s3 := while_loop _ _ (drain_f f) s2).
  set (s3' := while_loop _ _ (drain_f f') s2').
  assert (H3 : merge_reads_same elen flen s3 s3').
  { subst s3 s3'. apply while_loop_rel; [exact H2 | |].
    - intros t t' Ht. reads_intro Ht. reflexivity.
    - intros t t' Ht Hc'. reads_intro Ht. unfold drain_f.
      reads_turn He Hf. }
  clearbody s3 s3'. reads_intro H3. reflexivity.
Qed.

Lemma fast_expansion_sum_zeroelim_reads (h : buf) :
  fast_expansion_sum_zeroelim elen e flen f h
  = fast_expansion_sum_zeroelim elen e' flen f' h.
Proof.
  unfold fast_expansion_sum_zeroelim.
  pose proof (merge_start_reads h) as H0.
  set (s0 := merge_start e f h) in *. set (s0' := merge_start e' f' h) in *.
  assert (Hb : both_left elen flen s0 = both_left elen flen s0').
  { reads_intro H0. reflexivity. }
  rewrite <- Hb.
  set (s1 := if both_left elen flen s0 then _ else s0).
  set (s1' := if both_left elen flen s0 then _ else s0').
  assert (H1 : merge_reads_same elen flen s1 s1').
  { subst s1 s1'. destruct (both_left elen flen s0) eqn:Hc; [| exact H0].
    apply while_loop_rel.
    - reads_intro H0. unfold both_left in Hc. unfold merge_first_zeroelim.
      reads_turn He Hf.
    - intros t t' Ht. reads_intro Ht. reflexivity.
    - intros t t' Ht Hc'. reads_intro Ht. unfold both_left in Hc'.
      unfold merge_step_zeroelim. reads_turn He Hf. }
  clearbody s1 s1'.
  set (s2 := while_loop _ _ (drain_e_zeroelim e) s1).
  set (s2' := while_loop _ _ (drain_e_zeroelim e') s1').
  assert (H2 : merge_reads_same elen flen s2 s2').
  { subst s2 s2'. apply while_loop_rel; [exact H1 | |].
    - intros t t' Ht. reads_intro Ht. reflexivity.
    - intros t t' Ht Hc'. reads_intro Ht. unfold drain_e_zeroelim.
      reads_turn He Hf. }
  clearbody s2 s2'.
  set (s3 := while_loop _ _ (drain_f_zeroelim f) s2).
  set (s3' := while_loop _ _ (drain_f_zeroelim f') s2').
  assert (H3 : merge_reads_same elen flen s3 s3').
  { subst s3 s3'. apply while_loop_rel; [exact H2 | |].
    - intros t t' Ht. reads_intro Ht. reflexivity.
    - intros t t' Ht Hc'. reads_intro Ht. unfold drain_f_zeroelim.
      reads_turn He Hf. }
  clearbody s3 s3'. reads_intro H3. reflexivity.
Qed.

Lemma linear_take_reads (q : tREAL) (s s' : merge_state) :
  merge_reads_same elen flen s s' ->
  m_eindex s + m_findex s < elen + flen ->
  fst (linear_take elen e flen f q s) = fst (linear_take elen e' flen f' q s')
  /\ merge_reads_same elen flen (snd (linear_take elen e flen f q s))
                      (snd (linear_take elen e' flen f' q s'))
  /\ m_eindex (snd (linear_take elen e flen f q s))
     + m_findex (snd (linear_take elen e flen f q s))
     = m_eindex s + m_findex s + 1.
Proof.
  intros H Hc. reads_intro H. unfold linear_take, linear_takes_e.
  cbn [m_Q m_enow m_fnow m_eindex m_findex m_hindex m_h] in *.
  destruct (Z.ltb_spec eindex elen) as [Hlt | Hge]; cbn [andb].
  - specialize (Hen Hlt). subst enow'.
    destruct (Z.geb_spec findex flen) as [Hgf | Hlf]; cbn [orb].
    + destruct (Fast_Two_Sum enow q) as [R hh]. cbn [fst snd].
      split; [reflexivity |]. split; [| cbn; lia].
      unfold merge_reads_same. cbn.
      repeat (split; [first [reflexivity | lia] |]).
      try split; intros; first [reflexivity | apply He; lia | apply Hf; lia | lia].
    + specialize (Hfn ltac:(lia)). subst fnow'.
      destruct (e_is_next enow fnow).
      * destruct (Fast_Two_Sum enow q) as [R hh]. cbn [fst snd].
        split; [reflexivity |]. split; [| cbn; lia].
        unfold merge_reads_same. cbn.
        repeat (split; [first [reflexivity | lia] |]).
        try split; intros; first [reflexivity | apply He; lia | apply Hf; lia | lia].
      * destruct (Fast_Two_Sum fnow q) as [R hh]. cbn [fst snd].
        split; [reflexivity |]. split; [| cbn; lia].
        unfold merge_reads_same. cbn.
        repeat (split; [first [reflexivity | lia] |]).
        try split; intros; first [reflexivity | apply He; lia | apply Hf; lia | lia].
  - specialize (Hfn ltac:(lia)). subst fnow'.
    destruct (Fast_Two_Sum fnow q) as [R hh]. cbn [fst snd].
    split; [reflexivity |]. split; [| cbn; lia].
    unfold merge_reads_same. cbn.
    repeat (split; [first [reflexivity | lia] |]).
    try split; intros; first [reflexivity | apply He; lia | apply Hf; lia | lia].
Qed.

Lemma merge_start_count (h : buf) :
  m_eindex (merge_start e f h) + m_findex (merge_start e f h) = 1.
Proof. unfold merge_start. destruct (e_is_next _ _); reflexivity. Qed.

Lemma linear_expansion_sum_reads (h : buf) :
  linear_expansion_sum elen e flen f h
  = linear_expansion_sum elen e' flen f' h.
Proof.
  unfold linear_expansion_sum.
  pose proof (merge_start_reads h) as H0.
  pose proof (merge_start_count h) as C0.
  set (s0 := merge_start e f h) in *. set (s0' := merge_start e' f' h) in *.
  assert (HQ : m_Q s0' = m_Q s0) by (symmetry; apply H0). rewrite HQ.
  destruct (linear_take_reads (m_Q s0) s0 s0' H0 ltac:(lia)) as (Hr & H1 & C1).
  destruct (linear_take elen e flen f (m_Q s0) s0) as [[Qnew q] s1].
  destruct (linear_take elen e' flen f' (m_Q s0) s0') as [[Qnew' q'] s1'].
  cbn [fst snd] in Hr, H1, C1. injection Hr as <- <-.
  loops_with (fun (k : Z) (t t' : tREAL * tREAL * merge_state) =>
                fst t = fst t' /\ merge_reads_same elen flen (snd t) (snd t')
                /\ m_eindex (snd t) + m_findex (snd t) = k + 2).
  { cbn [fst snd]. split; [reflexivity | split; [exact H1 | lia]]. }
  { intros k [[Q1 q1] t1] [[Q1' q1'] t1'] Hk (Hq & Ht & Hc).
    cbn [fst snd] in Hq, Ht, Hc. injection Hq as <- <-.
    destruct (linear_take_reads q1 t1 t1' Ht ltac:(lia)) as (Hr2 & H2 & C2).
    destruct (linear_take elen e flen f q1 t1) as [[R hh] t2].
    destruct (linear_take elen e' flen f' q1 t1') as [[R' hh'] t2'].
    cbn [fst snd] in Hr2, H2, C2. injection Hr2 as <- <-.
    destruct (Two_Sum Q1 R) as [Qn qn]. reads_intro H2.
    cbn [fst snd m_Q m_enow m_fnow m_eindex m_findex m_hindex m_h] in *.
    split; [reflexivity |]. split; [| lia].
    unfold merge_reads_same. cbn.
    repeat (split; [first [reflexivity | lia | assumption] |]). assumption. }
  destruct t as [[Q1 q1] t1], t' as [[Q1' q1'] t1']. cbn [fst snd] in HR.
  destruct HR as (Hq & Ht & _). injection Hq as <- <-.
  reads_intro Ht. reflexivity.
Qed.

Lemma linear_expansion_sum_zeroelim_reads (h : buf) :
  linear_expansion_sum_zeroelim elen e flen f h
  = linear_expansion_sum_zeroelim elen e' flen f' h.
Proof.
  unfold linear_expansion_sum_zeroelim.
  pose proof (merge_start_reads h) as H0.
  pose proof (merge_start_count h) as C0.
  set (s0 := merge_start e f h) in *. set (s0' := merge_start e' f' h) in *.
  assert (HQ : m_Q s0' = m_Q s0) by (symmetry; apply H0). rewrite HQ.
  destruct (linear_take_reads (m_Q s0) s0 s0' H0 ltac:(lia)) as (Hr & H1 & C1).
  destruct (linear_take elen e flen f (m_Q s0) s0) as [[Qnew q] s1].
  destruct (linear_take elen e' flen f' (m_Q s0) s0') as [[Qnew' q'] s1'].
  cbn [fst snd] in Hr, H1, C1. injection Hr as <- <-.
  loops_with (fun (k : Z) (t t' : tREAL * tREAL * merge_state) =>
                fst t = fst t' /\ merge_reads_same elen flen (snd t) (snd t')
                /\ m_eindex (snd t) + m_findex (snd t) = k).
  { cbn [fst snd]. split; [reflexivity | split; [exact H1 | lia]]. }
  { intros k [[Q1 q1] t1] [[Q1' q1'] t1'] Hk (Hq & Ht & Hc).
    cbn [fst snd] in Hq, Ht, Hc. injection Hq as <- <-.
    destruct (linear_take_reads q1 t1 t1' Ht ltac:(lia)) as (Hr2 & H2 & C2).
    destruct (linear_take elen e flen f q1 t1) as [[R hh] t2].
    destruct (linear_take elen e' flen f' q1 t1') as [[R' hh'] t2'].
    cbn [fst snd] in Hr2, H2, C2. injection Hr2 as <- <-.
    destruct (Two_Sum Q1 R) as [Qn qn]. reads_intro H2.
    cbn [fst snd m_Q m_enow m_fnow m_eindex m_findex m_hindex m_h] in *.
    destruct (put_nonzero hh hi g) as [hi1 g1].
    split; [reflexivity |]. split; [| cbn; lia].
    unfold merge_reads_same. cbn.
    repeat (split; [first [reflexivity | lia | assumption] |]). assumption. }
  destruct t as [[Q1 q1] t1], t' as [[Q1' q1'] t1']. cbn [fst snd] in HR.
  destruct HR as (Hq & Ht & _). injection Hq as <- <-.
  reads_intro Ht. reflexivity.
Qed.

End ReadsWithinSums.

(** X13. The result of a merging sum depends on no cell past its inputs,
    although the code loads [e[elen]] and [f[flen]] into [enow] and [fnow]:
    two runs whose inputs agree on [e[0 .. elen-1]] and [f[0 .. flen-1]]
    return the same length and the same array, for [fast_expansion_sum],
    [linear_expansion_sum] and their zero-eliminating versions. *)
Theorem merging_sums_read_within (elen : Z) (e e' : buf) (flen : Z)
  (f f' : buf) (h : buf) :
  1 <= elen -> 1 <= flen -> agree elen e e' -> agree flen f f' ->
  fast_expansion_sum elen e flen f h = fast_expansion_sum elen e' flen f' h /\
  fast_expansion_sum_zeroelim elen e flen f h
  = fast_expansion_sum_zeroelim elen e' flen f' h /\
  linear_expansion_sum elen e flen f h
  = linear_expansion_sum elen e' flen f' h /\
  linear_expansion_sum_zeroelim elen e flen f h
  = linear_expansion_sum_zeroelim elen e' flen f' h.
Proof.
  intros Hel Hfl He Hf.
  split; [apply fast_expansion_sum_reads; assumption |].
  split; [apply fast_expansion_sum_zeroelim_reads; assumption |].
  split; [apply linear_expansion_sum_reads; assumption |].
  apply linear_expansion_sum_zeroelim_reads; assumption.
Qed.

Lemma merging_sums_read_within_witness :
  let e' := upd e_demo 2 tenth in
  let f' := upd f_demo 2 Dbl.one in
  fast_expansion_sum 2 e_demo 2 f_demo local
  = fast_expansion_sum 2 e' 2 f' local /\
  fast_expansion_sum_zeroelim 2 e_demo 2 f_demo local
  = fast_expansion_sum_zeroelim 2 e' 2 f' local /\
  linear_expansion_sum 2 e_demo 2 f_demo local
  = linear_expansion_sum 2 e' 2 f' local /\
  linear_expansion_sum_zeroelim 2 e_demo 2 f_demo local
  = linear_expansion_sum_zeroelim 2 e' 2 f' local.
Proof.
  intros e' f'. apply merging_sums_read_within.
  - lia.
  - lia.
  - intros i Hi. unfold e'. rewrite upd_other by lia. reflexivity.
  - intros i Hi. unfold f'. rewrite upd_other by lia. reflexivity.
Defined.
(** ** The approximate predicates *)

Lemma pow2_positive (e : Z) : (0 < Dbl.pow2 e)%Q.
Proof.
  destruct e as [| p | p]; unfold Dbl.pow2.
  - reflexivity.
  - change 0%Q with (inject_Z 0). rewrite <- Zlt_Qlt.
    change (Z.pow_pos 2 p) with (2 ^ Z.pos p). apply Z.pow_pos_nonneg; lia.
  - reflexivity.
Qed.

(** A finite double has the sign of its value. *)
Lemma sign_agrees_value (x : tREAL) :
  Dbl.is_finite x = true -> sign_agrees x (Dbl.value x).
Proof.
  intros F. destruct x as [s | s | | s m e]; try discriminate F.
  - unfold sign_agrees. cbn [Dbl.value].
    destruct s; (split; [| split]); split; intros H;
      try discriminate H; try reflexivity;
      try (exfalso; revert H; apply Qlt_irrefl).
  - pose proof (pow2_positive e) as Hp. unfold sign_agrees. cbn [Dbl.value].
    destruct s; cbn [cond_Zopp].
    + assert (Hn : (inject_Z (- Z.pos m) * Dbl.pow2 e < 0)%Q).
      { setoid_replace 0%Q with (0 * Dbl.pow2 e)%Q by ring.
        apply Qmult_lt_compat_r; [exact Hp |].
        change 0%Q with (inject_Z 0). rewrite <- Zlt_Qlt. lia. }
      split; [| split]; split; intros H; try discriminate H;
        try reflexivity; try exact Hn.
      * exfalso. apply (Qlt_irrefl 0). eapply Qlt_trans; eassumption.
      * exfalso. rewrite H in Hn. revert Hn. apply Qlt_irrefl.
    + assert (Hn : (0 < inject_Z (Z.pos m) * Dbl.pow2 e)%Q).
      { setoid_replace 0%Q with (0 * Dbl.pow2 e)%Q by ring.
        apply Qmult_lt_compat_r; [exact Hp |].
        change 0%Q with (inject_Z 0). rewrite <- Zlt_Qlt. lia. }
      split; [| split]; split; intros H; try discriminate H;
        try reflexivity; try exact Hn.
      * exfalso. apply (Qlt_irrefl 0). eapply Qlt_trans; eassumption.
      * exfalso. rewrite H in Hn. revert Hn. apply Qlt_irrefl.
Qed.

Lemma sign_agrees_eq (r : tREAL) (q q' : Q) :
  (q == q')%Q -> sign_agrees r q -> sign_agrees r q'.
Proof.
  intros E (H1 & H2 & H3). unfold sign_agrees. rewrite <- E.
  split; [exact H1 | split; [exact H2 | exact H3]].
Qed.

(** X14. After initialization, on three points whose coordinates are
    integers of at most 24 bits times one power of two [2^g],
    [-537 <= g <= 485], the sign of what [orient2d] returns is the sign of
    the exact determinant: positive, negative or zero as the points turn
    counterclockwise, turn clockwise or are collinear. *)
Theorem orient2d_sign_on_grid (P : Predicates) (g : Z) (pa pb pc : buf)
  (ax ay bx by_ cx cy : Z) :
  splitter P = splitter exactinit ->
  -537 <= g <= 485 ->
  grid_point g pa ax ay -> grid_point g pb bx by_ -> grid_point g pc cx cy ->
  sign_agrees (orient2d P pa pb pc) (orient2d_exact pa pb pc).
Proof.
  intros HP Hg (Hax & Hay & Bax & Bay) (Hbx & Hby & Bbx & Bby)
    (Hcx & Hcy & Bcx & Bcy).
  assert (HP' : splitter P = Dbl.of_Z splitter_value)
    by (rewrite HP; apply exactinit_splitter).
  pose proof (orient2d_grid P HP' g Hg pa pb pc ax ay bx by_ cx cy
                Hax Hay Hbx Hby Hcx Hcy Bax Bay Bbx Bby Bcx Bcy) as H1.
  apply (sign_agrees_eq _ (Dbl.value (orient2d P pa pb pc))).
  - apply (orient2d_grid_value g _ pa pb pc ax ay bx by_ cx cy);
      try assumption; lia.
  - apply sign_agrees_value. apply H1.
Qed.

Lemma orient2d_sign_on_grid_witness :
  let a := point (Dbl.of_Z 0) (Dbl.of_Z 0) in
  let b := point (Dbl.of_Z 3) (Dbl.of_Z 1) in
  let c := point (Dbl.of_Z 2) (Dbl.of_Z 2) in
  sign_agrees (orient2d exactinit a b c) (orient2d_exact a b c).
Proof.
  intros a b c.
  apply (orient2d_sign_on_grid exactinit 0 a b c 0 0 3 1 2 2).
  - reflexivity.
  - lia.
  - unfold grid_point, on_grid. repeat split; vm_compute; congruence.
  - unfold grid_point, on_grid. repeat split; vm_compute; congruence.
  - unfold grid_point, on_grid. repeat split; vm_compute; congruence.
Defined.

Lemma orient2dfast_grid (g : Z) (pa pb pc : buf) (ax ay bx by_ cx cy : Z) :
  -537 <= g <= 485 ->
  grid_point g pa ax ay -> grid_point g pb bx by_ -> grid_point g pc cx cy ->
  on_grid (g + g) (orient2dfast pa pb pc)
    ((ax - cx) * (by_ - cy) - (ay - cy) * (bx - cx)).
Proof.
  intros Hg (Hax & Hay & Bax & Bay) (Hbx & Hby & Bbx & Bby)
    (Hcx & Hcy & Bcx & Bcy).
  destruct (grid_differences g Hg pa pb pc ax ay bx by_ cx cy
              Hax Hay Hbx Hby Hcx Hcy Bax Bay Bbx Bby Bcx Bcy)
    as (Hacx & Hbcx & Hacy & Hbcy).
  destruct (grid_products ax ay bx by_ cx cy Bax Bay Bbx Bby Bcx Bcy)
    as (HL & HR).
  assert (H50 : 2 ^ 50 = 1125899906842624) by reflexivity.
  assert (H53 : 2 ^ 53 = 9007199254740992) by reflexivity.
  unfold orient2dfast. cbv zeta.
  apply grid_sub; [lia | | | lia].
  - apply grid_mul; [lia | lia | lia | exact Hacx | exact Hbcy | lia].
  - apply grid_mul; [lia | lia | lia | exact Hacy | exact Hbcx | lia].
Qed.

(** X15. On three points whose coordinates are integers of at most 24
    bits times one power of two [2^g], [-537 <= g <= 485], [orient2dfast]
    does not round: what it returns is the exact determinant, has its sign,
    and compares equal to what [orient2d] returns after initialization. *)
Theorem orient2dfast_exact_on_grid (P : Predicates) (g : Z) (pa pb pc : buf)
  (ax ay bx by_ cx cy : Z) :
  splitter P = splitter exactinit ->
  -537 <= g <= 485 ->
  grid_point g pa ax ay -> grid_point g pb bx by_ -> grid_point g pc cx cy ->
  (Dbl.value (orient2dfast pa pb pc) == orient2d_exact pa pb pc)%Q /\
  sign_agrees (orient2dfast pa pb pc) (orient2d_exact pa pb pc) /\
  Dbl.eq (orient2dfast pa pb pc) (orient2d P pa pb pc) = true.
Proof.
  intros HP Hg Ha Hb Hc.
  pose proof (orient2dfast_grid g pa pb pc ax ay bx by_ cx cy Hg Ha Hb Hc)
    as Hfast.
  destruct Ha as (Hax & Hay & Bax & Bay), Hb as (Hbx & Hby & Bbx & Bby),
    Hc as (Hcx & Hcy & Bcx & Bcy).
  assert (HP' : splitter P = Dbl.of_Z splitter_value)
    by (rewrite HP; apply exactinit_splitter).
  pose proof (orient2d_grid P HP' g Hg pa pb pc ax ay bx by_ cx cy
                Hax Hay Hbx Hby Hcx Hcy Bax Bay Bbx Bby Bcx Bcy) as H1.
  assert (Hv : (Dbl.value (orient2dfast pa pb pc) == orient2d_exact pa pb pc)%Q)
    by (apply (orient2d_grid_value g _ pa pb pc ax ay bx by_ cx cy);
        try assumption; lia).
  split; [exact Hv | split].
  - apply (sign_agrees_eq _ _ _ Hv). apply sign_agrees_value. apply Hfast.
  - apply (on_grid_eq (g + g) _ _ _ Hfast H1).
Qed.

Lemma orient2dfast_exact_on_grid_witness :
  let a := point (Dbl.of_Z 0) (Dbl.of_Z 0) in
  let b := point (Dbl.of_Z 3) (Dbl.of_Z 1) in
  let c := point (Dbl.of_Z 2) (Dbl.of_Z 2) in
  (Dbl.value (orient2dfast a b c) == orient2d_exact a b c)%Q /\
  sign_agrees (orient2dfast a b c) (orient2d_exact a b c) /\
  Dbl.eq (orient2dfast a b c) (orient2d exactinit a b c) = true.
Proof.
  intros a b c.
  apply (orient2dfast_exact_on_grid exactinit 0 a b c 0 0 3 1 2 2).
  - reflexivity.
  - lia.
  - unfold grid_point, on_grid. repeat split; vm_compute; congruence.
  - unfold grid_point, on_grid. repeat split; vm_compute; congruence.
  - unfold grid_point, on_grid. repeat split; vm_compute; congruence.
Defined.

Lemma eq_zero_cases (x : tREAL) :
  Dbl.eq x Dbl.zero = true -> exists s, x = S754_zero s.
Proof.
  destruct x as [s | s | | s m e]; intros H.
  - exists s. reflexivity.
  - destruct s; discriminate H.
  - discriminate H.
  - destruct s; discriminate H.
Qed.

(** X16. [orient2dfast] is antisymmetric in its first two points whenever
    its result is not a NaN (it compares equal to itself): then
    [orient2dfast(a, b, c)] is [-orient2dfast(b, a, c)], bit for bit except
    that a zero of either sign stands for the other, and the two compare
    equal. *)
Theorem orient2dfast_swap (pa pb pc : buf) :
  Dbl.eq (orient2dfast pa pb pc) (orient2dfast pa pb pc) = true ->
  same_double (orient2dfast pa pb pc) (Dbl.neg (orient2dfast pb pa pc)) /\
  Dbl.eq (orient2dfast pa pb pc) (Dbl.neg (orient2dfast pb pa pc)) = true.
Proof.
  intros Hn.
  assert (H : same_double (orient2dfast pa pb pc)
                (Dbl.neg (orient2dfast pb pa pc))).
  { unfold orient2dfast. cbv zeta.
    rewrite (mul_comm (Dbl.sub (pb 0) (pc 0)) (Dbl.sub (pa 1) (pc 1))).
    rewrite (mul_comm (Dbl.sub (pb 1) (pc 1)) (Dbl.sub (pa 0) (pc 0))).
    apply sub_antisym. }
  split; [exact H |].
  destruct H as [E | [Z1 Z2]].
  - rewrite <- E. exact Hn.
  - destruct (eq_zero_cases _ Z1) as [s1 ->].
    destruct (eq_zero_cases _ Z2) as [s2 ->]. reflexivity.
Qed.

Lemma orient2dfast_swap_witness :
  let a := point (Dbl.of_Z 0) (Dbl.of_Z 0) in
  let b := point (Dbl.of_Z 3) (Dbl.of_Z 1) in
  let c := point tenth (Dbl.of_Z 2) in
  same_double (orient2dfast a b c) (Dbl.neg (orient2dfast b a c)) /\
  Dbl.eq (orient2dfast a b c) (Dbl.neg (orient2dfast b a c)) = true.
Proof.
  intros a b c. apply (orient2dfast_swap a b c). vm_compute. reflexivity.
Defined.

(** ** [incirclefast] on a grid *)

Lemma on_grid_pow2 (g : Z) (x : tREAL) (n : Z) :
  -1074 <= g -> on_grid g x n ->
  (Dbl.value x == inject_Z n * Dbl.pow2 g)%Q.
Proof.
  intros Hg H. apply on_grid_value in H.
  assert (HK : ~ (inject_Z (2 ^ 1074) == 0)%Q).
  { change 0%Q with (inject_Z 0). rewrite inject_Z_injective.
    vm_compute. discriminate. }
  apply (Qmult_inj_r _ _ _ HK). rewrite H.
  rewrite <- Qmult_assoc, pow2_units by exact Hg. reflexivity.
Qed.

Lemma pow2_add (a b : Z) :
  -1074 <= a -> -1074 <= b -> -1074 <= a + b ->
  (Dbl.pow2 (a + b) == Dbl.pow2 a * Dbl.pow2 b)%Q.
Proof.
  intros Ha Hb Hab.
  set (K := inject_Z (2 ^ 1074)).
  assert (HK : ~ (K * K == 0)%Q).
  { unfold K. rewrite <- inject_Z_mult. change 0%Q with (inject_Z 0).
    rewrite inject_Z_injective. vm_compute. discriminate. }
  apply (Qmult_inj_r _ _ _ HK).
  transitivity ((Dbl.pow2 (a + b) * K) * K)%Q; [ring |].
  transitivity ((Dbl.pow2 a * K) * (Dbl.pow2 b * K))%Q; [| ring].
  unfold K. rewrite !pow2_units by lia.
  rewrite <- !inject_Z_mult. rewrite inject_Z_injective.
  rewrite <- !pow2_split by lia. f_equal. lia.
Qed.

Section InCircleGrid.

Variable g : Z.
Hypothesis Hg : -268 <= g <= 242.
Variables pa pb pc pd : buf.
Variables ax ay bx by_ cx cy dx dy : Z.
Hypothesis Ha : near_grid_point g pa ax ay.
Hypothesis Hb : near_grid_point g pb bx by_.
Hypothesis Hc : near_grid_point g pc cx cy.
Hypothesis Hd : near_grid_point g pd dx dy.

Lemma near_difference (p q : tREAL) (x y : Z) :
  on_grid g p x -> on_grid g q y ->
  Z.abs x <= 2 ^ 11 -> Z.abs y <= 2 ^ 11 ->
  on_grid g (Dbl.sub p q) (x - y) /\ Z.abs (x - y) <= 2 ^ 12.
Proof.
  intros Hp Hq Bx By.
  assert (H11 : 2 ^ 11 = 2048) by reflexivity.
  assert (H12 : 2 ^ 12 = 4096) by reflexivity.
  assert (H53 : 2 ^ 53 = 9007199254740992) by reflexivity.
  split; [apply grid_sub; [lia | exact Hp | exact Hq | lia] | lia].
Qed.

Lemma near_product (p q : tREAL) (x y : Z) :
  on_grid g p x -> on_grid g q y ->
  Z.abs x <= 2 ^ 12 -> Z.abs y <= 2 ^ 12 ->
  on_grid (g + g) (Dbl.mul p q) (x * y) /\ Z.abs (x * y) <= 2 ^ 24.
Proof.
  intros Hp Hq Bx By.
  assert (B : Z.abs (x * y) <= 2 ^ 24).
  { change (2 ^ 24) with (2 ^ 12 * 2 ^ 12). rewrite Z.abs_mul.
    apply Z.mul_le_mono_nonneg; lia. }
  assert (H24 : 2 ^ 24 = 16777216) by reflexivity.
  assert (H53 : 2 ^ 53 = 9007199254740992) by reflexivity.
  split; [apply grid_mul; [lia | lia | lia | exact Hp | exact Hq | lia]
         | exact B].
Qed.

Lemma near_minor (p q r s : tREAL) (x y z w : Z) :
  on_grid g p x -> on_grid g q y -> on_grid g r z -> on_grid g s w ->
  Z.abs x <= 2 ^ 12 -> Z.abs y <= 2 ^ 12 ->
  Z.abs z <= 2 ^ 12 -> Z.abs w <= 2 ^ 12 ->
  on_grid (g + g) (Dbl.sub (Dbl.mul p q) (Dbl.mul r s)) (x * y - z * w) /\
  Z.abs (x * y - z * w) <= 2 ^ 25.
Proof.
  intros Hp Hq Hr Hs Bx By Bz Bw.
  destruct (near_product p q x y Hp Hq Bx By) as [H1 B1].
  destruct (near_product r s z w Hr Hs Bz Bw) as [H2 B2].
  assert (H24 : 2 ^ 24 = 16777216) by reflexivity.
  assert (H25 : 2 ^ 25 = 33554432) by reflexivity.
  assert (H53 : 2 ^ 53 = 9007199254740992) by reflexivity.
  split; [apply grid_sub; [lia | exact H1 | exact H2 | lia] | lia].
Qed.

Lemma near_lift (p q : tREAL) (x y : Z) :
  on_grid g p x -> on_grid g q y ->
  Z.abs x <= 2 ^ 12 -> Z.abs y <= 2 ^ 12 ->
  on_grid (g + g) (Dbl.add (Dbl.mul p p) (Dbl.mul q q)) (x * x + y * y) /\
  Z.abs (x * x + y * y) <= 2 ^ 25.
Proof.
  intros Hp Hq Bx By.
  destruct (near_product p p x x Hp Hp Bx Bx) as [H1 B1].
  destruct (near_product q q y y Hq Hq By By) as [H2 B2].
  assert (H24 : 2 ^ 24 = 16777216) by reflexivity.
  assert (H25 : 2 ^ 25 = 33554432) by reflexivity.
  assert (H53 : 2 ^ 53 = 9007199254740992) by reflexivity.
  split; [apply grid_add; [lia | exact H1 | exact H2 | lia] | lia].
Qed.

Lemma near_term (p q : tREAL) (x y : Z) :
  on_grid (g + g) p x -> on_grid (g + g) q y ->
  Z.abs x <= 2 ^ 25 -> Z.abs y <= 2 ^ 25 ->
  on_grid (g + g + (g + g)) (Dbl.mul p q) (x * y) /\ Z.abs (x * y) <= 2 ^ 50.
Proof.
  intros Hp Hq Bx By.
  assert (B : Z.abs (x * y) <= 2 ^ 50).
  { change (2 ^ 50) with (2 ^ 25 * 2 ^ 25). rewrite Z.abs_mul.
    apply Z.mul_le_mono_nonneg; lia. }
  assert (H50 : 2 ^ 50 = 1125899906842624) by reflexivity.
  assert (H53 : 2 ^ 53 = 9007199254740992) by reflexivity.
  split; [apply grid_mul; [lia | lia | lia | exact Hp | exact Hq | lia]
         | exact B].
Qed.

(** No step of [incirclefast] rounds. *)
Lemma incirclefast_grid :
  on_grid (g + g + (g + g)) (incirclefast pa pb pc pd)
    (((ax - dx) * (ax - dx) + (ay - dy) * (ay - dy))
     * ((bx - dx) * (cy - dy) - (cx - dx) * (by_ - dy))
     + ((bx - dx) * (bx - dx) + (by_ - dy) * (by_ - dy))
       * ((cx - dx) * (ay - dy) - (ax - dx) * (cy - dy))
     + ((cx - dx) * (cx - dx) + (cy - dy) * (cy - dy))
       * ((ax - dx) * (by_ - dy) - (bx - dx) * (ay - dy))).
Proof.
  destruct Ha as (Hax & Hay & Bax & Bay), Hb as (Hbx & Hby & Bbx & Bby),
    Hc as (Hcx & Hcy & Bcx & Bcy), Hd as (Hdx & Hdy & Bdx & Bdy).
  destruct (near_difference _ _ _ _ Hax Hdx Bax Bdx) as [Hadx Badx].
  destruct (near_difference _ _ _ _ Hay Hdy Bay Bdy) as [Hady Bady].
  destruct (near_difference _ _ _ _ Hbx Hdx Bbx Bdx) as [Hbdx Bbdx].
  destruct (near_difference _ _ _ _ Hby Hdy Bby Bdy) as [Hbdy Bbdy].
  destruct (near_difference _ _ _ _ Hcx Hdx Bcx Bdx) as [Hcdx Bcdx].
  destruct (near_difference _ _ _ _ Hcy Hdy Bcy Bdy) as [Hcdy Bcdy].
  destruct (near_minor _ _ _ _ _ _ _ _ Hadx Hbdy Hbdx Hady
              Badx Bbdy Bbdx Bady) as [Hab Bab].
  destruct (near_minor _ _ _ _ _ _ _ _ Hbdx Hcdy Hcdx Hbdy
              Bbdx Bcdy Bcdx Bbdy) as [Hbc Bbc].
  destruct (near_minor _ _ _ _ _ _ _ _ Hcdx Hady Hadx Hcdy
              Bcdx Bady Badx Bcdy) as [Hca Bca].
  destruct (near_lift _ _ _ _ Hadx Hady Badx Bady) as [Hal Bal].
  destruct (near_lift _ _ _ _ Hbdx Hbdy Bbdx Bbdy) as [Hbl Bbl].
  destruct (near_lift _ _ _ _ Hcdx Hcdy Bcdx Bcdy) as [Hcl Bcl].
  destruct (near_term _ _ _ _ Hal Hbc Bal Bbc) as [Ht1 Bt1].
  destruct (near_term _ _ _ _ Hbl Hca Bbl Bca) as [Ht2 Bt2].
  destruct (near_term _ _ _ _ Hcl Hab Bcl Bab) as [Ht3 Bt3].
  unfold incirclefast. cbv zeta.
  clear - Hg Ht1 Ht2 Ht3 Bt1 Bt2 Bt3.
  assert (H50 : 2 ^ 50 = 1125899906842624) by reflexivity.
  assert (H53 : 2 ^ 53 = 9007199254740992) by reflexivity.
  apply grid_add; [lia | | exact Ht3 | lia].
  apply grid_add; [lia | exact Ht1 | exact Ht2 | lia].
Qed.

End InCircleGrid.

(** X17. On four points whose coordinates are integers of at most
    [2^11] in magnitude times one power of two [2^g], [-268 <= g <= 242],
    no step of [incirclefast] rounds: what it returns is finite, is the
    exact determinant, and has its sign. *)
Theorem incirclefast_exact_on_grid (g : Z) (pa pb pc pd : buf)
  (ax ay bx by_ cx cy dx dy : Z) :
  -268 <= g <= 242 ->
  near_grid_point g pa ax ay -> near_grid_point g pb bx by_ ->
  near_grid_point g pc cx cy -> near_grid_point g pd dx dy ->
  Dbl.is_finite (incirclefast pa pb pc pd) = true /\
  (Dbl.value (incirclefast pa pb pc pd) == incircle_exact pa pb pc pd)%Q /\
  sign_agrees (incirclefast pa pb pc pd) (incircle_exact pa pb pc pd).
Proof.
  intros Hg Ha Hb Hc Hd.
  pose proof (incirclefast_grid g Hg pa pb pc pd ax ay bx by_ cx cy dx dy
                Ha Hb Hc Hd) as Hr.
  assert (Hv : (Dbl.value (incirclefast pa pb pc pd)
                == incircle_exact pa pb pc pd)%Q).
  { apply on_grid_pow2 in Hr; [| lia]. rewrite Hr. clear Hr.
    destruct Ha as (Hax & Hay & _), Hb as (Hbx & Hby & _),
      Hc as (Hcx & Hcy & _), Hd as (Hdx & Hdy & _).
    apply on_grid_pow2 in Hax, Hay, Hbx, Hby, Hcx, Hcy, Hdx, Hdy; try lia.
    unfold incircle_exact. cbv zeta.
    rewrite Hax, Hay, Hbx, Hby, Hcx, Hcy, Hdx, Hdy.
    rewrite (pow2_add (g + g) (g + g)) by lia.
    rewrite (pow2_add g g) by lia.
    rewrite !inject_Z_plus, !inject_Z_mult, !inject_Z_sub, !inject_Z_plus,
      !inject_Z_mult, !inject_Z_sub.
    ring. }
  split; [apply Hr | split; [exact Hv |]].
  apply (sign_agrees_eq _ _ _ Hv). apply sign_agrees_value. apply Hr.
Qed.

Lemma incirclefast_exact_on_grid_witness :
  let a := point (Dbl.of_Z 0) (Dbl.of_Z 0) in
  let b := point (Dbl.of_Z 4) (Dbl.of_Z 0) in
  let c := point (Dbl.of_Z 0) (Dbl.of_Z 4) in
  let d := point (Dbl.of_Z 1) (Dbl.of_Z 1) in
  Dbl.is_finite (incirclefast a b c d) = true /\
  (Dbl.value (incirclefast a b c d) == incircle_exact a b c d)%Q /\
  sign_agrees (incirclefast a b c d) (incircle_exact a b c d).
Proof.
  intros a b c d.
  apply (incirclefast_exact_on_grid 0 a b c d 0 0 4 0 0 4 1 1).
  - lia.
  - unfold near_grid_point, on_grid. repeat split; vm_compute; congruence.
  - unfold near_grid_point, on_grid. repeat split; vm_compute; congruence.
  - unfold near_grid_point, on_grid. repeat split; vm_compute; congruence.
  - unfold near_grid_point, on_grid. repeat split; vm_compute; congruence.
Defined.
(** ** Rounding to 53 bits: the sum of two doubles *)


Lemma pow2_divide (j k : Z) : 0 <= j <= k -> (2 ^ j | 2 ^ k).
Proof.
  intros H. exists (2 ^ (k - j)). rewrite <- pow2_split by lia. f_equal. lia.
Qed.

Lemma pow2_pos (k : Z) : 0 <= k -> 0 < 2 ^ k.
Proof. intros H. apply Z.pow_pos_nonneg; lia. Qed.

Lemma Zdigits2_mono (x y : Z) : Z.abs x <= Z.abs y -> Zdigits2 x <= Zdigits2 y.
Proof.
  intros H. apply Zdigits2_le; [apply Zdigits2_nonneg |].
  pose proof (Zdigits2_gt y). lia.
Qed.

Lemma dropped_mono (x y : Z) : Z.abs x <= Z.abs y -> dropped x <= dropped y.
Proof. intros H. pose proof (Zdigits2_mono x y H). unfold dropped. lia. Qed.

(** The magnitude is below [2^53] units of the last bit kept. *)
Lemma dropped_bound (z : Z) : Z.abs z < 2 ^ (dropped z + 53).
Proof.
  pose proof (Zdigits2_gt z) as H. pose proof (Zdigits2_nonneg z) as H0.
  assert (2 ^ Zdigits2 z <= 2 ^ (dropped z + 53))
    by (apply Z.pow_le_mono_r; unfold dropped; lia).
  lia.
Qed.

(** A multiple of [2^j] of at most 53 bits above it is representable. *)
Lemma representable_multiple (z j : Z) :
  0 <= j -> (2 ^ j | z) -> Z.abs z <= 2 ^ (j + 53) -> representable z.
Proof.
  intros Hj [w Hw] Hz. unfold representable. rewrite Hw.
  apply round53_exact; [| exact Hj].
  pose proof (pow2_pos j Hj) as Hp.
  rewrite pow2_split in Hz by lia.
  rewrite Hw, Z.abs_mul, (Z.abs_eq (2 ^ j)) in Hz by lia.
  rewrite (Z.mul_comm (2 ^ j)) in Hz.
  apply Z.mul_le_mono_pos_r in Hz; assumption.
Qed.

Lemma representable_divide (z : Z) : representable z -> (2 ^ dropped z | z).
Proof.
  intros H. destruct (round53_multiple z) as [u Hu].
  exists u. rewrite <- Hu. symmetry. exact H.
Qed.

Lemma round53_divide (z : Z) : (2 ^ dropped z | round53 z).
Proof. destruct (round53_multiple z) as [u Hu]. exists u. exact Hu. Qed.

Lemma representable_opp (z : Z) : representable z -> representable (- z).
Proof. unfold representable. intros H. rewrite round53_opp, H. reflexivity. Qed.

Lemma representable_0 : representable 0.
Proof. reflexivity. Qed.

(** A multiple of the last bit that rounding would keep is representable. *)
Lemma representable_own_multiple (z j : Z) :
  dropped z <= j -> (2 ^ j | z) -> representable z.
Proof.
  intros Hj Hd. pose proof (dropped_nonneg z) as H0.
  apply (representable_multiple z (dropped z) H0).
  - apply Z.divide_trans with (2 ^ j); [apply pow2_divide; lia | exact Hd].
  - pose proof (dropped_bound z). lia.
Qed.

(** Rounding is idempotent. *)
Lemma representable_round53 (z : Z) : representable (round53 z).
Proof.
  pose proof (dropped_nonneg z) as H0.
  apply (representable_multiple _ (dropped z) H0 (round53_divide z)).
  destruct (Z.eq_dec (dropped z) 0) as [Hz | Hnz].
  - rewrite (round53_keeps z Hz). pose proof (dropped_bound z). lia.
  - pose proof (round53_bound z) as Hb.
    replace (dropped z + 53) with (Zdigits2 z) by (unfold dropped in *; lia).
    exact Hb.
Qed.

(** Among the multiples of the last bit kept, the rounding is nearest. *)
Lemma round53_nearest_multiple (z n : Z) :
  Z.abs (round53 z - z) <= Z.abs (n * 2 ^ dropped z - z).
Proof.
  pose proof (round53_error z) as He.
  destruct (round53_multiple z) as [u Hu].
  pose proof (pow2_pos _ (dropped_nonneg z)) as Hp.
  set (P := 2 ^ dropped z) in *.
  destruct (Z.eq_dec n u) as [-> | Hne]; [rewrite Hu; lia |].
  assert (Hgap : n * P - u * P >= P \/ n * P - u * P <= - P) by nia.
  rewrite Hu in *. lia.
Qed.

(** Among the representable values, the rounding is nearest. *)
Lemma round53_nearest (z f : Z) :
  representable f -> Z.abs (round53 z - z) <= Z.abs (f - z).
Proof.
  assert (Hpos : forall v g, 0 < v -> representable g ->
            Z.abs (round53 v - v) <= Z.abs (g - v)).
  { intros v g Hv Hg.
    pose proof (dropped_nonneg v) as H0.
    destruct (Z.eq_dec (dropped v) 0) as [Hz | Hnz];
      [rewrite (round53_keeps v Hz); lia |].
    destruct (Z.le_gt_cases (dropped v) (dropped g)) as [Hle | Hgt].
    - destruct (Z.divide_trans _ _ _ (pow2_divide (dropped v) (dropped g) ltac:(lia))
                  (representable_divide g Hg)) as [n Hn].
      rewrite Hn. apply round53_nearest_multiple.
    - (* g lies below the binade of v *)
      assert (Hd : Zdigits2 v = dropped v + 53) by (unfold dropped in *; lia).
      destruct (Zdigits2_bounds v Hv) as [_ [Hlo _]].
      pose proof (dropped_bound g) as Hg'.
      assert (Hgb : 2 ^ (dropped g + 53) <= 2 ^ (Zdigits2 v - 1))
        by (apply Z.pow_le_mono_r; pose proof (dropped_nonneg g); lia).
      pose proof (round53_nearest_multiple v (2 ^ 52)) as Hn.
      rewrite <- pow2_split in Hn by lia.
      replace (52 + dropped v) with (Zdigits2 v - 1) in Hn by lia.
      lia. }
  intros Hf. destruct (Z.lt_trichotomy z 0) as [Hn | [-> | Hp]].
  - specialize (Hpos (- z) (- f) ltac:(lia) (representable_opp f Hf)).
    rewrite round53_opp in Hpos. lia.
  - rewrite round53_0. lia.
  - apply Hpos; assumption.
Qed.

(** A representable value, in units of its last bit. *)
Lemma representable_bound (z : Z) :
  representable z -> Z.abs z < 2 ^ 53 * 2 ^ dropped z.
Proof.
  intros _. pose proof (dropped_bound z) as H.
  rewrite Z.add_comm, pow2_split in H by (pose proof (dropped_nonneg z); lia).
  exact H.
Qed.

(** The error of a rounded sum is representable. *)
Lemma round53_sum_error (a b : Z) :
  representable a -> representable b ->
  representable (a + b - round53 (a + b)).
Proof.
  assert (Hord : forall a b, representable a -> representable b ->
            Z.abs b <= Z.abs a -> representable (a + b - round53 (a + b))).
  { clear a b. intros a b Ha Hb Hab.
    pose proof (dropped_nonneg a) as Hka. pose proof (dropped_nonneg b) as Hkb.
    pose proof (dropped_nonneg (a + b)) as Hks.
    pose proof (dropped_mono b a Hab) as Hk.
    pose proof (round53_nearest (a + b) a Ha) as Hn.
    assert (Hdb : (2 ^ dropped b | b)) by (apply representable_divide; exact Hb).
    assert (Hda : (2 ^ dropped b | a)).
    { apply Z.divide_trans with (2 ^ dropped a);
        [apply pow2_divide; lia | apply representable_divide; exact Ha]. }
    assert (Hds : (2 ^ dropped b | a + b)) by (apply Z.divide_add_r; assumption).
    destruct (Z.le_gt_cases (dropped (a + b)) (dropped b)) as [Hle | Hgt].
    - assert (Hs : representable (a + b))
        by (apply (representable_own_multiple _ (dropped b)); assumption).
      rewrite Hs. replace (a + b - (a + b)) with 0 by lia. apply representable_0.
    - apply (representable_multiple _ (dropped b) Hkb).
      + apply Z.divide_sub_r; [exact Hds |].
        apply Z.divide_trans with (2 ^ dropped (a + b));
          [apply pow2_divide; lia | apply round53_divide].
      + pose proof (representable_bound b Hb) as Hbb.
        replace (dropped b + 53) with (53 + dropped b) by lia.
        rewrite pow2_split by lia. lia. }
  intros Ha Hb. destruct (Z.le_ge_cases (Z.abs b) (Z.abs a)) as [H | H].
  - apply Hord; assumption.
  - rewrite (Z.add_comm a b). apply Hord; assumption.
Qed.

(** When [|a| >= |b|], the rounded sum minus [a] is representable. *)
Lemma round53_sum_minus (a b : Z) :
  representable a -> representable b -> Z.abs b <= Z.abs a ->
  representable (round53 (a + b) - a).
Proof.
  intros Ha Hb Hab.
  pose proof (dropped_nonneg a) as Hka. pose proof (dropped_nonneg b) as Hkb.
  pose proof (dropped_nonneg (a + b)) as Hks.
  pose proof (dropped_mono b a Hab) as Hk.
  pose proof (round53_nearest (a + b) a Ha) as Hn.
  pose proof (round53_error (a + b)) as He.
  assert (Hdb : (2 ^ dropped b | b)) by (apply representable_divide; exact Hb).
  assert (Hdaa : (2 ^ dropped a | a)) by (apply representable_divide; exact Ha).
  assert (Hda : (2 ^ dropped b | a))
    by (apply Z.divide_trans with (2 ^ dropped a);
        [apply pow2_divide; lia | exact Hdaa]).
  assert (Hds : (2 ^ dropped b | a + b)) by (apply Z.divide_add_r; assumption).
  pose proof (representable_bound b Hb) as Hbb.
  pose proof (pow2_pos _ Hkb) as Hpb.
  destruct (Z.le_gt_cases (dropped (a + b)) (dropped b)) as [Hle | Hgt].
  - assert (Hs : representable (a + b))
      by (apply (representable_own_multiple _ (dropped b)); assumption).
    rewrite Hs. replace (a + b - a) with b by lia. exact Hb.
  - assert (Hdx : (2 ^ (dropped b + 1) | round53 (a + b))).
    { apply Z.divide_trans with (2 ^ dropped (a + b));
        [apply pow2_divide; lia | apply round53_divide]. }
    destruct (Z.eq_dec (dropped a) (dropped b)) as [Heq | Hne].
    + (* a and b end at the same bit: the sum ends one bit higher *)
      assert (Hs1 : dropped (a + b) <= dropped a + 1).
      { assert (Hd : Zdigits2 (a + b) <= Zdigits2 a + 1).
        { apply Zdigits2_le; [pose proof (Zdigits2_nonneg a); lia |].
          pose proof (Zdigits2_gt a).
          rewrite Z.pow_add_r by (pose proof (Zdigits2_nonneg a); lia).
          change (2 ^ 1) with 2. lia. }
        unfold dropped in *. lia. }
      assert (Hks1 : dropped (a + b) = dropped b + 1) by lia.
      rewrite Hks1, Z.pow_add_r in He by lia. change (2 ^ 1) with 2 in He.
      apply (representable_multiple _ (dropped b) Hkb).
      * apply Z.divide_sub_r; [| exact Hda].
        apply Z.divide_trans with (2 ^ (dropped b + 1));
          [apply pow2_divide; lia | exact Hdx].
      * replace (dropped b + 53) with (53 + dropped b) by lia.
        rewrite pow2_split by lia.
        destruct Hdb as [wb Hwb].
        set (P := 2 ^ dropped b) in *.
        assert (Habs : Z.abs b = Z.abs wb * P)
          by (rewrite Hwb at 1; rewrite Z.abs_mul, (Z.abs_eq P) by lia; reflexivity).
        assert (Hwb' : Z.abs wb < 2 ^ 53).
        { destruct (Z.lt_ge_cases (Z.abs wb) (2 ^ 53)) as [H | H]; [exact H |].
          assert (2 ^ 53 * P <= Z.abs wb * P)
            by (apply Z.mul_le_mono_nonneg_r; lia).
          lia. }
        assert (Hb1 : (Z.abs wb + 1) * P <= 2 ^ 53 * P)
          by (apply Z.mul_le_mono_nonneg_r; lia).
        lia.
    + apply (representable_multiple _ (dropped b + 1) ltac:(lia)).
      * apply Z.divide_sub_r; [exact Hdx |].
        apply Z.divide_trans with (2 ^ dropped a);
          [apply pow2_divide; lia | exact Hdaa].
      * replace (dropped b + 1 + 53) with (1 + (53 + dropped b)) by lia.
        rewrite (pow2_split 1), (pow2_split 53) by lia.
        change (2 ^ 1) with 2. lia.
Qed.


Lemma round53_nonpos (z : Z) : z <= 0 -> round53 z <= 0.
Proof.
  intros H. pose proof (round53_nonneg (- z) ltac:(lia)) as Hn.
  rewrite round53_opp in Hn. lia.
Qed.

Lemma representable_double (z : Z) : representable z -> representable (2 * z).
Proof.
  unfold representable. intros H.
  replace (2 * z) with (z * 2 ^ 1) by (change (2 ^ 1) with 2; ring).
  rewrite round53_scale, H by lia. reflexivity.
Qed.

Lemma representable_small (z : Z) : Z.abs z < 2 ^ 53 -> representable z.
Proof. apply round53_small. Qed.

(** The digits of a sum: at most one more than those of the larger term. *)
Lemma dropped_sum (a b : Z) :
  Z.abs a <= Z.abs b -> dropped (a + b) <= dropped b + 1.
Proof.
  intros H.
  assert (Hd : Zdigits2 (a + b) <= Zdigits2 b + 1).
  { apply Zdigits2_le; [pose proof (Zdigits2_nonneg b); lia |].
    pose proof (Zdigits2_gt b).
    rewrite Z.pow_add_r by (pose proof (Zdigits2_nonneg b); lia).
    change (2 ^ 1) with 2. lia. }
  unfold dropped in *. lia.
Qed.

(** When [|a| <= |b|]: both [x - bvirt] and [b - bvirt] are representable,
    although [bvirt], the rounding of [x - a], may be inexact. *)
Lemma two_sum_virtual (a b : Z) :
  representable a -> representable b -> Z.abs a <= Z.abs b ->
  let x := round53 (a + b) in
  let bvirt := round53 (x - a) in
  representable (x - bvirt) /\ representable (b - bvirt).
Proof.
  intros Ha Hb Hab x bvirt.
  pose proof (dropped_nonneg a) as Hka. pose proof (dropped_nonneg b) as Hkb.
  pose proof (dropped_nonneg (a + b)) as Hks.
  pose proof (dropped_nonneg (x - a)) as Hkt.
  pose proof (dropped_mono a b Hab) as Hk.
  pose proof (dropped_sum a b Hab) as Hks1.
  pose proof (round53_nearest (a + b) b Hb) as Hn. fold x in Hn.
  pose proof (round53_nearest (x - a) b Hb) as Hnb. fold bvirt in Hnb.
  pose proof (round53_error (a + b)) as Hes. fold x in Hes.
  pose proof (round53_error (x - a)) as Het. fold bvirt in Het.
  assert (Hda : (2 ^ dropped a | a)) by (apply representable_divide; exact Ha).
  assert (Hdb : (2 ^ dropped b | b)) by (apply representable_divide; exact Hb).
  assert (Hdx : (2 ^ dropped (a + b) | x)) by apply round53_divide.
  assert (Hdv : (2 ^ dropped (x - a) | bvirt)) by apply round53_divide.
  destruct (Z.le_gt_cases (dropped (a + b)) (dropped a)) as [Hle | Hgt].
  - (* the sum is exact *)
    assert (Hs : representable (a + b)).
    { apply (representable_own_multiple _ (dropped a) Hle).
      apply Z.divide_add_r; [exact Hda |].
      apply Z.divide_trans with (2 ^ dropped b); [apply pow2_divide; lia | exact Hdb]. }
    assert (Hx : x = a + b) by exact Hs.
    assert (Hv : bvirt = b).
    { unfold bvirt. rewrite Hx. replace (a + b - a) with b by lia. exact Hb. }
    rewrite Hv, Hx. split.
    + replace (a + b - b) with a by lia. exact Ha.
    + replace (b - b) with 0 by lia. apply representable_0.
  - assert (Hps : 2 ^ dropped (a + b) <= 2 ^ (dropped b + 1))
      by (apply Z.pow_le_mono_r; lia).
    rewrite Z.pow_add_r in Hps by lia. change (2 ^ 1) with 2 in Hps.
    pose proof (pow2_pos _ Hkb) as Hpb. pose proof (pow2_pos _ Hka) as Hpa.
    split.
    + (* x - bvirt *)
      assert (Hsx : (0 <= a + b -> 0 <= x) /\ (a + b <= 0 -> x <= 0))
        by (split; [apply round53_nonneg | apply round53_nonpos]).
      pose proof (round53_nearest (a + b) (2 * a) (representable_double a Ha)) as Hn2.
      fold x in Hn2.
      assert (Hta : Z.abs a <= Z.abs (x - a)) by (clear - Hn2 Hsx Hab; lia).
      pose proof (dropped_mono a (x - a) Hta) as Hkta.
      pose proof (representable_bound a Ha) as Hba.
      destruct (Z.eq_dec (dropped (x - a)) (dropped a)) as [Heq | Hne].
      * rewrite Heq in Het, Hdv.
        assert (Hd : (2 ^ dropped a | x - bvirt)).
        { apply Z.divide_sub_r; [| exact Hdv].
          apply Z.divide_trans with (2 ^ dropped (a + b));
            [apply pow2_divide; lia | exact Hdx]. }
        destruct Hd as [w Hw]. destruct Hda as [wa Hwa].
        set (P := 2 ^ dropped a) in *.
        assert (Haa : Z.abs a = Z.abs wa * P)
          by (rewrite Hwa at 1; rewrite Z.abs_mul, (Z.abs_eq P) by lia; reflexivity).
        assert (Hww : Z.abs (x - bvirt) = Z.abs w * P)
          by (rewrite Hw, Z.abs_mul, (Z.abs_eq P) by lia; reflexivity).
        assert (Hwa53 : Z.abs wa < 2 ^ 53).
        { destruct (Z.lt_ge_cases (Z.abs wa) (2 ^ 53)) as [H | H]; [exact H |].
          assert (H1 : 2 ^ 53 * P <= Z.abs wa * P)
            by (apply Z.mul_le_mono_nonneg_r; [clear - Hpa; lia | exact H]).
          clear - H1 Haa Hba. lia. }
        assert (Hw53 : Z.abs w <= 2 ^ 53).
        { destruct (Z.le_gt_cases (Z.abs w) (Z.abs wa)) as [H | H];
            [clear - H Hwa53; lia |].
          assert (H1 : (Z.abs wa + 1) * P <= Z.abs w * P)
            by (apply Z.mul_le_mono_nonneg_r; clear - Hpa H; lia).
          clear - H1 Hww Haa Het Hpa. lia. }
        unfold representable. rewrite Hw. apply round53_exact; [exact Hw53 | lia].
      * apply (representable_multiple _ (dropped a + 1) ltac:(lia)).
        -- apply Z.divide_sub_r.
           ++ apply Z.divide_trans with (2 ^ dropped (a + b));
                [apply pow2_divide; lia | exact Hdx].
           ++ apply Z.divide_trans with (2 ^ dropped (x - a));
                [apply pow2_divide; lia | exact Hdv].
        -- replace (dropped a + 1 + 53) with (1 + (53 + dropped a)) by lia.
           rewrite (pow2_split 1), (pow2_split 53) by lia.
           change (2 ^ 1) with 2. clear - Hnb Hn Hba. lia.
    + (* b - bvirt *)
      destruct (Z.eq_dec (dropped b) 0) as [Hb0 | Hb0].
      * rewrite Hb0 in Hps. change (2 ^ 0) with 1 in Hps.
        apply representable_small.
        assert (H : 2 < 2 ^ 53) by reflexivity. clear - Hnb Hes Hps H. lia.
      * assert (Hdb53 : Zdigits2 b = dropped b + 53)
          by (clear - Hb0; unfold dropped in *; lia).
        assert (Hblo : 2 ^ (dropped b + 52) <= Z.abs b).
        { assert (Hbne : 0 < Z.abs b)
            by (destruct (Z.eq_dec b 0) as [-> | ]; [cbn in Hdb53; lia | lia]).
          destruct (Zdigits2_bounds (Z.abs b) Hbne) as [_ [Hlo _]].
          rewrite Zdigits2_abs in Hlo.
          replace (Zdigits2 b - 1) with (dropped b + 52) in Hlo by lia.
          exact Hlo. }
        assert (Hp52 : 2 ^ (dropped b + 52) = 2 * 2 ^ (dropped b + 51)).
        { replace (dropped b + 52) with (1 + (dropped b + 51)) by lia.
          rewrite pow2_split by lia. reflexivity. }
        assert (Hp51 : 2 ^ dropped b <= 2 ^ (dropped b + 51))
          by (apply Z.pow_le_mono_r; lia).
        assert (Htlo : 2 ^ (dropped b + 51) <= Z.abs (x - a))
          by (clear - Hblo Hp52 Hp51 Hes Hps; lia).
        pose proof (Zdigits2_lower (Z.abs (x - a)) (dropped b + 51) ltac:(lia) Htlo)
          as Hdt.
        rewrite Zdigits2_abs in Hdt.
        assert (Hkt1 : dropped b - 1 <= dropped (x - a))
          by (clear - Hdt Hdb53 Hb0; unfold dropped in *; lia).
        apply (representable_multiple _ (dropped b - 1) ltac:(lia)).
        -- apply Z.divide_sub_r.
           ++ apply Z.divide_trans with (2 ^ dropped b);
                [apply pow2_divide; lia | exact Hdb].
           ++ apply Z.divide_trans with (2 ^ dropped (x - a));
                [apply pow2_divide; lia | exact Hdv].
        -- assert (Hp : 2 * 2 ^ dropped b <= 2 ^ (dropped b - 1 + 53)).
           { replace (2 * 2 ^ dropped b) with (2 ^ (1 + dropped b))
               by (rewrite pow2_split by lia; reflexivity).
             apply Z.pow_le_mono_r; lia. }
           clear - Hnb Hes Hps Hp. lia.
Qed.

(** Two_Sum is exact: the tail is the rounding error of the sum. *)
Lemma two_sum_exact (a b : Z) :
  representable a -> representable b ->
  round53 (a + b) + two_sum_tail a b = a + b.
Proof.
  intros Ha Hb. unfold two_sum_tail.
  set (x := round53 (a + b)).
  pose proof (round53_sum_error a b Ha Hb) as He. fold x in He.
  assert (Hx : representable x) by apply representable_round53.
  destruct (Z.le_ge_cases (Z.abs b) (Z.abs a)) as [Hab | Hab].
  - pose proof (round53_sum_minus a b Ha Hb Hab) as Hv. fold x in Hv.
    rewrite Hv. replace (x - (x - a)) with a by lia. rewrite Ha.
    replace (a - a) with 0 by lia. rewrite round53_0, Z.add_0_l.
    replace (b - (x - a)) with (a + b - x) by lia.
    rewrite He, He. lia.
  - destruct (two_sum_virtual a b Ha Hb Hab) as [Hav Hbr].
    fold x in Hav, Hbr.
    set (bvirt := round53 (x - a)) in *.
    pose proof (round53_sum_error x (- a) Hx (representable_opp a Ha)) as Hd.
    replace (x + - a) with (x - a) in Hd by lia. fold bvirt in Hd.
    rewrite Hav, Hbr.
    replace (a - (x - bvirt)) with (- (x - a - bvirt)) by lia.
    rewrite (representable_opp _ Hd).
    replace (- (x - a - bvirt) + (b - bvirt)) with (a + b - x) by lia.
    rewrite He. lia.
Qed.




Lemma split_shape_pos (m : Z) :
  0 < m < 2 ^ 53 ->
  split_hi m + split_lo m = m /\
  (2 ^ half_bit m | split_hi m) /\
  2 * Z.abs (split_lo m) <= 2 ^ half_bit m /\
  (half_bit m = 0 -> split_lo m = 0).
Proof.
  intros Hm. destruct (split_detail m Hm) as ([u Hu] & Hdiff & Hlo & Hylo & _).
  set (y := round53 (134217729 * m) - m) in *.
  destruct (Zdigits2_bounds m ltac:(lia)) as [Hd [_ Hmhi]].
  set (d := Zdigits2 m) in *.
  assert (Hhb : half_bit m = Z.max (d - 26) 0) by reflexivity.
  pose proof (Zdigits2_lower y (d + 26) ltac:(lia) Hylo) as Hdy.
  pose proof (dropped_nonneg y) as Hk0.
  assert (Hk : half_bit m <= dropped y) by (unfold dropped; lia).
  assert (H53 : 2 ^ 53 = 9007199254740992) by reflexivity.
  (* y is at most 2^27 (m + 1) *)
  assert (Hyhi : y <= 2 ^ (d + 27)).
  { pose proof (round53_error (134217729 * m)) as He.
    assert (Hd1 : Zdigits2 (134217729 * m) <= 81).
    { apply Zdigits2_le; [lia |].
      change (2 ^ 81) with (268435456 * 2 ^ 53). lia. }
    assert (Hp : 2 ^ dropped (134217729 * m) <= 2 ^ 28)
      by (apply Z.pow_le_mono_r; unfold dropped; lia).
    change (2 ^ 28) with 268435456 in Hp.
    rewrite Z.add_comm, pow2_split by lia. change (2 ^ 27) with 134217728.
    unfold y. lia. }
  split; [lia |].
  split.
  { apply Z.divide_trans with (2 ^ dropped y); [apply pow2_divide; lia |].
    exists u. exact Hu. }
  rewrite Hlo, Hdiff.
  destruct (Z.eq_dec y (2 ^ (d + 27))) as [Hy | Hy].
  - assert (Hr : round53 y = y).
    { rewrite Hy. replace (2 ^ (d + 27)) with (1 * 2 ^ (d + 27)) by ring.
      apply round53_exact; [change (Z.abs 1) with 1 | ]; lia. }
    rewrite Hr. replace (y - y) with 0 by lia.
    pose proof (pow2_pos (half_bit m) ltac:(lia)). split; [cbn; lia | reflexivity].
  - assert (Hdy' : Zdigits2 y <= d + 27).
    { apply Zdigits2_le; [lia |].
      assert (0 < 2 ^ (d + 26)) by (apply pow2_pos; lia). lia. }
    assert (Hkeq : dropped y = half_bit m) by (unfold dropped in *; lia).
    pose proof (round53_error y) as He. rewrite Hkeq in He.
    split; [exact He |].
    intros H0. rewrite H0 in Hkeq. rewrite (round53_keeps y Hkeq). lia.
Qed.

Lemma half_bit_opp (m : Z) : half_bit (- m) = half_bit m.
Proof. unfold half_bit. rewrite Zdigits2_opp. reflexivity. Qed.

(** The shape of the halves: the high half is a multiple of the half bit,
    the low half at most a half of it. *)
Lemma split_shape (m : Z) :
  Z.abs m < 2 ^ 53 ->
  split_hi m + split_lo m = m /\
  (2 ^ half_bit m | split_hi m) /\
  2 * Z.abs (split_lo m) <= 2 ^ half_bit m /\
  (half_bit m = 0 -> split_lo m = 0).
Proof.
  intros Hm. destruct (Z.lt_trichotomy m 0) as [Hn | [-> | Hp]].
  - destruct (split_shape_pos (- m) ltac:(lia)) as (H1 & H2 & H3 & H4).
    destruct (split_opp m) as [E1 E2].
    rewrite half_bit_opp in *. rewrite E1, E2 in *.
    split; [lia |]. split; [apply Z.divide_opp_r; exact H2 |].
    split; [lia |]. intros H0. specialize (H4 H0). lia.
  - repeat split; try reflexivity; [exists 0; reflexivity | vm_compute; discriminate].
  - apply split_shape_pos. lia.
Qed.

(** The high half has at most 26 bits above the half bit. *)
Lemma split_hi_bound (m : Z) :
  Z.abs m < 2 ^ 53 ->
  Z.abs (split_hi m) <= 2 ^ (half_bit m + 26) /\
  Z.abs (split_hi m) <= 2 ^ Zdigits2 m.
Proof.
  intros Hm. destruct (split_shape m Hm) as (Hs & [w Hw] & Hl & _).
  pose proof (Zdigits2_gt m) as Hg. pose proof (Zdigits2_nonneg m) as Hd0.
  assert (Hα : 0 <= half_bit m <= Zdigits2 m) by (unfold half_bit; lia).
  pose proof (pow2_pos (half_bit m) ltac:(lia)) as Hp.
  assert (Hdα : 2 ^ Zdigits2 m = 2 ^ (Zdigits2 m - half_bit m) * 2 ^ half_bit m)
    by (rewrite <- pow2_split by lia; f_equal; lia).
  assert (Hhi : Z.abs (split_hi m) <= 2 ^ Zdigits2 m).
  { set (P := 2 ^ half_bit m) in *. set (Q := 2 ^ (Zdigits2 m - half_bit m)) in *.
    assert (Habs : Z.abs (split_hi m) = Z.abs w * P)
      by (rewrite Hw, Z.abs_mul, (Z.abs_eq P) by lia; reflexivity).
    destruct (Z.le_gt_cases (Z.abs w) Q) as [H | H].
    - rewrite Habs, Hdα. apply Z.mul_le_mono_nonneg_r; lia.
    - assert ((Q + 1) * P <= Z.abs w * P) by (apply Z.mul_le_mono_nonneg_r; lia).
      lia. }
  split; [| exact Hhi].
  apply Z.le_trans with (2 ^ Zdigits2 m); [exact Hhi |].
  apply Z.pow_le_mono_r; unfold half_bit; lia.
Qed.

Lemma abs_mul_pow (x y s t : Z) :
  0 <= s -> 0 <= t -> Z.abs x <= 2 ^ s -> Z.abs y <= 2 ^ t ->
  Z.abs (x * y) <= 2 ^ (s + t).
Proof.
  intros Hs Ht Hx Hy. rewrite Z.abs_mul, pow2_split by assumption.
  apply Z.mul_le_mono_nonneg; lia.
Qed.

Lemma pow2_le (x t n : Z) : 0 <= t <= n -> x <= 2 ^ t -> x <= 2 ^ n.
Proof.
  intros Ht Hx. assert (2 ^ t <= 2 ^ n) by (apply Z.pow_le_mono_r; lia). lia.
Qed.

(** The low half times anything: bounded by half the half bit. *)
Lemma low_mul_bound (lo h x t n : Z) :
  0 <= h -> 0 <= t ->
  2 * Z.abs lo <= 2 ^ h -> (h = 0 -> lo = 0) -> Z.abs x <= 2 ^ t ->
  h + t - 1 <= n -> 0 <= n ->
  Z.abs (lo * x) <= 2 ^ n.
Proof.
  intros Hh Ht Hlo H0 Hx Hn Hn0.
  destruct (Z.eq_dec h 0) as [Hz | Hnz].
  - rewrite (H0 Hz), Z.mul_0_l. pose proof (pow2_pos n Hn0). cbn. lia.
  - assert (Hlo' : Z.abs lo <= 2 ^ (h - 1)).
    { replace h with (1 + (h - 1)) in Hlo by lia.
      rewrite pow2_split in Hlo by lia. change (2 ^ 1) with 2 in Hlo. lia. }
    apply pow2_le with (h - 1 + t); [lia |].
    apply abs_mul_pow; try assumption; lia.
Qed.

(** The digits of a product. *)
Lemma Zdigits2_mul (a b : Z) :
  a <> 0 -> b <> 0 ->
  Zdigits2 a + Zdigits2 b - 1 <= Zdigits2 (a * b) <= Zdigits2 a + Zdigits2 b.
Proof.
  intros Ha Hb. split.
  - pose proof (Zdigits2_mul_lower (Z.abs a) (Z.abs b) ltac:(lia) ltac:(lia)) as H.
    rewrite <- Z.abs_mul, !Zdigits2_abs in H. exact H.
  - pose proof (Zdigits2_nonneg a). pose proof (Zdigits2_nonneg b).
    apply Zdigits2_le; [lia |].
    pose proof (Zdigits2_gt a) as Hga. pose proof (Zdigits2_gt b) as Hgb.
    rewrite Z.abs_mul, pow2_split by lia.
    apply Z.mul_lt_mono_nonneg; lia.
Qed.


(** ** [Two_Sum] on doubles *)


Lemma representable_units (x : tREAL) : valid x = true -> representable (units x).
Proof. apply round53_units. Qed.

(** A rounding that stays below [2^1024]. *)
Lemma round53_in_range (z n : Z) :
  0 <= n < 2098 -> Z.abs z < 2 ^ n ->
  Z.abs (round53 z) <= 2 ^ n /\ Z.abs (round53 z) < 2 ^ 2098.
Proof.
  intros Hn Hz. pose proof (round53_below z n ltac:(lia) Hz) as H.
  assert (H0 : 2 ^ n < 2 ^ 2098) by (apply Z.pow_lt_mono_r; lia).
  split; [exact H | exact (Z.le_lt_trans _ _ _ H H0)].
Qed.

Lemma round53_le (z d : Z) :
  0 <= d -> Z.abs z <= 2 ^ d -> Z.abs (round53 z) <= 2 ^ d.
Proof.
  intros Hd Hz. destruct (Z.eq_dec (Z.abs z) (2 ^ d)) as [He | Hne].
  - assert (Hz' : z = Z.sgn z * 2 ^ d)
      by (rewrite <- He; destruct (Z.sgn_spec z) as [[? ->] | [[? ->] | [? ->]]]; lia).
    rewrite Hz', round53_exact, <- Hz'; [exact Hz | | exact Hd].
    assert (H53 : 1 <= 2 ^ 53) by (vm_compute; discriminate).
    destruct (Z.sgn_spec z) as [[_ ->] | [[_ ->] | [_ ->]]]; simpl; lia.
  - apply round53_below; [exact Hd | lia].
Qed.

(** A bound below [2^1024], in units. *)
Lemma below_overflow (z k : Z) :
  0 <= k <= 2097 -> Z.abs z <= 2 ^ k -> Z.abs z < 2 ^ 2098.
Proof.
  intros Hk Hz. apply (Z.le_lt_trans _ _ _ Hz).
  apply Z.pow_lt_mono_r; lia.
Qed.

(** The magnitudes of the six roundings of [Two_Sum]. *)
Lemma two_sum_chain (A B n : Z) :
  0 <= n -> Z.abs A + Z.abs B <= 2 ^ n ->
  let X := round53 (A + B) in
  let BV := round53 (X - A) in
  let AV := round53 (X - BV) in
  let BR := round53 (B - BV) in
  let AR := round53 (A - AV) in
  Z.abs X <= 2 ^ n /\ Z.abs BV <= 2 ^ (n + 1) /\ Z.abs AV <= 2 ^ (n + 2) /\
  Z.abs BR <= 2 ^ (n + 2) /\ Z.abs AR <= 2 ^ (n + 3) /\
  Z.abs (round53 (AR + BR)) <= 2 ^ (n + 4).
Proof.
  intros Hn Hab X BV AV BR AR.
  assert (E1 : 2 ^ (n + 1) = 2 * 2 ^ n)
    by (rewrite Z.add_comm, pow2_split by lia; reflexivity).
  assert (E2 : 2 ^ (n + 2) = 4 * 2 ^ n)
    by (rewrite Z.add_comm, pow2_split by lia; reflexivity).
  assert (E3 : 2 ^ (n + 3) = 8 * 2 ^ n)
    by (rewrite Z.add_comm, pow2_split by lia; reflexivity).
  assert (E4 : 2 ^ (n + 4) = 16 * 2 ^ n)
    by (rewrite Z.add_comm, pow2_split by lia; reflexivity).
  pose proof (pow2_pos n Hn) as H0.
  assert (HX : Z.abs X <= 2 ^ n)
    by (apply round53_le; [exact Hn | clear - Hab; lia]).
  assert (HBV : Z.abs BV <= 2 ^ (n + 1))
    by (apply round53_le; [lia | clear - Hab HX E1; lia]).
  assert (HAV : Z.abs AV <= 2 ^ (n + 2))
    by (apply round53_le; [lia | clear - HX HBV E1 E2 H0; lia]).
  assert (HBR : Z.abs BR <= 2 ^ (n + 2))
    by (apply round53_le; [lia | clear - Hab HBV E1 E2 H0; lia]).
  assert (HAR : Z.abs AR <= 2 ^ (n + 3))
    by (apply round53_le; [lia | clear - Hab HAV E2 E3 H0; lia]).
  repeat (split; [assumption |]).
  apply round53_le; [lia | clear - HAR HBR E2 E3 E4 H0; lia].
Qed.

(** [Two_Sum], in units. *)
Lemma Two_Sum_units (a b : tREAL) :
  valid a = true -> valid b = true ->
  Dbl.is_finite a = true -> Dbl.is_finite b = true ->
  Z.abs (units a) + Z.abs (units b) <= 2 ^ 2090 ->
  (valid (fst (Two_Sum a b)) = true /\ Dbl.is_finite (fst (Two_Sum a b)) = true /\
   units (fst (Two_Sum a b)) = round53 (units a + units b)) /\
  (valid (snd (Two_Sum a b)) = true /\ Dbl.is_finite (snd (Two_Sum a b)) = true /\
   units (snd (Two_Sum a b)) = two_sum_tail (units a) (units b)).
Proof.
  intros Va Vb Fa Fb Hab. unfold Two_Sum. cbn [fst snd]. unfold two_sum_tail.
  destruct (two_sum_chain _ _ 2090 ltac:(clear; lia) Hab)
    as (BX & BBV & BAV & BBR & BAR & BY).
  clear Hab.
  assert (R0 : 0 <= 2090 <= 2097) by (clear; lia).
  assert (R1 : 0 <= 2090 + 1 <= 2097) by (clear; lia).
  assert (R2 : 0 <= 2090 + 2 <= 2097) by (clear; lia).
  assert (R3 : 0 <= 2090 + 3 <= 2097) by (clear; lia).
  assert (R4 : 0 <= 2090 + 4 <= 2097) by (clear; lia).
  apply (below_overflow _ _ R0) in BX. apply (below_overflow _ _ R1) in BBV.
  apply (below_overflow _ _ R2) in BAV. apply (below_overflow _ _ R2) in BBR.
  apply (below_overflow _ _ R3) in BAR. apply (below_overflow _ _ R4) in BY.
  clear R0 R1 R2 R3 R4.
  set (A := units a) in *. set (B := units b) in *.
  (* x = a + b *)
  destruct (add_spec a b Va Vb Fa Fb BX) as (Vx & Fx & Ux). fold A B in Ux.
  set (x := Dbl.add a b) in *. set (X := round53 (A + B)) in *.
  (* bvirt = x - a *)
  destruct (sub_spec x a Vx Va Fx Fa ltac:(rewrite Ux; exact BBV))
    as (Vbv & Fbv & Ubv).
  rewrite Ux in Ubv. fold A in Ubv.
  set (bvirt := Dbl.sub x a) in *. set (BV := round53 (X - A)) in *.
  (* avirt = x - bvirt *)
  destruct (sub_spec x bvirt Vx Vbv Fx Fbv ltac:(rewrite Ux, Ubv; exact BAV))
    as (Vav & Fav & Uav).
  rewrite Ux, Ubv in Uav.
  set (avirt := Dbl.sub x bvirt) in *. set (AV := round53 (X - BV)) in *.
  (* bround = b - bvirt *)
  destruct (sub_spec b bvirt Vb Vbv Fb Fbv ltac:(rewrite Ubv; exact BBR))
    as (Vbr & Fbr & Ubr).
  rewrite Ubv in Ubr. fold B in Ubr.
  set (bround := Dbl.sub b bvirt) in *. set (BR := round53 (B - BV)) in *.
  (* around = a - avirt *)
  destruct (sub_spec a avirt Va Vav Fa Fav ltac:(rewrite Uav; exact BAR))
    as (Var & Far & Uar).
  rewrite Uav in Uar. fold A in Uar.
  set (around := Dbl.sub a avirt) in *. set (AR := round53 (A - AV)) in *.
  (* y = around + bround *)
  destruct (add_spec around bround Var Vbr Far Fbr ltac:(rewrite Uar, Ubr; exact BY))
    as (Vy & Fy & Uy).
  rewrite Uar, Ubr in Uy.
  split; repeat split; assumption.
Qed.


(** ** The sums are exact within range *)

Lemma two_sum_tail_bound (a b : Z) :
  representable a -> representable b ->
  Z.abs (two_sum_tail a b) <= Z.abs a /\ Z.abs (two_sum_tail a b) <= Z.abs b.
Proof.
  intros Ha Hb. pose proof (two_sum_exact a b Ha Hb) as He.
  pose proof (round53_nearest (a + b) a Ha) as H1.
  pose proof (round53_nearest (a + b) b Hb) as H2.
  replace (two_sum_tail a b) with (a + b - round53 (a + b)) by lia.
  split; lia.
Qed.

(** [Two_Sum] on two doubles of magnitude at most [2^k]: no step
    overflows, the results add up to the sum of the operands, the sum is at
    most [2^(k+1)] and the tail at most [2^k]. *)
(** The scale of the units is not zero. *)
Lemma units_scale_nonzero : ~ (inject_Z (2 ^ 1074) == 0)%Q.
Proof.
  change 0%Q with (inject_Z 0). rewrite inject_Z_injective.
  pose proof (pow2_pos 1074 ltac:(lia)) as H. intros E. rewrite E in H.
  exact (Z.lt_irrefl _ H).
Qed.

Lemma Two_Sum_in_range (k : Z) (a b : tREAL) :
  -1074 <= k <= 1015 ->
  magnitude_le k a -> magnitude_le k b ->
  error_free_sum a b = true /\
  magnitude_le (k + 1) (fst (Two_Sum a b)) /\
  magnitude_le k (snd (Two_Sum a b)).
Proof.
  intros Hk (Va & Fa & Ba) (Vb & Fb & Bb).
  assert (Hp : 2 ^ (k + 1 + 1074) = 2 * 2 ^ (k + 1074)).
  { replace (k + 1 + 1074) with (1 + (k + 1074)) by lia.
    rewrite pow2_split by lia. reflexivity. }
  assert (Hs : Z.abs (units a) + Z.abs (units b) <= 2 ^ (k + 1 + 1074))
    by (clear - Ba Bb Hp; lia).
  assert (Hr : Z.abs (units a) + Z.abs (units b) <= 2 ^ 2090)
    by (apply (Z.le_trans _ _ _ Hs); apply Z.pow_le_mono_r; clear - Hk; lia).
  destruct (Two_Sum_units a b Va Vb Fa Fb Hr)
    as ((Vx & Fx & Ux) & (Vy & Fy & Uy)).
  clear Hr.
  pose proof (representable_units a Va) as Ra.
  pose proof (representable_units b Vb) as Rb.
  split; [| split].
  - unfold error_free_sum.
    destruct (Two_Sum a b) as [x y]. cbn [fst snd] in *.
    rewrite Fa, Fb, Fx, Fy. cbn [andb]. apply Qeq_bool_iff.
    apply (Qmult_inj_r _ _ _ units_scale_nonzero).
    rewrite !Qmult_plus_distr_l, !value_units by assumption.
    rewrite <- !inject_Z_plus, Ux, Uy.
    rewrite two_sum_exact by assumption. reflexivity.
  - split; [exact Vx | split; [exact Fx |]]. rewrite Ux.
    apply round53_le; [clear - Hk; lia |].
    apply (Z.le_trans _ _ _ (Z.abs_triangle _ _)). exact Hs.
  - split; [exact Vy | split; [exact Fy |]]. rewrite Uy.
    destruct (two_sum_tail_bound _ _ Ra Rb) as [H1 _].
    exact (Z.le_trans _ _ _ H1 Ba).
Qed.

Lemma magnitude_le_weaken (k k' : Z) (x : tREAL) :
  magnitude_le k x -> -1074 <= k <= k' -> magnitude_le k' x.
Proof.
  intros (V & F & B) Hk. split; [exact V | split; [exact F |]].
  assert (2 ^ (k + 1074) <= 2 ^ (k' + 1074)) by (apply Z.pow_le_mono_r; lia).
  lia.
Qed.

Lemma grow_expansion_in_range (k elen : Z) (e : buf) (b : tREAL) :
  0 <= elen -> -1074 <= k -> k + elen <= 1016 ->
  magnitude_le k b ->
  (forall i, 0 <= i < elen -> magnitude_le k (e i)) ->
  grow_expansion_error_free elen e b = true.
Proof.
  intros He Hk Hr Hb Hcells. unfold grow_expansion_error_free.
  loop_with (fun (j : Z) (t : tREAL * bool) =>
               0 <= j /\ snd t = true /\ magnitude_le (k + j) (fst t)).
  { cbn [fst snd]. split; [lia | split; [reflexivity |]].
    replace (k + 0) with k by lia. exact Hb. }
  { intros j [Q ok] Hj (_ & Hok & HQ). cbn [fst snd] in Hok, HQ. subst ok.
    destruct (Two_Sum_in_range (k + j) Q (e j) ltac:(lia) HQ)
      as (Hef & Hx & _).
    { apply (magnitude_le_weaken k); [apply Hcells; lia | lia]. }
    destruct (Two_Sum Q (e j)) as [Qnew hh]. cbn [fst snd] in *.
    split; [lia | split].
    - rewrite Hef. reflexivity.
    - replace (k + (j + 1)) with (k + j + 1) by lia. exact Hx. }
  destruct t as [Q ok]. cbn [fst snd] in Hinv. apply Hinv.
Qed.

(** X18. [grow_expansion] is exact on operands in range: when [b] and
    the [elen >= 1] components of [e] are finite and of magnitude at most
    [2^k], with [-1074 <= k] and [k + elen <= 1016], the components it
    returns are finite and their exact sum is the sum of [e] plus [b].  No
    other condition is needed: [e] need not be sorted or nonoverlapping. *)
Theorem grow_expansion_exact_in_range (k elen : Z) (e : buf) (b : tREAL)
  (h : buf) :
  1 <= elen -> -1074 <= k -> k + elen <= 1016 ->
  magnitude_le k b ->
  (forall i, 0 <= i < elen -> magnitude_le k (e i)) ->
  let r := grow_expansion elen e b h in
  expansion_finite (fst r) (snd r) = true /\
  (expansion_value (fst r) (snd r)
   == expansion_value elen e + Dbl.value b)%Q.
Proof.
  intros He Hk Hr Hb Hcells.
  apply grow_expansion_exact; [exact He |].
  apply (grow_expansion_in_range k); try assumption. lia.
Qed.

Lemma grow_expansion_exact_in_range_witness :
  let r := grow_expansion 2 e_demo tenth local in
  expansion_finite (fst r) (snd r) = true /\
  (expansion_value (fst r) (snd r)
   == expansion_value 2 e_demo + Dbl.value tenth)%Q.
Proof.
  apply (grow_expansion_exact_in_range 0 2 e_demo tenth local).
  - lia.
  - lia.
  - lia.
  - unfold magnitude_le. repeat split; vm_compute; congruence.
  - intros i Hi. assert (Hc : i = 0 \/ i = 1) by lia.
    destruct Hc as [-> | ->]; unfold magnitude_le;
      repeat split; vm_compute; congruence.
Defined.

Lemma expansion_sum_in_range (k elen : Z) (e : buf) (flen : Z) (f : buf)
  (h : buf) :
  1 <= elen -> 1 <= flen -> -1074 <= k -> k + elen * flen <= 1016 ->
  (forall i, 0 <= i < elen -> magnitude_le k (e i)) ->
  (forall i, 0 <= i < flen -> magnitude_le k (f i)) ->
  expansion_sum_error_free elen e flen f h = true.
Proof.
  intros He Hf Hk Hr Hce Hcf. unfold expansion_sum_error_free.
  assert (Hef : elen <= elen * flen) by nia.
  (* the first phase *)
  loop_with (fun (j : Z) (t : tREAL * buf * bool) =>
               0 <= j /\ snd t = true /\
               magnitude_le (k + j) (fst (fst t)) /\
               forall i, 0 <= i < j -> magnitude_le (k + j) (snd (fst t) i)).
  { cbn [fst snd]. split; [lia | split; [reflexivity | split]].
    - replace (k + 0) with k by lia. apply Hcf. lia.
    - intros i Hi. lia. }
  { intros j [[Q g] ok] Hj (_ & Hok & HQ & Hg). cbn [fst snd] in Hok, HQ, Hg.
    subst ok.
    destruct (Two_Sum_in_range (k + j) Q (e j) ltac:(lia) HQ)
      as (Hfree & Hx & Hy).
    { apply (magnitude_le_weaken k); [apply Hce; lia | lia]. }
    destruct (Two_Sum Q (e j)) as [Qnew hh]. cbn [fst snd] in *.
    replace (k + (j + 1)) with (k + j + 1) by lia.
    split; [lia | split; [rewrite Hfree; reflexivity | split; [exact Hx |]]].
    intros i Hi. destruct (Z.eq_dec i j) as [-> | Hne].
    - rewrite upd_same. apply (magnitude_le_weaken (k + j)); [exact Hy | lia].
    - rewrite upd_other by exact Hne.
      apply (magnitude_le_weaken (k + j)); [apply Hg; lia | lia]. }
  destruct t as [[Q g] ok]. cbn [fst snd] in Hinv.
  destruct Hinv as (_ & Hok & HQ & Hg). subst ok.
  replace (Z.max 0 elen) with elen in * by lia.
  (* the passes of the second phase *)
  loop_with (fun (p : Z) (t : Z * buf * bool) =>
               fst (fst t) = elen + p - 1 /\ snd t = true /\
               forall i, 0 <= i <= elen + p - 1 ->
                         magnitude_le (k + p * elen) (snd (fst t) i)).
  { cbn [fst snd]. split; [lia | split; [reflexivity |]].
    intros i Hi. replace (k + 1 * elen) with (k + elen) by lia.
    destruct (Z.eq_dec i elen) as [-> | Hne].
    - rewrite upd_same. exact HQ.
    - rewrite upd_other by exact Hne. apply Hg. lia. }
  { intros p [[hlast g1] ok] Hp (Hl & Hok & Hg1).
    cbn [fst snd] in Hl, Hok, Hg1. subst ok hlast.
    assert (Hpe : (p + 1) * elen <= elen * flen) by nia.
    assert (Hpe0 : 0 <= p * elen) by nia.
    set (L := k + p * elen) in *.
    loop_with (fun (j : Z) (t : tREAL * buf * bool) =>
                 p <= j /\ snd t = true /\
                 magnitude_le (L + (j - p)) (fst (fst t)) /\
                 forall i, 0 <= i <= elen + p - 1 ->
                           magnitude_le (L + (j - p)) (snd (fst t) i)).
    { cbn [fst snd]. split; [lia | split; [reflexivity |]].
      replace (L + (p - p)) with L by lia. split; [| exact Hg1].
      apply (magnitude_le_weaken k); [apply Hcf; lia | lia]. }
    { intros j [[Q1 g2] ok] Hj (_ & Hok & HQ1 & Hg2).
      cbn [fst snd] in Hok, HQ1, Hg2. subst ok.
      destruct (Two_Sum_in_range (L + (j - p)) Q1 (g2 j) ltac:(lia) HQ1)
        as (Hfree & Hx & Hy).
      { apply Hg2. lia. }
      destruct (Two_Sum Q1 (g2 j)) as [Qnew hh]. cbn [fst snd] in *.
      replace (L + (j + 1 - p)) with (L + (j - p) + 1) by lia.
      split; [lia | split; [rewrite Hfree; reflexivity | split; [exact Hx |]]].
      intros i Hi. destruct (Z.eq_dec i j) as [-> | Hne].
      - rewrite upd_same.
        apply (magnitude_le_weaken (L + (j - p))); [exact Hy | lia].
      - rewrite upd_other by exact Hne.
        apply (magnitude_le_weaken (L + (j - p))); [apply Hg2; lia | lia]. }
    destruct t as [[Q1 g2] ok]. cbn [fst snd] in Hinv.
    destruct Hinv as (_ & Hok & HQ1 & Hg2). subst ok.
    replace (Z.max p (elen + p - 1 + 1)) with (elen + p) in * by lia.
    replace (L + (elen + p - p)) with (k + (p + 1) * elen) in *
      by (unfold L; ring).
    cbn [fst snd]. split; [lia | split; [reflexivity |]].
    intros i Hi. destruct (Z.eq_dec i (elen + p - 1 + 1)) as [-> | Hne].
    - rewrite upd_same. exact HQ1.
    - rewrite upd_other by exact Hne. apply Hg2. lia. }
  destruct t as [[hlast g1] ok]. cbn [fst snd] in Hinv. apply Hinv.
Qed.

(** X19. [expansion_sum] is exact on operands in range: when the
    components of [e] and of [f] are finite and of magnitude at most [2^k],
    with [-1074 <= k] and [k + elen * flen <= 1016], the components it
    returns are finite and their exact sum is the sum of [e] plus the sum
    of [f]. *)
Theorem expansion_sum_exact_in_range (k elen : Z) (e : buf) (flen : Z)
  (f : buf) (h : buf) :
  1 <= elen -> 1 <= flen -> -1074 <= k -> k + elen * flen <= 1016 ->
  (forall i, 0 <= i < elen -> magnitude_le k (e i)) ->
  (forall i, 0 <= i < flen -> magnitude_le k (f i)) ->
  let r := expansion_sum elen e flen f h in
  expansion_finite (fst r) (snd r) = true /\
  (expansion_value (fst r) (snd r)
   == expansion_value elen e + expansion_value flen f)%Q.
Proof.
  intros He Hf Hk Hr Hce Hcf.
  apply expansion_sum_exact; [exact He | exact Hf |].
  apply (expansion_sum_in_range k); assumption.
Qed.

Lemma expansion_sum_exact_in_range_witness :
  let r := expansion_sum 2 e_demo 2 f_demo local in
  expansion_finite (fst r) (snd r) = true /\
  (expansion_value (fst r) (snd r)
   == expansion_value 2 e_demo + expansion_value 2 f_demo)%Q.
Proof.
  apply (expansion_sum_exact_in_range 3 2 e_demo 2 f_demo local).
  - lia.
  - lia.
  - lia.
  - lia.
  - intros i Hi. assert (Hc : i = 0 \/ i = 1) by lia.
    destruct Hc as [-> | ->]; unfold magnitude_le;
      repeat split; vm_compute; congruence.
  - intros i Hi. assert (Hc : i = 0 \/ i = 1) by lia.
    destruct Hc as [-> | ->]; unfold magnitude_le;
      repeat split; vm_compute; congruence.
Defined.
(** ** The product of two doubles *)

Lemma low_mul_small (lo h x t n : Z) :
  0 <= h -> 0 <= t ->
  2 * Z.abs lo <= 2 ^ h -> (h = 0 -> lo = 0) -> Z.abs x <= 2 ^ t ->
  (1 <= h -> h + t - 1 <= n) -> 0 <= n ->
  Z.abs (lo * x) <= 2 ^ n.
Proof.
  intros Hh Ht Hlo H0 Hx Hn Hn0.
  destruct (Z.eq_dec h 0) as [Hz | Hnz].
  - rewrite (H0 Hz), Z.mul_0_l. pose proof (pow2_pos n Hn0). cbn. lia.
  - apply (low_mul_bound lo h x t n); try assumption. apply Hn. lia.
Qed.

Lemma divide_mul_both (p q x y : Z) : (p | x) -> (q | y) -> (p * q | x * y).
Proof.
  intros [u Hu] [v Hv]. exists (u * v). rewrite Hu, Hv. ring.
Qed.

Lemma sum3_small (e p q T : Z) :
  2 * Z.abs e <= 2 * T -> Z.abs p <= T -> Z.abs q <= T ->
  Z.abs (e + (p + q)) <= 4 * T.
Proof. lia. Qed.

Lemma sum2_small (e p T : Z) :
  2 * Z.abs e <= T -> Z.abs p <= T -> Z.abs (e + p) <= 2 * T.
Proof. lia. Qed.

Lemma pow2_succ (n : Z) : 0 <= n -> 2 ^ (n + 1) = 2 * 2 ^ n.
Proof.
  intros Hn. rewrite Z.add_comm, pow2_split by lia. reflexivity.
Qed.

Lemma pow2_succ2 (n : Z) : 0 <= n -> 2 ^ (n + 2) = 4 * 2 ^ n.
Proof.
  intros Hn. rewrite Z.add_comm, pow2_split by lia. reflexivity.
Qed.

(** The exponents of Dekker's product: [da] and [db] digits, the halves
    split at [α] and [β], the product losing [k] bits. *)
Lemma dekker_exponents (da db dab α β k : Z) :
  1 <= da <= 53 -> 1 <= db <= 53 -> da + db - 1 <= dab <= da + db ->
  α = Z.max (da - 26) 0 -> β = Z.max (db - 26) 0 ->
  k = Z.max (dab - 53) 0 ->
  (0 <= α <= 27 /\ 0 <= β <= 27 /\ 0 <= k <= 53) /\
  (k <= Z.min k (α + β) + 52 /\
   (1 <= β -> da + β - 1 <= Z.min k (α + β) + 51) /\
   (1 <= α -> α + db - 1 <= Z.min k (α + β) + 51)) /\
  (k <= Z.min k β + 51 /\
   (1 <= β -> da + β - 1 <= Z.min k β + 52)).
Proof. lia. Qed.

Section Dekker.

Variables a b ah al bh bl x : Z.
Variables da db α β k : Z.
Hypothesis Ea : ah + al = a.
Hypothesis Eb : bh + bl = b.
Hypothesis Dah : (2 ^ α | ah).
Hypothesis Dbh : (2 ^ β | bh).
Hypothesis Lal : 2 * Z.abs al <= 2 ^ α.
Hypothesis Lbl : 2 * Z.abs bl <= 2 ^ β.
Hypothesis Zal : α = 0 -> al = 0.
Hypothesis Zbl : β = 0 -> bl = 0.
Hypothesis Bah : Z.abs ah <= 2 ^ (α + 26).
Hypothesis Bbh : Z.abs bh <= 2 ^ (β + 26).
Hypothesis Bbh' : Z.abs bh <= 2 ^ db.
Hypothesis Ba : Z.abs a <= 2 ^ da.
Hypothesis Rα : 0 <= α <= 27.
Hypothesis Rβ : 0 <= β <= 27.
Hypothesis Rk : 0 <= k <= 53.
Hypothesis Rda : 1 <= da <= 53.
Hypothesis Rdb : 1 <= db <= 53.
Hypothesis X1 : k <= Z.min k (α + β) + 52.
Hypothesis X2 : 1 <= β -> da + β - 1 <= Z.min k (α + β) + 51.
Hypothesis X3 : 1 <= α -> α + db - 1 <= Z.min k (α + β) + 51.
Hypothesis X4 : k <= Z.min k β + 51.
Hypothesis X5 : 1 <= β -> da + β - 1 <= Z.min k β + 52.
Hypothesis Ex : 2 * Z.abs (x - a * b) <= 2 ^ k.
Hypothesis Dx : (2 ^ k | x).

Lemma dekker_hh : representable (ah * bh).
Proof.
  apply (representable_multiple _ (α + β)); [lia | |].
  - rewrite pow2_split by lia. apply divide_mul_both; assumption.
  - replace (α + β + 53) with ((α + 26) + (β + 27)) by lia.
    apply abs_mul_pow; [lia | lia | exact Bah |].
    apply pow2_le with (β + 26); [lia | exact Bbh].
Qed.

Lemma dekker_lh : representable (al * bh).
Proof.
  apply (representable_multiple _ β); [lia | |].
  - apply Z.divide_mul_r. exact Dbh.
  - apply (low_mul_small al α bh (β + 26)); try assumption; lia.
Qed.

Lemma dekker_hl : representable (ah * bl).
Proof.
  apply (representable_multiple _ α); [lia | |].
  - apply Z.divide_mul_l. exact Dah.
  - rewrite Z.mul_comm.
    apply (low_mul_small bl β ah (α + 26)); try assumption; lia.
Qed.

Lemma dekker_ll_bound : Z.abs (al * bl) <= 2 ^ 52.
Proof.
  assert (Hal : Z.abs al <= 2 ^ 26).
  { assert (H : 2 ^ α <= 2 ^ 27) by (apply Z.pow_le_mono_r; lia).
    change (2 ^ 27) with (2 * 2 ^ 26) in H. clear - H Lal. lia. }
  assert (Hbl : Z.abs bl <= 2 ^ 26).
  { assert (H : 2 ^ β <= 2 ^ 27) by (apply Z.pow_le_mono_r; lia).
    change (2 ^ 27) with (2 * 2 ^ 26) in H. clear - H Lbl. lia. }
  change 52 with (26 + 26). apply abs_mul_pow; [lia | lia | |]; assumption.
Qed.

Lemma dekker_ll : representable (al * bl).
Proof.
  apply representable_small. pose proof dekker_ll_bound as H.
  assert (H52 : 2 ^ 52 < 2 ^ 53) by reflexivity. clear - H H52. lia.
Qed.

Lemma dekker_error (n : Z) : k <= n -> 2 * Z.abs (x - a * b) <= 2 ^ n.
Proof. intros Hn. apply pow2_le with k; [lia | exact Ex]. Qed.

Lemma dekker_a_bl (n : Z) :
  0 <= n -> (1 <= β -> da + β - 1 <= n) -> Z.abs (a * bl) <= 2 ^ n.
Proof.
  intros Hn0 Hn. rewrite Z.mul_comm.
  apply (low_mul_small bl β a da); try assumption; lia.
Qed.

Lemma dekker_al_bh (n : Z) :
  0 <= n -> (1 <= α -> α + db - 1 <= n) -> Z.abs (al * bh) <= 2 ^ n.
Proof.
  intros Hn0 Hn.
  apply (low_mul_small al α bh db); try assumption; lia.
Qed.

Lemma dekker_id1 : x - ah * bh = (x - a * b) + (a * bl + al * bh).
Proof. rewrite <- Ea, <- Eb. ring. Qed.

Lemma dekker_id2 : x - ah * bh - al * bh = (x - a * b) + a * bl.
Proof. rewrite <- Ea, <- Eb. ring. Qed.

Lemma dekker_id3 : x - ah * bh - al * bh - ah * bl = (x - a * b) + al * bl.
Proof. rewrite <- Ea, <- Eb. ring. Qed.

Lemma dekker_err1 : representable (x - ah * bh).
Proof.
  set (M := Z.min k (α + β)) in *.
  assert (HM : 0 <= M /\ M <= k /\ M <= α + β) by (unfold M; lia).
  apply (representable_multiple _ M); [lia | |].
  - apply Z.divide_sub_r.
    + apply Z.divide_trans with (2 ^ k); [apply pow2_divide; lia | exact Dx].
    + apply Z.divide_trans with (2 ^ (α + β)); [apply pow2_divide; lia |].
      rewrite pow2_split by lia. apply divide_mul_both; assumption.
  - rewrite dekker_id1.
    replace (M + 53) with (M + 51 + 2) by lia. rewrite pow2_succ2 by lia.
    apply sum3_small.
    + rewrite <- pow2_succ by lia. apply dekker_error. lia.
    + apply dekker_a_bl; [lia | exact X2].
    + apply dekker_al_bh; [lia | exact X3].
Qed.

Lemma dekker_err2 : representable (x - ah * bh - al * bh).
Proof.
  set (M := Z.min k β) in *.
  assert (HM : 0 <= M /\ M <= k /\ M <= β) by (unfold M; lia).
  apply (representable_multiple _ M); [lia | |].
  - apply Z.divide_sub_r; [apply Z.divide_sub_r |].
    + apply Z.divide_trans with (2 ^ k); [apply pow2_divide; lia | exact Dx].
    + apply Z.divide_mul_r.
      apply Z.divide_trans with (2 ^ β); [apply pow2_divide; lia | exact Dbh].
    + apply Z.divide_mul_r.
      apply Z.divide_trans with (2 ^ β); [apply pow2_divide; lia | exact Dbh].
  - rewrite dekker_id2.
    replace (M + 53) with (M + 52 + 1) by lia. rewrite pow2_succ by lia.
    apply sum2_small.
    + replace (M + 52) with (M + 51 + 1) by lia. rewrite pow2_succ by lia.
      assert (H := dekker_error (M + 51) X4). clear - H. lia.
    + apply dekker_a_bl; [lia | exact X5].
Qed.

Lemma dekker_err3 : representable (x - ah * bh - al * bh - ah * bl).
Proof.
  apply (representable_multiple _ 0); [lia | apply Z.divide_1_l |].
  rewrite dekker_id3.
  assert (H1 := dekker_error 53 ltac:(lia)).
  assert (H2 := dekker_ll_bound).
  change (2 ^ (0 + 53)) with (2 * 2 ^ 52). change (2 ^ 53) with (2 * 2 ^ 52) in H1.
  clear - H1 H2. lia.
Qed.

Lemma dekker_tail : representable (a * b - x).
Proof.
  apply representable_small.
  assert (H1 := dekker_error 53 ltac:(lia)).
  change (2 ^ 53) with (2 * 2 ^ 52) in *. clear - H1. lia.
Qed.

(** The chain of [Two_Product_Presplit] rounds nowhere. *)
Lemma dekker_chain :
  round53 (round53 (al * bl)
           - round53 (round53 (round53 (x - round53 (ah * bh))
                               - round53 (al * bh))
                      - round53 (ah * bl)))
  = a * b - x.
Proof using All.
  rewrite dekker_hh, dekker_lh, dekker_hl, dekker_ll.
  rewrite dekker_err1, dekker_err2, dekker_err3.
  replace (al * bl - (x - ah * bh - al * bh - ah * bl)) with (a * b - x)
    by (rewrite dekker_id3; ring).
  apply dekker_tail.
Qed.

(** Every step of the chain, together. *)
Lemma dekker_steps :
  representable (ah * bh) /\ representable (al * bh) /\
  representable (ah * bl) /\ representable (al * bl) /\
  representable (x - ah * bh) /\
  representable (x - ah * bh - al * bh) /\
  representable (x - ah * bh - al * bh - ah * bl) /\
  representable (a * b - x).
Proof using All.
  split; [apply dekker_hh |]. split; [apply dekker_lh |].
  split; [apply dekker_hl |]. split; [apply dekker_ll |].
  split; [apply dekker_err1 |]. split; [apply dekker_err2 |].
  split; [apply dekker_err3 | apply dekker_tail].
Qed.

End Dekker.


Lemma digits_range (a : Z) :
  a <> 0 -> Z.abs a < 2 ^ 53 -> 1 <= Zdigits2 a <= 53.
Proof.
  intros Ha0 Ha. split.
  - pose proof (Zdigits2_lower (Z.abs a) 0 ltac:(lia)) as H.
    rewrite Zdigits2_abs in H. apply H. change (2 ^ 0) with 1. lia.
  - apply Zdigits2_le; [lia | exact Ha].
Qed.

(** Dekker's product is exact: the tail is the rounding error of
    [a * b]. *)
Lemma two_product_exact (a b : Z) :
  Z.abs a < 2 ^ 53 -> Z.abs b < 2 ^ 53 ->
  round53 (a * b) + two_product_tail a b = a * b.
Proof.
  intros Ha Hb.
  assert (S0 : split_hi 0 = 0) by (vm_compute; reflexivity).
  assert (L0 : split_lo 0 = 0) by (vm_compute; reflexivity).
  destruct (Z.eq_dec a 0) as [-> | Ha0].
  { unfold two_product_tail. rewrite S0, L0, !Z.mul_0_l, !round53_0.
    vm_compute. reflexivity. }
  destruct (Z.eq_dec b 0) as [-> | Hb0].
  { unfold two_product_tail. rewrite S0, L0, !Z.mul_0_r, !round53_0.
    vm_compute. reflexivity. }
  destruct (split_shape a Ha) as (Hsa & Hda & Hla & Hza).
  destruct (split_shape b Hb) as (Hsb & Hdb & Hlb & Hzb).
  destruct (split_hi_bound a Ha) as (Hha & _).
  destruct (split_hi_bound b Hb) as (Hhb & Hhb').
  pose proof (Zdigits2_mul a b Ha0 Hb0) as Hdab.
  pose proof (digits_range a Ha0 Ha) as Rda.
  pose proof (digits_range b Hb0 Hb) as Rdb.
  pose proof (Zdigits2_gt a) as Hga.
  destruct (dekker_exponents (Zdigits2 a) (Zdigits2 b) (Zdigits2 (a * b))
              (half_bit a) (half_bit b) (dropped (a * b))
              Rda Rdb Hdab eq_refl eq_refl eq_refl)
    as ((Rα & Rβ & Rk) & (X1 & X2 & X3) & (X4 & X5)).
  unfold two_product_tail. cbv zeta.
  rewrite (dekker_chain a b (split_hi a) (split_lo a) (split_hi b) (split_lo b)
             (round53 (a * b)) (Zdigits2 a) (Zdigits2 b)
             (half_bit a) (half_bit b) (dropped (a * b)));
    try assumption.
  - ring.
  - apply Z.lt_le_incl. exact Hga.
  - apply round53_error.
  - apply round53_divide.
Qed.


Lemma digits_half (m : Z) : m <> 0 -> 2 ^ Zdigits2 m <= 2 * Z.abs m.
Proof.
  intros Hm. destruct (Zdigits2_bounds (Z.abs m) ltac:(lia)) as (Hd & Hlo & _).
  rewrite Zdigits2_abs in Hd, Hlo.
  replace (Zdigits2 m) with (Zdigits2 m - 1 + 1) at 1 by lia.
  rewrite pow2_succ by lia. lia.
Qed.

(** The halves are no larger than twice the operand, and than the operand. *)
Lemma split_hi_le (m : Z) :
  Z.abs m < 2 ^ 53 -> Z.abs (split_hi m) <= 2 * Z.abs m.
Proof.
  intros Hm. destruct (Z.eq_dec m 0) as [-> | Hm0].
  - vm_compute. discriminate.
  - destruct (split_hi_bound m Hm) as (_ & H). pose proof (digits_half m Hm0).
    lia.
Qed.

Lemma split_lo_le (m : Z) :
  Z.abs m < 2 ^ 53 -> Z.abs (split_lo m) <= Z.abs m.
Proof.
  intros Hm. destruct (Z.eq_dec m 0) as [-> | Hm0].
  - vm_compute. discriminate.
  - destruct (split_shape m Hm) as (_ & _ & Hl & _).
    pose proof (digits_half m Hm0) as Hd.
    pose proof (Zdigits2_nonneg m) as Hn.
    assert (2 ^ half_bit m <= 2 ^ Zdigits2 m)
      by (apply Z.pow_le_mono_r; unfold half_bit; lia).
    lia.
Qed.

(** Rounding moves a value by no more than the value. *)
Lemma round53_error_le (z : Z) : Z.abs (round53 z - z) <= Z.abs z.
Proof.
  pose proof (round53_nearest z 0 representable_0) as H.
  replace (0 - z) with (- z) in H by lia. rewrite Z.abs_opp in H. exact H.
Qed.

Lemma abs_mul_le (x y p q : Z) :
  Z.abs x <= p -> Z.abs y <= q -> Z.abs (x * y) <= p * q.
Proof.
  intros Hx Hy. rewrite Z.abs_mul. apply Z.mul_le_mono_nonneg; lia.
Qed.

Lemma abs_add_le (x y p q : Z) :
  Z.abs x <= p -> Z.abs y <= q -> Z.abs (x + y) <= p + q.
Proof. lia. Qed.

(** Every step of the product of two 53-bit integers is exact, and none
    exceeds four times the product. *)
Lemma two_product_steps (a b : Z) :
  Z.abs a < 2 ^ 53 -> Z.abs b < 2 ^ 53 ->
  let ah := split_hi a in let al := split_lo a in
  let bh := split_hi b in let bl := split_lo b in
  let x := round53 (a * b) in
  let n := Z.abs (a * b) in
  (representable (ah * bh) /\ Z.abs (ah * bh) <= 4 * n) /\
  (representable (al * bh) /\ Z.abs (al * bh) <= 4 * n) /\
  (representable (ah * bl) /\ Z.abs (ah * bl) <= 4 * n) /\
  (representable (al * bl) /\ Z.abs (al * bl) <= 4 * n) /\
  (representable (x - ah * bh) /\ Z.abs (x - ah * bh) <= 4 * n) /\
  (representable (x - ah * bh - al * bh) /\
   Z.abs (x - ah * bh - al * bh) <= 4 * n) /\
  (representable (x - ah * bh - al * bh - ah * bl) /\
   Z.abs (x - ah * bh - al * bh - ah * bl) <= 4 * n) /\
  (representable (a * b - x) /\ Z.abs (a * b - x) <= 4 * n) /\
  Z.abs x <= 4 * n.
Proof.
  intros Ha Hb.
  assert (S0 : split_hi 0 = 0) by (vm_compute; reflexivity).
  assert (L0 : split_lo 0 = 0) by (vm_compute; reflexivity).
  assert (Z0 : forall z, z = 0 -> representable z /\ Z.abs z <= 4 * Z.abs 0).
  { intros z ->. split; [apply representable_0 | vm_compute; discriminate]. }
  destruct (Z.eq_dec a 0) as [-> | Ha0].
  { cbv zeta. rewrite S0, L0, !Z.mul_0_l, round53_0.
    repeat (split; [apply Z0; ring |]). vm_compute. discriminate. }
  destruct (Z.eq_dec b 0) as [-> | Hb0].
  { cbv zeta. rewrite S0, L0, !Z.mul_0_r, round53_0.
    repeat (split; [apply Z0; ring |]). vm_compute. discriminate. }
  clear S0 L0 Z0.
  intros ah al bh bl x n.
  pose proof (split_hi_le a Ha) as Hah. pose proof (split_lo_le a Ha) as Hal.
  pose proof (split_hi_le b Hb) as Hbh. pose proof (split_lo_le b Hb) as Hbl.
  pose proof (round53_error_le (a * b)) as Hx.
  pose proof (split_exact a Ha) as Ea. pose proof (split_exact b Hb) as Eb.
  fold ah al in Hah, Hal, Ea. fold bh bl in Hbh, Hbl, Eb. fold x in Hx.
  assert (Hn : n = Z.abs a * Z.abs b) by (unfold n; apply Z.abs_mul).
  (* the bounds *)
  assert (B1 : Z.abs (ah * bh) <= 4 * n).
  { replace (4 * n) with ((2 * Z.abs a) * (2 * Z.abs b)) by (rewrite Hn; ring).
    apply abs_mul_le; assumption. }
  assert (B2 : Z.abs (al * bh) <= 2 * n).
  { replace (2 * n) with (Z.abs a * (2 * Z.abs b)) by (rewrite Hn; ring).
    apply abs_mul_le; assumption. }
  assert (B3 : Z.abs (ah * bl) <= 2 * n).
  { replace (2 * n) with ((2 * Z.abs a) * Z.abs b) by (rewrite Hn; ring).
    apply abs_mul_le; assumption. }
  assert (B4 : Z.abs (al * bl) <= n).
  { rewrite Hn. apply abs_mul_le; assumption. }
  assert (B5 : Z.abs (a * bl) <= n).
  { rewrite Hn. apply abs_mul_le; [lia | assumption]. }
  assert (I1 : x - ah * bh = (x - a * b) + (a * bl + al * bh))
    by (rewrite <- Ea, <- Eb; ring).
  assert (I2 : x - ah * bh - al * bh = (x - a * b) + a * bl)
    by (rewrite <- Ea, <- Eb; ring).
  assert (I3 : x - ah * bh - al * bh - ah * bl = (x - a * b) + al * bl)
    by (rewrite <- Ea, <- Eb; ring).
  assert (B6 : Z.abs (x - ah * bh) <= 4 * n)
    by (rewrite I1; clear - Hx B5 B2; fold n in Hx; lia).
  assert (B7 : Z.abs (x - ah * bh - al * bh) <= 4 * n)
    by (rewrite I2; clear - Hx B5; fold n in Hx; lia).
  assert (B8 : Z.abs (x - ah * bh - al * bh - ah * bl) <= 4 * n)
    by (rewrite I3; clear - Hx B4; fold n in Hx; lia).
  assert (B9 : Z.abs (a * b - x) <= 4 * n)
    by (clear - Hx; fold n in Hx; lia).
  assert (B10 : Z.abs x <= 4 * n) by (clear - Hx; fold n in Hx; lia).
  assert (N0 : 0 <= n) by (unfold n; apply Z.abs_nonneg).
  (* the steps *)
  destruct (split_shape a Ha) as (_ & Hda & Hla & Hza).
  destruct (split_shape b Hb) as (_ & Hdb & Hlb & Hzb).
  destruct (split_hi_bound a Ha) as (Hha & _).
  destruct (split_hi_bound b Hb) as (Hhb & Hhb').
  pose proof (Zdigits2_mul a b Ha0 Hb0) as Hdab.
  pose proof (digits_range a Ha0 Ha) as Rda.
  pose proof (digits_range b Hb0 Hb) as Rdb.
  pose proof (Z.lt_le_incl _ _ (Zdigits2_gt a)) as Hga.
  destruct (dekker_exponents (Zdigits2 a) (Zdigits2 b) (Zdigits2 (a * b))
              (half_bit a) (half_bit b) (dropped (a * b))
              Rda Rdb Hdab eq_refl eq_refl eq_refl)
    as ((Rα & Rβ & Rk) & (X1 & X2 & X3) & (X4 & X5)).
  pose proof (round53_error (a * b)) as Hex.
  pose proof (round53_divide (a * b)) as Hdx.
  clear Hx Hah Hal Hbh Hbl B5 I1 I2 I3 Hn.
  destruct (dekker_steps a b ah al bh bl x (Zdigits2 a) (Zdigits2 b)
              (half_bit a) (half_bit b) (dropped (a * b)))
    as (S1 & S2 & S3 & S4 & S5 & S6 & S7 & S8); try assumption.
  clear - S1 S2 S3 S4 S5 S6 S7 S8 B1 B2 B3 B4 B6 B7 B8 B9 B10 N0.
  split; [split; [exact S1 | exact B1] |].
  split; [split; [exact S2 | clear - B2 N0; lia] |].
  split; [split; [exact S3 | clear - B3 N0; lia] |].
  split; [split; [exact S4 | clear - B4 N0; lia] |].
  split; [split; [exact S5 | exact B6] |].
  split; [split; [exact S6 | exact B7] |].
  split; [split; [exact S7 | exact B8] |].
  split; [split; [exact S8 | exact B9] | exact B10].
Qed.

(** ** [Two_Product_Presplit] on doubles *)

(** A double that is a multiple of [2^j] units is a significand below
    [2^53] times a power of two that is at least [2^j]. *)
Lemma shape_from_multiple (x : tREAL) (j : Z) :
  valid x = true -> 0 <= j -> (2 ^ j | units x) ->
  exists A s, units x = A * 2 ^ s /\ j <= s /\ Z.abs A < 2 ^ 53.
Proof.
  intros V Hj [q Hq]. destruct (units_shape x V) as (M & t & HM & Ht & HB).
  destruct (Z_le_gt_dec j t) as [Hle | Hgt].
  - exists M, t. repeat split; assumption.
  - exists q, j. split; [exact Hq | split; [lia |]].
    assert (Hp : 0 < 2 ^ t) by (apply pow2_pos; lia).
    assert (Hp' : 0 < 2 ^ (j - t)) by (apply pow2_pos; lia).
    assert (HMq : M = q * 2 ^ (j - t)).
    { apply (Z.mul_cancel_r _ _ (2 ^ t)); [lia |].
      rewrite <- HM, Hq, <- Z.mul_assoc, <- pow2_split by lia.
      do 2 f_equal. lia. }
    assert (Habs : Z.abs M = Z.abs q * 2 ^ (j - t))
      by (rewrite HMq, Z.abs_mul, (Z.abs_eq (2 ^ (j - t))) by lia; reflexivity).
    assert (Z.abs q * 1 <= Z.abs q * 2 ^ (j - t))
      by (apply Z.mul_le_mono_nonneg_l; lia).
    lia.
Qed.

Lemma scaled_below (v n p T : Z) :
  Z.abs v <= 4 * n -> 0 < p -> 4 * n * p < T -> Z.abs (v * p) < T.
Proof.
  intros Hv Hp HT. rewrite Z.abs_mul, (Z.abs_eq p) by lia.
  apply Z.le_lt_trans with (4 * n * p); [| exact HT].
  apply Z.mul_le_mono_nonneg_r; lia.
Qed.

(** A product that rounds, in units. *)
Lemma mul_round_step (x y : tREAL) (u v su sv : Z) :
  valid x = true -> valid y = true ->
  Dbl.is_finite x = true -> Dbl.is_finite y = true ->
  units x = u * 2 ^ su -> units y = v * 2 ^ sv ->
  0 <= su -> 0 <= sv -> 1074 <= su + sv ->
  Z.abs (round53 (u * v) * 2 ^ (su + sv - 1074)) < 2 ^ 2098 ->
  valid (Dbl.mul x y) = true /\ Dbl.is_finite (Dbl.mul x y) = true /\
  units (Dbl.mul x y) = round53 (u * v) * 2 ^ (su + sv - 1074).
Proof.
  intros Vx Vy Fx Fy Ux Uy Hsu Hsv Hs Hov.
  rewrite <- round53_scale in Hov |- * by lia.
  apply (mul_spec x y (u * v * 2 ^ (su + sv - 1074)) Vx Vy Fx Fy);
    [| exact Hov].
  rewrite Ux, Uy.
  replace (u * 2 ^ su * (v * 2 ^ sv)) with (u * v * (2 ^ su * 2 ^ sv)) by ring.
  rewrite <- pow2_split by lia.
  replace (su + sv) with ((su + sv - 1074) + 1074) at 1 by lia.
  rewrite (pow2_split (su + sv - 1074) 1074) by lia.
  generalize (2 ^ 1074). intros K. ring.
Qed.

(** A product that does not round. *)
Lemma mul_step (x y : tREAL) (u v su sv : Z) :
  valid x = true -> valid y = true ->
  Dbl.is_finite x = true -> Dbl.is_finite y = true ->
  units x = u * 2 ^ su -> units y = v * 2 ^ sv ->
  0 <= su -> 0 <= sv -> 1074 <= su + sv ->
  representable (u * v) ->
  Z.abs (u * v * 2 ^ (su + sv - 1074)) < 2 ^ 2098 ->
  valid (Dbl.mul x y) = true /\ Dbl.is_finite (Dbl.mul x y) = true /\
  units (Dbl.mul x y) = u * v * 2 ^ (su + sv - 1074).
Proof.
  intros Vx Vy Fx Fy Ux Uy Hsu Hsv Hs Hr Hov. unfold representable in Hr.
  pose proof (mul_round_step x y u v su sv Vx Vy Fx Fy Ux Uy Hsu Hsv Hs) as H.
  rewrite Hr in H. apply H. exact Hov.
Qed.

(** A difference that does not round. *)
Lemma sub_step (x y : tREAL) (u v G : Z) :
  valid x = true -> valid y = true ->
  Dbl.is_finite x = true -> Dbl.is_finite y = true ->
  units x = u * 2 ^ G -> units y = v * 2 ^ G -> 0 <= G ->
  representable (u - v) ->
  Z.abs ((u - v) * 2 ^ G) < 2 ^ 2098 ->
  valid (Dbl.sub x y) = true /\ Dbl.is_finite (Dbl.sub x y) = true /\
  units (Dbl.sub x y) = (u - v) * 2 ^ G.
Proof.
  intros Vx Vy Fx Fy Ux Uy HG Hr Hov.
  pose proof (sub_spec x y Vx Vy Fx Fy) as H. cbv zeta in H.
  unfold representable in Hr.
  rewrite Ux, Uy, <- Z.mul_sub_distr_r, round53_scale, Hr in H by exact HG.
  apply H. exact Hov.
Qed.

(** [Two_Product_Presplit], in units: the product rounded, and its rounding
    error. *)
Lemma Two_Product_Presplit_units (P : Predicates) (a b : tREAL)
  (A B sa sb : Z) :
  splitter P = Dbl.of_Z splitter_value ->
  valid a = true -> valid b = true ->
  Dbl.is_finite a = true -> Dbl.is_finite b = true ->
  units a = A * 2 ^ sa -> units b = B * 2 ^ sb ->
  Z.abs A < 2 ^ 53 -> Z.abs B < 2 ^ 53 ->
  0 <= sa -> 0 <= sb -> 1074 <= sa + sb ->
  Z.abs (units a) <= 2 ^ 2064 -> Z.abs (units b) <= 2 ^ 2064 ->
  4 * Z.abs (A * B) * 2 ^ (sa + sb - 1074) < 2 ^ 2098 ->
  let r := Two_Product_Presplit P a b (fst (tSPLIT P b)) (snd (tSPLIT P b)) in
  (valid (fst r) = true /\ Dbl.is_finite (fst r) = true /\
   units (fst r) = round53 (A * B) * 2 ^ (sa + sb - 1074)) /\
  (valid (snd r) = true /\ Dbl.is_finite (snd r) = true /\
   units (snd r) = (A * B - round53 (A * B)) * 2 ^ (sa + sb - 1074)).
Proof.
  intros HP Va Vb Fa Fb Ua Ub HA HB Hsa Hsb Hs Ba Bb Hov.
  destruct (tSPLIT_units P a HP Va Fa Ba) as ((Vah & Fah & Uah) & (Val & Fal & Ual)).
  destruct (tSPLIT_units P b HP Vb Fb Bb) as ((Vbh & Fbh & Ubh) & (Vbl & Fbl & Ubl)).
  destruct (split_scale A sa Hsa) as [Sah Sal].
  destruct (split_scale B sb Hsb) as [Sbh Sbl].
  rewrite Ua, Sah in Uah. rewrite Ua, Sal in Ual.
  rewrite Ub, Sbh in Ubh. rewrite Ub, Sbl in Ubl.
  destruct (two_product_steps A B HA HB)
    as ((R1 & B1) & (R2 & B2) & (R3 & B3) & (R4 & B4) & (R5 & B5)
        & (R6 & B6) & (R7 & B7) & (R8 & B8) & B9).
  unfold Two_Product_Presplit. 
  destruct (tSPLIT P a) as [ahi alo]. destruct (tSPLIT P b) as [bhi blo].
  cbn [fst snd] in *.
  set (G := sa + sb - 1074) in *.
  assert (HG : 0 <= G) by (unfold G; lia).
  assert (Hp : 0 < 2 ^ G) by (apply pow2_pos; exact HG).
  set (n := Z.abs (A * B)) in *.
  set (ah := split_hi A) in *. set (al := split_lo A) in *.
  set (bh := split_hi B) in *. set (bl := split_lo B) in *.
  set (X := round53 (A * B)) in *.
  clear Sah Sal Sbh Sbl Ba Bb.
  (* x = a * b *)
  destruct (mul_round_step a b A B sa sb) as (Vx & Fx & Ux); try assumption.
  { apply (scaled_below _ n); assumption. }
  fold X G in Ux.
  (* the partial products *)
  destruct (mul_step ahi bhi ah bh sa sb) as (Vhh & Fhh & Uhh); try assumption.
  { apply (scaled_below _ n); assumption. }
  destruct (mul_step alo bhi al bh sa sb) as (Vlh & Flh & Ulh); try assumption.
  { apply (scaled_below _ n); assumption. }
  destruct (mul_step ahi blo ah bl sa sb) as (Vhl & Fhl & Uhl); try assumption.
  { apply (scaled_below _ n); assumption. }
  destruct (mul_step alo blo al bl sa sb) as (Vll & Fll & Ull); try assumption.
  { apply (scaled_below _ n); assumption. }
  fold G in Uhh, Ulh, Uhl, Ull.
  (* the errors *)
  destruct (sub_step (Dbl.mul a b) (Dbl.mul ahi bhi) X (ah * bh) G)
    as (V1 & F1 & U1); try assumption.
  { apply (scaled_below _ n); assumption. }
  destruct (sub_step _ (Dbl.mul alo bhi) _ (al * bh) G V1 Vlh F1 Flh U1 Ulh HG)
    as (V2 & F2 & U2); try assumption.
  { apply (scaled_below _ n); assumption. }
  destruct (sub_step _ (Dbl.mul ahi blo) _ (ah * bl) G V2 Vhl F2 Fhl U2 Uhl HG)
    as (V3 & F3 & U3); try assumption.
  { apply (scaled_below _ n); assumption. }
  assert (E : al * bl - (X - ah * bh - al * bh - ah * bl) = A * B - X).
  { pose proof (split_exact A HA) as Ea. pose proof (split_exact B HB) as Eb.
    fold ah al in Ea. fold bh bl in Eb. rewrite <- Ea, <- Eb. ring. }
  destruct (sub_step (Dbl.mul alo blo) _ (al * bl) _ G Vll V3 Fll F3 Ull U3 HG)
    as (Vy & Fy & Uy).
  { rewrite E. exact R8. }
  { rewrite E. apply (scaled_below _ n); assumption. }
  rewrite E in Uy.
  split; split; try assumption; split; assumption.
Qed.

Lemma units_product_bound (ua ub n G ka kb : Z) :
  Z.abs ua <= 2 ^ (ka + 1074) -> Z.abs ub <= 2 ^ (kb + 1074) ->
  ua * ub = n * 2 ^ G * 2 ^ 1074 ->
  -1074 <= ka -> -1074 <= kb -> -1074 <= ka + kb -> 0 <= G ->
  Z.abs (n * 2 ^ G) <= 2 ^ (ka + kb + 1074).
Proof.
  intros Ha Hb E Hka Hkb Hk HG.
  assert (H : Z.abs (ua * ub) <= 2 ^ (ka + 1074) * 2 ^ (kb + 1074))
    by (apply abs_mul_le; assumption).
  pose proof (pow2_pos 1074 ltac:(clear; lia)) as HK.
  rewrite E, Z.abs_mul, (Z.abs_eq (2 ^ 1074)) in H by (apply Z.lt_le_incl, HK).
  rewrite <- pow2_split in H by lia.
  replace (ka + 1074 + (kb + 1074)) with ((ka + kb + 1074) + 1074) in H by lia.
  rewrite (pow2_split (ka + kb + 1074) 1074) in H by lia.
  apply Z.mul_le_mono_pos_r in H; [exact H | exact HK].
Qed.

(** [Two_Product_Presplit] on two doubles of magnitudes at most [2^ka] and
    [2^kb] that are multiples of [2^ga] and [2^gb], with
    [ga + gb >= -1074]: no step underflows or overflows, and the results
    add up to the product of the operands. *)
Lemma Two_Product_in_range (P : Predicates) (a b : tREAL)
  (ka kb ga gb : Z) :
  splitter P = Dbl.of_Z splitter_value ->
  magnitude_le ka a -> magnitude_le kb b ->
  multiple_of ga a -> multiple_of gb b ->
  -1074 <= ga -> -1074 <= gb -> -1074 <= ga + gb ->
  -1074 <= ka <= 990 -> -1074 <= kb <= 990 ->
  -1074 <= ka + kb <= 1021 ->
  let r := Two_Product_Presplit P a b (fst (tSPLIT P b)) (snd (tSPLIT P b)) in
  error_free_product P a b = true /\
  magnitude_le (ka + kb) (fst r) /\ magnitude_le (ka + kb) (snd r).
Proof.
  intros HP (Va & Fa & Ba) (Vb & Fb & Bb) Ma Mb Hga Hgb Hg Hka Hkb Hk.
  destruct (shape_from_multiple a (ga + 1074) Va ltac:(lia) Ma)
    as (A & sa & Ua & Hsa & HA).
  destruct (shape_from_multiple b (gb + 1074) Vb ltac:(lia) Mb)
    as (B & sb & Ub & Hsb & HB).
  set (G := sa + sb - 1074).
  assert (HG : 0 <= G) by (unfold G; lia).
  assert (E : units a * units b = A * B * 2 ^ G * 2 ^ 1074).
  { rewrite Ua, Ub.
    replace (A * 2 ^ sa * (B * 2 ^ sb)) with (A * B * (2 ^ sa * 2 ^ sb)) by ring.
    rewrite <- pow2_split by lia.
    replace (sa + sb) with (G + 1074) by (unfold G; lia).
    rewrite (pow2_split G 1074) by lia. generalize (2 ^ 1074). intros K.
    ring. }
  pose proof (units_product_bound _ _ _ _ ka kb Ba Bb E
                ltac:(lia) ltac:(lia) ltac:(lia) HG) as Hn.
  assert (Hp : 0 < 2 ^ G) by (apply pow2_pos; exact HG).
  rewrite Z.abs_mul, (Z.abs_eq (2 ^ G)) in Hn by lia.
  assert (Hov : 4 * Z.abs (A * B) * 2 ^ G < 2 ^ 2098).
  { apply Z.le_lt_trans with (2 ^ (2 + (ka + kb + 1074))).
    - rewrite pow2_split by (clear - Hk; lia). change (2 ^ 2) with 4.
      clear - Hn. lia.
    - apply Z.pow_lt_mono_r; clear - Hk; lia. }
  assert (Ba' : Z.abs (units a) <= 2 ^ 2064)
    by (apply (Z.le_trans _ _ _ Ba); apply Z.pow_le_mono_r; clear - Hka; lia).
  assert (Bb' : Z.abs (units b) <= 2 ^ 2064)
    by (apply (Z.le_trans _ _ _ Bb); apply Z.pow_le_mono_r; clear - Hkb; lia).
  destruct (Two_Product_Presplit_units P a b A B sa sb HP Va Vb Fa Fb Ua Ub
              HA HB ltac:(clear - Hsa Hga; lia) ltac:(clear - Hsb Hgb; lia)
              ltac:(clear - Hsa Hsb Hg; lia) Ba' Bb' Hov)
    as ((Vx & Fx & Ux) & (Vy & Fy & Uy)).
  clear Hov Ba' Bb'.
  fold G in Ux, Uy. cbv zeta.
  split; [| split].
  - unfold error_free_product.
    destruct (tSPLIT P b) as [bhi blo]. cbn [fst snd] in *.
    destruct (Two_Product_Presplit P a b bhi blo) as [x y].
    cbn [fst snd] in *. rewrite Fa, Fb, Fx, Fy. cbn [andb].
    apply Qeq_bool_iff.
    set (K := inject_Z (2 ^ 1074)).
    assert (HK : ~ (K * K == 0)%Q).
    { intros HKK. apply Qmult_integral in HKK.
      destruct HKK as [H0 | H0]; exact (units_scale_nonzero H0). }
    apply (Qmult_inj_r _ _ _ HK).
    transitivity ((Dbl.value x * K + Dbl.value y * K) * K)%Q; [ring |].
    transitivity ((Dbl.value a * K) * (Dbl.value b * K))%Q; [| ring].
    unfold K. rewrite !value_units by assumption.
    rewrite <- inject_Z_plus, <- !inject_Z_mult. rewrite inject_Z_injective.
    rewrite Ux, Uy, E. generalize (2 ^ 1074). intros K1. ring.
  - split; [exact Vx | split; [exact Fx |]]. rewrite Ux.
    rewrite <- round53_scale by exact HG. apply round53_le; [lia |].
    rewrite Z.abs_mul, (Z.abs_eq (2 ^ G)) by lia. exact Hn.
  - split; [exact Vy | split; [exact Fy |]]. rewrite Uy.
    rewrite Z.abs_mul, (Z.abs_eq (2 ^ G)) by lia.
    apply Z.le_trans with (Z.abs (A * B) * 2 ^ G); [| exact Hn].
    apply Z.mul_le_mono_nonneg_r; [lia |].
    pose proof (round53_error_le (A * B)) as He. clear - He. lia.
Qed.

(** ** [scale_expansion] is exact within range *)

Lemma scale_expansion_in_range (P : Predicates) (elen : Z) (e : buf)
  (b : tREAL) (ke kb ge gb : Z) :
  splitter P = Dbl.of_Z splitter_value ->
  1 <= elen ->
  magnitude_le kb b -> multiple_of gb b ->
  (forall i, 0 <= i < elen -> magnitude_le ke (e i) /\ multiple_of ge (e i)) ->
  -1074 <= ge -> -1074 <= gb -> -1074 <= ge + gb ->
  -1074 <= ke <= 990 -> -1074 <= kb <= 990 ->
  -1074 <= ke + kb -> ke + kb + 2 * elen <= 1018 ->
  scale_expansion_error_free P elen e b = true.
Proof.
  intros HP He Hb Mb Hcells Hge Hgb Hg Hke Hkb Hk0 Hk.
  unfold scale_expansion_error_free.
  assert (Hprod : forall i, 0 <= i < elen ->
            let r := Two_Product_Presplit P (e i) b (fst (tSPLIT P b))
                       (snd (tSPLIT P b)) in
            error_free_product P (e i) b = true /\
            magnitude_le (ke + kb) (fst r) /\ magnitude_le (ke + kb) (snd r)).
  { intros i Hi. destruct (Hcells i Hi) as [Hm Hmul].
    apply (Two_Product_in_range P (e i) b ke kb ge gb); try assumption. lia. }
  destruct (tSPLIT P b) as [bhi blo]. cbn [fst snd] in Hprod.
  destruct (Hprod 0 ltac:(lia)) as (Hf0 & Hx0 & _).
  destruct (Two_Product_Presplit P (e 0) b bhi blo) as [Q0 h0].
  cbn [fst snd] in Hx0. rewrite Hf0.
  set (K := ke + kb) in *.
  loop_with (fun (j : Z) (t : tREAL * bool) =>
               1 <= j /\ snd t = true /\
               magnitude_le (K + 2 * (j - 1)) (fst t)).
  { cbn [fst snd]. split; [lia | split; [reflexivity |]].
    replace (K + 2 * (1 - 1)) with K by lia. exact Hx0. }
  { intros j [Q ok] Hj (_ & Hok & HQ). cbn [fst snd] in Hok, HQ. subst ok.
    destruct (Hprod j ltac:(lia)) as (Hf & Hx & Hy).
    destruct (Two_Product_Presplit P (e j) b bhi blo) as [p1 p0].
    cbn [fst snd] in Hx, Hy.
    set (L := K + 2 * (j - 1)) in *.
    destruct (Two_Sum_in_range L Q p0 ltac:(lia) HQ) as (Hs1 & Hsum & _).
    { apply (magnitude_le_weaken K); [exact Hy | lia]. }
    destruct (Two_Sum Q p0) as [sum hh]. cbn [fst snd] in Hsum.
    destruct (Two_Sum_in_range (L + 1) p1 sum ltac:(lia)) as (Hs2 & HQ' & _).
    { apply (magnitude_le_weaken K); [exact Hx | lia]. }
    { exact Hsum. }
    destruct (Two_Sum p1 sum) as [Q' hh']. cbn [fst snd] in HQ' |- *.
    split; [lia | split].
    - rewrite Hf, Hs1, Hs2. reflexivity.
    - replace (K + 2 * (j + 1 - 1)) with (L + 1 + 1) by (unfold L; lia).
      exact HQ'. }
  destruct t as [Q ok]. cbn [fst snd] in Hinv. apply Hinv.
Qed.

(** X20. After initialization, [scale_expansion] is exact on operands in
    range.  Let [b] be a multiple of [2^gb] of magnitude at most [2^kb],
    and every component of [e] a multiple of [2^ge] of magnitude at most
    [2^ke], with [ge], [gb] and [ge + gb] at least [-1074] so that no
    product underflows, [ke] and [kb] at most 990 so that no split
    overflows, and [ke + kb + 2 * elen <= 1018] so that no sum overflows.
    Then the components returned are finite and their exact sum is [b]
    times the sum of [e]. *)
Theorem scale_expansion_exact_in_range (P : Predicates) (elen : Z) (e : buf)
  (b : tREAL) (h : buf) (ke kb ge gb : Z) :
  splitter P = splitter exactinit ->
  1 <= elen ->
  magnitude_le kb b -> multiple_of gb b ->
  (forall i, 0 <= i < elen -> magnitude_le ke (e i) /\ multiple_of ge (e i)) ->
  -1074 <= ge -> -1074 <= gb -> -1074 <= ge + gb ->
  -1074 <= ke <= 990 -> -1074 <= kb <= 990 ->
  -1074 <= ke + kb -> ke + kb + 2 * elen <= 1018 ->
  let r := scale_expansion P elen e b h in
  expansion_finite (fst r) (snd r) = true /\
  (expansion_value (fst r) (snd r)
   == Dbl.value b * expansion_value elen e)%Q.
Proof.
  intros HP He Hb Mb Hcells Hge Hgb Hg Hke Hkb Hk0 Hk.
  apply scale_expansion_exact; [exact He |].
  apply (scale_expansion_in_range P elen e b ke kb ge gb); assumption.
Qed.

Lemma scale_expansion_exact_in_range_witness :
  let r := scale_expansion exactinit 2 e_demo tenth local in
  expansion_finite (fst r) (snd r) = true /\
  (expansion_value (fst r) (snd r)
   == Dbl.value tenth * expansion_value 2 e_demo)%Q.
Proof.
  apply (scale_expansion_exact_in_range exactinit 2 e_demo tenth local
           0 0 (-60) (-55)).
  - reflexivity.
  - lia.
  - unfold magnitude_le. repeat split; vm_compute; congruence.
  - exists 3602879701896397. vm_compute. reflexivity.
  - intros i Hi. assert (Hc : i = 0 \/ i = 1) by lia.
    destruct Hc as [-> | ->].
    + split; [unfold magnitude_le; repeat split; vm_compute; congruence |].
      exists 1. vm_compute. reflexivity.
    + split; [unfold magnitude_le; repeat split; vm_compute; congruence |].
      exists (2 ^ 60). vm_compute. reflexivity.
  - lia.
  - lia.
  - lia.
  - lia.
  - lia.
  - lia.
  - lia.
Defined.
(** ** Expansions on a grid *)

Lemma Two_Product_Presplit_grid (P : Predicates) (g1 g2 : Z) (a b : tREAL)
  (n m : Z) :
  splitter P = Dbl.of_Z splitter_value ->
  -1074 <= g1 <= 937 -> -1074 <= g2 <= 937 -> -1074 <= g1 + g2 <= 968 ->
  on_grid g1 a n -> on_grid g2 b m ->
  Z.abs n < 2 ^ 53 -> Z.abs m < 2 ^ 53 -> Z.abs (n * m) < 2 ^ 53 ->
  let r := Two_Product_Presplit P a b (fst (tSPLIT P b)) (snd (tSPLIT P b)) in
  on_grid (g1 + g2) (fst r) (n * m) /\ on_grid (g1 + g2) (snd r) 0.
Proof.
  intros HP Hg1 Hg2 Hg (Va & Fa & Ua) (Vb & Fb & Ub) Hn Hm Hnm.
  assert (Hp1 : 0 < 2 ^ (g1 + 1074)) by (apply pow2_pos; lia).
  assert (Hp2 : 0 < 2 ^ (g2 + 1074)) by (apply pow2_pos; lia).
  assert (Ba : Z.abs (units a) <= 2 ^ 2064).
  { rewrite Ua, Z.abs_mul, (Z.abs_eq (2 ^ (g1 + 1074))) by lia.
    replace 2064 with (53 + 2011) by lia. rewrite (pow2_split 53 2011) by lia.
    apply Z.mul_le_mono_nonneg; [lia | lia | lia |].
    apply Z.pow_le_mono_r; lia. }
  assert (Bb : Z.abs (units b) <= 2 ^ 2064).
  { rewrite Ub, Z.abs_mul, (Z.abs_eq (2 ^ (g2 + 1074))) by lia.
    replace 2064 with (53 + 2011) by lia. rewrite (pow2_split 53 2011) by lia.
    apply Z.mul_le_mono_nonneg; [lia | lia | lia |].
    apply Z.pow_le_mono_r; lia. }
  assert (EG : g1 + 1074 + (g2 + 1074) - 1074 = g1 + g2 + 1074) by lia.
  assert (Hov : 4 * Z.abs (n * m) * 2 ^ (g1 + 1074 + (g2 + 1074) - 1074)
                < 2 ^ 2098).
  { rewrite EG. replace 2098 with (55 + 2043) by lia.
    rewrite (pow2_split 55 2043) by lia.
    assert (2 ^ (g1 + g2 + 1074) < 2 ^ 2043) by (apply Z.pow_lt_mono_r; lia).
    assert (0 < 2 ^ (g1 + g2 + 1074)) by (apply pow2_pos; lia).
    change (2 ^ 55) with (4 * 2 ^ 53). 
    apply Z.le_lt_trans with (4 * 2 ^ 53 * 2 ^ (g1 + g2 + 1074)).
    - apply Z.mul_le_mono_nonneg_r; lia.
    - apply Z.mul_lt_mono_pos_l; [reflexivity | assumption]. }
  destruct (Two_Product_Presplit_units P a b n m (g1 + 1074) (g2 + 1074)
              HP Va Vb Fa Fb Ua Ub Hn Hm ltac:(lia) ltac:(lia) ltac:(lia)
              Ba Bb Hov) as ((Vx & Fx & Ux) & (Vy & Fy & Uy)).
  rewrite EG in Ux, Uy. rewrite (round53_small _ Hnm) in Ux, Uy. cbv zeta.
  split; (split; [assumption | split; [assumption |]]).
  - exact Ux.
  - rewrite Uy. ring.
Qed.

Lemma Fast_Two_Sum_grid (g : Z) (a b : tREAL) (n m : Z) :
  -1074 <= g <= 970 ->
  on_grid g a n -> on_grid g b m ->
  Z.abs n <= 2 ^ 52 -> Z.abs m <= 2 ^ 52 ->
  on_grid g (fst (Fast_Two_Sum a b)) (n + m) /\
  on_grid g (snd (Fast_Two_Sum a b)) 0.
Proof.
  intros Hg Ha Hb Hn Hm. unfold Fast_Two_Sum. cbn [fst snd].
  assert (H53 : 2 ^ 53 = 2 * 2 ^ 52) by reflexivity.
  assert (Hx : on_grid g (Dbl.add a b) (n + m))
    by (apply grid_add; [exact Hg | exact Ha | exact Hb | lia]).
  assert (Hbv : on_grid g (Dbl.sub (Dbl.add a b) a) (n + m - n))
    by (apply grid_sub; [exact Hg | exact Hx | exact Ha | lia]).
  split; [exact Hx |].
  eapply on_grid_ext;
    [apply grid_sub; [exact Hg | exact Hb | exact Hbv | lia] | lia].
Qed.

Lemma on_grid_not_ne (g : Z) (x : tREAL) :
  on_grid g x 0 -> Dbl.ne x Dbl.zero = false.
Proof.
  intros H. unfold Dbl.ne. apply on_grid_eq_zero in H.
  unfold Dbl.eq in H. rewrite H. reflexivity.
Qed.

Lemma put_nonzero_grid_zero (g : Z) (hh : tREAL) (hindex : Z) (h : buf) :
  on_grid g hh 0 -> put_nonzero hh hindex h = (hindex, h).
Proof.
  intros H. unfold put_nonzero. rewrite (on_grid_not_ne g hh H). reflexivity.
Qed.

(** Scaling such an expansion gives the product, as a single component. *)
Lemma scale_expansion_zeroelim_grid (P : Predicates) (g1 g2 : Z) (elen : Z)
  (e : buf) (b : tREAL) (h : buf) (n m : Z) :
  splitter P = Dbl.of_Z splitter_value ->
  -1074 <= g1 <= 937 -> -1074 <= g2 <= 937 -> -1074 <= g1 + g2 <= 968 ->
  grid_expansion g1 elen e n -> on_grid g2 b m ->
  Z.abs n < 2 ^ 53 -> Z.abs m < 2 ^ 53 -> Z.abs (n * m) <= 2 ^ 52 ->
  exists h', scale_expansion_zeroelim P elen e b h = (1, h') /\
             on_grid (g1 + g2) (h' 0) (n * m).
Proof.
  intros HP Hg1 Hg2 Hg (He & Hzero & Hlast) Hb Hn Hm Hnm.
  assert (H52 : 2 ^ 52 < 2 ^ 53) by reflexivity.
  assert (H520 : 0 < 2 ^ 52) by reflexivity.
  assert (Hcell : forall i, 0 <= i < elen ->
            on_grid g1 (e i) (if i =? elen - 1 then n else 0)).
  { intros i Hi. destruct (Z.eqb_spec i (elen - 1)) as [-> | Hne];
      [exact Hlast | apply Hzero; lia]. }
  assert (Hprod : forall i, 0 <= i < elen ->
            let r := Two_Product_Presplit P (e i) b (fst (tSPLIT P b))
                       (snd (tSPLIT P b)) in
            on_grid (g1 + g2) (fst r) (if i =? elen - 1 then n * m else 0) /\
            on_grid (g1 + g2) (snd r) 0).
  { intros i Hi. specialize (Hcell i Hi).
    destruct (Z.eqb_spec i (elen - 1)) as [Heq | Hne].
    - apply Two_Product_Presplit_grid; try assumption. lia.
    - pose proof (Two_Product_Presplit_grid P g1 g2 (e i) b 0 m HP Hg1 Hg2 Hg
                    Hcell Hb ltac:(cbn; lia) Hm ltac:(cbn; lia)) as H.
      rewrite Z.mul_0_l in H. exact H. }
  unfold scale_expansion_zeroelim.
  destruct (tSPLIT P b) as [bhi blo]. cbn [fst snd] in Hprod.
  destruct (Hprod 0 ltac:(lia)) as [HQ0 Hh0].
  destruct (Two_Product_Presplit P (e 0) b bhi blo) as [Q0 hh0].
  cbn [fst snd] in HQ0, Hh0.
  rewrite (put_nonzero_grid_zero _ _ _ _ Hh0).
  loop_with (fun (j : Z) (t : tREAL * (Z * buf)) =>
               snd t = (0, h) /\
               on_grid (g1 + g2) (fst t) (if j - 1 =? elen - 1 then n * m else 0)).
  { cbn [fst snd]. split; [reflexivity | exact HQ0]. }
  { intros j [Q [hi g]] Hj [Hs HQ]. cbn [fst snd] in Hs, HQ.
    injection Hs as -> ->.
    destruct (Z.eqb_spec (j - 1) (elen - 1)) as [Hc | _]; [lia |].
    destruct (Hprod j ltac:(lia)) as [Hp1 Hp0].
    destruct (Two_Product_Presplit P (e j) b bhi blo) as [p1 p0].
    cbn [fst snd] in Hp1, Hp0.
    replace (j + 1 - 1) with j by lia.
    destruct (Two_Sum_grid (g1 + g2) ltac:(lia) Q p0 0 0 HQ Hp0
                ltac:(cbn; lia) ltac:(cbn; lia)) as [Hsum Hhh].
    destruct (Two_Sum Q p0) as [sum hh]. cbn [fst snd] in Hsum, Hhh.
    rewrite (put_nonzero_grid_zero _ _ _ _ Hhh).
    assert (Hv : Z.abs (if j =? elen - 1 then n * m else 0) <= 2 ^ 52)
      by (destruct (j =? elen - 1); [exact Hnm | cbn; lia]).
    destruct (Fast_Two_Sum_grid (g1 + g2) p1 sum _ (0 + 0) ltac:(lia) Hp1 Hsum
                Hv ltac:(cbn; lia)) as [HQ' Hhh'].
    destruct (Fast_Two_Sum p1 sum) as [Q' hh']. cbn [fst snd] in HQ', Hhh'.
    rewrite (put_nonzero_grid_zero _ _ _ _ Hhh'). cbn [fst snd].
    split; [reflexivity |].
    eapply on_grid_ext; [exact HQ' | lia]. }
  destruct t as [Q [hi g]]. cbn [fst snd] in Hinv. destruct Hinv as [Hs HQ].
  injection Hs as -> ->.
  replace (Z.max 1 elen) with elen in HQ by lia.
  rewrite Z.eqb_refl in HQ.
  exists (upd h 0 Q). split.
  - unfold put_last. cbn [Z.eqb]. rewrite orb_true_r. reflexivity.
  - rewrite upd_same. exact HQ.
Qed.

Lemma while_loop_stop {St : Type} (fuel : nat) (cond : St -> bool)
  (body : St -> St) (s : St) :
  cond s = false -> while_loop fuel cond body s = s.
Proof. intros H. destruct fuel; simpl; [| rewrite H]; reflexivity. Qed.

Lemma while_loop_turn {St : Type} (fuel : nat) (cond : St -> bool)
  (body : St -> St) (s : St) :
  cond s = true ->
  while_loop (S fuel) cond body s = while_loop fuel cond body (body s).
Proof. intros H. simpl. rewrite H. reflexivity. Qed.

Lemma put_last_first (Q : tREAL) (h : buf) : put_last Q 0 h = (1, upd h 0 Q).
Proof. unfold put_last. cbn [Z.eqb]. rewrite orb_true_r. reflexivity. Qed.

(** The sum of two single components is a single component. *)
Lemma fast_expansion_sum_zeroelim_grid (g : Z) (e f h : buf) (n m : Z) :
  -1074 <= g <= 970 ->
  on_grid g (e 0) n -> on_grid g (f 0) m ->
  Z.abs n <= 2 ^ 52 -> Z.abs m <= 2 ^ 52 ->
  exists h', fast_expansion_sum_zeroelim 1 e 1 f h = (1, h') /\
             on_grid g (h' 0) (n + m).
Proof.
  intros Hg He Hf Hn Hm.
  unfold fast_expansion_sum_zeroelim, merge_start, merge_fuel.
  change (Z.to_nat (1 + 1)) with 2%nat.
  destruct (e_is_next (e 0) (f 0)).
  - (* e[0] first, then f[0] *)
    set (s0 := {| m_Q := e 0; m_enow := e 1; m_fnow := f 0; m_eindex := 1;
                  m_findex := 0; m_hindex := 0; m_h := h |}).
    change (both_left 1 1 s0) with false. cbv iota.
    rewrite (while_loop_stop 2 _ (drain_e_zeroelim e) s0) by reflexivity.
    rewrite (while_loop_turn 1 _ (drain_f_zeroelim f) s0) by reflexivity.
    destruct (Two_Sum_grid g Hg (e 0) (f 0) n m He Hf Hn Hm) as [Hx Hy].
    assert (E : drain_f_zeroelim f s0
                = {| m_Q := fst (Two_Sum (e 0) (f 0)); m_enow := e 1;
                     m_fnow := f 1; m_eindex := 1; m_findex := 1;
                     m_hindex := 0; m_h := h |}).
    { unfold drain_f_zeroelim, s0.
      cbn [m_Q m_enow m_fnow m_eindex m_findex m_hindex m_h].
      destruct (Two_Sum (e 0) (f 0)) as [x y]. cbn [fst snd] in *.
      rewrite (put_nonzero_grid_zero _ _ _ _ Hy). reflexivity. }
    rewrite E. rewrite while_loop_stop by reflexivity.
    cbn [m_Q m_hindex m_h]. rewrite put_last_first.
    eexists. split; [reflexivity |]. rewrite upd_same. exact Hx.
  - (* f[0] first, then e[0] *)
    set (s0 := {| m_Q := f 0; m_enow := e 0; m_fnow := f 1; m_eindex := 0;
                  m_findex := 1; m_hindex := 0; m_h := h |}).
    change (both_left 1 1 s0) with false. cbv iota.
    rewrite (while_loop_turn 1 _ (drain_e_zeroelim e) s0) by reflexivity.
    destruct (Two_Sum_grid g Hg (f 0) (e 0) m n Hf He Hm Hn) as [Hx Hy].
    assert (E : drain_e_zeroelim e s0
                = {| m_Q := fst (Two_Sum (f 0) (e 0)); m_enow := e 1;
                     m_fnow := f 1; m_eindex := 1; m_findex := 1;
                     m_hindex := 0; m_h := h |}).
    { unfold drain_e_zeroelim, s0.
      cbn [m_Q m_enow m_fnow m_eindex m_findex m_hindex m_h].
      destruct (Two_Sum (f 0) (e 0)) as [x y]. cbn [fst snd] in *.
      rewrite (put_nonzero_grid_zero _ _ _ _ Hy). reflexivity. }
    rewrite E. rewrite while_loop_stop by reflexivity.
    rewrite while_loop_stop by reflexivity.
    cbn [m_Q m_hindex m_h]. rewrite put_last_first.
    eexists. split; [reflexivity |]. rewrite upd_same.
    eapply on_grid_ext; [exact Hx | lia].
Qed.

Lemma estimate_1 (h : buf) : estimate 1 h = h 0.
Proof. reflexivity. Qed.
Lemma set4_grid_expansion (g : Z) (h : buf) (x3 x2 x1 x0 : tREAL) (n : Z) :
  on_grid g x3 n -> on_grid g x2 0 -> on_grid g x1 0 -> on_grid g x0 0 ->
  grid_expansion g 4 (set4 h (x3, x2, x1, x0)) n.
Proof.
  intros H3 H2 H1 H0.
  destruct (set4_cells h x3 x2 x1 x0) as (B0 & B1 & B2 & B3).
  split; [lia | split].
  - intros i Hi.
    assert (Hc : i = 0 \/ i = 1 \/ i = 2) by lia.
    destruct Hc as [-> | [-> | ->]];
      [rewrite B0 | rewrite B1 | rewrite B2]; assumption.
  - change (4 - 1) with 3. rewrite B3. exact H3.
Qed.

Lemma grid_expansion_single (g : Z) (h : buf) (n : Z) :
  on_grid g (h 0) n -> grid_expansion g 1 h n.
Proof.
  intros H. split; [lia | split; [intros i Hi; lia | exact H]].
Qed.

Section InCircleAdapt.

Variable P : Predicates.
Hypothesis HP : splitter P = Dbl.of_Z splitter_value.
Variable g : Z.
Hypothesis Hg : -268 <= g <= 242.

(** A minor as [incircleadapt] builds it: two exact products, and their
    difference on top of three zeros. *)
Lemma minor_grid (p q r s : tREAL) (x y z w : Z) :
  on_grid g p x -> on_grid g q y -> on_grid g r z -> on_grid g s w ->
  Z.abs x <= 2 ^ 12 -> Z.abs y <= 2 ^ 12 ->
  Z.abs z <= 2 ^ 12 -> Z.abs w <= 2 ^ 12 ->
  grid_expansion (g + g) 4
    (set4 local (Two_Two_Diff (fst (Two_Product P p q)) (snd (Two_Product P p q))
                   (fst (Two_Product P r s)) (snd (Two_Product P r s))))
    (x * y - z * w) /\
  Z.abs (x * y - z * w) <= 2 ^ 25.
Proof.
  intros Hp Hq Hr Hs Bx By Bz Bw.
  assert (H12 : 2 ^ 12 = 4096) by reflexivity.
  assert (H25 : 2 ^ 25 = 33554432) by reflexivity.
  assert (H51 : 2 ^ 51 = 2251799813685248) by reflexivity.
  assert (B1 : Z.abs (x * y) <= 2 ^ 24).
  { change (2 ^ 24) with (2 ^ 12 * 2 ^ 12). rewrite Z.abs_mul.
    apply Z.mul_le_mono_nonneg; lia. }
  assert (B2 : Z.abs (z * w) <= 2 ^ 24).
  { change (2 ^ 24) with (2 ^ 12 * 2 ^ 12). rewrite Z.abs_mul.
    apply Z.mul_le_mono_nonneg; lia. }
  assert (H24 : 2 ^ 24 = 16777216) by reflexivity.
  assert (Hgg : -1074 <= g + g <= 970) by lia.
  destruct (Two_Product_grid P g g p q x y HP ltac:(lia) ltac:(lia) Hgg
              Hp Hq ltac:(lia) ltac:(lia)) as [H1 H1t].
  destruct (Two_Product_grid P g g r s z w HP ltac:(lia) ltac:(lia) Hgg
              Hr Hs ltac:(lia) ltac:(lia)) as [H2 H2t].
  pose proof (Two_Two_Diff_grid (g + g) Hgg _ _ _ _ _ _ H1 H1t H2 H2t
                ltac:(lia) ltac:(lia)) as HB.
  destruct (Two_Two_Diff _ _ _ _) as [[[x3 x2] x1] x0].
  destruct HB as (Hx3 & Hx2 & Hx1 & Hx0).
  split; [apply set4_grid_expansion; assumption | lia].
Qed.

(** A minor times the square length of the third point: five calls, each
    of which returns one component. *)
Lemma lifted_minor_grid (bc : buf) (adx ady : tREAL) (N x y : Z) :
  grid_expansion (g + g) 4 bc N -> Z.abs N <= 2 ^ 25 ->
  on_grid g adx x -> on_grid g ady y ->
  Z.abs x <= 2 ^ 12 -> Z.abs y <= 2 ^ 12 ->
  exists axbc axxbc aybc ayybc adet,
    scale_expansion_zeroelim P 4 bc adx local = (1, axbc) /\
    scale_expansion_zeroelim P 1 axbc adx local = (1, axxbc) /\
    scale_expansion_zeroelim P 4 bc ady local = (1, aybc) /\
    scale_expansion_zeroelim P 1 aybc ady local = (1, ayybc) /\
    fast_expansion_sum_zeroelim 1 axxbc 1 ayybc local = (1, adet) /\
    on_grid (g + g + g + g) (adet 0) (N * x * x + N * y * y) /\
    Z.abs (N * x * x + N * y * y) <= 2 ^ 50.
Proof.
  intros Hbc BN Hx Hy Bx By.
  assert (H12 : 2 ^ 12 = 4096) by reflexivity.
  assert (H25 : 2 ^ 25 = 33554432) by reflexivity.
  assert (H37 : 2 ^ 37 = 137438953472) by reflexivity.
  assert (H49 : 2 ^ 49 = 562949953421312) by reflexivity.
  assert (H50 : 2 ^ 50 = 1125899906842624) by reflexivity.
  assert (H52 : 2 ^ 52 = 4503599627370496) by reflexivity.
  assert (H53 : 2 ^ 53 = 9007199254740992) by reflexivity.
  assert (M1 : forall u v a b, Z.abs u <= a -> Z.abs v <= b ->
                               Z.abs (u * v) <= a * b).
  { intros u v a b Hu Hv. rewrite Z.abs_mul.
    apply Z.mul_le_mono_nonneg; lia. }
  assert (Bx1 : Z.abs (N * x) <= 2 ^ 37)
    by (change (2 ^ 37) with (2 ^ 25 * 2 ^ 12); apply M1; assumption).
  assert (By1 : Z.abs (N * y) <= 2 ^ 37)
    by (change (2 ^ 37) with (2 ^ 25 * 2 ^ 12); apply M1; assumption).
  assert (Bx2 : Z.abs (N * x * x) <= 2 ^ 49)
    by (change (2 ^ 49) with (2 ^ 37 * 2 ^ 12); apply M1; assumption).
  assert (By2 : Z.abs (N * y * y) <= 2 ^ 49)
    by (change (2 ^ 49) with (2 ^ 37 * 2 ^ 12); apply M1; assumption).
  destruct (scale_expansion_zeroelim_grid P (g + g) g 4 bc adx local N x HP
              ltac:(lia) ltac:(lia) ltac:(lia) Hbc Hx ltac:(lia) ltac:(lia)
              ltac:(lia)) as (axbc & E1 & G1).
  destruct (scale_expansion_zeroelim_grid P (g + g + g) g 1 axbc adx local
              (N * x) x HP ltac:(lia) ltac:(lia) ltac:(lia)
              (grid_expansion_single _ _ _ G1) Hx ltac:(lia) ltac:(lia)
              ltac:(lia)) as (axxbc & E2 & G2).
  destruct (scale_expansion_zeroelim_grid P (g + g) g 4 bc ady local N y HP
              ltac:(lia) ltac:(lia) ltac:(lia) Hbc Hy ltac:(lia) ltac:(lia)
              ltac:(lia)) as (aybc & E3 & G3).
  destruct (scale_expansion_zeroelim_grid P (g + g + g) g 1 aybc ady local
              (N * y) y HP ltac:(lia) ltac:(lia) ltac:(lia)
              (grid_expansion_single _ _ _ G3) Hy ltac:(lia) ltac:(lia)
              ltac:(lia)) as (ayybc & E4 & G4).
  destruct (fast_expansion_sum_zeroelim_grid (g + g + g + g) axxbc ayybc local
              (N * x * x) (N * y * y) ltac:(lia) G2 G4 ltac:(lia) ltac:(lia))
    as (adet & E5 & G5).
  exists axbc, axxbc, aybc, ayybc, adet.
  split; [exact E1 |]. split; [exact E2 |]. split; [exact E3 |].
  split; [exact E4 |]. split; [exact E5 |]. split; [exact G5 | lia].
Qed.

Variables pa pb pc pd : buf.
Variables ax ay bx by_ cx cy dx dy : Z.
Hypothesis Ha : near_grid_point g pa ax ay.
Hypothesis Hb : near_grid_point g pb bx by_.
Hypothesis Hc : near_grid_point g pc cx cy.
Hypothesis Hd : near_grid_point g pd dx dy.

Lemma near_tail (p q : tREAL) (x y : Z) :
  on_grid g p x -> on_grid g q y ->
  Z.abs x <= 2 ^ 11 -> Z.abs y <= 2 ^ 11 ->
  Dbl.eq (Two_Diff_Tail p q (Dbl.sub p q)) Dbl.zero = true.
Proof.
  intros Hp Hq Bx By.
  assert (H11 : 2 ^ 11 = 2048) by reflexivity.
  assert (H52 : 2 ^ 52 = 4503599627370496) by reflexivity.
  apply (on_grid_eq_zero g).
  apply (Two_Diff_Tail_grid g ltac:(lia) _ _ x y); try assumption; lia.
Qed.

(** [incircleadapt] returns the determinant: its first estimate is exact,
    and the tails of the differences are all zero. *)
Lemma incircleadapt_grid (permanent : tREAL) :
  on_grid (g + g + g + g) (incircleadapt P pa pb pc pd permanent)
    (((bx - dx) * (cy - dy) - (cx - dx) * (by_ - dy))
       * (ax - dx) * (ax - dx)
     + ((bx - dx) * (cy - dy) - (cx - dx) * (by_ - dy))
       * (ay - dy) * (ay - dy)
     + (((cx - dx) * (ay - dy) - (ax - dx) * (cy - dy))
        * (bx - dx) * (bx - dx)
        + ((cx - dx) * (ay - dy) - (ax - dx) * (cy - dy))
          * (by_ - dy) * (by_ - dy))
     + (((ax - dx) * (by_ - dy) - (bx - dx) * (ay - dy))
        * (cx - dx) * (cx - dx)
        + ((ax - dx) * (by_ - dy) - (bx - dx) * (ay - dy))
          * (cy - dy) * (cy - dy))).
Proof.
  destruct Ha as (Hax & Hay & Bax & Bay), Hb as (Hbx & Hby & Bbx & Bby),
    Hc as (Hcx & Hcy & Bcx & Bcy), Hd as (Hdx & Hdy & Bdx & Bdy).
  destruct (near_difference g Hg _ _ _ _ Hax Hdx Bax Bdx) as [Hadx Badx].
  destruct (near_difference g Hg _ _ _ _ Hay Hdy Bay Bdy) as [Hady Bady].
  destruct (near_difference g Hg _ _ _ _ Hbx Hdx Bbx Bdx) as [Hbdx Bbdx].
  destruct (near_difference g Hg _ _ _ _ Hby Hdy Bby Bdy) as [Hbdy Bbdy].
  destruct (near_difference g Hg _ _ _ _ Hcx Hdx Bcx Bdx) as [Hcdx Bcdx].
  destruct (near_difference g Hg _ _ _ _ Hcy Hdy Bcy Bdy) as [Hcdy Bcdy].
  pose proof (near_tail _ _ _ _ Hax Hdx Bax Bdx) as Tax.
  pose proof (near_tail _ _ _ _ Hay Hdy Bay Bdy) as Tay.
  pose proof (near_tail _ _ _ _ Hbx Hdx Bbx Bdx) as Tbx.
  pose proof (near_tail _ _ _ _ Hby Hdy Bby Bdy) as Tby.
  pose proof (near_tail _ _ _ _ Hcx Hdx Bcx Bdx) as Tcx.
  pose proof (near_tail _ _ _ _ Hcy Hdy Bcy Bdy) as Tcy.
  destruct (minor_grid _ _ _ _ _ _ _ _ Hbdx Hcdy Hcdx Hbdy
              Bbdx Bcdy Bcdx Bbdy) as [Hbc Bbc].
  destruct (minor_grid _ _ _ _ _ _ _ _ Hcdx Hady Hadx Hcdy
              Bcdx Bady Badx Bcdy) as [Hca Bca].
  destruct (minor_grid _ _ _ _ _ _ _ _ Hadx Hbdy Hbdx Hady
              Badx Bbdy Bbdx Bady) as [Hab Bab].
  destruct (lifted_minor_grid _ _ _ _ _ _ Hbc Bbc Hadx Hady Badx Bady)
    as (a1 & a2 & a3 & a4 & adet & Ea1 & Ea2 & Ea3 & Ea4 & Ea & Ga & Ba).
  destruct (lifted_minor_grid _ _ _ _ _ _ Hca Bca Hbdx Hbdy Bbdx Bbdy)
    as (b1 & b2 & b3 & b4 & bdet & Eb1 & Eb2 & Eb3 & Eb4 & Eb & Gb & Bb).
  destruct (lifted_minor_grid _ _ _ _ _ _ Hab Bab Hcdx Hcdy Bcdx Bcdy)
    as (c1 & c2 & c3 & c4 & cdet & Ec1 & Ec2 & Ec3 & Ec4 & Ec & Gc & Bc).
  assert (H50 : 2 ^ 50 = 1125899906842624) by reflexivity.
  assert (H52 : 2 ^ 52 = 4503599627370496) by reflexivity.
  assert (Hg4 : -1074 <= g + g + g + g <= 970) by (clear - Hg; lia).
  pose proof (fast_expansion_sum_zeroelim_grid (g + g + g + g) adet bdet local
                _ _ Hg4 Ga Gb) as Sab.
  specialize (Sab ltac:(clear - Ba H50 H52; lia) ltac:(clear - Bb H50 H52; lia)).
  destruct Sab as (abdet & Eab & Gab).
  pose proof (fast_expansion_sum_zeroelim_grid (g + g + g + g) abdet cdet local
                _ _ Hg4 Gab Gc) as Sfin.
  specialize (Sfin ltac:(clear - Ba Bb H50 H52; lia)
                ltac:(clear - Bc H50 H52; lia)).
  destruct Sfin as (fin1 & Efin & Gfin).
  clear - Tax Tay Tbx Tby Tcx Tcy Ea1 Ea2 Ea3 Ea4 Ea Eb1 Eb2 Eb3 Eb4 Eb
            Ec1 Ec2 Ec3 Ec4 Ec Eab Efin Gfin.
  unfold incircleadapt. cbv zeta.
  rewrite (surjective_pairing (Two_Product P (Dbl.sub (pb 0) (pd 0))
                                 (Dbl.sub (pc 1) (pd 1)))).
  rewrite (surjective_pairing (Two_Product P (Dbl.sub (pc 0) (pd 0))
                                 (Dbl.sub (pb 1) (pd 1)))).
  rewrite Ea1, Ea2, Ea3, Ea4, Ea.
  rewrite (surjective_pairing (Two_Product P (Dbl.sub (pc 0) (pd 0))
                                 (Dbl.sub (pa 1) (pd 1)))).
  rewrite (surjective_pairing (Two_Product P (Dbl.sub (pa 0) (pd 0))
                                 (Dbl.sub (pc 1) (pd 1)))).
  rewrite Eb1, Eb2, Eb3, Eb4, Eb.
  rewrite (surjective_pairing (Two_Product P (Dbl.sub (pa 0) (pd 0))
                                 (Dbl.sub (pb 1) (pd 1)))).
  rewrite (surjective_pairing (Two_Product P (Dbl.sub (pb 0) (pd 0))
                                 (Dbl.sub (pa 1) (pd 1)))).
  rewrite Ec1, Ec2, Ec3, Ec4, Ec, Eab, Efin.
  rewrite estimate_1.
  destruct (beyond (fin1 0) _); [exact Gfin |].
  rewrite Tax, Tay, Tbx, Tby, Tcx, Tcy. cbn [andb]. exact Gfin.
Qed.

End InCircleAdapt.
(** [incircle] returns the determinant, whichever [return] it takes. *)
Lemma incircle_grid (P : Predicates) (g : Z) (pa pb pc pd : buf)
  (ax ay bx by_ cx cy dx dy : Z) :
  splitter P = Dbl.of_Z splitter_value ->
  -268 <= g <= 242 ->
  near_grid_point g pa ax ay -> near_grid_point g pb bx by_ ->
  near_grid_point g pc cx cy -> near_grid_point g pd dx dy ->
  on_grid (g + g + (g + g)) (incircle P pa pb pc pd)
    (((ax - dx) * (ax - dx) + (ay - dy) * (ay - dy))
     * ((bx - dx) * (cy - dy) - (cx - dx) * (by_ - dy))
     + ((bx - dx) * (bx - dx) + (by_ - dy) * (by_ - dy))
       * ((cx - dx) * (ay - dy) - (ax - dx) * (cy - dy))
     + ((cx - dx) * (cx - dx) + (cy - dy) * (cy - dy))
       * ((ax - dx) * (by_ - dy) - (bx - dx) * (ay - dy))).
Proof.
  intros HP Hg Ha Hb Hc Hd.
  pose proof (incirclefast_grid g Hg pa pb pc pd ax ay bx by_ cx cy dx dy
                Ha Hb Hc Hd) as Hfast.
  unfold incircle. cbv zeta.
  destruct (_ || _); [exact Hfast |].
  replace (g + g + (g + g)) with (g + g + g + g) by ring.
  eapply on_grid_ext;
    [apply (incircleadapt_grid P HP g Hg pa pb pc pd ax ay bx by_ cx cy dx dy
              Ha Hb Hc Hd) | ring].
Qed.

(** X21. After initialization, on four points whose coordinates are
    integers of at most [2^11] in magnitude times one power of two [2^g],
    [-268 <= g <= 242], [incircle] returns the exact determinant, whichever
    [return] it takes: from its first stage, or from [incircleadapt], whose
    scalings and sums then return one component each.  The result is
    finite and has the sign of the determinant. *)
Theorem incircle_exact_on_grid (P : Predicates) (g : Z) (pa pb pc pd : buf)
  (ax ay bx by_ cx cy dx dy : Z) :
  splitter P = splitter exactinit ->
  -268 <= g <= 242 ->
  near_grid_point g pa ax ay -> near_grid_point g pb bx by_ ->
  near_grid_point g pc cx cy -> near_grid_point g pd dx dy ->
  Dbl.is_finite (incircle P pa pb pc pd) = true /\
  (Dbl.value (incircle P pa pb pc pd) == incircle_exact pa pb pc pd)%Q /\
  sign_agrees (incircle P pa pb pc pd) (incircle_exact pa pb pc pd).
Proof.
  intros HP Hg Ha Hb Hc Hd.
  assert (HP' : splitter P = Dbl.of_Z splitter_value)
    by (rewrite HP; apply exactinit_splitter).
  pose proof (incircle_grid P g pa pb pc pd ax ay bx by_ cx cy dx dy
                HP' Hg Ha Hb Hc Hd) as Hr.
  assert (Hv : (Dbl.value (incircle P pa pb pc pd)
                == incircle_exact pa pb pc pd)%Q).
  { apply on_grid_pow2 in Hr; [| lia]. rewrite Hr. clear Hr.
    destruct Ha as (Hax & Hay & _), Hb as (Hbx & Hby & _),
      Hc as (Hcx & Hcy & _), Hd as (Hdx & Hdy & _).
    apply on_grid_pow2 in Hax, Hay, Hbx, Hby, Hcx, Hcy, Hdx, Hdy; try lia.
    unfold incircle_exact. cbv zeta.
    rewrite Hax, Hay, Hbx, Hby, Hcx, Hcy, Hdx, Hdy.
    rewrite (pow2_add (g + g) (g + g)) by lia.
    rewrite (pow2_add g g) by lia.
    rewrite !inject_Z_plus, !inject_Z_mult, !inject_Z_sub, !inject_Z_plus,
      !inject_Z_mult, !inject_Z_sub.
    ring. }
  split; [apply Hr | split; [exact Hv |]].
  apply (sign_agrees_eq _ _ _ Hv). apply sign_agrees_value. apply Hr.
Qed.

Lemma incircle_exact_on_grid_witness :
  let a := point (Dbl.of_Z 0) (Dbl.of_Z 0) in
  let b := point (Dbl.of_Z 4) (Dbl.of_Z 0) in
  let c := point (Dbl.of_Z 4) (Dbl.of_Z 4) in
  let d := point (Dbl.of_Z 0) (Dbl.of_Z 4) in
  Dbl.is_finite (incircle exactinit a b c d) = true /\
  (Dbl.value (incircle exactinit a b c d) == incircle_exact a b c d)%Q /\
  sign_agrees (incircle exactinit a b c d) (incircle_exact a b c d).
Proof.
  intros a b c d.
  apply (incircle_exact_on_grid exactinit 0 a b c d 0 0 4 0 4 4 0 4).
  - reflexivity.
  - lia.
  - unfold near_grid_point, on_grid. repeat split; vm_compute; congruence.
  - unfold near_grid_point, on_grid. repeat split; vm_compute; congruence.
  - unfold near_grid_point, on_grid. repeat split; vm_compute; congruence.
  - unfold near_grid_point, on_grid. repeat split; vm_compute; congruence.
Defined.
(** ** Zero elimination keeps exactness *)

Lemma expansion_finite_pushed (k : Z) (h : buf) (v : tREAL) :
  0 <= k -> expansion_finite (k + 1) (upd h k v) = true ->
  expansion_finite k h = true /\ Dbl.is_finite v = true.
Proof.
  intros Hk H. rewrite expansion_finite_next in H by exact Hk.
  apply andb_true_iff in H. destruct H as [Hf Hv]. rewrite upd_same in Hv.
  split; [| exact Hv]. unfold expansion_finite in *.
  rewrite finite_cells_upd_above in Hf by lia. exact Hf.
Qed.

Lemma put_nonzero_finite (hh : tREAL) (hindex : Z) (h : buf) :
  0 <= hindex -> expansion_finite hindex h = true ->
  Dbl.is_finite hh = true ->
  expansion_finite (fst (put_nonzero hh hindex h))
    (snd (put_nonzero hh hindex h)) = true.
Proof.
  intros H0 Hf Hh. unfold put_nonzero. destruct (Dbl.ne hh Dbl.zero); simpl.
  - apply expansion_finite_push; assumption.
  - exact Hf.
Qed.

Lemma put_last_finite (Q : tREAL) (hindex : Z) (h : buf) :
  0 <= hindex -> expansion_finite hindex h = true ->
  Dbl.is_finite Q = true ->
  expansion_finite (fst (put_last Q hindex h)) (snd (put_last Q hindex h))
  = true.
Proof.
  intros H0 Hf Hq. unfold put_last.
  destruct (Dbl.ne Q Dbl.zero || (hindex =? 0))%bool; simpl.
  - apply expansion_finite_push; assumption.
  - exact Hf.
Qed.

(** The components that [grow_expansion_zeroelim] keeps are components of
    the output of [grow_expansion]. *)
Lemma grow_expansion_zeroelim_finite (elen : Z) (e : buf) (b : tREAL)
  (h h' : buf) :
  0 <= elen ->
  expansion_finite (fst (grow_expansion elen e b h'))
    (snd (grow_expansion elen e b h')) = true ->
  expansion_finite (fst (grow_expansion_zeroelim elen e b h))
    (snd (grow_expansion_zeroelim elen e b h)) = true.
Proof.
  intros He. unfold grow_expansion_zeroelim, grow_expansion.
  loops_with (fun (k : Z) (t : tREAL * (Z * buf)) (t' : tREAL * buf) =>
                fst t = fst t' /\ 0 <= k /\ 0 <= fst (snd t) /\
                (expansion_finite k (snd t') = true ->
                 expansion_finite (fst (snd t)) (snd (snd t)) = true)).
  { simpl. split; [reflexivity | split; [lia | split; [lia |]]].
    intros _. reflexivity. }
  { intros k [Q [hi g]] [Q' g'] Hk (HQ & H0 & Hi & Hf). simpl in HQ, Hi, Hf.
    subst Q'. destruct (Two_Sum Q (e k)) as [Qnew hh]. cbn [fst snd].
    split; [reflexivity | split; [lia |]].
    split; [unfold put_nonzero; destruct (Dbl.ne hh Dbl.zero); simpl; lia |].
    intros Hp. apply expansion_finite_pushed in Hp; [| lia].
    destruct Hp as [Hp Hh]. apply put_nonzero_finite; auto. }
  destruct t as [Q [hi g]], t' as [Q' g']. simpl in HR.
  destruct HR as (HQ & _ & Hi & Hf). subst Q'.
  replace (Z.max 0 elen) with elen in * by lia. cbn [fst snd].
  intros Hp. apply expansion_finite_pushed in Hp; [| lia].
  destruct Hp as [Hp Hq]. apply put_last_finite; auto.
Qed.

(** Those that [expansion_sum_zeroelim1] keeps are components of the output
    of [expansion_sum]. *)
Lemma expansion_sum_zeroelim1_finite (elen : Z) (e : buf) (flen : Z)
  (f : buf) (h : buf) :
  0 <= elen -> 1 <= flen ->
  expansion_finite (fst (expansion_sum elen e flen f h))
    (snd (expansion_sum elen e flen f h)) = true ->
  expansion_finite (fst (expansion_sum_zeroelim1 elen e flen f h))
    (snd (expansion_sum_zeroelim1 elen e flen f h)) = true.
Proof.
  intros He Hf. unfold expansion_sum_zeroelim1, expansion_sum.
  destruct (expansion_sum_phases_spec elen e flen f h He Hf) as (Hl & _).
  destruct (expansion_sum_phases elen e flen f h) as [hlast h1].
  simpl in Hl. cbn [fst snd]. intros Hfin.
  assert (Hcell : forall j, 0 <= j <= hlast -> Dbl.is_finite (h1 j) = true).
  { intros j Hj. apply (finite_cells_get _ _ _ Hfin). lia. }
  loop_with (fun (k : Z) (t : Z * buf) =>
               (-1 <= fst t <= k - 1 /\
                (forall j, k <= j -> snd t j = h1 j)) /\
               expansion_finite (fst t + 1) (snd t) = true /\
               (fst t = -1 -> snd t 0 = h1 0)).
  { simpl. split; [split; [lia | reflexivity] |].
    split; reflexivity. }
  { intros k [hi g] Hk ((Hi & Hg) & Hv & Hz). simpl in Hi, Hg, Hv, Hz.
    rewrite (Hg k) by lia.
    destruct (Dbl.ne (h1 k) Dbl.zero) eqn:Hn; cbn [fst snd].
    - split; [split; [lia |] |].
      + intros j Hj. rewrite upd_other by lia. apply Hg. lia.
      + split; [| intros Hc; lia].
        apply expansion_finite_push; [lia | exact Hv | apply Hcell; lia].
    - split; [split; [lia |] |].
      + intros j Hj. apply Hg. lia.
      + split; [exact Hv | exact Hz]. }
  destruct t as [hi g]. simpl in Hinv.
  destruct Hinv as ((Hi & Hg) & Hv & Hz).
  destruct (Z.eqb_spec hi (-1)) as [Hc | Hc]; cbn [fst snd].
  - change 1 with (0 + 1). rewrite expansion_finite_next by lia.
    rewrite (Hz Hc), Hcell by lia. reflexivity.
  - exact Hv.
Qed.

(** X22. Zero elimination keeps exactness: when [b] and the components of
    [e] and [f] are finite and of magnitude at most [2^k], with
    [-1074 <= k] and [k + elen * flen <= 1016], the components that
    [grow_expansion_zeroelim] returns are finite and add up to the sum of
    [e] plus [b], and those that [expansion_sum_zeroelim1] returns are
    finite and add up to the sum of [e] plus the sum of [f]. *)
Theorem zeroelim_exact_in_range (k elen : Z) (e : buf) (flen : Z) (f : buf)
  (b : tREAL) (h : buf) :
  1 <= elen -> 1 <= flen -> -1074 <= k -> k + elen * flen <= 1016 ->
  magnitude_le k b ->
  (forall i, 0 <= i < elen -> magnitude_le k (e i)) ->
  (forall i, 0 <= i < flen -> magnitude_le k (f i)) ->
  (let r := grow_expansion_zeroelim elen e b h in
   expansion_finite (fst r) (snd r) = true /\
   (expansion_value (fst r) (snd r)
    == expansion_value elen e + Dbl.value b)%Q) /\
  (let r := expansion_sum_zeroelim1 elen e flen f h in
   expansion_finite (fst r) (snd r) = true /\
   (expansion_value (fst r) (snd r)
    == expansion_value elen e + expansion_value flen f)%Q).
Proof.
  intros He Hf Hk Hr Hb Hce Hcf.
  assert (Hr1 : k + elen <= 1016) by nia.
  destruct (grow_expansion_exact elen e b h He) as [G1 G2].
  { apply (grow_expansion_in_range k); try assumption. lia. }
  destruct (expansion_sum_exact elen e flen f h He Hf) as [S1 S2].
  { apply (expansion_sum_in_range k); assumption. }
  cbv zeta in G1, G2, S1, S2. cbv zeta.
  split; split.
  - apply (grow_expansion_zeroelim_finite elen e b h h); [lia | exact G1].
  - rewrite <- G2. apply grow_expansion_zeroelim_value. lia.
  - apply expansion_sum_zeroelim1_finite; [lia | exact Hf | exact S1].
  - rewrite <- S2. apply expansion_sum_zeroelim1_value; lia.
Qed.

Lemma zeroelim_exact_in_range_witness :
  (let r := grow_expansion_zeroelim 2 e_demo tenth local in
   expansion_finite (fst r) (snd r) = true /\
   (expansion_value (fst r) (snd r)
    == expansion_value 2 e_demo + Dbl.value tenth)%Q) /\
  (let r := expansion_sum_zeroelim1 2 e_demo 2 f_demo local in
   expansion_finite (fst r) (snd r) = true /\
   (expansion_value (fst r) (snd r)
    == expansion_value 2 e_demo + expansion_value 2 f_demo)%Q).
Proof.
  apply (zeroelim_exact_in_range 3 2 e_demo 2 f_demo tenth local).
  - lia.
  - lia.
  - lia.
  - lia.
  - unfold magnitude_le. repeat split; vm_compute; congruence.
  - intros i Hi. assert (Hc : i = 0 \/ i = 1) by lia.
    destruct Hc as [-> | ->]; unfold magnitude_le;
      repeat split; vm_compute; congruence.
  - intros i Hi. assert (Hc : i = 0 \/ i = 1) by lia.
    destruct Hc as [-> | ->]; unfold magnitude_le;
      repeat split; vm_compute; congruence.
Defined.
